(** * Verification of the crawl / extract / index / rank pipeline

    A shallow embedding of the Go sources of the search engine
    (packages [project02] and [project03]) together with the properties
    of its specification.

    Conventions of the embedding.
    - Go [string] is [string] (a sequence of bytes); [<], [>] on strings
      is the bytewise lexicographic order [String.ltb].
    - Go [int] is [Z].  Every counter of the program ([kept], [N], the
      entries of [tf], [df] and [docLen]) is bounded by the length of a
      slice or by the number of entries of a map held in memory, so no
      counter reaches [2^63] and the wrap-around of [int] is never
      exercised.
    - Go [float64] is IEEE 754 binary64, embedded by [spec_float] with
      precision 53 and maximal exponent 1024; conversion, division,
      product and comparison are the correctly rounded operations of the
      standard library's [SpecFloat].
    - Go maps are [gmap]s, sets of keys are [gset]s.  The iteration order
      of a Go map is unspecified; where the source ranges over a map the
      embedding ranges over [map_to_list] / [elements], and the theorems
      that depend on it are stated up to permutation.
    - A Go slice that may be [nil] is an [option (list A)]: [None] is the
      nil slice, [Some l] a non-nil slice with elements [l].
    - Go [error] results are [option string]: [None] is [nil].
    - Functions of imported packages ([strings], [math], [net/url],
      [net/http], [golang.org/x/net/html], [regexp], the Snowball stemmer)
      are not part of the repository: they are fields of the classes
      below, and every theorem holds for all their implementations. *)

From Stdlib Require Import ZArith List String Ascii Bool Lia.
From Stdlib Require Import Floats.SpecFloat.
From Stdlib Require Import Sorting.Permutation Sorting.Sorted.
From stdpp Require Import gmap strings list fin_maps fin_sets.

Set Warnings "-register-all".

Local Open Scope string_scope.
Local Open Scope list_scope.
Local Open Scope Z_scope.

(* ===================================================================== *)
(** * Imported packages *)
(* ===================================================================== *)

(** Package [strings]: the Unicode-aware functions are parameters. *)
Class Strings := {
  ToLower : string -> string;
  TrimSpace : string -> string;
  EqualFold : string -> string -> bool
}.

(** [english.Stem(w, true)] of the Snowball stemmer. *)
Class Snowball := { english_Stem : string -> string }.

(** [strings.HasPrefix] and [strings.HasSuffix] compare bytes. *)
Fixpoint HasPrefix (s p : string) : bool :=
  match p, s with
  | EmptyString, _ => true
  | String c p', String d s' => Ascii.eqb c d && HasPrefix s' p'
  | String _ _, EmptyString => false
  end.

Definition str_rev (s : string) : string :=
  string_of_list_ascii (rev (list_ascii_of_string s)).

Definition HasSuffix (s p : string) : bool :=
  HasPrefix (str_rev s) (str_rev p).

(** ** [float64] *)

Module F64.
Definition prec : Z := 53.
Definition emax : Z := 1024.

Definition float64 := spec_float.

(** [float64(n)] for an [int] [n]: rounding to nearest, ties to even. *)
Definition of_int (n : Z) : float64 := binary_normalize prec emax n 0 false.

Definition div (x y : float64) : float64 := SFdiv prec emax x y.
Definition mul (x y : float64) : float64 := SFmul prec emax x y.

(** The Go comparisons [x == y], [x != y], [x < y], [x > y], [x >= y]. *)
Definition eq (x y : float64) : bool := SFeqb x y.
Definition ne (x y : float64) : bool := negb (SFeqb x y).
Definition lt (x y : float64) : bool := SFltb x y.
Definition gt (x y : float64) : bool := SFltb y x.
Definition ge (x y : float64) : bool := SFleb y x.

Definition zero : float64 := S754_zero false.
Definition one : float64 := of_int 1.

Definition is_nan (x : float64) : bool :=
  match x with S754_nan => true | _ => false end.

(** Strictly positive and finite. *)
Definition pos_finite (x : float64) : bool :=
  match x with S754_finite false _ _ => true | _ => false end.

(** Finite (a zero or a finite number of either sign). *)
Definition finite (x : float64) : bool :=
  match x with S754_zero _ | S754_finite _ _ _ => true | _ => false end.
End F64.
Export F64.

(** Package [math]. *)
Class Math := { Log : float64 -> float64 }.

(* ===================================================================== *)
(** * stopwords.go *)
(* ===================================================================== *)

Definition DefaultStopwords_ws : list string :=
  [ "a"; "an"; "the"; "and"; "or"; "but";
    "to"; "in"; "of"; "on"; "for"; "with"; "as"; "at"; "by"; "from";
    "is"; "are"; "was"; "were"; "be"; "been"; "being";
    "this"; "that"; "these"; "those"; "it"; "its"; "itself";
    "i"; "me"; "my"; "myself"; "we"; "our"; "ours"; "ourselves";
    "you"; "your"; "yours"; "yourself"; "yourselves";
    "he"; "him"; "his"; "himself"; "she"; "her"; "hers"; "herself";
    "they"; "them"; "their"; "theirs"; "themselves";
    "do"; "does"; "did"; "doing";
    "have"; "has"; "had"; "having";
    "not"; "no"; "nor"; "only"; "very"; "too";
    "can"; "could"; "should"; "would"; "may"; "might"; "must"; "will";
    "if"; "then"; "else"; "than"; "so"; "because"; "while"; "when"; "where";
    "about"; "above"; "below"; "under"; "over"; "into"; "out"; "up"; "down";
    "again"; "further"; "once"; "here"; "there" ].

Definition DefaultStopwords : gset string := list_to_set DefaultStopwords_ws.

(* ===================================================================== *)
(** * The index: hits and the comparator *)
(* ===================================================================== *)

Record Hit := mkHit { URL : string; Score : float64 }.

Definition error := option string.
Definition slice (A : Type) := option (list A).

(** [len(s)] of a slice and its elements. *)
Definition elems {A} (s : slice A) : list A := default [] s.

(** [lessHit]: higher score first; equal scores, URL ascending. *)
Definition lessHit (a b : Hit) : bool :=
  if F64.ne (Score a) (Score b) then F64.gt (Score a) (Score b)
  else String.ltb (URL a) (URL b).

(** [sort.Slice(hits, less)].  The library sorts in place with an
    unstable algorithm of its own choice; the embedding is an insertion
    sort.  The ranking theorems show that, on the hits of a search, the
    sorted arrangement is unique, so the choice of algorithm does not
    show in the result. *)
Section Sort.
Context {A : Type} (less : A -> A -> bool).

Fixpoint insert_sorted (x : A) (l : list A) : list A :=
  match l with
  | [] => [x]
  | y :: l' => if less y x then y :: insert_sorted x l' else x :: l
  end.

Fixpoint sort_Slice (l : list A) : list A :=
  match l with
  | [] => []
  | x :: l' => insert_sorted x (sort_Slice l')
  end.
End Sort.

(** The pipeline of section 4.4 on one raw word: [None] when the word is
    dropped, [Some s] when it survives as the stem [s]. *)
Section Normalize.
Context `{Strings} `{Snowball}.

Definition stem (w : string) : string := english_Stem w.

Definition normalize (stop : gset string) (w : string) : option string :=
  if decide (w = "") then None else
  let lw := ToLower w in
  if decide (lw ∈ stop) then None else
  let s := stem lw in
  if decide (s = "") then None else Some s.
End Normalize.

(** Reading a Go [map[string]int]: a missing key reads as [0]. *)
Definition get (m : gmap string Z) (k : string) : Z := default 0 (m !! k).

(* ===================================================================== *)
(** * indexer.go (package project03): the in-memory backend *)
(* ===================================================================== *)

Module InMemIndexer.
Section InMemIndexer.
Context `{Strings} `{Snowball} `{Math}.

Record t := mk {
  tf : gmap string (gmap string Z);   (* stem -> doc -> term freq *)
  df : gmap string Z;                 (* stem -> doc freq *)
  docLen : gmap string Z;             (* doc -> token count *)
  N : Z;                              (* total documents *)
  stop : gset string                  (* stopword set *)
}.

(** [NewInMemIndexer(stop)]; [None] is the nil map. *)
Definition New (stop : option (gset string)) : t :=
  {| tf := ∅; df := ∅; docLen := ∅; N := 0;
     stop := default DefaultStopwords stop |}.

(** One iteration of [for _, w := range words], on the loop state
    [(idx.tf, seen, kept)]. *)
Definition add_word (stop : gset string) (doc : string)
    (acc : gmap string (gmap string Z) * gset string * Z) (w : string)
    : gmap string (gmap string Z) * gset string * Z :=
  let '(tf, seen, kept) := acc in
  match normalize stop w with
  | None => acc
  | Some s =>
      let tf1 := match tf !! s with Some _ => tf | None => <[s := ∅]> tf end in
      let row := default ∅ (tf1 !! s) in
      (<[s := <[doc := get row doc + 1]> row]> tf1, {[s]} ∪ seen, kept + 1)
  end.

(** [for s := range seen { idx.df[s]++ }] *)
Definition bump_df (seen : gset string) (df : gmap string Z) : gmap string Z :=
  set_fold (fun s df => <[s := get df s + 1]> df) df seen.

Definition AddDocument (idx : t) (doc : string) (words : list string)
    : t * error :=
  match docLen idx !! doc with
  | Some _ => (idx, None)
  | None =>
      let '(tf', seen, kept) :=
        foldl (add_word (stop idx) doc) (tf idx, ∅, 0) words in
      ({| tf := tf'; df := bump_df seen (df idx);
          docLen := <[doc := kept]> (docLen idx);
          N := N idx + 1; stop := stop idx |}, None)
  end.

(** The body of [for doc, tfreq := range idx.tf[s]]. *)
Definition score_row (idx : t) (idf : float64) (e : string * Z) : list Hit :=
  let '(doc, tfreq) := e in
  let den := get (docLen idx) doc in
  if decide (den = 0) then []
  else [mkHit doc (F64.mul (F64.div (of_int tfreq) (of_int den)) idf)].

(** The unsorted hits, for the postings taken in the order [row]. *)
Definition collect (idx : t) (idf : float64) (row : list (string * Z)) : list Hit :=
  flat_map (score_row idx idf) row.

Definition Search (idx : t) (term : string) : slice Hit * error :=
  if decide (term = "" \/ N idx = 0) then (None, None) else
  let q := ToLower term in
  if decide (q ∈ stop idx) then (None, None) else
  let s := stem q in
  let df := get (df idx) s in
  if decide (df = 0) then (None, None) else
  let idf := Log (F64.div (of_int (N idx)) (of_int df)) in
  let hits := collect idx idf (map_to_list (default ∅ (tf idx !! s))) in
  (Some (sort_Slice lessHit hits), None).

Definition Close (idx : t) : error := None.

(** A sequence of [AddDocument] calls. *)
Definition run (idx : t) (calls : list (string * list string)) : t :=
  foldl (fun i c => fst (AddDocument i (fst c) (snd c))) idx calls.
End InMemIndexer.
End InMemIndexer.

(* ===================================================================== *)
(** * indexer.go (package project03): the SQLite backend *)
(* ===================================================================== *)

(** The relational store.  A table is the list of its rows in insertion
    order; [id INTEGER PRIMARY KEY] is assigned as the largest id in use
    plus one.  Statements are assumed to execute without a driver error:
    the error results of the embedding are the ones the program itself
    produces. *)
Module Sql.
Definition next_id {A} (rows : list (Z * A)) : Z :=
  1 + foldr Z.max 0 (map fst rows).

(** [SELECT id FROM tbl WHERE name = ?] on a table [(id, name)]. *)
Definition select_id (tbl : list (Z * string)) (name : string) : option Z :=
  fst <$> List.find (fun r => String.eqb (snd r) name) tbl.

(** [INSERT OR IGNORE INTO tbl (name) VALUES (?)], [name] being UNIQUE. *)
Definition insert_or_ignore (tbl : list (Z * string)) (name : string)
    : list (Z * string) :=
  match select_id tbl name with
  | Some _ => tbl
  | None => tbl ++ [(next_id tbl, name)]
  end.
End Sql.

Module SQLiteIndexer.
Section SQLiteIndexer.
Context `{Strings} `{Snowball} `{Math}.

Record database := mkdb {
  urls : list (Z * string);        (* urls(id, name) *)
  words : list (Z * string);       (* words(id, word) *)
  hits : list (Z * Z * Z)          (* hits(url_id, word_id, count) *)
}.

Record t := mk { db : database; stop : gset string }.

(** [NewSQLiteIndexer] on a fresh database file. *)
Definition New (stop : option (gset string)) : t :=
  {| db := mkdb [] [] []; stop := default DefaultStopwords stop |}.

(** The loop over [words] that fills [wordCount]. *)
Definition count_word (stop : gset string) (wordCount : gmap string Z)
    (w : string) : gmap string Z :=
  match normalize stop w with
  | None => wordCount
  | Some s => <[s := get wordCount s + 1]> wordCount
  end.

(** [INSERT OR REPLACE INTO hits (url_id, word_id, count)
     VALUES (?, (SELECT id FROM words WHERE word = ?), ?)];
    the primary key is [(url_id, word_id)]. *)
Definition same_key (urlID wordID : Z) (h : Z * Z * Z) : bool :=
  let '(u, w, _) := h in (u =? urlID) && (w =? wordID).

Definition insert_or_replace_hit (hs : list (Z * Z * Z))
    (urlID : Z) (words : list (Z * string)) (word : string) (count : Z)
    : list (Z * Z * Z) :=
  match Sql.select_id words word with
  | Some wordID =>
      List.filter (fun h => negb (same_key urlID wordID h)) hs
        ++ [(urlID, wordID, count)]
  | None => hs
  end.

(** The body of [for word, count := range wordCount]. *)
Definition post_word (urlID : Z)
    (acc : list (Z * string) * list (Z * Z * Z)) (e : string * Z)
    : list (Z * string) * list (Z * Z * Z) :=
  let '(ws, hs) := acc in
  let '(word, count) := e in
  let ws' := Sql.insert_or_ignore ws word in
  (ws', insert_or_replace_hit hs urlID ws' word count).

Definition AddDocument (idx : t) (url : string) (words : list string)
    : t * error :=
  let urls' := Sql.insert_or_ignore (urls (db idx)) url in
  match Sql.select_id urls' url with
  | None => (idx, Some "sql: no rows in result set")
  | Some urlID =>
      let wordCount := foldl (count_word (stop idx)) ∅ words in
      let '(words', hits') :=
        foldl (post_word urlID) (SQLiteIndexer.words (db idx), hits (db idx))
              (map_to_list wordCount) in
      ({| db := mkdb urls' words' hits'; stop := stop idx |}, None)
  end.

(** [SELECT COUNT( * ) FROM hits h JOIN words w ON h.word_id = w.id
     WHERE w.word = ?] *)
Definition count_hits (d : database) (s : string) : Z :=
  Z.of_nat (length
    (flat_map (fun h : Z * Z * Z =>
       List.filter (fun w : Z * string =>
                      (snd (fst h) =? fst w) && String.eqb (snd w) s)
                   (words d))
     (hits d))).

(** [SELECT SUM(h2.count) FROM hits h2 WHERE h2.url_id = ?] *)
Definition total_words (d : database) (urlID : Z) : Z :=
  foldr Z.add 0
    (map snd (List.filter (fun h : Z * Z * Z => fst (fst h) =? urlID) (hits d))).

(** The rows [(u.name, h.count, total_words)] of the three-way join. *)
Definition join_rows (d : database) (s : string) : list (string * Z * Z) :=
  flat_map (fun u : Z * string =>
    flat_map (fun h : Z * Z * Z =>
      if fst u =? fst (fst h) then
        flat_map (fun w : Z * string =>
          if (fst w =? snd (fst h)) && String.eqb (snd w) s
          then [(snd u, snd h, total_words d (fst u))] else [])
        (words d)
      else [])
    (hits d))
  (urls d).

(** The body of [for rows.Next()]. *)
Definition score_row (idf : float64) (r : string * Z * Z) : list Hit :=
  let '(url, count, totalWords) := r in
  if 0 <? totalWords
  then [mkHit url (F64.mul (F64.div (of_int count) (of_int totalWords)) idf)]
  else [].

(** [var hits []Hit] followed by appends: nil when nothing was appended. *)
Definition appended {A} (l : list A) : slice A :=
  match l with [] => None | _ => Some l end.

Definition Search (idx : t) (term : string) : slice Hit * error :=
  if decide (term = "") then (None, None) else
  let q := ToLower term in
  if decide (q ∈ stop idx) then (None, None) else
  let s := stem q in
  let totalDocs := Z.of_nat (length (urls (db idx))) in
  if decide (totalDocs = 0) then (None, None) else
  let df := count_hits (db idx) s in
  if decide (df = 0) then (None, None) else
  let idf := Log (F64.div (of_int totalDocs) (of_int df)) in
  let hits := flat_map (score_row idf) (join_rows (db idx) s) in
  (appended (sort_Slice lessHit hits), None).

Definition run (idx : t) (calls : list (string * list string)) : t :=
  foldl (fun i c => fst (AddDocument i (fst c) (snd c))) idx calls.
End SQLiteIndexer.
End SQLiteIndexer.

(* ===================================================================== *)
(** * sqlite_index_v2.go (package project02) *)
(* ===================================================================== *)

Module SQLiteIndexV2.
Section SQLiteIndexV2.
Context `{Strings} `{Snowball} `{Math}.

Record database := mkdb {
  documents : list (Z * (string * Z));        (* id, url, word_count *)
  vocabulary : list (Z * (string * Z));       (* id, term, document_frequency *)
  term_frequencies : list (Z * (Z * Z * Z))   (* id, doc_id, term_id, frequency *)
}.

Record t := mk { db : database; stop : gset string; N : Z }.

Definition New (stop : option (gset string)) : t :=
  {| db := mkdb [] [] []; stop := default DefaultStopwords stop; N := 0 |}.

(** [SELECT id FROM tbl WHERE url = ?] (resp. [term = ?]). *)
Definition select_id (tbl : list (Z * (string * Z))) (key : string) : option Z :=
  fst <$> List.find (fun r => String.eqb (fst (snd r)) key) tbl.

(** The loop over [words]: [termFreq] and [uniqueTerms]. *)
Definition count_word (stop : gset string)
    (acc : gmap string Z * gset string) (w : string)
    : gmap string Z * gset string :=
  match normalize stop w with
  | None => acc
  | Some s => (<[s := get (fst acc) s + 1]> (fst acc), {[s]} ∪ snd acc)
  end.

(** [UPDATE documents SET word_count = ? WHERE id = ?] *)
Definition set_word_count (docs : list (Z * (string * Z))) (docID n : Z)
    : list (Z * (string * Z)) :=
  map (fun r => if fst r =? docID then (fst r, (fst (snd r), n)) else r) docs.

(** [UPDATE vocabulary SET document_frequency = document_frequency + 1
     WHERE term = ?] *)
Definition bump_df (voc : list (Z * (string * Z))) (term : string)
    : list (Z * (string * Z)) :=
  map (fun r => if String.eqb (fst (snd r)) term
                then (fst r, (fst (snd r), snd (snd r) + 1)) else r) voc.

(** [INSERT INTO term_frequencies ... ON CONFLICT(doc_id, term_id)
     DO UPDATE SET frequency = ?] *)
Definition upsert_tf (tfs : list (Z * (Z * Z * Z))) (docID termID f : Z)
    : list (Z * (Z * Z * Z)) :=
  if existsb (fun r => let '(_, (d, t, _)) := r in (d =? docID) && (t =? termID)) tfs
  then map (fun r => let '(i, (d, t, f0)) := r in
                     if (d =? docID) && (t =? termID) then (i, (d, t, f)) else r) tfs
  else tfs ++ [(Sql.next_id tfs, (docID, termID, f))].

(** The body of [for term := range uniqueTerms]. *)
Definition post_term (docID : Z) (termFreq : gmap string Z) (term : string)
    (acc : list (Z * (string * Z)) * list (Z * (Z * Z * Z)))
    : list (Z * (string * Z)) * list (Z * (Z * Z * Z)) :=
  let '(voc, tfs) := acc in
  match select_id voc term with
  | None =>
      let termID := Sql.next_id voc in
      (voc ++ [(termID, (term, 1))],
       upsert_tf tfs docID termID (get termFreq term))
  | Some termID =>
      (bump_df voc term, upsert_tf tfs docID termID (get termFreq term))
  end.

Definition Add (idx : t) (doc : string) (words : list string) : t :=
  match select_id (documents (db idx)) doc with
  | Some _ => idx
  | None =>
      let docID := Sql.next_id (documents (db idx)) in
      let docs1 := documents (db idx) ++ [(docID, (doc, 0))] in
      let '(termFreq, uniqueTerms) :=
        foldl (count_word (stop idx)) (∅, ∅) words in
      let docs2 := set_word_count docs1 docID (Z.of_nat (length words)) in
      let '(voc', tfs') :=
        set_fold (post_term docID termFreq)
                 (vocabulary (db idx), term_frequencies (db idx)) uniqueTerms in
      {| db := mkdb docs2 voc' tfs'; stop := stop idx; N := N idx + 1 |}
  end.

(** The rows [(d.url, tf.frequency, d.word_count, v.document_frequency)]. *)
Definition join_rows (d : database) (s : string) : list (string * Z * Z * Z) :=
  flat_map (fun v : Z * (string * Z) =>
    if String.eqb (fst (snd v)) s then
      flat_map (fun tf : Z * (Z * Z * Z) =>
        let '(_, (doc_id, term_id, frequency)) := tf in
        if fst v =? term_id then
          flat_map (fun dc : Z * (string * Z) =>
            if doc_id =? fst dc
            then [(fst (snd dc), frequency, snd (snd dc), snd (snd v))]
            else [])
          (documents d)
        else [])
      (term_frequencies d)
    else [])
  (vocabulary d).

Definition score_row (n : Z) (r : string * Z * Z * Z) : list Hit :=
  let '(url, frequency, wordCount, docFreq) := r in
  if (0 <? wordCount) && (0 <? docFreq) then
    let tf := F64.div (of_int frequency) (of_int wordCount) in
    let idf := Log (F64.div (of_int n) (of_int docFreq)) in
    [mkHit url (F64.mul tf idf)]
  else [].

Definition SearchTFIDF (idx : t) (term : string) : slice Hit :=
  if decide (term = "" \/ N idx = 0) then None else
  let q := ToLower term in
  if decide (q ∈ stop idx) then None else
  let s := english_Stem q in
  let hits := flat_map (score_row (N idx)) (join_rows (db idx) s) in
  SQLiteIndexer.appended (sort_Slice lessHit hits).

Definition GetN (idx : t) : Z := N idx.

Definition run (idx : t) (calls : list (string * list string)) : t :=
  foldl (fun i c => Add i (fst c) (snd c)) idx calls.
End SQLiteIndexV2.
End SQLiteIndexV2.

(* ===================================================================== *)
(** * download.go *)
(* ===================================================================== *)

Definition bytes := list Byte.byte.

(** An [*http.Response]: the status code, the status line and what
    [io.ReadAll(resp.Body)] delivers (the bytes read and the error, if
    any, that ended the read). *)
Record Response := mkResponse {
  StatusCode : Z;
  Status : string;
  Body : bytes * error
}.

(** Package [net/http]: the outcome of [http.Get(u)]. *)
Class NetHTTP := { http_Get : string -> Response + string }.

Definition http_StatusOK : Z := 200.

(** [io.ReadAll] always returns a non-nil slice. *)
Definition io_ReadAll (body : bytes * error) : slice Byte.byte * error :=
  (Some (fst body), snd body).

Section Download.
Context `{NetHTTP}.

Definition Download (u : string) : slice Byte.byte * error :=
  match http_Get u with
  | inr err => (None, Some err)
  | inl resp =>
      if decide (StatusCode resp <> http_StatusOK)
      then (None, Some (Status resp))
      else io_ReadAll (Body resp)
  end.
End Download.

(* ===================================================================== *)
(** * extract.go *)
(* ===================================================================== *)

Inductive NodeType :=
  ErrorNode | TextNode | DocumentNode | ElementNode | CommentNode | DoctypeNode.

Record Attribute := mkAttr { Key : string; Val : string }.

(** An [*html.Node] with its children in sibling order. *)
Inductive Node :=
  mkNode (Type_ : NodeType) (Data : string) (Attr : list Attribute)
         (children : list Node).

Definition Type_ (n : Node) := let 'mkNode t _ _ _ := n in t.
Definition Data (n : Node) := let 'mkNode _ d _ _ := n in d.
Definition Attr (n : Node) := let 'mkNode _ _ a _ := n in a.
Definition children (n : Node) := let 'mkNode _ _ _ c := n in c.

(** Package [golang.org/x/net/html]. *)
Class HTML := { html_Parse : bytes -> Node + string }.

(** [regexp.MustCompile(`[\p{L}\p{N}]+`).FindAllString(s, -1)] *)
Class Regexp := { wordRe_FindAllString : string -> list string }.

Definition is_TextNode (t : NodeType) : bool :=
  match t with TextNode => true | _ => false end.
Definition is_ElementNode (t : NodeType) : bool :=
  match t with ElementNode => true | _ => false end.

Section Extract.
Context `{Strings} `{HTML} `{Regexp}.

(** The variables captured by the closure [walk]. *)
Record walk_state := mkWalk {
  w_words : list string;
  w_hrefs : list string;
  skipDepth : Z
}.

(** [n.Type == html.ElementNode &&
     (strings.EqualFold(n.Data, "script") || strings.EqualFold(n.Data, "style"))] *)
Definition is_script_or_style (n : Node) : bool :=
  is_ElementNode (Type_ n) &&
  (EqualFold (Data n) "script" || EqualFold (Data n) "style").

(** [for _, tok := range wordRe.FindAllString(n.Data, -1)] *)
Definition collect_words (data : string) (ws : list string) : list string :=
  foldl (fun ws tok => if decide (tok = "") then ws else ws ++ [ToLower tok])
        ws (wordRe_FindAllString data).

(** [for _, a := range n.Attr] *)
Definition collect_hrefs (attrs : list Attribute) (hs : list string) : list string :=
  foldl (fun hs a =>
           if EqualFold (Key a) "href" then
             let val := TrimSpace (Val a) in
             if decide (val = "") then hs else hs ++ [val]
           else hs)
        hs attrs.

(** What [walk] does at a node before descending. *)
Definition visit (n : Node) (st : walk_state) : walk_state :=
  let st :=
    if is_script_or_style n
    then mkWalk (w_words st) (w_hrefs st) (skipDepth st + 1) else st in
  if decide (skipDepth st = 0) then
    let ws := if is_TextNode (Type_ n)
              then collect_words (Data n) (w_words st) else w_words st in
    let hs := if is_ElementNode (Type_ n) && EqualFold (Data n) "a"
              then collect_hrefs (Attr n) (w_hrefs st) else w_hrefs st in
    mkWalk ws hs (skipDepth st)
  else st.

(** What [walk] does at a node after its children. *)
Definition leave (n : Node) (st : walk_state) : walk_state :=
  if is_script_or_style n
  then mkWalk (w_words st) (w_hrefs st) (skipDepth st - 1) else st.

Fixpoint walk (n : Node) (st : walk_state) {struct n} : walk_state :=
  match n with
  | mkNode _ _ _ cs =>
      leave n ((fix walk_children (cs : list Node) (st : walk_state) :=
                  match cs with
                  | [] => st
                  | c :: cs' => walk_children cs' (walk c st)
                  end) cs (visit n st))
  end.

Definition Extract (body : bytes) : slice string * slice string :=
  match html_Parse body with
  | inr _ => (None, None)
  | inl root =>
      let st := walk root (mkWalk [] [] 0) in
      (SQLiteIndexer.appended (w_words st), SQLiteIndexer.appended (w_hrefs st))
  end.
End Extract.

(* ===================================================================== *)
(** * clean.go *)
(* ===================================================================== *)

(** A [url.URL]. *)
Record url_URL := mkURL {
  Scheme : string;
  Opaque : string;
  User : option string;
  Host : string;
  Path : string;
  RawQuery : string;
  Fragment : string
}.

Definition set_Fragment (u : url_URL) (f : string) : url_URL :=
  mkURL (Scheme u) (Opaque u) (User u) (Host u) (Path u) (RawQuery u) f.

(** [&url.URL{Path: p}] *)
Definition URL_of_Path (p : string) : url_URL := mkURL "" "" None "" p "" "".

(** Package [net/url]. *)
Class NetURL := {
  url_Parse : string -> url_URL + string;
  ResolveReference : url_URL -> url_URL -> url_URL;
  URL_String : url_URL -> string
}.

Section CleanHref.
Context `{Strings} `{NetURL}.

Definition CleanHref (base href : string) : string :=
  let href := TrimSpace href in
  if bool_decide (href = "") || HasPrefix href "#" then "" else
  let lower := ToLower href in
  if HasPrefix lower "javascript:" || HasPrefix lower "data:" then "" else
  let base := if HasSuffix base "/" then base else (base ++ "/")%string in
  match url_Parse base with
  | inr _ => ""
  | inl baseURL =>
      let refURL := match url_Parse href with
                    | inl u => u
                    | inr _ => URL_of_Path href
                    end in
      let u := ResolveReference baseURL refURL in
      URL_String (set_Fragment u "")
  end.
End CleanHref.

(* ===================================================================== *)
(** * crawl.go *)
(* ===================================================================== *)

Section Crawl.
Context `{Strings} `{NetURL} `{NetHTTP} `{HTML} `{Regexp}.

(** The body of [for _, h := range hrefs]. *)
Definition enqueue (cur hostBase : string) (visited : gset string)
    (queue : list string) (h : string) : list string :=
  let abs := CleanHref cur h in
  if decide (abs = "") then queue
  else if negb (HasPrefix abs hostBase) then queue
  else if decide (abs ∈ visited) then queue
  else queue ++ [abs].

(** [for len(queue) > 0 && len(order) < max].  [budget] is
    [max - len(order)]: it decreases exactly when a URL is appended to
    [order]; an iteration that pops an already visited URL leaves it
    unchanged and shortens the queue, which is the inner recursion. *)
Fixpoint crawl_loop (hostBase : string) (budget : nat) (queue : list string)
    (visited : gset string) (order : list string) {struct budget} : list string :=
  match budget with
  | O => order
  | S budget' =>
      (fix pop (queue : list string) : list string :=
         match queue with
         | [] => order
         | cur :: queue =>
             if decide (cur ∈ visited) then pop queue
             else
               let visited := {[cur]} ∪ visited in
               let order := order ++ [cur] in
               match Download cur with
               | (_, Some _) => crawl_loop hostBase budget' queue visited order
               | (body, None) =>
                   let hrefs := elems (snd (Extract (elems body))) in
                   crawl_loop hostBase budget'
                     (foldl (enqueue cur hostBase visited) queue hrefs)
                     visited order
               end
         end) queue
  end.

Definition hostBase_of (startURL : url_URL) : string :=
  (Scheme startURL ++ "://" ++ Host startURL ++ "/")%string.

(** What a call of [Crawl] returns.  The allocation
    [order := make([]string, 0, max)] is taken to be granted: for a
    [max] beyond what the runtime can allocate the call stops there
    without returning, and what the embedding gives for it is not a
    result of the program. *)
Definition Crawl (start : string) (max : Z) : slice string * error :=
  if max <=? 0 then (Some [], None) else
  match url_Parse start with
  | inr err => (None, Some err)
  | inl startURL =>
      (Some (crawl_loop (hostBase_of startURL) (Z.to_nat max) [start] ∅ []),
       None)
  end.
End Crawl.
(* ===================================================================== *)
(** * The corpus denoted by a sequence of [AddDocument] calls *)
(* ===================================================================== *)

(** The words of the specification: a document is created once per URL,
    on its first add; its tokens are the raw words that survive the
    normalizer; [N] is the number of documents, the document frequency of
    a stem the number of documents that contain it. *)
Section Corpus.
Context `{Strings} `{Snowball}.

Definition surviving (stop : gset string) (words : list string) : list string :=
  omap (normalize stop) words.

Definition record_doc (stop : gset string) (docs : gmap string (list string))
    (c : string * list string) : gmap string (list string) :=
  match docs !! fst c with
  | Some _ => docs
  | None => <[fst c := surviving stop (snd c)]> docs
  end.

Definition corpus (stop : gset string) (calls : list (string * list string))
    : gmap string (list string) :=
  foldl (record_doc stop) ∅ calls.
End Corpus.

Definition occurrences (s : string) (tokens : list string) : Z :=
  Z.of_nat (length (List.filter (String.eqb s) tokens)).

Definition doc_count (docs : gmap string (list string)) : Z :=
  Z.of_nat (size docs).

Definition doc_freq (s : string) (docs : gmap string (list string)) : Z :=
  Z.of_nat (size (filter (fun kv : string * list string => s ∈ snd kv) docs)).

Definition doc_len (tokens : list string) : Z := Z.of_nat (length tokens).

(** Reading [idx.tf[s][doc]]. *)
Definition get_tf (tf : gmap string (gmap string Z)) (s doc : string) : Z :=
  get (default ∅ (tf !! s)) doc.

(** The in-memory index [idx] represents the corpus [docs]. *)
Record represents (idx : InMemIndexer.t) (docs : gmap string (list string)) : Prop := {
  rep_N : InMemIndexer.N idx = doc_count docs;
  rep_docLen : InMemIndexer.docLen idx = doc_len <$> docs;
  rep_tf : forall s d,
    get_tf (InMemIndexer.tf idx) s d
    = match docs !! d with Some l => occurrences s l | None => 0 end;
  rep_tf_pos : forall s row d c,
    InMemIndexer.tf idx !! s = Some row -> row !! d = Some c -> 0 < c;
  rep_df : forall s, get (InMemIndexer.df idx) s = doc_freq s docs
}.


Section SearchSpec.
Context `{Strings} `{Snowball} `{Math}.

(** The score that the specification assigns, for the stem [s], to a
    document with tokens [l] of the corpus [docs]. *)
Definition tfidf (docs : gmap string (list string)) (s : string)
    (l : list string) : float64 :=
  F64.mul (F64.div (of_int (occurrences s l)) (of_int (doc_len l)))
          (Log (F64.div (of_int (doc_count docs)) (of_int (doc_freq s docs)))).

(** The four cases in which the specification asks for an empty result. *)
Definition no_result (idx : InMemIndexer.t) (term : string) : Prop :=
  term = "" \/ InMemIndexer.N idx = 0
  \/ ToLower term ∈ InMemIndexer.stop idx
  \/ get (InMemIndexer.df idx) (stem (ToLower term)) = 0.
End SearchSpec.

Section SearchSpecSQLite.
Context `{Strings} `{Snowball}.

(** The same four cases, read off the tables of the SQLite backend:
    [N] is the number of rows of [urls], the document frequency of a
    stem the number of rows of [hits] that carry it. *)
Definition no_result_sqlite (idx : SQLiteIndexer.t) (term : string) : Prop :=
  term = ""
  \/ Z.of_nat (length (SQLiteIndexer.urls (SQLiteIndexer.db idx))) = 0
  \/ ToLower term ∈ SQLiteIndexer.stop idx
  \/ SQLiteIndexer.count_hits (SQLiteIndexer.db idx) (stem (ToLower term)) = 0.
End SearchSpecSQLite.

(** Every posting of the SQLite store has a positive count and refers to
    a row of [urls]. *)
Definition postings_ok (d : SQLiteIndexer.database) : Prop :=
  forall u w c, (u, w, c) ∈ SQLiteIndexer.hits d ->
    0 < c /\ u ∈ map fst (SQLiteIndexer.urls d).

(* ===================================================================== *)
(** * Implementations of the imported packages on ASCII input *)
(* ===================================================================== *)

(** The functions below agree with their Go namesakes on strings of
    ASCII characters.  They serve to run the program on concrete ASCII
    inputs; no universally quantified statement depends on them. *)
Module AsciiLib.
Definition lower_char (c : ascii) : ascii :=
  let n := nat_of_ascii c in
  if (65 <=? n)%nat && (n <=? 90)%nat then ascii_of_nat (n + 32) else c.

Fixpoint to_lower (s : string) : string :=
  match s with
  | EmptyString => EmptyString
  | String c s' => String (lower_char c) (to_lower s')
  end.

(** ['\t', '\n', '\v', '\f', '\r', ' '] *)
Definition is_space (c : ascii) : bool :=
  let n := nat_of_ascii c in
  ((9 <=? n)%nat && (n <=? 13)%nat) || (n =? 32)%nat.

Fixpoint trim_left (s : string) : string :=
  match s with
  | String c s' => if is_space c then trim_left s' else s
  | EmptyString => EmptyString
  end.

Definition trim_space (s : string) : string :=
  str_rev (trim_left (str_rev (trim_left s))).

Definition equal_fold (a b : string) : bool :=
  String.eqb (to_lower a) (to_lower b).

Definition strings : Strings :=
  {| ToLower := to_lower; TrimSpace := trim_space; EqualFold := equal_fold |}.

(** The Snowball stemmer on words it leaves unchanged, such as
    ["whale"] and ["ship"]: the only words the evaluations feed it. *)
Definition snowball : Snowball := {| english_Stem := fun w => w |}.
End AsciiLib.

(** Two documents; ["and"] and ["the"] are stopwords. *)
Definition whale_calls : list (string * list string) :=
  [("doc1", ["whale"; "whale"; "ship"; "and"; "the"]); ("doc2", ["ship"])].

(** The same URL added twice, with different words. *)
Definition readd_calls : list (string * list string) :=
  [("d", ["whale"]); ("d", ["ship"])].

(** A small implementation of [net/url] for hierarchical ASCII URLs
    [scheme://host/path?query#fragment] without user information or
    percent-escapes, after RFC 3986, section 5.2.  Like [AsciiLib], it
    serves to run the program on concrete inputs only. *)
Module MiniURL.
(** [strings.Cut(s, c)]: the text before and after the first [c]. *)
Fixpoint cut (c : ascii) (s : string) : option (string * string) :=
  match s with
  | EmptyString => None
  | String d s' =>
      if Ascii.eqb c d then Some (EmptyString, s')
      else match cut c s' with
           | Some (a, b) => Some (String d a, b)
           | None => None
           end
  end.

Definition cut_or (c : ascii) (s : string) : string * string :=
  match cut c s with Some p => p | None => (s, "") end.

Definition is_alpha (c : ascii) : bool :=
  let n := nat_of_ascii (AsciiLib.lower_char c) in
  (97 <=? n)%nat && (n <=? 122)%nat.

Definition is_scheme_char (c : ascii) : bool :=
  let n := nat_of_ascii c in
  is_alpha c || ((48 <=? n)%nat && (n <=? 57)%nat)
  || (n =? 43)%nat || (n =? 45)%nat || (n =? 46)%nat.

Fixpoint all_chars (p : ascii -> bool) (s : string) : bool :=
  match s with
  | EmptyString => true
  | String c s' => p c && all_chars p s'
  end.

(** The scheme and what follows its colon, if the text starts with one. *)
Definition get_scheme (s : string) : option (string * string) :=
  match s with
  | String c _ =>
      if is_alpha c then
        match cut ":" s with
        | Some (sch, rest) =>
            if all_chars is_scheme_char sch then Some (sch, rest) else None
        | None => None
        end
      else None
  | EmptyString => None
  end.

Fixpoint drop_chars (n : nat) (s : string) : string :=
  match n, s with
  | S n', String _ s' => drop_chars n' s'
  | _, _ => s
  end.

Definition parse (s : string) : url_URL + string :=
  let '(rest, frag) := cut_or "#" s in
  let '(rest, query) := cut_or "?" rest in
  match get_scheme rest with
  | Some (sch, after) =>
      if HasPrefix after "//" then
        let auth := drop_chars 2 after in
        match cut "/" auth with
        | Some (host, path) =>
            inl (mkURL (AsciiLib.to_lower sch) "" None host
                       (String "/" path) query frag)
        | None => inl (mkURL (AsciiLib.to_lower sch) "" None auth "" query frag)
        end
      else if HasPrefix after "/" then
        inl (mkURL (AsciiLib.to_lower sch) "" None "" after query frag)
      else inl (mkURL (AsciiLib.to_lower sch) after None "" "" query frag)
  | None => inl (mkURL "" "" None "" rest query frag)
  end.

(** The segments of a path between its slashes. *)
Fixpoint segments (s : string) (cur : string) : list string :=
  match s with
  | EmptyString => [str_rev cur]
  | String c s' =>
      if Ascii.eqb c "/" then str_rev cur :: segments s' ""
      else segments s' (String c cur)
  end.

(** Removal of [.] and [..]; the stack holds the output in reverse. *)
Fixpoint remove_dots (segs : list string) (stack : list string) : list string :=
  match segs with
  | [] => rev stack
  | seg :: segs' =>
      if String.eqb seg "." then
        match segs' with [] => rev ("" :: stack) | _ => remove_dots segs' stack end
      else if String.eqb seg ".." then
        match segs' with
        | [] => rev ("" :: tl stack)
        | _ => remove_dots segs' (tl stack)
        end
      else remove_dots segs' (seg :: stack)
  end.

Definition join_path (segs : list string) : string :=
  foldr (fun seg acc => String "/" (seg ++ acc)%string) "" segs.

Fixpoint last_slash (s : string) : string :=
  match s with
  | EmptyString => EmptyString
  | String c s' =>
      match cut "/" s with
      | Some _ => String c (last_slash s')
      | None => EmptyString
      end
  end.

(** [resolvePath(base, ref)] *)
Definition resolve_path (base ref : string) : string :=
  let full :=
    if String.eqb ref "" then base
    else if HasPrefix ref "/" then ref
    else (last_slash base ++ ref)%string in
  if String.eqb full "" then ""
  else
    let segs := match segments full "" with
                | "" :: rest => rest
                | l => l
                end in
    join_path (remove_dots segs []).

Definition resolve (u ref : url_URL) : url_URL :=
  let sch := if String.eqb (Scheme ref) "" then Scheme u else Scheme ref in
  if negb (String.eqb (Scheme ref) "") || negb (String.eqb (Host ref) "") then
    mkURL sch (Opaque ref) (User ref) (Host ref)
          (resolve_path (Path ref) "") (RawQuery ref) (Fragment ref)
  else if negb (String.eqb (Opaque ref) "") then
    mkURL sch (Opaque ref) None "" "" (RawQuery ref) (Fragment ref)
  else
    let keep := String.eqb (Path ref) "" && String.eqb (RawQuery ref) "" in
    let query := if keep then RawQuery u else RawQuery ref in
    let frag := if keep && String.eqb (Fragment ref) ""
                then Fragment u else Fragment ref in
    if String.eqb (Path ref) "" && negb (String.eqb (Opaque u) "") then
      mkURL sch (Opaque u) None "" "" query frag
    else
      mkURL sch "" (User u) (Host u) (resolve_path (Path u) (Path ref))
            query frag.

Definition to_string (u : url_URL) : string :=
  ((if String.eqb (Scheme u) "" then "" else Scheme u ++ ":")
   ++ (if negb (String.eqb (Opaque u) "") then Opaque u
       else
         (if (negb (String.eqb (Scheme u) "") || negb (String.eqb (Host u) ""))
             && (negb (String.eqb (Host u) "") || negb (String.eqb (Path u) ""))
          then "//" ++ Host u else "")
         ++ (if negb (String.eqb (Path u) "") && negb (HasPrefix (Path u) "/")
                && negb (String.eqb (Host u) "")
             then "/" else "")
         ++ Path u)
   ++ (if String.eqb (RawQuery u) "" then "" else "?" ++ RawQuery u)
   ++ (if String.eqb (Fragment u) "" then "" else "#" ++ Fragment u))%string.

Definition url : NetURL :=
  {| url_Parse := parse; ResolveReference := resolve; URL_String := to_string |}.
End MiniURL.

(** The site of the crawl scenario of the specification: the root page
    links to [/d1], [/d2], [/d3] and to a page on another host; [/d1]
    links to [/d2], [/d2] to [/d3].  The body of a page is one byte, its
    number, which the parser maps to the page's tree. *)
Module TestSite.
Definition root : string := "http://127.0.0.1:4000/".

Definition page (links : list string) : Node :=
  mkNode DocumentNode "" []
    [mkNode ElementNode "html" []
       [mkNode ElementNode "body" []
          (map (fun h => mkNode ElementNode "a" [mkAttr "href" h]
                           [mkNode TextNode "link" [] []])
               links)]].

Definition ok (b : Byte.byte) : Response + string :=
  inl (mkResponse 200 "200 OK" ([b], None)).

Definition get (u : string) : Response + string :=
  if String.eqb u "http://127.0.0.1:4000/" then ok Byte.x00
  else if String.eqb u "http://127.0.0.1:4000/d1" then ok Byte.x01
  else if String.eqb u "http://127.0.0.1:4000/d2" then ok Byte.x02
  else if String.eqb u "http://127.0.0.1:4000/d3" then ok Byte.x03
  else inl (mkResponse 404 "404 Not Found" ([], None)).

Definition parse (b : bytes) : Node + string :=
  match b with
  | [Byte.x00] => inl (page ["/d1"; "/d2"; "/d3"; "http://example.com/evil"])
  | [Byte.x01] => inl (page ["/d2"])
  | [Byte.x02] => inl (page ["/d3"])
  | _ => inl (page [])
  end.

Definition http : NetHTTP := {| http_Get := get |}.
Definition html : HTML := {| html_Parse := parse |}.
Definition regexp : Regexp := {| wordRe_FindAllString := fun _ => [] |}.
End TestSite.

(* ===================================================================== *)
(** * The words of the specification for the crawler side *)
(* ===================================================================== *)

(** A success (2xx) status. *)
Definition is_success (code : Z) : bool := (200 <=? code) && (code <? 300).

Section ExtractSpec.
Context `{Strings}.

Definition is_anchor (n : Node) : bool :=
  is_ElementNode (Type_ n) && EqualFold (Data n) "a".

Definition is_href (a : Attribute) : bool := EqualFold (Key a) "href".

(** The [href] attribute values of the anchor elements outside
    script/style subtrees, verbatim, in document order. *)
Fixpoint raw_hrefs (n : Node) : list string :=
  match n with
  | mkNode _ _ attrs cs =>
      if is_script_or_style n then []
      else (if is_anchor n then map Val (List.filter is_href attrs) else [])
           ++ flat_map raw_hrefs cs
  end.

(** What the extractor keeps of a raw value: the value with surrounding
    white space removed, unless nothing is left. *)
Definition trimmed (vals : list string) : list string :=
  List.filter (fun v => negb (String.eqb v "")) (map TrimSpace vals).

(** The hrefs that [walk] appends below a node entered at depth [k]. *)
Definition found (k : Z) (n : Node) : list string :=
  if decide (k = 0) then trimmed (raw_hrefs n) else [].

(** The start URL, or a URL below [scheme://host/]. *)
Definition on_host (start hostBase u : string) : Prop :=
  u = start \/ HasPrefix u hostBase = true.
End ExtractSpec.

(* ===================================================================== *)
(** * The order of binary64 values *)
(* ===================================================================== *)

(** The place of a number other than NaN on the line: its class
    (infinities, negative, zero, positive), then exponent and mantissa,
    both negated for negative numbers. *)
Definition rank (x : float64) : Z * Z * Z :=
  match x with
  | S754_nan => (0, 0, 0)
  | S754_zero _ => (0, 0, 0)
  | S754_infinity true => (-2, 0, 0)
  | S754_infinity false => (2, 0, 0)
  | S754_finite false m e => (1, e, Zpos m)
  | S754_finite true m e => (-1, - e, Zneg m)
  end.

Definition lex_lt (a b : Z * Z * Z) : Prop :=
  fst (fst a) < fst (fst b)
  \/ (fst (fst a) = fst (fst b)
      /\ (snd (fst a) < snd (fst b)
          \/ (snd (fst a) = snd (fst b) /\ snd a < snd b))).

(** A positive normal number: 53 significant bits, exponent in a range. *)
Definition normal_pos (x : float64) (lo hi : Z) : Prop :=
  exists m e, x = S754_finite false m e
              /\ 2 ^ 52 <= Zpos m < 2 ^ 53 /\ lo <= e <= hi.

(** The results of rounding a non-negative mantissa with sign [sx]. *)
Inductive rounded (sx : bool) : spec_float -> Prop :=
  | rounded_zero : rounded sx (S754_zero sx)
  | rounded_infinity : rounded sx (S754_infinity sx)
  | rounded_finite m e : rounded sx (S754_finite sx m e).

(** The order of hits that [lessHit] decides when no score is NaN. *)
Definition hit_lt (a b : Hit) : Prop :=
  lex_lt (rank (Score b)) (rank (Score a))
  \/ (rank (Score a) = rank (Score b) /\ String.ltb (URL a) (URL b) = true).

(** A hit whose score is a number. *)
Definition scored (h : Hit) : Prop := is_nan (Score h) = false.

(** Sorted for a comparator: every element is less than all later ones. *)
Definition sorted_by {A} (less : A -> A -> bool) : list A -> Prop :=
  StronglySorted (fun a b => less a b = true).

(** Pairwise related by [D]. *)
Fixpoint pairwise {A} (D : A -> A -> Prop) (l : list A) : Prop :=
  match l with
  | [] => True
  | x :: l' => Forall (D x) l' /\ pairwise D l'
  end.

(** A two-valued stand-in for [math.Log], 0 up to 1 and 1 above, with
    which the ranking can be run on concrete calls. *)
Module TestMath.
Definition step_log (x : float64) : float64 :=
  if F64.gt x F64.one then F64.one else F64.zero.

Definition math : Math := {| Log := step_log |}.
End TestMath.

(** Three documents, two of which contain ["ship"]. *)
Definition ship_calls : list (string * list string) :=
  [("doc1", ["whale"; "whale"; "ship"; "and"; "the"]);
   ("doc2", ["ship"]); ("doc3", ["whale"])].

(** Rounding [m / 2^n] to the nearest integer, ties to even. *)
Definition rne (m n : Z) : Z :=
  let q := m / 2 ^ n in
  match 2 * (m mod 2 ^ n) ?= 2 ^ n with
  | Lt => q
  | Eq => if Z.even q then q else q + 1
  | Gt => q + 1
  end.

(** Mantissa and exponent of [float64(a)] for a positive [a]. *)
Definition round53 (a : Z) : Z * Z :=
  let d := Zdigits2 a in
  if d <=? 53 then (a * 2 ^ (53 - d), d - 53)
  else
    let m := rne a (d - 53) in
    if m =? 2 ^ 53 then (2 ^ 52, d - 52) else (m, d - 53).

(* ===================================================================== *)
(** * The link graph that the crawler walks *)
(* ===================================================================== *)

Section CrawlSpec.
Context `{Strings} `{NetURL} `{NetHTTP} `{HTML} `{Regexp}.

(** The links of the page [cur] that the crawler follows: the cleaned
    hrefs of the downloaded page that are not empty and begin with
    [hostBase], in document order.  A page that cannot be downloaded
    has none. *)
Definition page_links (hostBase cur : string) : list string :=
  match Download cur with
  | (_, Some _) => []
  | (body, None) =>
      List.filter (fun a => negb (String.eqb a "") && HasPrefix a hostBase)
                  (map (CleanHref cur) (elems (snd (Extract (elems body)))))
  end.

(** The links among [l] that are not yet visited. *)
Definition unvisited (visited : gset string) (l : list string) : list string :=
  List.filter (fun a => bool_decide (a ∉ visited)) l.

(** [l] is closed under the links the crawler follows. *)
Definition link_closed (hostBase : string) (l : list string) : Prop :=
  forall cur a, cur ∈ l -> a ∈ page_links hostBase cur -> a ∈ l.
End CrawlSpec.

(* ===================================================================== *)
(** * The visible words of a document *)
(* ===================================================================== *)

Section ExtractWordsSpec.
Context `{Strings} `{Regexp}.

(** The words of one text: the non-empty matches of the word pattern,
    in lower case. *)
Definition tokens (data : string) : list string :=
  map ToLower (List.filter (fun tok => negb (String.eqb tok ""))
                           (wordRe_FindAllString data)).

(** The words of the text nodes outside script/style subtrees, in
    document order. *)
Fixpoint visible_words (n : Node) : list string :=
  match n with
  | mkNode _ _ _ cs =>
      if is_script_or_style n then []
      else (if is_TextNode (Type_ n) then tokens (Data n) else [])
           ++ flat_map visible_words cs
  end.
End ExtractWordsSpec.

(** A page for running [Extract]: the document of the extraction test,
    parsed, and the word pattern on ASCII text. *)
Module TestPage.
Definition is_alnum (c : ascii) : bool :=
  let n := nat_of_ascii c in
  ((48 <=? n)%nat && (n <=? 57)%nat)
  || ((65 <=? n)%nat && (n <=? 90)%nat)
  || ((97 <=? n)%nat && (n <=? 122)%nat).

(** The maximal runs of letters and digits of [s]; [cur] is the run
    being read. *)
Fixpoint runs (s cur : string) : list string :=
  match s with
  | EmptyString => if String.eqb cur "" then [] else [cur]
  | String c s' =>
      if is_alnum c then runs s' (cur ++ String c "")%string
      else (if String.eqb cur "" then [] else [cur]) ++ runs s' ""
  end.

Definition text (s : string) : Node := mkNode TextNode s [] [].
Definition elt (tag : string) (attrs : list Attribute) (cs : list Node) : Node :=
  mkNode ElementNode tag attrs cs.

Definition page : Node :=
  mkNode DocumentNode "" []
    [elt "html" []
       [elt "head" []
          [elt "style" [] [text "body{color:red}"];
           elt "script" [] [text "var x=1"]];
        elt "body" []
          [elt "p" [] [text "Hello, world! 42"];
           elt "a" [mkAttr "href" "a.html"] [text "A"];
           elt "a" [mkAttr "href" "/abs/b.html#frag"] [text "B"]]]].

Definition html : HTML := {| html_Parse := fun _ => inl page |}.
Definition regexp : Regexp := {| wordRe_FindAllString := fun s => runs s "" |}.
End TestPage.

(* ===================================================================== *)
(** * search.go (package project03): building the index *)
(* ===================================================================== *)

(** The interface [Indexer].  A value of the interface is a pointer to
    an index that the methods update in place: the methods of the
    embedding return the updated index. *)
Class Indexer (T : Type) := {
  Indexer_AddDocument : T -> string -> list string -> T * error;
  Indexer_Search : T -> string -> slice Hit * error;
  Indexer_Close : T -> error
}.

Section Indexers.
Context `{Strings} `{Snowball} `{Math}.

#[export] Instance InMemIndexer_Indexer : Indexer InMemIndexer.t := {
  Indexer_AddDocument := InMemIndexer.AddDocument;
  Indexer_Search := InMemIndexer.Search;
  Indexer_Close := InMemIndexer.Close
}.

#[export] Instance SQLiteIndexer_Indexer : Indexer SQLiteIndexer.t := {
  Indexer_AddDocument := SQLiteIndexer.AddDocument;
  Indexer_Search := SQLiteIndexer.Search;
  Indexer_Close := fun _ => None
}.
End Indexers.

Section BuildIndex.
Context `{Strings} `{NetHTTP} `{HTML} `{Regexp}.
Context {T : Type} `{Indexer T}.

(** The body of [for _, u := range urls]; the error of [AddDocument]
    is dropped. *)
Definition index_url (indexer : T) (u : string) : T :=
  match Download u with
  | (_, Some _) => indexer
  | (b, None) =>
      let words := fst (Extract (elems b)) in
      fst (Indexer_AddDocument indexer u (elems words))
  end.

Definition BuildIndexFromURLList (urls : list string) (indexer : T)
    : T * error :=
  (foldl index_url indexer urls, None).
End BuildIndex.

Section BuildIndexSpec.
Context `{Strings} `{NetHTTP} `{HTML} `{Regexp}.

(** The words of the page at [u], when it can be downloaded. *)
Definition page_words (u : string) : option (list string) :=
  match Download u with
  | (_, Some _) => None
  | (b, None) => Some (elems (fst (Extract (elems b))))
  end.

(** The [AddDocument] calls that indexing [urls] amounts to. *)
Definition page_calls (urls : list string) : list (string * list string) :=
  omap (fun u => (fun ws => (u, ws)) <$> page_words u) urls.
End BuildIndexSpec.

(* ===================================================================== *)
(** * The SQLite store as a representation of the corpus *)
(* ===================================================================== *)

(** A table [(id, name)] whose ids and names are unique. *)
Definition wf_table (tbl : list (Z * string)) : Prop :=
  NoDup (map fst tbl) /\ NoDup (map snd tbl).

(** The rows [(url, count, length)] that the corpus holds for the stem
    [s]: one for each document that contains it. *)
Definition spec_rows (docs : gmap string (list string)) (s : string)
    : list (string * Z * Z) :=
  map (fun kv : string * list string =>
         (fst kv, occurrences s (snd kv), doc_len (snd kv)))
      (map_to_list (filter (fun kv : string * list string => s ∈ snd kv) docs)).

(** The store [d] of the SQLite backend represents the corpus [docs]. *)
Record sql_represents (d : SQLiteIndexer.database)
    (docs : gmap string (list string)) : Prop := {
  sql_urls : wf_table (SQLiteIndexer.urls d);
  sql_names : forall name,
    name ∈ map snd (SQLiteIndexer.urls d) <-> is_Some (docs !! name);
  sql_words : wf_table (SQLiteIndexer.words d);
  sql_refs : forall u w c, (u, w, c) ∈ SQLiteIndexer.hits d ->
    u ∈ map fst (SQLiteIndexer.urls d) /\ w ∈ map fst (SQLiteIndexer.words d);
  sql_N : Z.of_nat (length (SQLiteIndexer.urls d)) = doc_count docs;
  sql_df : forall s, SQLiteIndexer.count_hits d s = doc_freq s docs;
  sql_rows : forall s, SQLiteIndexer.join_rows d s ≡ₚ spec_rows docs s
}.

(** The sum of the counts of a [map[string]int]. *)
Definition map_sum (m : gmap string Z) : Z :=
  foldr Z.add 0 (map snd (map_to_list m)).

(** The row of [hits] that the posting loop writes for the entry [e] of
    [wordCount], the ids being those of the table [ws]. *)
Definition new_hit (urlID : Z) (ws : list (Z * string)) (e : string * Z)
    : Z * Z * Z :=
  (urlID, default 0 (Sql.select_id ws (fst e)), snd e).

(* ===================================================================== *)
(** * sqlite_index.go (package project02): the first SQLite index *)
(* ===================================================================== *)

Module SQLiteIndex.
Section SQLiteIndex.
Context `{Strings} `{Snowball} `{Math}.

Record database := mkdb {
  urls : list (Z * (string * Z));    (* urls(id, url, len) *)
  terms : list (Z * (string * Z));   (* terms(id, word, df) *)
  hits : list (Z * (Z * Z * Z))      (* hits(id, term_id, url_id, count) *)
}.

Record t := mk { db : database; stop : gset string; N : Z }.

(** [NewSQLiteIndex] on a fresh database file: [N] is read from the
    empty table [urls]. *)
Definition New (stop : option (gset string)) : t :=
  {| db := mkdb [] [] []; stop := default DefaultStopwords stop; N := 0 |}.

(** [NewSQLiteIndex] on a database file that holds the tables [d]
    already: [CREATE TABLE IF NOT EXISTS] leaves them as they are, and
    [N] is read from the table [urls]. *)
Definition Reopen (d : database) (stop : option (gset string)) : t :=
  {| db := d; stop := default DefaultStopwords stop;
     N := Z.of_nat (length (urls d)) |}.

(** [SELECT id FROM urls WHERE url = ?] (resp. [FROM terms WHERE word = ?]). *)
Definition select_id (tbl : list (Z * (string * Z))) (key : string) : option Z :=
  fst <$> List.find (fun r => String.eqb (fst (snd r)) key) tbl.

Definition is_hit (termID urlID : Z) (r : Z * (Z * Z * Z)) : bool :=
  let '(_, (t, u, _)) := r in (t =? termID) && (u =? urlID).

(** [SELECT id FROM hits WHERE term_id = ? AND url_id = ?] *)
Definition select_hit (hs : list (Z * (Z * Z * Z))) (termID urlID : Z)
    : option Z :=
  fst <$> List.find (is_hit termID urlID) hs.

(** [UPDATE terms SET df = df + 1 WHERE word = ?] *)
Definition bump_df (ts : list (Z * (string * Z))) (word : string)
    : list (Z * (string * Z)) :=
  map (fun r => if String.eqb (fst (snd r)) word
                then (fst r, (fst (snd r), snd (snd r) + 1)) else r) ts.

(** [UPDATE hits SET count = count + 1 WHERE term_id = ? AND url_id = ?] *)
Definition bump_hit (hs : list (Z * (Z * Z * Z))) (termID urlID : Z)
    : list (Z * (Z * Z * Z)) :=
  map (fun r => if is_hit termID urlID r
                then (fst r, (fst (snd r), snd (snd r) + 1)) else r) hs.

(** [UPDATE urls SET len = ? WHERE id = ?] *)
Definition set_len (us : list (Z * (string * Z))) (urlID n : Z)
    : list (Z * (string * Z)) :=
  map (fun r => if fst r =? urlID then (fst r, (fst (snd r), n)) else r) us.

(** What the loop over [words] updates: two tables, [seen], [kept]. *)
Record loop_state := mkLoop {
  l_terms : list (Z * (string * Z));
  l_hits : list (Z * (Z * Z * Z));
  l_seen : gset string;
  l_kept : Z
}.

(** One iteration of [for _, w := range words]. *)
Definition add_word (stop : gset string) (urlID : Z) (st : loop_state)
    (w : string) : loop_state :=
  match normalize stop w with
  | None => st
  | Some s =>
      let kept := l_kept st + 1 in
      let '(termID, terms', seen') :=
        match select_id (l_terms st) s with
        | None =>
            let termID := Sql.next_id (l_terms st) in
            (termID, l_terms st ++ [(termID, (s, 1))], {[s]} ∪ l_seen st)
        | Some termID =>
            if decide (s ∈ l_seen st)
            then (termID, l_terms st, l_seen st)
            else (termID, bump_df (l_terms st) s, {[s]} ∪ l_seen st)
        end in
      let hits' :=
        match select_hit (l_hits st) termID urlID with
        | None =>
            l_hits st ++ [(Sql.next_id (l_hits st), (termID, urlID, 1))]
        | Some _ => bump_hit (l_hits st) termID urlID
        end in
      mkLoop terms' hits' seen' kept
  end.

Definition Add (idx : t) (doc : string) (words : list string) : t :=
  match select_id (urls (db idx)) doc with
  | Some _ => idx
  | None =>
      let urlID := Sql.next_id (urls (db idx)) in
      let urls1 := urls (db idx) ++ [(urlID, (doc, 0))] in
      let st := foldl (add_word (stop idx) urlID)
                      (mkLoop (terms (db idx)) (hits (db idx)) ∅ 0) words in
      {| db := mkdb (set_len urls1 urlID (l_kept st)) (l_terms st) (l_hits st);
         stop := stop idx; N := N idx + 1 |}
  end.

(** [GetN] refreshes [idx.N] from the table [urls]. *)
Definition GetN (idx : t) : t * Z :=
  let count := Z.of_nat (length (urls (db idx))) in
  ({| db := db idx; stop := stop idx; N := count |}, count).

(** [SELECT id, df FROM terms WHERE word = ?] *)
Definition find_term (ts : list (Z * (string * Z))) (word : string)
    : option (Z * Z) :=
  (fun r => (fst r, snd (snd r)))
    <$> List.find (fun r => String.eqb (fst (snd r)) word) ts.

(** The rows [(h.count, u.url, u.len)] of [hits] joined with [urls],
    for one term. *)
Definition join_rows (d : database) (termID : Z) : list (Z * string * Z) :=
  flat_map (fun h : Z * (Z * Z * Z) =>
    let '(_, (t, u, c)) := h in
    if t =? termID then
      flat_map (fun r : Z * (string * Z) =>
                  if u =? fst r then [(c, fst (snd r), snd (snd r))] else [])
               (urls d)
    else [])
  (hits d).

(** The body of [for rows.Next()]. *)
Definition score_row (idf : float64) (r : Z * string * Z) : list Hit :=
  let '(count, url, docLen) := r in
  if 0 <? docLen
  then [mkHit url (F64.mul (F64.div (of_int count) (of_int docLen)) idf)]
  else [].

Definition SearchTFIDF (idx : t) (term : string) : slice Hit :=
  if decide (term = "" \/ N idx = 0) then None else
  let q := ToLower term in
  if decide (q ∈ stop idx) then None else
  let s := english_Stem q in
  match find_term (terms (db idx)) s with
  | None => None
  | Some (termID, df) =>
      let idf := Log (F64.div (of_int (N idx)) (of_int df)) in
      let hits := flat_map (score_row idf) (join_rows (db idx) termID) in
      SQLiteIndexer.appended (sort_Slice lessHit hits)
  end.

Definition Close (idx : t) : error := None.

(** A sequence of [Add] calls. *)
Definition run (idx : t) (calls : list (string * list string)) : t :=
  foldl (fun i c => Add i (fst c) (snd c)) idx calls.
End SQLiteIndex.
End SQLiteIndex.

(** The rows [(count, url, len)] that the corpus holds for the stem
    [s]. *)
Definition spec_rows02 (docs : gmap string (list string)) (s : string)
    : list (Z * string * Z) :=
  map (fun kv : string * list string =>
         (occurrences s (snd kv), fst kv, doc_len (snd kv)))
      (map_to_list (filter (fun kv : string * list string => s ∈ snd kv) docs)).

(** The row that the document being added contributes for the stem [s],
    its length not yet written: [sp] are its tokens so far. *)
Definition pending_row (doc : string) (sp : list string) (s : string)
    : list (Z * string * Z) :=
  if decide (s ∈ sp) then [(occurrences s sp, doc, 0)] else [].

(** A table [(id, (key, value))] whose ids and keys are unique. *)
Definition wf_table2 (tbl : list (Z * (string * Z))) : Prop :=
  NoDup (map fst tbl) /\ NoDup (map (fun r => fst (snd r)) tbl).

(** The store [d] of the first SQLite index represents the corpus
    [docs]. *)
Record index_represents (d : SQLiteIndex.database)
    (docs : gmap string (list string)) : Prop := {
  ix_urls : wf_table2 (SQLiteIndex.urls d);
  ix_lens : forall i u n, (i, (u, n)) ∈ SQLiteIndex.urls d ->
    exists l, docs !! u = Some l /\ n = doc_len l;
  ix_names : forall u, is_Some (docs !! u) ->
    u ∈ map (fun r => fst (snd r)) (SQLiteIndex.urls d);
  ix_terms : wf_table2 (SQLiteIndex.terms d);
  ix_df : forall i s df, (i, (s, df)) ∈ SQLiteIndex.terms d ->
    df = doc_freq s docs;
  ix_all : forall s, 0 < doc_freq s docs ->
    s ∈ map (fun r => fst (snd r)) (SQLiteIndex.terms d);
  ix_refs : forall i t u c, (i, (t, u, c)) ∈ SQLiteIndex.hits d ->
    t ∈ map fst (SQLiteIndex.terms d) /\ u ∈ map fst (SQLiteIndex.urls d);
  ix_rows : forall i s df, (i, (s, df)) ∈ SQLiteIndex.terms d ->
    SQLiteIndex.join_rows d i ≡ₚ spec_rows02 docs s
}.

(** The invariant of the loop of [Add], for the document [doc] with id
    [urlID] and the tokens [sp] found so far; [us] is the table of URLs
    with the row of [doc] in it, [docs] the corpus without [doc]. *)
Record index_loop (us : list (Z * (string * Z)))
    (docs : gmap string (list string)) (doc : string) (urlID : Z)
    (st : SQLiteIndex.loop_state) (sp : list string) : Prop := {
  lp_seen : forall s, s ∈ SQLiteIndex.l_seen st <-> s ∈ sp;
  lp_kept : SQLiteIndex.l_kept st = doc_len sp;
  lp_terms : wf_table2 (SQLiteIndex.l_terms st);
  lp_df : forall i s df, (i, (s, df)) ∈ SQLiteIndex.l_terms st ->
    df = doc_freq s docs + if decide (s ∈ sp) then 1 else 0;
  lp_all : forall s, 0 < doc_freq s docs \/ s ∈ sp ->
    s ∈ map (fun r => fst (snd r)) (SQLiteIndex.l_terms st);
  lp_refs : forall i t u c, (i, (t, u, c)) ∈ SQLiteIndex.l_hits st ->
    t ∈ map fst (SQLiteIndex.l_terms st) /\ u ∈ map fst us;
  lp_rows : forall i s df, (i, (s, df)) ∈ SQLiteIndex.l_terms st ->
    SQLiteIndex.join_rows
      (SQLiteIndex.mkdb us (SQLiteIndex.l_terms st) (SQLiteIndex.l_hits st)) i
    ≡ₚ spec_rows02 docs s ++ pending_row doc sp s
}.

(** The rows of the join that one row of [hits] yields for a term. *)
Definition hit_rows (us : list (Z * (string * Z))) (termID : Z)
    (h : Z * (Z * Z * Z)) : list (Z * string * Z) :=
  let '(_, (t, u, c)) := h in
  if t =? termID then
    flat_map (fun r : Z * (string * Z) =>
                if u =? fst r then [(c, fst (snd r), snd (snd r))] else [])
             us
  else [].

(** What [count = count + 1] does to the row of the document [doc]. *)
Definition bump_row (doc : string) (r : Z * string * Z) : Z * string * Z :=
  if String.eqb (snd (fst r)) doc then (fst (fst r) + 1, snd (fst r), snd r)
  else r.

(** What [len = n] does to the row of the document [doc]. *)
Definition len_row (doc : string) (n : Z) (r : Z * string * Z) : Z * string * Z :=
  if String.eqb (snd (fst r)) doc then (fst (fst r), snd (fst r), n) else r.

(** Three calls, the last of them for the URL of the first with other
    words. *)
Definition again_calls : list (string * list string) :=
  [("doc1", ["whale"; "whale"; "ship"]); ("doc2", ["ship"]);
   ("doc1", ["harpoon"])].

(* ===================================================================== *)
(** * inmem_index.go (package project02): the in-memory index *)
(* ===================================================================== *)

Module InMemIndex.
Section InMemIndex.
Context `{Strings} `{Snowball} `{Math}.

Record t := mk {
  tf : gmap string (gmap string Z);   (* stem -> doc -> term freq *)
  df : gmap string Z;                 (* stem -> doc freq *)
  docLen : gmap string Z;             (* doc -> token count *)
  N : Z;                              (* total documents *)
  stop : gset string                  (* stopword set *)
}.

Definition New (stop : option (gset string)) : t :=
  {| tf := ∅; df := ∅; docLen := ∅; N := 0;
     stop := default DefaultStopwords stop |}.

(** The filters of the loop of [Add] on one word: the stopword test
    is on the lower-cased word [lw], the stem is [stem(w)], of the
    word as given. *)
Definition keep (stop : gset string) (w : string) : option string :=
  if decide (w = "") then None else
  let lw := ToLower w in
  if decide (lw ∈ stop) then None else
  let s := stem w in
  if decide (s = "") then None else Some s.

(** One iteration of [for _, w := range words], on the loop state
    [(idx.tf, seen, kept)]. *)
Definition add_word (stop : gset string) (doc : string)
    (acc : gmap string (gmap string Z) * gset string * Z) (w : string)
    : gmap string (gmap string Z) * gset string * Z :=
  let '(tf, seen, kept) := acc in
  match keep stop w with
  | None => acc
  | Some s =>
      let tf1 := match tf !! s with Some _ => tf | None => <[s := ∅]> tf end in
      let row := default ∅ (tf1 !! s) in
      (<[s := <[doc := get row doc + 1]> row]> tf1, {[s]} ∪ seen, kept + 1)
  end.

(** [for s := range seen { idx.df[s]++ }] *)
Definition bump_df (seen : gset string) (df : gmap string Z) : gmap string Z :=
  set_fold (fun s df => <[s := get df s + 1]> df) df seen.

Definition Add (idx : t) (doc : string) (words : list string) : t :=
  match docLen idx !! doc with
  | Some _ => idx
  | None =>
      let '(tf', seen, kept) :=
        foldl (add_word (stop idx) doc) (tf idx, ∅, 0) words in
      {| tf := tf'; df := bump_df seen (df idx);
         docLen := <[doc := kept]> (docLen idx);
         N := N idx + 1; stop := stop idx |}
  end.

Definition GetN (idx : t) : Z := N idx.

(** The body of [for doc, tfreq := range idx.tf[s]]. *)
Definition score_row (idx : t) (idf : float64) (e : string * Z) : list Hit :=
  let '(doc, tfreq) := e in
  let den := get (docLen idx) doc in
  if decide (den = 0) then []
  else [mkHit doc (F64.mul (F64.div (of_int tfreq) (of_int den)) idf)].

Definition SearchTFIDF (idx : t) (term : string) : slice Hit :=
  if decide (term = "" \/ N idx = 0) then None else
  let q := ToLower term in
  if decide (q ∈ stop idx) then None else
  let s := stem q in
  let df := get (df idx) s in
  if decide (df = 0) then None else
  let idf := Log (F64.div (of_int (N idx)) (of_int df)) in
  let hits := flat_map (score_row idx idf) (map_to_list (default ∅ (tf idx !! s))) in
  Some (sort_Slice lessHit hits).

Definition Close (idx : t) : error := None.

(** A sequence of [Add] calls. *)
Definition run (idx : t) (calls : list (string * list string)) : t :=
  foldl (fun i c => Add i (fst c) (snd c)) idx calls.
End InMemIndex.
End InMemIndex.

(** The two in-memory indexes hold the same maps. *)
Definition same_index (a : InMemIndex.t) (b : InMemIndexer.t) : Prop :=
  InMemIndex.tf a = InMemIndexer.tf b
  /\ InMemIndex.df a = InMemIndexer.df b
  /\ InMemIndex.docLen a = InMemIndexer.docLen b
  /\ InMemIndex.N a = InMemIndexer.N b
  /\ InMemIndex.stop a = InMemIndexer.stop b.

(** The stemmer gives the words of the calls the stems of their
    lower-cased forms. *)
Definition stems_fold_case `{Strings} `{Snowball}
    (calls : list (string * list string)) : Prop :=
  Forall (fun c : string * list string =>
            Forall (fun w => stem w = stem (ToLower w)) (snd c)) calls.

(* ===================================================================== *)
(** * What the second SQLite index holds *)
(* ===================================================================== *)

(** The documents as given: the words of the first call for each URL,
    before any filter. *)
Definition record_raw (rd : gmap string (list string))
    (c : string * list string) : gmap string (list string) :=
  match rd !! fst c with
  | Some _ => rd
  | None => <[fst c := snd c]> rd
  end.

Definition raw_corpus (calls : list (string * list string))
    : gmap string (list string) :=
  foldl record_raw ∅ calls.

(** The rows of the join that one row of [term_frequencies] yields for
    a term id: [(url, frequency, word_count)]. *)
Definition v2_hit_rows (us : list (Z * (string * Z))) (termID : Z)
    (h : Z * (Z * Z * Z)) : list (string * Z * Z) :=
  let '(_, (doc_id, term_id, frequency)) := h in
  if termID =? term_id then
    flat_map (fun dc : Z * (string * Z) =>
                if doc_id =? fst dc
                then [(fst (snd dc), frequency, snd (snd dc))] else [])
             us
  else [].

Definition tf_rows (us : list (Z * (string * Z))) (tfs : list (Z * (Z * Z * Z)))
    (termID : Z) : list (string * Z * Z) :=
  flat_map (v2_hit_rows us termID) tfs.

Section V2Spec.
Context `{Strings} `{Snowball}.

(** The rows [(url, frequency, word_count)] that the documents hold
    for the stem [s]: the frequency counts the words that survive the
    filters, the word count all words given. *)
Definition spec_rows_v2 (stop : gset string) (rd : gmap string (list string))
    (s : string) : list (string * Z * Z) :=
  map (fun kv : string * list string =>
         (fst kv, occurrences s (surviving stop (snd kv)),
          Z.of_nat (length (snd kv))))
      (map_to_list
         (filter (fun kv : string * list string =>
                    s ∈ surviving stop (snd kv)) rd)).

(** The store [d] of the second SQLite index represents the documents
    [rd]. *)
Record v2_represents (stop : gset string) (d : SQLiteIndexV2.database)
    (rd : gmap string (list string)) : Prop := {
  v2_docs : wf_table2 (SQLiteIndexV2.documents d);
  v2_lens : forall i u n, (i, (u, n)) ∈ SQLiteIndexV2.documents d ->
    exists ws, rd !! u = Some ws /\ n = Z.of_nat (length ws);
  v2_names : forall u, is_Some (rd !! u) ->
    u ∈ map (fun r => fst (snd r)) (SQLiteIndexV2.documents d);
  v2_voc : wf_table2 (SQLiteIndexV2.vocabulary d);
  v2_df : forall i s df, (i, (s, df)) ∈ SQLiteIndexV2.vocabulary d ->
    df = doc_freq s (surviving stop <$> rd);
  v2_all : forall s, 0 < doc_freq s (surviving stop <$> rd) ->
    s ∈ map (fun r => fst (snd r)) (SQLiteIndexV2.vocabulary d);
  v2_refs : forall i dd t f,
    (i, (dd, t, f)) ∈ SQLiteIndexV2.term_frequencies d ->
    t ∈ map fst (SQLiteIndexV2.vocabulary d)
    /\ dd ∈ map fst (SQLiteIndexV2.documents d);
  v2_rows : forall i s df, (i, (s, df)) ∈ SQLiteIndexV2.vocabulary d ->
    tf_rows (SQLiteIndexV2.documents d) (SQLiteIndexV2.term_frequencies d) i
    ≡ₚ spec_rows_v2 stop rd s
}.

(** The invariant of the loop over [uniqueTerms] in [Add], for the
    document [doc] of [n] words: [us] is the table of documents with
    the row of [doc] in it, [rd] the documents without [doc], [X] the
    terms done. *)
Record v2_loop (stop : gset string) (us : list (Z * (string * Z)))
    (rd : gmap string (list string)) (doc : string) (n : Z)
    (termFreq : gmap string Z)
    (acc : list (Z * (string * Z)) * list (Z * (Z * Z * Z)))
    (X : gset string) : Prop := {
  vl_voc : wf_table2 (fst acc);
  vl_df : forall i s df, (i, (s, df)) ∈ fst acc ->
    df = doc_freq s (surviving stop <$> rd)
         + if decide (s ∈ X) then 1 else 0;
  vl_all : forall s, 0 < doc_freq s (surviving stop <$> rd) \/ s ∈ X ->
    s ∈ map (fun r => fst (snd r)) (fst acc);
  vl_refs : forall i dd t f, (i, (dd, t, f)) ∈ snd acc ->
    t ∈ map fst (fst acc) /\ dd ∈ map fst us;
  vl_rows : forall i s df, (i, (s, df)) ∈ fst acc ->
    tf_rows us (snd acc) i
    ≡ₚ spec_rows_v2 stop rd s
       ++ if decide (s ∈ X) then [(doc, get termFreq s, n)] else []
}.

(** A row of the second SQLite index and the row of the corpus for
    the same document: the URL and the frequency are the same; the
    word count of the first counts the words given, that of the
    second the words that survive. *)
Definition row_of_raw (stop : gset string) (rd : gmap string (list string))
    (r2 r1 : string * Z * Z) : Prop :=
  fst r2 = fst r1
  /\ exists ws, rd !! fst (fst r2) = Some ws
                /\ snd r2 = Z.of_nat (length ws)
                /\ snd r1 = doc_len (surviving stop ws)
                /\ 0 < snd r1.

(** Every word of every call survives the filters. *)
Definition keeps_all (stop : gset string)
    (calls : list (string * list string)) : Prop :=
  Forall (fun c : string * list string =>
            length (surviving stop (snd c)) = length (snd c)) calls.
End V2Spec.

(** [NewSQLiteIndexV2] on a database file that holds the tables [d]
    already: [CREATE TABLE IF NOT EXISTS] leaves them as they are, and
    [N] is read from the table [documents]. *)
Definition SQLiteIndexV2_Reopen (d : SQLiteIndexV2.database)
    (stop : option (gset string)) : SQLiteIndexV2.t :=
  {| SQLiteIndexV2.db := d;
     SQLiteIndexV2.stop := default DefaultStopwords stop;
     SQLiteIndexV2.N := Z.of_nat (length (SQLiteIndexV2.documents d)) |}.

(* ===================================================================== *)
(** * index.go, search.go (package project02): the interface and
      building the index *)
(* ===================================================================== *)

Module Project02.
(** The interface [Indexer].  The methods update the index behind the
  pointer in place: those of the embedding return the updated index,
  [GetN] included, which the first SQLite index uses to refresh [N]. *)
Class Indexer (T : Type) := {
Indexer_Add : T -> string -> list string -> T;
Indexer_SearchTFIDF : T -> string -> slice Hit;
Indexer_GetN : T -> T * Z;
Indexer_Close : T -> error
}.

Section Indexers.
Context `{Strings} `{Snowball} `{Math}.

#[global] Instance InMemIndex_Indexer : Indexer InMemIndex.t := {
  Indexer_Add := InMemIndex.Add;
  Indexer_SearchTFIDF := InMemIndex.SearchTFIDF;
  Indexer_GetN := fun idx => (idx, InMemIndex.GetN idx);
  Indexer_Close := InMemIndex.Close
}.

#[global] Instance SQLiteIndex_Indexer : Indexer SQLiteIndex.t := {
  Indexer_Add := SQLiteIndex.Add;
  Indexer_SearchTFIDF := SQLiteIndex.SearchTFIDF;
  Indexer_GetN := SQLiteIndex.GetN;
  Indexer_Close := SQLiteIndex.Close
}.

#[global] Instance SQLiteIndexV2_Indexer : Indexer SQLiteIndexV2.t := {
  Indexer_Add := SQLiteIndexV2.Add;
  Indexer_SearchTFIDF := SQLiteIndexV2.SearchTFIDF;
  Indexer_GetN := fun idx => (idx, SQLiteIndexV2.GetN idx);
  Indexer_Close := fun _ => None
}.
End Indexers.

Section BuildIndex.
Context `{Strings} `{NetHTTP} `{HTML} `{Regexp}.
Context {T : Type} `{Indexer T}.

(** The body of [for _, u := range urls]. *)
Definition index_url (indexer : T) (u : string) : T :=
  match Download u with
  | (_, Some _) => indexer
  | (b, None) =>
      let words := fst (Extract (elems b)) in
      Indexer_Add indexer u (elems words)
  end.

Definition BuildIndexFromURLList (urls : list string) (indexer : T)
    : T * error :=
  (foldl index_url indexer urls, None).
End BuildIndex.
End Project02.

(** A list of URLs of the test site, the root twice. *)
Definition site_urls : list string :=
  [TestSite.root; "http://127.0.0.1:4000/d1"; TestSite.root;
   "http://127.0.0.1:4000/nowhere"].
(* ===================================================================== *)
(** * Lemmas on the in-memory backend *)
(* ===================================================================== *)

Lemma occurrences_nonneg s l : 0 <= occurrences s l.
Proof. unfold occurrences. lia. Qed.

Lemma occurrences_nil s : occurrences s [] = 0.
Proof. reflexivity. Qed.

Lemma occurrences_app s l1 l2 :
  occurrences s (l1 ++ l2) = occurrences s l1 + occurrences s l2.
Proof. unfold occurrences. rewrite List.filter_app, length_app. lia. Qed.

Lemma occurrences_single s t :
  occurrences s [t] = if decide (s = t) then 1 else 0.
Proof.
  unfold occurrences. simpl.
  destruct (String.eqb_spec s t); case_decide; simpl; first [done | congruence].
Qed.

Lemma occurrences_pos_iff s l : 0 < occurrences s l <-> s ∈ l.
Proof.
  unfold occurrences. induction l as [|t l IH]; simpl.
  - split; [lia | intros Hin; inversion Hin].
  - destruct (String.eqb_spec s t) as [->|Hne]; simpl.
    + split; [intros _; left | lia].
    + rewrite IH. split; [intros Hin; by right | ].
      intros Hin. apply elem_of_cons in Hin as [?|?]; [congruence | done].
Qed.

Lemma occurrences_le_len s l : occurrences s l <= doc_len l.
Proof.
  unfold occurrences, doc_len.
  pose proof (List.filter_length_le (String.eqb s) l). lia.
Qed.

Section InMemLemmas.
Context `{Strings} `{Snowball}.

Lemma surviving_app stop l1 l2 :
  surviving stop (l1 ++ l2) = surviving stop l1 ++ surviving stop l2.
Proof. apply omap_app. Qed.

Lemma surviving_cons stop w ws :
  surviving stop (w :: ws)
  = match normalize stop w with
    | Some s => s :: surviving stop ws
    | None => surviving stop ws
    end.
Proof. reflexivity. Qed.

(** The loop of [AddDocument], word by word. *)
Lemma add_words_spec stop doc ws : forall tf0 seen0 kept0,
  (forall s row d c, tf0 !! s = Some row -> row !! d = Some c -> 0 < c) ->
  let '(tf1, seen1, kept1) :=
    foldl (InMemIndexer.add_word stop doc) (tf0, seen0, kept0) ws in
  kept1 = kept0 + doc_len (surviving stop ws)
  /\ seen1 = list_to_set (surviving stop ws) ∪ seen0
  /\ (forall s d, get_tf tf1 s d
       = get_tf tf0 s d
         + if decide (d = doc) then occurrences s (surviving stop ws) else 0)
  /\ (forall s row d c, tf1 !! s = Some row -> row !! d = Some c -> 0 < c).
Proof.
  induction ws as [|w ws IH]; intros tf0 seen0 kept0 Hpos.
  - simpl. split; [unfold doc_len; simpl; lia|].
    split; [set_solver|]. split; [|done].
    intros s d. case_decide; rewrite ?occurrences_nil; lia.
  - rewrite surviving_cons. cbn [foldl].
    unfold InMemIndexer.add_word at 2. cbv beta iota.
    destruct (normalize stop w) as [s0|] eqn:Hn; [|by apply IH].
    set (tf1 := match tf0 !! s0 with Some _ => tf0 | None => <[s0:=∅]> tf0 end).
    set (row := default ∅ (tf1 !! s0)).
    assert (Hrow : row = default ∅ (tf0 !! s0)).
    { unfold row, tf1. destruct (tf0 !! s0) eqn:E; simpl.
      - by rewrite E.
      - by rewrite lookup_insert_eq. }
    assert (Hrow0 : forall d, 0 <= get row d).
    { intros d. rewrite Hrow. unfold get.
      destruct (tf0 !! s0) as [r|] eqn:E; simpl.
      - destruct (r !! d) eqn:E'; simpl; [|lia].
        specialize (Hpos _ _ _ _ E E'). lia.
      - rewrite lookup_empty. simpl. lia. }
    match goal with |- context [foldl _ (?a, ?b, ?c) ws] =>
      specialize (IH a b c) end.
    destruct (foldl _ _ ws) as [[tf2 seen2] kept2].
    destruct IH as (Hk & Hs & Ht & Hp).
    { intros s r d c Hl Hr.
      destruct (decide (s = s0)) as [->|Hne].
      - rewrite lookup_insert_eq in Hl. injection Hl as <-.
        destruct (decide (d = doc)) as [->|Hnd].
        + rewrite lookup_insert_eq in Hr. injection Hr as <-.
          specialize (Hrow0 doc). lia.
        + rewrite lookup_insert_ne in Hr by done.
          rewrite Hrow in Hr.
          destruct (tf0 !! s0) as [r0|] eqn:E; simpl in Hr.
          * eapply Hpos; eauto.
          * by rewrite lookup_empty in Hr.
      - rewrite lookup_insert_ne in Hl by done.
        unfold tf1 in Hl. destruct (tf0 !! s0) eqn:E.
        + eapply Hpos; eauto.
        + rewrite lookup_insert_ne in Hl by done. eapply Hpos; eauto. }
    split; [|split; [|split; [|done]]].
    + rewrite Hk. unfold doc_len. simpl. lia.
    + rewrite Hs. set_solver.
    + intros s d. rewrite Ht.
      change (s0 :: surviving stop ws) with ([s0] ++ surviving stop ws).
      rewrite occurrences_app, occurrences_single.
      unfold get_tf.
      destruct (decide (s = s0)) as [->|Hne].
      * rewrite lookup_insert_eq. simpl.
        rewrite <- Hrow. unfold get at 1.
        destruct (decide (d = doc)) as [->|Hnd].
        -- rewrite lookup_insert_eq. simpl. lia.
        -- rewrite lookup_insert_ne by done. fold (get row d). lia.
      * rewrite lookup_insert_ne by done.
        assert (tf1 !! s = tf0 !! s) as ->.
        { unfold tf1. destruct (tf0 !! s0); [done|].
          by rewrite lookup_insert_ne. }
        case_decide; lia.
Qed.

(** [for s := range seen { idx.df[s]++ }] *)
Lemma bump_df_spec seen df s :
  get (InMemIndexer.bump_df seen df) s
  = get df s + if decide (s ∈ seen) then 1 else 0.
Proof.
  unfold InMemIndexer.bump_df.
  refine (set_fold_ind_L (fun r (X : gset string) =>
            get r s = get df s + (if decide (s ∈ X) then 1 else 0)) _ _ _ _ seen).
  - case_decide; [set_solver | lia].
  - intros x X r Hx IH. unfold get in *.
    destruct (decide (x = s)) as [->|Hne].
    + rewrite lookup_insert_eq. simpl.
      rewrite IH. repeat case_decide; try set_solver; lia.
    + rewrite lookup_insert_ne by done. rewrite IH.
      repeat case_decide; try set_solver; lia.
Qed.
End InMemLemmas.

Lemma doc_freq_insert s doc l (docs : gmap string (list string)) :
  docs !! doc = None ->
  doc_freq s (<[doc := l]> docs)
  = doc_freq s docs + if decide (s ∈ l) then 1 else 0.
Proof.
  intros Hnone. unfold doc_freq. case_decide as Hin.
  - rewrite map_filter_insert_True by done.
    rewrite map_size_insert_None; [lia|].
    apply map_lookup_filter_None. by left.
  - rewrite map_filter_insert_False by done.
    rewrite delete_id by done. lia.
Qed.

Lemma doc_freq_le_count s (docs : gmap string (list string)) :
  doc_freq s docs <= doc_count docs.
Proof.
  unfold doc_freq, doc_count.
  pose proof (map_subseteq_size _ _
    (map_filter_subseteq (fun kv : string * list string => s ∈ snd kv) docs)).
  lia.
Qed.

Lemma doc_freq_pos_iff s (docs : gmap string (list string)) :
  0 < doc_freq s docs <-> exists d l, docs !! d = Some l /\ s ∈ l.
Proof.
  unfold doc_freq. split.
  - intros Hpos.
    destruct (map_choose_or_empty
                (filter (fun kv : string * list string => s ∈ snd kv) docs))
      as [(d & l & Hl)|Hemp].
    + apply map_lookup_filter_Some in Hl as [? ?]. eauto.
    + rewrite Hemp, map_size_empty in Hpos. lia.
  - intros (d & l & Hl & Hin).
    assert (filter (fun kv : string * list string => s ∈ snd kv) docs !! d = Some l)
      as Hf by (apply map_lookup_filter_Some; done).
    assert (size (filter (fun kv : string * list string => s ∈ snd kv) docs) ≠ 0%nat).
    { apply map_size_non_empty_iff. intros Hemp.
      rewrite Hemp, lookup_empty in Hf. done. }
    lia.
Qed.

Section InMemRepresentation.
Context {strs : Strings} {snow : Snowball}.

Lemma New_represents stop : represents (InMemIndexer.New stop) ∅.
Proof.
  split; simpl.
  - unfold doc_count. by rewrite map_size_empty.
  - by rewrite fmap_empty.
  - intros s d. unfold get_tf, get. by rewrite !lookup_empty.
  - intros s row d c Hl. by rewrite lookup_empty in Hl.
  - intros s. unfold get, doc_freq.
    by rewrite lookup_empty, map_filter_empty, map_size_empty.
Qed.

Lemma AddDocument_stop idx doc ws :
  InMemIndexer.stop (fst (InMemIndexer.AddDocument idx doc ws))
  = InMemIndexer.stop idx.
Proof.
  unfold InMemIndexer.AddDocument.
  destruct (InMemIndexer.docLen idx !! doc); [done|].
  by destruct (foldl _ _ ws) as [[? ?] ?].
Qed.

Lemma AddDocument_represents idx docs doc ws :
  represents idx docs ->
  represents (fst (InMemIndexer.AddDocument idx doc ws))
             (record_doc (InMemIndexer.stop idx) docs (doc, ws)).
Proof.
  intros [HN HL Htf Hpos Hdf].
  unfold InMemIndexer.AddDocument, record_doc. simpl.
  rewrite HL, lookup_fmap.
  destruct (docs !! doc) as [l0|] eqn:Hdoc; simpl; [by split|].
  pose proof (add_words_spec (InMemIndexer.stop idx) doc ws
                (InMemIndexer.tf idx) ∅ 0 Hpos) as Hloop.
  destruct (foldl _ _ ws) as [[tf1 seen1] kept1].
  destruct Hloop as (Hk & Hs & Ht & Hp).
  set (l := surviving (InMemIndexer.stop idx) ws) in *.
  split; simpl.
  - rewrite HN. unfold doc_count.
    rewrite map_size_insert_None by done. lia.
  - rewrite fmap_insert. f_equal. lia.
  - intros s d. rewrite Ht, Htf.
    destruct (decide (d = doc)) as [->|Hne].
    + rewrite Hdoc, lookup_insert_eq. lia.
    + rewrite lookup_insert_ne by done. lia.
  - done.
  - intros s. rewrite bump_df_spec, Hdf, doc_freq_insert by done.
    f_equal. rewrite Hs.
    repeat case_decide; try done; set_solver.
Qed.

Lemma run_stop calls : forall idx,
  InMemIndexer.stop (InMemIndexer.run idx calls) = InMemIndexer.stop idx.
Proof.
  induction calls as [|c calls IH]; intros idx; [done|].
  unfold InMemIndexer.run in *. cbn [foldl].
  by rewrite IH, AddDocument_stop.
Qed.

Lemma run_represents calls : forall idx docs,
  represents idx docs ->
  represents (InMemIndexer.run idx calls)
             (foldl (record_doc (InMemIndexer.stop idx)) docs calls).
Proof.
  induction calls as [|[doc ws] calls IH]; intros idx docs Hrep; [done|].
  unfold InMemIndexer.run in *. cbn [foldl fst snd].
  pose proof (IH _ _ (AddDocument_represents idx docs doc ws Hrep)) as Hnext.
  by rewrite AddDocument_stop in Hnext.
Qed.

(** Every index built from [NewInMemIndexer] by [AddDocument] calls
    represents the corpus of those calls. *)
Lemma reachable_represents stop calls :
  represents (InMemIndexer.run (InMemIndexer.New stop) calls)
             (corpus (default DefaultStopwords stop) calls).
Proof.
  exact (run_represents calls (InMemIndexer.New stop) ∅ (New_represents stop)).
Qed.
End InMemRepresentation.

(* ===================================================================== *)
(** * [sort.Slice]: the result is a permutation of the input *)
(* ===================================================================== *)

Section SortPerm.
Context {A : Type} (less : A -> A -> bool).

Lemma insert_sorted_perm x l : Permutation (insert_sorted less x l) (x :: l).
Proof.
  induction l as [|y l IH]; simpl; [done|].
  destruct (less y x); [|done].
  rewrite IH. apply perm_swap.
Qed.

Lemma sort_Slice_perm l : Permutation (sort_Slice less l) l.
Proof.
  induction l as [|x l IH]; simpl; [done|].
  by rewrite insert_sorted_perm, IH.
Qed.

Lemma sort_Slice_elem x l : x ∈ sort_Slice less l <-> x ∈ l.
Proof. by rewrite sort_Slice_perm. Qed.

Lemma sort_Slice_nil_iff l : sort_Slice less l = [] <-> l = [].
Proof.
  split; [|by intros ->].
  intros Hs. pose proof (sort_Slice_perm l) as Hp. rewrite Hs in Hp.
  by apply Permutation_nil in Hp.
Qed.
End SortPerm.

(* ===================================================================== *)
(** * Search on the in-memory backend *)
(* ===================================================================== *)

Section InMemSearch.
Context {strs : Strings} {snow : Snowball} {math : Math}.

(** The postings of a stem are the documents that contain it. *)
Lemma represents_posting idx docs s d c :
  represents idx docs ->
  default ∅ (InMemIndexer.tf idx !! s) !! d = Some c <->
  exists l, docs !! d = Some l /\ s ∈ l /\ c = occurrences s l.
Proof.
  intros [HN HL Htf Hpos Hdf]. specialize (Htf s d).
  unfold get_tf, get in Htf. split.
  - intros Hc. rewrite Hc in Htf. simpl in Htf.
    assert (0 < c) as Hc0.
    { destruct (InMemIndexer.tf idx !! s) as [row|] eqn:E; simpl in Hc.
      - eapply Hpos; eauto.
      - by rewrite lookup_empty in Hc. }
    destruct (docs !! d) as [l|]; [|lia].
    exists l. split; [done|]. split; [|done].
    apply occurrences_pos_iff. lia.
  - intros (l & Hl & Hin & ->). rewrite Hl in Htf.
    apply occurrences_pos_iff in Hin.
    destruct (default ∅ (InMemIndexer.tf idx !! s) !! d) as [c|];
      simpl in Htf; [by subst | lia].
Qed.

Lemma represents_docLen idx docs d l :
  represents idx docs -> docs !! d = Some l ->
  get (InMemIndexer.docLen idx) d = doc_len l.
Proof.
  intros [HN HL Htf Hpos Hdf] Hl. unfold get.
  by rewrite HL, lookup_fmap, Hl.
Qed.

(** Membership in the unsorted hits. *)
Lemma elem_of_collect idx docs s idf h :
  represents idx docs ->
  h ∈ InMemIndexer.collect idx idf
        (map_to_list (default ∅ (InMemIndexer.tf idx !! s))) <->
  exists l, docs !! URL h = Some l /\ s ∈ l /\
    Score h = F64.mul (F64.div (of_int (occurrences s l)) (of_int (doc_len l))) idf.
Proof.
  intros Hrep. unfold InMemIndexer.collect.
  rewrite list_elem_of_In, in_flat_map. split.
  - intros ([d c] & Hin & Hh).
    apply list_elem_of_In, elem_of_map_to_list in Hin.
    apply (represents_posting _ _ _ _ _ Hrep) in Hin as (l & Hl & Hsl & ->).
    unfold InMemIndexer.score_row in Hh.
    rewrite (represents_docLen _ _ _ _ Hrep Hl) in Hh.
    case_decide; [by destruct Hh|].
    destruct Hh as [<-|[]]. simpl. eauto.
  - intros (l & Hl & Hsl & Hsc).
    exists (URL h, occurrences s l). split.
    + apply list_elem_of_In, elem_of_map_to_list.
      apply (represents_posting _ _ _ _ _ Hrep). eauto.
    + unfold InMemIndexer.score_row.
      rewrite (represents_docLen _ _ _ _ Hrep Hl).
      pose proof (occurrences_le_len s l).
      apply occurrences_pos_iff in Hsl.
      case_decide; [lia|]. left. destruct h; simpl in *. by subst.
Qed.

Lemma Search_no_result idx term :
  no_result idx term -> InMemIndexer.Search idx term = (None, None).
Proof.
  unfold no_result, InMemIndexer.Search. intros Hno.
  repeat case_decide; try done; exfalso; tauto.
Qed.

Lemma Search_result idx term :
  ~ no_result idx term ->
  InMemIndexer.Search idx term
  = (Some (sort_Slice lessHit
       (InMemIndexer.collect idx
          (Log (F64.div (of_int (InMemIndexer.N idx))
                        (of_int (get (InMemIndexer.df idx) (stem (ToLower term))))))
          (map_to_list
             (default ∅ (InMemIndexer.tf idx !! stem (ToLower term)))))),
     None).
Proof.
  unfold no_result, InMemIndexer.Search. intros Hno.
  repeat case_decide; try done; exfalso; tauto.
Qed.

Lemma Search_error idx term : snd (InMemIndexer.Search idx term) = None.
Proof. unfold InMemIndexer.Search. by repeat case_decide. Qed.

(** Every hit of [Search] on an index that represents [docs] is the
    TF-IDF hit of a document of [docs] that contains the stem, and
    conversely. *)
Lemma Search_represents idx docs term h :
  represents idx docs ->
  h ∈ elems (fst (InMemIndexer.Search idx term)) <->
  ~ no_result idx term /\
  exists l, docs !! URL h = Some l /\ stem (ToLower term) ∈ l /\
            Score h = tfidf docs (stem (ToLower term)) l.
Proof.
  intros Hrep.
  destruct (decide (no_result idx term)) as [Hno|Hyes].
  - rewrite (Search_no_result _ _ Hno). simpl.
    split; [intros Hin; inversion Hin | tauto].
  - rewrite (Search_result _ _ Hyes). simpl.
    rewrite sort_Slice_elem, (elem_of_collect _ _ _ _ _ Hrep).
    unfold tfidf. rewrite (rep_N _ _ Hrep), (rep_df _ _ Hrep). tauto.
Qed.
End InMemSearch.

(* ===================================================================== *)
(** * Properties of the in-memory backend on reachable states *)
(* ===================================================================== *)

Section InMemReachable.
Context {strs : Strings} {snow : Snowball} {math : Math}.

(** Re-adding a URL leaves the in-memory index untouched. *)
Lemma InMem_AddDocument_known idx u w :
  is_Some (InMemIndexer.docLen idx !! u) ->
  InMemIndexer.AddDocument idx u w = (idx, None).
Proof. intros [n Hn]. unfold InMemIndexer.AddDocument. by rewrite Hn. Qed.

Lemma InMem_known_iff idx docs u :
  represents idx docs ->
  is_Some (InMemIndexer.docLen idx !! u) <-> is_Some (docs !! u).
Proof.
  intros Hrep. rewrite (rep_docLen _ _ Hrep), lookup_fmap.
  by rewrite fmap_is_Some.
Qed.

Lemma represents_df_le_N idx docs s :
  represents idx docs ->
  0 <= get (InMemIndexer.df idx) s <= InMemIndexer.N idx.
Proof.
  intros Hrep. rewrite (rep_df _ _ Hrep), (rep_N _ _ Hrep).
  pose proof (doc_freq_le_count s docs). unfold doc_freq in *. lia.
Qed.

(** Outside the four cases some document contains the stem, and it
    yields a hit. *)
Lemma represents_Search_nonempty idx docs term :
  represents idx docs -> ~ no_result idx term ->
  elems (fst (InMemIndexer.Search idx term)) <> [].
Proof.
  intros Hrep Hyes.
  assert (0 < doc_freq (stem (ToLower term)) docs) as Hdf.
  { pose proof (represents_df_le_N idx docs (stem (ToLower term)) Hrep).
    rewrite <- (rep_df _ _ Hrep).
    unfold no_result in Hyes.
    destruct (decide (get (InMemIndexer.df idx) (stem (ToLower term)) = 0));
      [tauto | lia]. }
  apply doc_freq_pos_iff in Hdf as (d & l & Hl & Hin).
  intros Hnil.
  assert (mkHit d (tfidf docs (stem (ToLower term)) l)
          ∈ elems (fst (InMemIndexer.Search idx term))) as Hh.
  { apply (Search_represents _ _ _ _ Hrep). split; [done|]. simpl. eauto. }
  rewrite Hnil in Hh. inversion Hh.
Qed.
End InMemReachable.

(* ===================================================================== *)
(** * Properties of the SQLite backend on reachable states *)
(* ===================================================================== *)

Section SQLiteReachable.
Context {strs : Strings} {snow : Snowball} {math : Math}.

Lemma select_id_elem tbl name i :
  Sql.select_id tbl name = Some i -> i ∈ map fst tbl.
Proof.
  unfold Sql.select_id. intros Hs.
  destruct (List.find _ tbl) as [r|] eqn:Hf; [|done].
  injection Hs as <-. apply find_some in Hf as [Hin _].
  apply list_elem_of_In, in_map, Hin.
Qed.

Lemma insert_or_ignore_incl tbl name i :
  i ∈ map fst tbl -> i ∈ map fst (Sql.insert_or_ignore tbl name).
Proof.
  unfold Sql.insert_or_ignore. destruct (Sql.select_id tbl name); [done|].
  rewrite map_app. set_solver.
Qed.

(** The entries of [wordCount] are positive. *)
Lemma count_words_pos stop ws : forall wc,
  (forall s c, wc !! s = Some c -> 0 < c) ->
  forall s c, foldl (SQLiteIndexer.count_word stop) wc ws !! s = Some c -> 0 < c.
Proof.
  induction ws as [|w ws IH]; intros wc Hwc; [done|].
  cbn [foldl]. apply IH. unfold SQLiteIndexer.count_word.
  destruct (normalize stop w) as [s0|]; [|done].
  intros s c. destruct (decide (s = s0)) as [->|Hne].
  - rewrite lookup_insert_eq. intros [= <-]. unfold get.
    destruct (wc !! s0) as [c0|] eqn:E; simpl; [|lia].
    specialize (Hwc _ _ E). lia.
  - rewrite lookup_insert_ne by done. apply Hwc.
Qed.

Lemma post_words_ok urlID (ids : list Z) es : forall ws hs,
  urlID ∈ ids ->
  (forall e, e ∈ es -> 0 < snd e) ->
  (forall u w c, (u, w, c) ∈ hs -> 0 < c /\ u ∈ ids) ->
  forall u w c,
    (u, w, c) ∈ snd (foldl (SQLiteIndexer.post_word urlID) (ws, hs) es) ->
    0 < c /\ u ∈ ids.
Proof.
  induction es as [|[word count] es IH]; intros ws hs Hid Hes Hhs; [done|].
  cbn [foldl]. unfold SQLiteIndexer.post_word at 2.
  apply IH; [done | intros e He; apply Hes; by right |].
  unfold SQLiteIndexer.insert_or_replace_hit.
  destruct (Sql.select_id _ word) as [wordID|]; [|done].
  intros u w c Hin. apply elem_of_app in Hin as [Hin|Hin].
  - apply list_elem_of_In, filter_In in Hin as [Hin _].
    apply Hhs with w. by apply list_elem_of_In.
  - apply list_elem_of_singleton in Hin. injection Hin as -> -> ->.
    split; [|done]. apply (Hes (word, count)). by left.
Qed.

Lemma SQLite_AddDocument_ok idx url ws :
  postings_ok (SQLiteIndexer.db idx) ->
  postings_ok (SQLiteIndexer.db (fst (SQLiteIndexer.AddDocument idx url ws))).
Proof.
  intros Hok. unfold SQLiteIndexer.AddDocument.
  destruct (Sql.select_id _ url) as [urlID|] eqn:Hsel; [|done].
  pose proof (post_words_ok urlID
    (map fst (Sql.insert_or_ignore (SQLiteIndexer.urls (SQLiteIndexer.db idx)) url))
    (map_to_list (foldl (SQLiteIndexer.count_word (SQLiteIndexer.stop idx)) ∅ ws))
    (SQLiteIndexer.words (SQLiteIndexer.db idx))
    (SQLiteIndexer.hits (SQLiteIndexer.db idx))) as Hpost.
  destruct (foldl (SQLiteIndexer.post_word urlID) _ _) as [words' hits'].
  simpl in *. intros u w c Hin. eapply Hpost; eauto.
  - by eapply select_id_elem.
  - intros [s n] He. apply elem_of_map_to_list in He. simpl.
    eapply (count_words_pos _ ws ∅); [|done].
    intros s' c'. by rewrite lookup_empty.
  - intros u' w' c' Hin'. destruct (Hok _ _ _ Hin') as [? ?].
    split; [done|]. by apply insert_or_ignore_incl.
Qed.

Lemma SQLite_AddDocument_stop idx url ws :
  SQLiteIndexer.stop (fst (SQLiteIndexer.AddDocument idx url ws))
  = SQLiteIndexer.stop idx.
Proof.
  unfold SQLiteIndexer.AddDocument.
  destruct (Sql.select_id _ url); [|done].
  by destruct (foldl _ _ _) as [? ?].
Qed.

Lemma SQLite_run_stop calls : forall idx,
  SQLiteIndexer.stop (SQLiteIndexer.run idx calls) = SQLiteIndexer.stop idx.
Proof.
  induction calls as [|c calls IH]; intros idx; [done|].
  unfold SQLiteIndexer.run in *. cbn [foldl].
  by rewrite IH, SQLite_AddDocument_stop.
Qed.

Lemma SQLite_reachable_ok stop calls :
  postings_ok (SQLiteIndexer.db (SQLiteIndexer.run (SQLiteIndexer.New stop) calls)).
Proof.
  unfold SQLiteIndexer.run.
  assert (postings_ok (SQLiteIndexer.db (SQLiteIndexer.New stop))) as H0.
  { intros u w c Hin. inversion Hin. }
  revert H0. generalize (SQLiteIndexer.New stop).
  induction calls as [|c calls IH]; intros idx Hok; [done|].
  cbn [foldl]. apply IH. by apply SQLite_AddDocument_ok.
Qed.

Lemma total_words_ge d u w c :
  (forall u w c, (u, w, c) ∈ SQLiteIndexer.hits d -> 0 < c) ->
  (u, w, c) ∈ SQLiteIndexer.hits d ->
  c <= SQLiteIndexer.total_words d u.
Proof.
  unfold SQLiteIndexer.total_words. intros Hpos.
  induction (SQLiteIndexer.hits d) as [|[[u' w'] c'] hs IH]; intros Hin.
  - inversion Hin.
  - assert (0 <= foldr Z.add 0
              (map snd (List.filter (fun h : Z * Z * Z => (h.1.1 =? u)%Z) hs))) as Hnn.
    { assert (forall u w c, (u, w, c) ∈ hs -> 0 < c) as Hpos'
        by (intros ? ? ? ?; eapply Hpos; by right).
      clear -Hpos'. induction hs as [|[[a b] n] hs IH]; simpl; [lia|].
      assert (0 <= foldr Z.add 0
               (map snd (List.filter (fun h : Z * Z * Z => (h.1.1 =? u)%Z) hs)))
        by (apply IH; intros ? ? ? ?; eapply Hpos'; by right).
      destruct (a =? u)%Z; simpl; [|done].
      specialize (Hpos' a b n ltac:(left)). lia. }
    apply elem_of_cons in Hin as [Heq|Hin].
    + injection Heq as <- <- <-. simpl. rewrite Z.eqb_refl. simpl. lia.
    + simpl. specialize (IH ltac:(intros ? ? ? ?; eapply Hpos; by right) Hin).
      destruct (u' =? u)%Z; simpl; [|done].
      specialize (Hpos u' w' c' ltac:(left)). lia.
Qed.

Lemma SQLite_Search_no_result idx term :
  no_result_sqlite idx term -> SQLiteIndexer.Search idx term = (None, None).
Proof.
  unfold no_result_sqlite, SQLiteIndexer.Search. intros Hno.
  repeat case_decide; try done; exfalso; tauto.
Qed.

Lemma SQLite_Search_error idx term : snd (SQLiteIndexer.Search idx term) = None.
Proof. unfold SQLiteIndexer.Search. by repeat case_decide. Qed.

Lemma elems_appended {A} (l : list A) : elems (SQLiteIndexer.appended l) = l.
Proof. by destruct l. Qed.

(** A posting for the stem gives a row of the join. *)
Lemma join_rows_nonempty d s :
  postings_ok d -> SQLiteIndexer.count_hits d s <> 0 ->
  exists name c t, (name, c, t) ∈ SQLiteIndexer.join_rows d s /\ 0 < t.
Proof.
  intros Hok Hdf. unfold SQLiteIndexer.count_hits in Hdf.
  destruct (flat_map _ (SQLiteIndexer.hits d)) as [|w0 rest] eqn:Hfm;
    [done|].
  assert (In w0 (flat_map (fun h : Z * Z * Z =>
            List.filter (fun w : Z * string =>
               (h.1.2 =? w.1)%Z && String.eqb w.2 s) (SQLiteIndexer.words d))
            (SQLiteIndexer.hits d))) as Hin by (rewrite Hfm; by left).
  apply in_flat_map in Hin as ([[u w] c] & Hh & Hw).
  apply filter_In in Hw as [Hw Hmatch]. simpl in Hmatch.
  apply andb_true_iff in Hmatch as [Hid Hword].
  apply list_elem_of_In in Hh.
  destruct (Hok _ _ _ Hh) as [Hc Hu].
  apply list_elem_of_In, in_map_iff in Hu as ([u' name] & Hfst & Hurl).
  simpl in Hfst. subst u'.
  exists name, c, (SQLiteIndexer.total_words d u). split.
  - unfold SQLiteIndexer.join_rows.
    apply list_elem_of_In, in_flat_map. exists (u, name). split; [done|].
    apply in_flat_map. exists (u, w, c). split; [by apply list_elem_of_In|].
    simpl. rewrite Z.eqb_refl.
    apply in_flat_map. exists w0. split; [done|].
    rewrite Z.eqb_sym, Hid, Hword. by left.
  - pose proof (total_words_ge d u w c) as Hge.
    assert (c <= SQLiteIndexer.total_words d u); [|lia].
    apply Hge; [|done]. intros ? ? ? Hin'. by destruct (Hok _ _ _ Hin').
Qed.

Lemma SQLite_Search_nonempty idx term :
  postings_ok (SQLiteIndexer.db idx) -> ~ no_result_sqlite idx term ->
  elems (fst (SQLiteIndexer.Search idx term)) <> [].
Proof.
  intros Hok Hyes. unfold no_result_sqlite in Hyes.
  unfold SQLiteIndexer.Search.
  repeat case_decide; try (exfalso; tauto).
  destruct (join_rows_nonempty (SQLiteIndexer.db idx) (stem (ToLower term)) Hok)
    as (name & c & t & Hrow & Ht); [done|].
  simpl. rewrite elems_appended. rewrite sort_Slice_nil_iff.
  match goal with |- flat_map ?f ?l <> [] =>
    assert (In (mkHit name (F64.mul (F64.div (of_int c) (of_int t))
              (Log (F64.div
                 (of_int (Z.of_nat (length (SQLiteIndexer.urls (SQLiteIndexer.db idx)))))
                 (of_int (SQLiteIndexer.count_hits (SQLiteIndexer.db idx)
                            (stem (ToLower term))))))))
               (flat_map f l)) as Hin end.
  { apply in_flat_map. exists (name, c, t).
    split; [by apply list_elem_of_In|].
    unfold SQLiteIndexer.score_row.
    destruct (Z.ltb_spec 0 t); [by left | lia]. }
  intros Hnil. by rewrite Hnil in Hin.
Qed.
End SQLiteReachable.

(* ===================================================================== *)
(** * C4 *)
(* ===================================================================== *)

(** C4. On every index built by [AddDocument] calls, and on both
    backends, [Search] never returns an error, and its result is empty
    exactly when the term is empty, [N] is 0, the lowercased term is a
    stopword, or the stem has document frequency 0.  In particular a
    stopword yields the empty result whatever the corpus is. *)
Theorem Search_empty_exactly
    {strs : Strings} {snow : Snowball} {math : Math}
    (stop : option (gset string)) (calls : list (string * list string))
    (term : string) :
  let mem := InMemIndexer.run (InMemIndexer.New stop) calls in
  let sql := SQLiteIndexer.run (SQLiteIndexer.New stop) calls in
  (snd (InMemIndexer.Search mem term) = None
   /\ (elems (fst (InMemIndexer.Search mem term)) = [] <-> no_result mem term))
  /\ (snd (SQLiteIndexer.Search sql term) = None
      /\ (elems (fst (SQLiteIndexer.Search sql term)) = []
          <-> no_result_sqlite sql term))
  /\ (ToLower term ∈ default DefaultStopwords stop ->
      InMemIndexer.Search mem term = (None, None)
      /\ SQLiteIndexer.Search sql term = (None, None)).
Proof.
  intros mem sql.
  pose proof (reachable_represents stop calls) as Hrep. fold mem in Hrep.
  pose proof (SQLite_reachable_ok stop calls) as Hok. fold sql in Hok.
  split; [|split].
  - split; [apply Search_error|]. split.
    + intros Hnil. destruct (decide (no_result mem term)) as [|Hyes]; [done|].
      by destruct (represents_Search_nonempty _ _ _ Hrep Hyes).
    + intros Hno. by rewrite (Search_no_result _ _ Hno).
  - split; [apply SQLite_Search_error|]. split.
    + intros Hnil.
      destruct (decide (no_result_sqlite sql term)) as [|Hyes]; [done|].
      by destruct (SQLite_Search_nonempty _ _ Hok Hyes).
    + intros Hno. by rewrite (SQLite_Search_no_result _ _ Hno).
  - intros Hstop. split.
    + apply Search_no_result. right. right. left.
      unfold mem. by rewrite run_stop.
    + apply SQLite_Search_no_result. right. right. left.
      unfold sql. by rewrite SQLite_run_stop.
Qed.

Lemma Search_empty_exactly_witness :
  let mem :=
    @InMemIndexer.run AsciiLib.strings AsciiLib.snowball
      (InMemIndexer.New None) ship_calls in
  let sql :=
    @SQLiteIndexer.run AsciiLib.strings AsciiLib.snowball
      (SQLiteIndexer.New None) ship_calls in
  @InMemIndexer.Search AsciiLib.strings AsciiLib.snowball TestMath.math
     mem "The" = (None, None)
  /\ @SQLiteIndexer.Search AsciiLib.strings AsciiLib.snowball TestMath.math
       sql "The" = (None, None).
Proof.
  intros mem sql.
  destruct (@Search_empty_exactly AsciiLib.strings AsciiLib.snowball
              TestMath.math None ship_calls "The") as (_ & _ & Hstop).
  apply Hstop. apply (bool_decide_unpack _). vm_compute. exact I.
Defined.

(* ===================================================================== *)
(** * Evaluating the backends on concrete calls *)
(* ===================================================================== *)

(** Replace a closed subterm by its value. *)
Ltac eval_closed t :=
  let v := eval vm_compute in t in
  replace t with v by (vm_compute; reflexivity).

(** Refute a closed decidable proposition by computation. *)
Ltac refute_closed :=
  let Hc := fresh "Hc" in
  intros Hc; apply (bool_decide_pack _) in Hc; vm_compute in Hc; exact Hc.

Section Evaluation.
Context {math : Math}.
Existing Instance AsciiLib.strings.
Existing Instance AsciiLib.snowball.

Lemma V2_whale :
  SQLiteIndexV2.SearchTFIDF
    (SQLiteIndexV2.run (SQLiteIndexV2.New None) whale_calls) "whale"
  = Some [mkHit "doc1" (F64.mul (F64.div (of_int 2) (of_int 5))
                                (Log (F64.div (of_int 2) (of_int 1))))].
Proof.
  unfold SQLiteIndexV2.SearchTFIDF.
  set (idx := SQLiteIndexV2.run (SQLiteIndexV2.New None) whale_calls).
  rewrite decide_False by refute_closed.
  rewrite decide_False by refute_closed.
  eval_closed (SQLiteIndexV2.join_rows (SQLiteIndexV2.db idx)
                 (english_Stem (ToLower "whale"))).
  eval_closed (SQLiteIndexV2.N idx).
  reflexivity.
Qed.

Lemma InMem_whale :
  InMemIndexer.Search
    (InMemIndexer.run (InMemIndexer.New None) whale_calls) "whale"
  = (Some [mkHit "doc1" (F64.mul (F64.div (of_int 2) (of_int 3))
                                 (Log (F64.div (of_int 2) (of_int 1))))], None).
Proof.
  set (idx := InMemIndexer.run (InMemIndexer.New None) whale_calls).
  rewrite Search_result by refute_closed.
  eval_closed (map_to_list
    (default ∅ (InMemIndexer.tf idx !! stem (ToLower "whale")))).
  eval_closed (InMemIndexer.N idx).
  eval_closed (get (InMemIndexer.df idx) (stem (ToLower "whale"))).
  unfold InMemIndexer.collect, InMemIndexer.score_row. cbn [flat_map].
  eval_closed (get (InMemIndexer.docLen idx) "doc1").
  reflexivity.
Qed.

Lemma InMem_readd_ship :
  InMemIndexer.Search
    (InMemIndexer.run (InMemIndexer.New None) readd_calls) "ship"
  = (None, None).
Proof. apply Search_no_result. do 3 right. vm_compute. reflexivity. Qed.

Lemma SQLite_readd_ship :
  SQLiteIndexer.Search
    (SQLiteIndexer.run (SQLiteIndexer.New None) readd_calls) "ship"
  = (Some [mkHit "d" (F64.mul (F64.div (of_int 1) (of_int 2))
                              (Log (F64.div (of_int 1) (of_int 1))))], None).
Proof.
  unfold SQLiteIndexer.Search.
  set (idx := SQLiteIndexer.run (SQLiteIndexer.New None) readd_calls).
  rewrite decide_False by refute_closed.
  rewrite decide_False by refute_closed.
  rewrite decide_False by refute_closed.
  rewrite decide_False by refute_closed.
  eval_closed (SQLiteIndexer.join_rows (SQLiteIndexer.db idx)
                 (stem (ToLower "ship"))).
  eval_closed (Z.of_nat (length (SQLiteIndexer.urls (SQLiteIndexer.db idx)))).
  eval_closed (SQLiteIndexer.count_hits (SQLiteIndexer.db idx)
                 (stem (ToLower "ship"))).
  reflexivity.
Qed.
End Evaluation.

(* ===================================================================== *)
(** * C1, C2, C3 *)
(* ===================================================================== *)

(** C1.  Every hit of the in-memory [Search] carries the score
    [(count_in_doc / docLen) * ln(N / df)] of the specification, the
    counts being those of the corpus that the [AddDocument] calls denote.
    The second SQLite backend does not: it stores [len(words)], the
    number of raw words, as the length of a document.  After indexing
    ["whale whale ship and the"] (three surviving tokens) and ["ship"],
    the hit for ["whale"] is scored [2/5 * ln 2] instead of
    [2/3 * ln 2]. *)
Theorem SQLiteIndexV2_length_counts_dropped_words {math : Math} :
  (forall (strs : Strings) (snow : Snowball)
          (stop : option (gset string)) (calls : list (string * list string))
          (term : string) (h : Hit),
     let docs := corpus (default DefaultStopwords stop) calls in
     h ∈ elems (fst (InMemIndexer.Search
                       (InMemIndexer.run (InMemIndexer.New stop) calls) term)) ->
     exists l, docs !! URL h = Some l
               /\ Score h = tfidf docs (stem (ToLower term)) l)
  /\ (let strs := AsciiLib.strings in
      let snow := AsciiLib.snowball in
      let docs := corpus DefaultStopwords whale_calls in
      docs !! "doc1" = Some ["whale"; "whale"; "ship"]
      /\ tfidf docs "whale" ["whale"; "whale"; "ship"]
         = F64.mul (F64.div (of_int 2) (of_int 3))
                   (Log (F64.div (of_int 2) (of_int 1)))
      /\ InMemIndexer.Search
           (InMemIndexer.run (InMemIndexer.New None) whale_calls) "whale"
         = (Some [mkHit "doc1" (tfidf docs "whale" ["whale"; "whale"; "ship"])],
            None)
      /\ SQLiteIndexV2.SearchTFIDF
           (SQLiteIndexV2.run (SQLiteIndexV2.New None) whale_calls) "whale"
         = Some [mkHit "doc1" (F64.mul (F64.div (of_int 2) (of_int 5))
                                       (Log (F64.div (of_int 2) (of_int 1))))]
      /\ F64.div (of_int 2) (of_int 5) <> F64.div (of_int 2) (of_int 3)).
Proof.
  split.
  { intros strs snow stop calls term h docs Hh.
    apply (Search_represents _ docs) in Hh; [|apply reachable_represents].
    destruct Hh as (_ & l & Hl & _ & Hsc). by exists l. }
  intros strs snow docs.
  assert (tfidf docs "whale" ["whale"; "whale"; "ship"]
          = F64.mul (F64.div (of_int 2) (of_int 3))
                    (Log (F64.div (of_int 2) (of_int 1)))) as Htf.
  { unfold tfidf.
    eval_closed (doc_count docs). eval_closed (doc_freq "whale" docs).
    reflexivity. }
  split; [by vm_compute|]. split; [done|].
  split; [rewrite Htf; apply InMem_whale|].
  split; [apply V2_whale|].
  vm_compute. discriminate.
Qed.

(** C2.  The backends disagree.  After [AddDocument("d", ["whale"])] and
    [AddDocument("d", ["ship"])] the in-memory backend finds nothing for
    ["ship"], the SQLite backend returns a hit for ["d"]; after the calls
    of C1 the in-memory backend and the second SQLite backend return
    different scores. *)
Theorem backends_disagree {math : Math} :
  let strs := AsciiLib.strings in
  let snow := AsciiLib.snowball in
  (InMemIndexer.Search
     (InMemIndexer.run (InMemIndexer.New None) readd_calls) "ship"
   = (None, None)
   /\ SQLiteIndexer.Search
        (SQLiteIndexer.run (SQLiteIndexer.New None) readd_calls) "ship"
      = (Some [mkHit "d" (F64.mul (F64.div (of_int 1) (of_int 2))
                                  (Log (F64.div (of_int 1) (of_int 1))))], None))
  /\ (exists idf,
        InMemIndexer.Search
          (InMemIndexer.run (InMemIndexer.New None) whale_calls) "whale"
        = (Some [mkHit "doc1" (F64.mul (F64.div (of_int 2) (of_int 3)) idf)], None)
        /\ SQLiteIndexV2.SearchTFIDF
             (SQLiteIndexV2.run (SQLiteIndexV2.New None) whale_calls) "whale"
           = Some [mkHit "doc1" (F64.mul (F64.div (of_int 2) (of_int 5)) idf)]).
Proof.
  intros strs snow. split.
  - split; [apply InMem_readd_ship | apply SQLite_readd_ship].
  - eexists. split; [apply InMem_whale | apply V2_whale].
Qed.

(** C3.  On the in-memory backend a further [AddDocument] of a known URL
    changes nothing.  On the SQLite backend it does: after
    [AddDocument("d", ["whale"])], the call [AddDocument("d", ["ship"])]
    returns success and adds a posting for ["ship"], so the length of
    ["d"] grows from 1 to 2 and the document frequency of ["ship"] from
    0 to 1. *)
Theorem SQLiteIndexer_readd_changes_postings :
  let strs := AsciiLib.strings in
  let snow := AsciiLib.snowball in
  let idx := fst (SQLiteIndexer.AddDocument (SQLiteIndexer.New None) "d" ["whale"]) in
  let r := SQLiteIndexer.AddDocument idx "d" ["ship"] in
  (forall (mem : InMemIndexer.t) (u : string) (w : list string),
      is_Some (InMemIndexer.docLen mem !! u) ->
      InMemIndexer.AddDocument mem u w = (mem, None))
  /\ SQLiteIndexer.db idx
     = SQLiteIndexer.mkdb [(1, "d")] [(1, "whale")] [(1, 1, 1)]
  /\ snd r = None
  /\ SQLiteIndexer.db (fst r)
     = SQLiteIndexer.mkdb [(1, "d")] [(1, "whale"); (2, "ship")]
                          [(1, 1, 1); (1, 2, 1)]
  /\ SQLiteIndexer.total_words (SQLiteIndexer.db idx) 1 = 1
  /\ SQLiteIndexer.total_words (SQLiteIndexer.db (fst r)) 1 = 2
  /\ SQLiteIndexer.count_hits (SQLiteIndexer.db idx) "ship" = 0
  /\ SQLiteIndexer.count_hits (SQLiteIndexer.db (fst r)) "ship" = 1.
Proof.
  intros strs snow idx r.
  split; [intros mem u w; apply InMem_AddDocument_known|].
  repeat split; vm_compute; reflexivity.
Qed.

(* ===================================================================== *)
(** * C7: Download *)
(* ===================================================================== *)

(** C7, as stated, fails: a response with the success status
    [204 No Content] is turned into an error. *)
Lemma Download_success_status_counterexample :
  ~ (forall (net : NetHTTP) (u : string) (resp : Response),
       http_Get u = inl resp ->
       is_success (StatusCode resp) = true ->
       snd (Body resp) = None ->
       Download u = (Some (fst (Body resp)), None)).
Proof.
  intros Hclaim.
  specialize (Hclaim
    {| http_Get := fun _ => inl (mkResponse 204 "204 No Content" ([], None)) |}
    "http://example.com/" (mkResponse 204 "204 No Content" ([], None))
    eq_refl eq_refl eq_refl).
  discriminate Hclaim.
Qed.

(** C7, amended.  [Download] returns what reading the body delivers when
    the status is [200 OK]; it returns an error and no body exactly when
    the request fails or the status is not 200. *)
Theorem Download_ok_only_on_200 {net : NetHTTP} (u : string) :
  (forall resp, http_Get u = inl resp -> StatusCode resp = 200 ->
     Download u = (Some (fst (Body resp)), snd (Body resp)))
  /\ ((fst (Download u) = None /\ snd (Download u) <> None)
      <-> ((exists err, http_Get u = inr err)
           \/ (exists resp, http_Get u = inl resp /\ StatusCode resp <> 200))).
Proof.
  unfold Download, http_StatusOK, io_ReadAll. split.
  - intros resp -> Hcode. by rewrite decide_False by (intros ?; done).
  - destruct (http_Get u) as [resp|err].
    + case_decide as Hcode; simpl.
      * split; [|done]. intros _. right. eauto.
      * split; [by intros [? _]|].
        intros [[err Herr]|(resp' & Heq & Hne)]; [done|].
        injection Heq as <-. lia.
    + simpl. split; [|done]. intros _. left. eauto.
Qed.

Lemma Download_ok_only_on_200_witness :
  let net :=
    {| http_Get := fun _ => inl (mkResponse 200 "200 OK" ([], None)) |} in
  @Download net "http://example.com/" = (Some [], None).
Proof.
  intros net.
  destruct (@Download_ok_only_on_200 net "http://example.com/") as [Hok _].
  exact (Hok (mkResponse 200 "200 OK" ([], None)) eq_refl eq_refl).
Defined.

(* ===================================================================== *)
(** * C8: Extract *)
(* ===================================================================== *)

Section ExtractLemmas.
Context {strs : Strings} {html : HTML} {re : Regexp}.

Lemma trimmed_app l1 l2 : trimmed (l1 ++ l2) = trimmed l1 ++ trimmed l2.
Proof. unfold trimmed. by rewrite map_app, List.filter_app. Qed.

Lemma trimmed_app_filter n attrs l :
  trimmed ((if is_anchor n then map Val (List.filter is_href attrs) else []) ++ l)
  = (if is_anchor n then trimmed (map Val (List.filter is_href attrs)) else [])
    ++ trimmed l.
Proof. rewrite trimmed_app. by destruct (is_anchor n). Qed.

Lemma raw_hrefs_unfold n :
  raw_hrefs n
  = if is_script_or_style n then []
    else (if is_anchor n then map Val (List.filter is_href (Attr n)) else [])
         ++ flat_map raw_hrefs (children n).
Proof. by destruct n. Qed.

(** [for _, a := range n.Attr] appends the trimmed [href] values. *)
Lemma collect_hrefs_spec attrs : forall hs,
  collect_hrefs attrs hs = hs ++ trimmed (map Val (List.filter is_href attrs)).
Proof.
  induction attrs as [|a attrs IH]; intros hs; simpl.
  - by rewrite app_nil_r.
  - unfold is_href at 1.
    destruct (EqualFold (Key a) "href"); [|apply IH].
    rewrite IH. simpl. unfold trimmed at 2. simpl.
    case_decide as Hval.
    + rewrite Hval. simpl. done.
    + destruct (String.eqb_spec (TrimSpace (Val a)) ""); [done|].
      simpl. by rewrite <- app_assoc.
Qed.

Lemma walk_hrefs : forall n st,
  0 <= skipDepth st ->
  skipDepth (walk n st) = skipDepth st
  /\ w_hrefs (walk n st) = w_hrefs st ++ found (skipDepth st) n.
Proof.
  fix IH 1. intros [ty data attrs cs] st Hk.
  set (n := mkNode ty data attrs cs).
  assert (Hcs : forall cs st, 0 <= skipDepth st ->
    let st' := (fix walk_children (cs : list Node) (st : walk_state) :=
                  match cs with
                  | [] => st
                  | c :: cs' => walk_children cs' (walk c st)
                  end) cs st in
    skipDepth st' = skipDepth st
    /\ w_hrefs st' = w_hrefs st
         ++ (if decide (skipDepth st = 0)
             then trimmed (flat_map raw_hrefs cs) else [])).
  { clear -IH. induction cs as [|c cs IHcs]; intros st Hk.
    - simpl. split; [done|]. case_decide; by rewrite app_nil_r.
    - cbn zeta in *. destruct (IH c st Hk) as [Hd Hh].
      destruct (IHcs (walk c st)) as [Hd' Hh']; [lia|].
      split; [congruence|].
      rewrite Hh', Hh, Hd. unfold found. simpl flat_map.
      repeat case_decide; try done;
        by rewrite ?app_nil_r, ?trimmed_app, ?app_assoc. }
  change (walk n st) with (leave n
    ((fix walk_children (cs : list Node) (st : walk_state) :=
        match cs with
        | [] => st
        | c :: cs' => walk_children cs' (walk c st)
        end) cs (visit n st))).
  set (v := visit n st).
  assert (Hvd : skipDepth v
                = skipDepth st + if is_script_or_style n then 1 else 0).
  { unfold v, visit. destruct (is_script_or_style n); simpl;
      case_decide; simpl; lia. }
  assert (Hvh : w_hrefs v
                = w_hrefs st
                  ++ if decide (skipDepth v = 0)
                     then (if is_anchor n
                           then trimmed (map Val (List.filter is_href attrs))
                           else [])
                     else []).
  { rewrite Hvd. unfold v, visit, is_anchor.
    destruct (is_script_or_style n); simpl.
    - rewrite !decide_False by lia. simpl. by rewrite app_nil_r.
    - replace (skipDepth st + 0) with (skipDepth st) by lia.
      case_decide; simpl; [|by rewrite app_nil_r].
      destruct (is_ElementNode ty && EqualFold data "a"); simpl.
      + apply collect_hrefs_spec.
      + by rewrite app_nil_r. }
  destruct (Hcs cs v) as [Hd Hh].
  { rewrite Hvd. destruct (is_script_or_style n); lia. }
  assert (Hl : forall x, skipDepth (leave n x)
               = skipDepth x - (if is_script_or_style n then 1 else 0)
               /\ w_hrefs (leave n x) = w_hrefs x).
  { intros x. unfold leave. destruct (is_script_or_style n); simpl.
    - done.
    - split; [lia|done]. }
  destruct (Hl ((fix walk_children (cs : list Node) (st : walk_state) :=
                   match cs with
                   | [] => st
                   | c :: cs' => walk_children cs' (walk c st)
                   end) cs v)) as [Hld Hlh].
  rewrite Hld, Hlh, Hd, Hh, Hvh, Hvd. split.
  { destruct (is_script_or_style n); lia. }
  unfold found. rewrite (raw_hrefs_unfold n).
  change (Attr n) with attrs. change (children n) with cs.
  destruct (is_script_or_style n); cbv iota.
  - rewrite !decide_False by lia. change (trimmed []) with (@nil string).
    clear. by destruct (decide (skipDepth st = 0)); rewrite !app_nil_r.
  - replace (skipDepth st + 0) with (skipDepth st) by lia.
    clear. destruct (decide (skipDepth st = 0)); [|by rewrite !app_nil_r].
    by rewrite trimmed_app_filter, app_assoc.
Qed.
End ExtractLemmas.

(** What [Extract] returns as hrefs: the [href] values of the anchor
    elements outside script/style subtrees, in document order, each with
    its surrounding white space removed, the values that are empty after
    that being left out; no other attribute and no other element
    contributes.  An input that does not parse yields two nil slices. *)
Lemma Extract_hrefs_spec
    {strs : Strings} {html : HTML} {re : Regexp} (body : bytes) :
  match html_Parse body with
  | inl root => elems (snd (Extract body)) = trimmed (raw_hrefs root)
  | inr _ => Extract body = (None, None)
  end.
Proof.
  unfold Extract. destruct (html_Parse body) as [root|err]; [|done].
  simpl. rewrite elems_appended.
  destruct (walk_hrefs root (mkWalk [] [] 0)) as [_ Hh]; [simpl; lia|].
  rewrite Hh. simpl. unfold found. by rewrite decide_True.
Qed.

(** C8.  [Extract] does not return the hrefs verbatim.  For the
    document with the two anchors [<a href=" a.html ">] and
    [<a href="">] the [href] values are [" a.html "] and [""], and
    [Extract] returns the one href ["a.html"]: the first value has lost
    its spaces and the second is missing.  On every input [Extract]
    returns the values trimmed, without those that are empty after the
    trimming, which are the first two steps of [CleanHref]; the values are
    otherwise the [href] values of the anchors outside script/style
    subtrees, in document order, as the claim says. *)
Theorem Extract_hrefs_not_verbatim :
  let page := mkNode DocumentNode "" []
                [mkNode ElementNode "a" [mkAttr "href" " a.html "] [];
                 mkNode ElementNode "a" [mkAttr "href" ""] []] in
  let parser := {| html_Parse := fun _ => inl page |} in
  let words := {| wordRe_FindAllString := fun _ => [] |} in
  @raw_hrefs AsciiLib.strings page = [" a.html "; ""]
  /\ @Extract AsciiLib.strings parser words [] = (None, Some ["a.html"])
  /\ (forall (strs : Strings) (html : HTML) (re : Regexp) (body : bytes),
        match html_Parse body with
        | inl root => elems (snd (Extract body)) = trimmed (raw_hrefs root)
        | inr _ => Extract body = (None, None)
        end).
Proof.
  intros page parser words.
  split; [vm_compute; reflexivity|].
  split; [vm_compute; reflexivity|].
  intros strs html re body. apply Extract_hrefs_spec.
Qed.

(* ===================================================================== *)
(** * C9: CleanHref *)
(* ===================================================================== *)

(** C9.  The rules of [CleanHref], in order, and its two scenarios.  The
    scenarios hold for every implementation of [strings] and [net/url]
    that treats the strings involved as Go's does. *)
Theorem CleanHref_rules {strs : Strings} {url : NetURL} (base href : string) :
  let h := TrimSpace href in
  let base' := if HasSuffix base "/" then base else (base ++ "/")%string in
  ((h = "" \/ HasPrefix h "#" = true) -> CleanHref base href = "")
  /\ ((HasPrefix (ToLower h) "javascript:" = true
       \/ HasPrefix (ToLower h) "data:" = true) -> CleanHref base href = "")
  /\ (h <> "" -> HasPrefix h "#" = false ->
      HasPrefix (ToLower h) "javascript:" = false ->
      HasPrefix (ToLower h) "data:" = false ->
      CleanHref base href
      = match url_Parse base' with
        | inr _ => ""
        | inl baseURL =>
            URL_String
              (set_Fragment
                 (ResolveReference baseURL
                    (match url_Parse h with
                     | inl u => u
                     | inr _ => URL_of_Path h
                     end)) "")
        end)
  /\ (TrimSpace "c.html#sec" = "c.html#sec" ->
      ToLower "c.html#sec" = "c.html#sec" ->
      url_Parse "http://example.com/base/"
        = inl (mkURL "http" "" None "example.com" "/base/" "" "") ->
      url_Parse "c.html#sec" = inl (mkURL "" "" None "" "c.html" "" "sec") ->
      ResolveReference (mkURL "http" "" None "example.com" "/base/" "" "")
                       (mkURL "" "" None "" "c.html" "" "sec")
        = mkURL "http" "" None "example.com" "/base/c.html" "" "sec" ->
      URL_String (mkURL "http" "" None "example.com" "/base/c.html" "" "")
        = "http://example.com/base/c.html" ->
      CleanHref "http://example.com/base/" "c.html#sec"
        = "http://example.com/base/c.html")
  /\ (TrimSpace "javascript:alert(1)" = "javascript:alert(1)" ->
      ToLower "javascript:alert(1)" = "javascript:alert(1)" ->
      CleanHref base "javascript:alert(1)" = "").
Proof.
  intros h base'. unfold CleanHref. fold h. fold base'.
  split; [|split; [|split; [|split]]].
  - intros [Hh|Hh].
    + by rewrite bool_decide_eq_true_2.
    + by rewrite Hh, orb_true_r.
  - intros Hjs. destruct (bool_decide (h = "") || HasPrefix h "#"); [done|].
    by destruct Hjs as [Hjs|Hjs]; rewrite Hjs, ?orb_true_r.
  - intros Hne Hfrag Hjs Hdata.
    rewrite bool_decide_eq_false_2 by done.
    by rewrite Hfrag, Hjs, Hdata.
  - intros Htrim Hlow Hbase Href Hres Hstr.
    rewrite Htrim, Hlow. simpl. by rewrite Hbase, Href, Hres.
  - intros Htrim Hlow. by rewrite Htrim, Hlow.
Qed.

Lemma CleanHref_rules_witness :
  @CleanHref AsciiLib.strings MiniURL.url "http://example.com/base/" "c.html#sec"
    = "http://example.com/base/c.html"
  /\ @CleanHref AsciiLib.strings MiniURL.url "http://example.com/base/"
       "javascript:alert(1)" = "".
Proof.
  destruct (@CleanHref_rules AsciiLib.strings MiniURL.url
              "http://example.com/base/" "")
    as (_ & _ & _ & Hscenario & Hjs).
  split.
  - apply Hscenario; reflexivity.
  - apply Hjs; reflexivity.
Defined.

(* ===================================================================== *)
(** * C6: Crawl *)
(* ===================================================================== *)

Section CrawlLemmas.
Context {strs : Strings} {url : NetURL} {net : NetHTTP}
        {html : HTML} {re : Regexp}.
Variables start hostBase : string.

Lemma enqueue_on_host cur visited queue h :
  Forall (on_host start hostBase) queue ->
  Forall (on_host start hostBase) (enqueue cur hostBase visited queue h).
Proof.
  intros Hq. unfold enqueue.
  case_decide; [done|].
  destruct (HasPrefix (CleanHref cur h) hostBase) eqn:Hpre; simpl; [|done].
  case_decide; [done|].
  apply Forall_app. split; [done|].
  apply Forall_cons. split; [by right | apply Forall_nil; done].
Qed.

Lemma enqueue_all_on_host cur visited hrefs : forall queue,
  Forall (on_host start hostBase) queue ->
  Forall (on_host start hostBase) (foldl (enqueue cur hostBase visited) queue hrefs).
Proof.
  induction hrefs as [|h hrefs IH]; intros queue Hq; [done|].
  cbn [foldl]. by apply IH, enqueue_on_host.
Qed.

Lemma crawl_loop_on_host budget : forall queue visited order,
  Forall (on_host start hostBase) queue -> Forall (on_host start hostBase) order ->
  Forall (on_host start hostBase) (crawl_loop hostBase budget queue visited order).
Proof.
  induction budget as [|budget IH]; intros queue visited order Hq Ho; [done|].
  cbn [crawl_loop].
  induction queue as [|cur queue IHq]; [done|].
  apply Forall_cons in Hq as [Hcur Hq].
  case_decide; [by apply IHq|].
  assert (Forall (on_host start hostBase) (order ++ [cur])) as Ho'.
  { apply Forall_app. split; [done|].
    apply Forall_cons. split; [done | by apply Forall_nil]. }
  destruct (Download cur) as [body [err|]].
  - by apply IH.
  - apply IH; [|done]. by apply enqueue_all_on_host.
Qed.
End CrawlLemmas.

(** C6.  Every URL that [Crawl] returns is the start URL or begins with
    the start URL's [scheme://host/]; the start URL is parseable whenever
    something is returned. *)
Theorem Crawl_stays_on_host
    {strs : Strings} {url : NetURL} {net : NetHTTP} {html : HTML} {re : Regexp}
    (start : string) (max : Z) (u : string) :
  u ∈ elems (fst (Crawl start max)) ->
  match url_Parse start with
  | inl startURL =>
      u = start
      \/ HasPrefix u (Scheme startURL ++ "://" ++ Host startURL ++ "/")%string = true
  | inr _ => False
  end.
Proof.
  unfold Crawl. destruct (max <=? 0); [intros Hin; inversion Hin|].
  destruct (url_Parse start) as [startURL|err]; [|intros Hin; inversion Hin].
  simpl. intros Hin.
  pose proof (crawl_loop_on_host start (hostBase_of startURL) (Z.to_nat max)
                [start] ∅ []) as Hall.
  assert (Forall (on_host start (hostBase_of startURL))
            (crawl_loop (hostBase_of startURL) (Z.to_nat max) [start] ∅ []))
    as Hout.
  { apply Hall; [|by apply Forall_nil].
    apply Forall_cons. split; [by left | by apply Forall_nil]. }
  rewrite Forall_forall in Hout. exact (Hout u Hin).
Qed.

(** The crawl scenario of the specification. *)
Lemma Crawl_scenario :
  @Crawl AsciiLib.strings MiniURL.url TestSite.http TestSite.html TestSite.regexp
         TestSite.root 4
  = (Some ["http://127.0.0.1:4000/"; "http://127.0.0.1:4000/d1";
           "http://127.0.0.1:4000/d2"; "http://127.0.0.1:4000/d3"], None).
Proof. vm_compute. reflexivity. Qed.

Lemma Crawl_stays_on_host_witness :
  "http://127.0.0.1:4000/d1" = TestSite.root
  \/ HasPrefix "http://127.0.0.1:4000/d1" "http://127.0.0.1:4000/" = true.
Proof.
  apply (@Crawl_stays_on_host AsciiLib.strings MiniURL.url TestSite.http
           TestSite.html TestSite.regexp TestSite.root 4
           "http://127.0.0.1:4000/d1").
  rewrite Crawl_scenario. simpl. set_solver.
Defined.

(* ===================================================================== *)
(** * binary64 arithmetic: digits, shifts and rounding *)
(* ===================================================================== *)

Section Rounding64.

Lemma digits2_pos_bounds p :
2 ^ (Zpos (digits2_pos p) - 1) <= Zpos p < 2 ^ Zpos (digits2_pos p).
Proof.
induction p as [p IH|p IH|]; cbn [digits2_pos].
- rewrite Pos2Z.inj_succ.
  replace (Z.succ (Zpos (digits2_pos p)) - 1) with (Z.succ (Zpos (digits2_pos p) - 1)) by lia.
  rewrite !Z.pow_succ_r by lia. lia.
- rewrite Pos2Z.inj_succ.
  replace (Z.succ (Zpos (digits2_pos p)) - 1) with (Z.succ (Zpos (digits2_pos p) - 1)) by lia.
  rewrite !Z.pow_succ_r by lia. lia.
- simpl. lia.
Qed.

Lemma Zdigits2_bounds m :
0 < m -> 2 ^ (Zdigits2 m - 1) <= m < 2 ^ Zdigits2 m.
Proof. destruct m as [|p|p]; try lia. intros _. apply digits2_pos_bounds. Qed.

Lemma Zdigits2_pos m : 0 < m -> 0 < Zdigits2 m.
Proof. destruct m; simpl; lia. Qed.

Lemma Zdigits2_unique m k :
0 < m -> 2 ^ (k - 1) <= m < 2 ^ k -> Zdigits2 m = k.
Proof.
intros Hm [Hlo Hhi].
pose proof (Zdigits2_bounds m Hm) as [Dlo Dhi].
pose proof (Zdigits2_pos m Hm) as Dpos.
assert (0 < k) as Hk.
{ destruct (Z_lt_le_dec 0 k) as [|Hle]; [assumption|].
  destruct (Z.eq_dec k 0) as [->|]; [simpl in Hhi; lia|].
  rewrite Z.pow_neg_r in Hhi by lia. lia. }
destruct (Z.lt_trichotomy (Zdigits2 m) k) as [Hlt|[Heq|Hgt]]; [|assumption|].
- assert (2 ^ Zdigits2 m <= 2 ^ (k - 1)) by (apply Z.pow_le_mono_r; lia). lia.
- assert (2 ^ k <= 2 ^ (Zdigits2 m - 1)) by (apply Z.pow_le_mono_r; lia). lia.
Qed.

(** One right shift of a non-negative mantissa. *)
Lemma shr_1_nonneg m r s :
0 <= m ->
shr_1 (Build_shr_record m r s) = Build_shr_record (m / 2) (Z.odd m) (r || s).
Proof.
intros Hm. rewrite <- Z.div2_div.
destruct m as [|[p|p|]|p]; try lia; reflexivity.
Qed.

Lemma iter_pos_nat {A} (f : A -> A) n : forall x,
SpecFloat.iter_pos f n x = Nat.iter (Pos.to_nat n) f x.
Proof.
induction n as [n IH|n IH|]; intros x; cbn [SpecFloat.iter_pos].
- rewrite !IH, Pos2Nat.inj_xI.
  replace (S (2 * Pos.to_nat n))%nat with (Pos.to_nat n + (Pos.to_nat n + 1))%nat by lia.
  rewrite !Nat.iter_add. simpl. reflexivity.
- rewrite !IH, Pos2Nat.inj_xO.
  replace (2 * Pos.to_nat n)%nat with (Pos.to_nat n + Pos.to_nat n)%nat by lia.
  rewrite Nat.iter_add. reflexivity.
- reflexivity.
Qed.

Lemma iter_shr_m k : forall mrs,
0 <= shr_m mrs ->
shr_m (Nat.iter k shr_1 mrs) = shr_m mrs / 2 ^ Z.of_nat k.
Proof.
induction k as [|k IH]; intros mrs Hm.
- simpl. by rewrite Z.div_1_r.
- rewrite Nat.iter_succ. specialize (IH mrs Hm).
  destruct (Nat.iter k shr_1 mrs) as [m r s] eqn:E. simpl in IH.
  assert (0 <= m) by (rewrite IH; apply Z.div_pos; [lia | apply Z.pow_pos_nonneg; lia]).
  rewrite shr_1_nonneg by assumption. simpl. rewrite IH.
  rewrite Z.div_div by (try apply Z.pow_nonzero; lia).
  rewrite Nat2Z.inj_succ, Z.pow_succ_r by lia.
  f_equal. lia.
Qed.

(** The mantissa after [shr]. *)
Lemma shr_m_shr mrs e n :
0 <= shr_m mrs -> 0 <= n ->
shr_m (fst (shr mrs e n)) = shr_m mrs / 2 ^ n
/\ snd (shr mrs e n) = e + n.
Proof.
intros Hm Hn. destruct n as [|p|p]; try lia; simpl.
- rewrite Z.div_1_r. split; [reflexivity | lia].
- rewrite iter_pos_nat, iter_shr_m by assumption.
  by rewrite positive_nat_Z.
Qed.

Lemma shr_m_record_of_loc m l : shr_m (shr_record_of_loc m l) = m.
Proof. by destruct l as [|[]]. Qed.

Lemma round_nearest_even_bounds m l :
m <= round_nearest_even m l <= m + 1.
Proof. destruct l as [|[]]; simpl; try lia. destruct (Z.even m); lia. Qed.

End Rounding64.

Section Rounding64Aux.

Lemma fexp64 x : -1021 <= x -> fexp 53 1024 x = x - 53.
Proof. unfold fexp, emin. lia. Qed.

Lemma shr_m_nonneg mrs e n : 0 <= shr_m mrs -> 0 <= shr_m (fst (shr mrs e n)).
Proof.
intros Hm. destruct n as [|p|p]; simpl; try done.
rewrite iter_pos_nat, iter_shr_m by done.
apply Z.div_pos; [done | apply Z.pow_pos_nonneg; lia].
Qed.

Lemma binary_round_aux_rounded sx m e l :
0 <= m -> rounded sx (binary_round_aux 53 1024 sx m e l).
Proof.
intros Hm. unfold binary_round_aux, shr_fexp.
destruct (shr (shr_record_of_loc m l) e _) as [mrs1 e1] eqn:E1.
assert (0 <= shr_m mrs1) as H1.
{ change mrs1 with (fst (mrs1, e1)). rewrite <- E1.
  apply shr_m_nonneg. by rewrite shr_m_record_of_loc. }
pose proof (round_nearest_even_bounds (shr_m mrs1) (loc_of_shr_record mrs1)) as Hr.
destruct (shr (shr_record_of_loc (round_nearest_even _ _) loc_Exact) e1 _)
  as [mrs2 e2] eqn:E2.
assert (0 <= shr_m mrs2) as H2.
{ change mrs2 with (fst (mrs2, e2)). rewrite <- E2.
  apply shr_m_nonneg. simpl. lia. }
destruct (shr_m mrs2) as [|p|p]; [constructor| |lia].
destruct (e2 <=? 1024 - 53); constructor.
Qed.

(** Rounding a mantissa of at least 53 bits whose value lies in the
  normal range: the result is a normal number; its exponent is the one
  of the input's leading bit, or one more after a carry. *)
Lemma binary_round_aux_normal sx m e l :
2 ^ 52 <= m ->
-1021 <= Zdigits2 m + e <= 1023 ->
exists m' e',
  binary_round_aux 53 1024 sx m e l = S754_finite sx m' e'
  /\ 2 ^ 52 <= Zpos m' < 2 ^ 53
  /\ Zdigits2 m + e - 53 <= e' <= Zdigits2 m + e - 52.
Proof.
intros Hm Hrange.
assert (0 < m) as Hpos by (change (2 ^ 52) with 4503599627370496 in Hm; lia).
pose proof (Zdigits2_bounds m Hpos) as [Dlo Dhi].
set (d := Zdigits2 m) in *.
assert (53 <= d) as Hd.
{ destruct (Z_lt_le_dec d 53) as [Hlt|]; [|done].
  assert (2 ^ d <= 2 ^ 52) by (apply Z.pow_le_mono_r; lia). lia. }
unfold binary_round_aux, shr_fexp. fold d.
rewrite fexp64 by lia.
replace (d + e - 53 - e) with (d - 53) by lia.
pose proof (shr_m_shr (shr_record_of_loc m l) e (d - 53)) as Hs1.
rewrite shr_m_record_of_loc in Hs1.
destruct (shr (shr_record_of_loc m l) e (d - 53)) as [mrs1 e1].
destruct Hs1 as [Hm1 He1]; [lia | lia |]. simpl in Hm1, He1.
assert (2 ^ 52 <= shr_m mrs1 < 2 ^ 53) as Hb1.
{ rewrite Hm1.
  assert (0 < 2 ^ (d - 53)) by (apply Z.pow_pos_nonneg; lia).
  assert (2 ^ (d - 1) = 2 ^ (d - 53) * 2 ^ 52) as Hlo'
    by (rewrite <- Z.pow_add_r by lia; f_equal; lia).
  assert (2 ^ d = 2 ^ (d - 53) * 2 ^ 53) as Hhi'
    by (rewrite <- Z.pow_add_r by lia; f_equal; lia).
  split.
  - apply Z.div_le_lower_bound; lia.
  - apply Z.div_lt_upper_bound; lia. }
pose proof (round_nearest_even_bounds (shr_m mrs1) (loc_of_shr_record mrs1)) as Hr.
set (m2 := round_nearest_even (shr_m mrs1) (loc_of_shr_record mrs1)) in *.
change (2 ^ 52) with 4503599627370496 in *.
change (2 ^ 53) with 9007199254740992 in *.
destruct (Z.eq_dec m2 9007199254740992) as [Hc|Hc].
- (* carry *)
  rewrite Hc. change (Zdigits2 9007199254740992) with 54.
  rewrite fexp64 by lia.
  replace (54 + e1 - 53 - e1) with 1 by lia.
  simpl. change (1024 - 53) with 971.
  destruct (Z.leb_spec (e1 + 1) 971); [|lia].
  eexists _, _. split; [reflexivity|]. lia.
- assert (Zdigits2 m2 = 53) as Hd2.
  { apply Zdigits2_unique; [lia|].
    change (2 ^ (53 - 1)) with 4503599627370496.
    change (2 ^ 53) with 9007199254740992. lia. }
  rewrite Hd2, fexp64 by lia.
  replace (53 + e1 - 53 - e1) with 0 by lia.
  simpl. change (1024 - 53) with 971.
  destruct m2 as [|p|p] eqn:Em2; try lia.
  destruct (Z.leb_spec e1 971); [|lia].
  eexists _, _. split; [reflexivity|]. lia.
Qed.

End Rounding64Aux.

(* ===================================================================== *)
(** * binary64 arithmetic: conversion, division, product *)
(* ===================================================================== *)

Section Arith64.

Lemma normal_pos_finite x lo hi : normal_pos x lo hi -> pos_finite x = true.
Proof. by intros (m & e & -> & _). Qed.

Lemma Pos_iter_xO p k : Zpos (Pos.iter xO p k) = Zpos p * 2 ^ Zpos k.
Proof.
induction k as [|k IH] using Pos.peano_ind.
- simpl. lia.
- rewrite Pos.iter_succ, Pos2Z.inj_xO, IH, Pos2Z.inj_succ.
  rewrite Z.pow_succ_r by lia. lia.
Qed.

(** [float64(a)] for a positive [a]: the exponent is that of the leading
  bit of [a], or one more when rounding carries. *)
Lemma of_int_normal a :
0 < a < 2 ^ 1023 ->
normal_pos (of_int a) (Zdigits2 a - 53) (Zdigits2 a - 52).
Proof.
intros [Ha Hb]. destruct a as [|p|p]; try lia.
pose proof (digits2_pos_bounds p) as [Dlo Dhi].
unfold of_int, binary_normalize, binary_round, shl_align, F64.prec, F64.emax.
cbn [Zdigits2]. set (d := Zpos (digits2_pos p)) in *.
assert (0 < d) as Hd0 by (unfold d; lia).
assert (d <= 1023) as Hd1.
{ destruct (Z_lt_le_dec 1023 d) as [Hlt|]; [|done].
  assert (2 ^ 1023 <= 2 ^ (d - 1)) by (apply Z.pow_le_mono_r; lia). lia. }
rewrite fexp64 by lia.
replace (d + 0 - 53) with (d - 53) by lia.
replace (d - 53 - 0) with (d - 53) by lia.
destruct (d - 53) as [|k|k] eqn:Ek.
- destruct (binary_round_aux_normal false (Zpos p) 0 loc_Exact)
    as (m' & e' & Hr & Hm' & He').
  + replace (2 ^ 52) with (2 ^ (d - 1)) by (f_equal; lia). done.
  + cbn [Zdigits2]. fold d. lia.
  + cbn [Zdigits2] in He'. fold d in He'.
    exists m', e'. split; [done|]. split; [done|]. lia.
- destruct (binary_round_aux_normal false (Zpos p) 0 loc_Exact)
    as (m' & e' & Hr & Hm' & He').
  + assert (2 ^ 52 <= 2 ^ (d - 1)) by (apply Z.pow_le_mono_r; lia). lia.
  + cbn [Zdigits2]. fold d. lia.
  + cbn [Zdigits2] in He'. fold d in He'.
    exists m', e'. split; [done|]. split; [done|]. lia.
- assert (Zdigits2 (Zpos (Pos.iter xO p k)) = 53) as Hdz.
  { apply Zdigits2_unique; [lia|]. rewrite Pos_iter_xO.
    assert (Zpos k = 53 - d) as -> by lia.
    assert (0 < 2 ^ (53 - d)) by (apply Z.pow_pos_nonneg; lia).
    assert (2 ^ (53 - 1) = 2 ^ (d - 1) * 2 ^ (53 - d)) as ->
      by (rewrite <- Z.pow_add_r by lia; f_equal; lia).
    assert (2 ^ 53 = 2 ^ d * 2 ^ (53 - d)) as ->
      by (rewrite <- Z.pow_add_r by lia; f_equal; lia).
    split; [apply Z.mul_le_mono_nonneg_r | apply Z.mul_lt_mono_pos_r]; lia. }
  destruct (binary_round_aux_normal false (Zpos (Pos.iter xO p k)) (Zneg k) loc_Exact)
    as (m' & e' & Hr & Hm' & He').
  + pose proof (Zdigits2_bounds (Zpos (Pos.iter xO p k)) ltac:(lia)) as [Hlo _].
    rewrite Hdz in Hlo. done.
  + rewrite Hdz. lia.
  + rewrite Hdz in He'.
    exists m', e'. split; [done|]. split; [done|]. lia.
Qed.

(** The quotient of two positive normal numbers. *)
Lemma div_normal m1 e1 m2 e2 :
2 ^ 52 <= Zpos m1 < 2 ^ 53 -> 2 ^ 52 <= Zpos m2 < 2 ^ 53 ->
-900 <= e1 - e2 <= 900 ->
normal_pos (F64.div (S754_finite false m1 e1) (S754_finite false m2 e2))
           (Zdigits2 (Zpos m1 * 2 ^ 53 / Zpos m2) + (e1 - e2) - 106)
           (e1 - e2 - 51).
Proof.
intros H1 H2 He.
assert (Zdigits2 (Zpos m1) = 53) as Hd1 by (apply Zdigits2_unique; [lia|done]).
assert (Zdigits2 (Zpos m2) = 53) as Hd2 by (apply Zdigits2_unique; [lia|done]).
unfold F64.div, SFdiv, SFdiv_core_binary, F64.prec, F64.emax.
rewrite Hd1, Hd2, fexp64 by lia.
replace (Z.min (53 + e1 - (53 + e2) - 53) (e1 - e2)) with (e1 - e2 - 53) by lia.
replace (e1 - e2 - (e1 - e2 - 53)) with 53 by lia.
cbv iota beta. rewrite Z.shiftl_mul_pow2 by lia.
set (q := Zpos m1 * 2 ^ 53 / Zpos m2).
assert (Z.div_eucl (Zpos m1 * 2 ^ 53) (Zpos m2)
        = (q, Zpos m1 * 2 ^ 53 mod Zpos m2)) as ->.
{ unfold q, Z.div, Z.modulo. by destruct (Z.div_eucl _ _). }
assert (2 ^ 52 <= q < 2 ^ 54) as Hq.
{ unfold q. change (2 ^ 52) with 4503599627370496 in *.
  change (2 ^ 53) with 9007199254740992 in *.
  change (2 ^ 54) with 18014398509481984. split.
  - apply Z.div_le_lower_bound; lia.
  - apply Z.div_lt_upper_bound; lia. }
assert (0 < q) as Hq0 by (change (2 ^ 52) with 4503599627370496 in Hq; lia).
assert (53 <= Zdigits2 q <= 54) as Hdq.
{ pose proof (Zdigits2_bounds q Hq0) as [Dlo Dhi]. split.
  - destruct (Z_lt_le_dec (Zdigits2 q) 53) as [Hlt|]; [|done].
    assert (2 ^ Zdigits2 q <= 2 ^ 52) by (apply Z.pow_le_mono_r; lia). lia.
  - destruct (Z_lt_le_dec 54 (Zdigits2 q)) as [Hlt|]; [|done].
    assert (2 ^ 54 <= 2 ^ (Zdigits2 q - 1)) by (apply Z.pow_le_mono_r; lia). lia. }
destruct (binary_round_aux_normal (xorb false false) q (e1 - e2 - 53)
            (new_location (Zpos m2) (Zpos m1 * 2 ^ 53 mod Zpos m2)))
  as (m' & e' & Hr & Hm' & He'); [lia | lia |].
exists m', e'. split; [done|]. split; [done|]. lia.
Qed.

(** A product with a positive finite factor is NaN only if the other
  factor is. *)
Lemma mul_pos_finite_not_nan x y :
pos_finite x = true -> finite y = true -> is_nan (F64.mul x y) = false.
Proof.
destruct x as [| | |[] m e]; try done. intros _.
destruct y as [s| | |s m' e']; try done. intros _.
unfold F64.mul, SFmul, F64.prec, F64.emax.
pose proof (binary_round_aux_rounded (xorb false s) (Zpos (m * m')) (e + e')
              loc_Exact ltac:(lia)) as Hr.
remember (binary_round_aux 53 1024 _ _ _ _) as r. by destruct Hr.
Qed.

End Arith64.

(* ===================================================================== *)
(** * binary64 comparison is the order of ranks *)
(* ===================================================================== *)

Section Order64.

Ltac rank_solve :=
cbn [CompOpp]; repeat split; intros;
try discriminate; try reflexivity; try lia;
try (subst; reflexivity);
try (match goal with
     | H : (_, _, _) = (_, _, _) |- _ => injection H; intros
     end; exfalso; lia);
try (exfalso; lia).

Lemma SFcompare_rank x y :
is_nan x = false -> is_nan y = false ->
exists c, SFcompare x y = Some c
  /\ (c = Lt <-> lex_lt (rank x) (rank y))
  /\ (c = Eq <-> rank x = rank y).
Proof.
intros Hx Hy.
destruct x as [sx|sx| |sx mx ex]; try done;
destruct y as [sy|sy| |sy my ey]; try done;
try destruct sx; try destruct sy;
unfold SFcompare, lex_lt, rank; cbn [fst snd];
try change (Pos.compare_cont Eq mx my) with (Pos.compare mx my);
try (destruct (Z.compare_spec ex ey); destruct (Pos.compare_spec mx my));
(eexists; split; [reflexivity|]; rank_solve).
Qed.

Lemma lt_rank x y :
is_nan x = false -> is_nan y = false ->
F64.lt x y = true <-> lex_lt (rank x) (rank y).
Proof.
intros Hx Hy. destruct (SFcompare_rank x y Hx Hy) as (c & Hc & Hlt & _).
unfold F64.lt, SFltb. rewrite Hc. rewrite <- Hlt. by destruct c.
Qed.

Lemma eq_rank x y :
is_nan x = false -> is_nan y = false ->
F64.eq x y = true <-> rank x = rank y.
Proof.
intros Hx Hy. destruct (SFcompare_rank x y Hx Hy) as (c & Hc & _ & Heq).
unfold F64.eq, SFeqb. rewrite Hc. rewrite <- Heq. by destruct c.
Qed.


Lemma lt_not_nan x y : F64.lt x y = true -> is_nan x = false /\ is_nan y = false.
Proof.
unfold F64.lt, SFltb, SFcompare.
destruct x as [| | |]; destruct y as [| | |]; done.
Qed.

Lemma lex_lt_irrefl a : ~ lex_lt a a.
Proof. unfold lex_lt. lia. Qed.

Lemma lex_lt_trans a b c : lex_lt a b -> lex_lt b c -> lex_lt a c.
Proof. unfold lex_lt. lia. Qed.

Lemma classic_lex a b : lex_lt a b \/ ~ lex_lt a b.
Proof. unfold lex_lt. lia. Qed.

Lemma lex_lt_total a b : a <> b -> ~ lex_lt a b -> lex_lt b a.
Proof.
destruct a as [[a1 a2] a3], b as [[b1 b2] b3]. unfold lex_lt. cbn [fst snd].
intros Hne Hnlt.
destruct (Z.eq_dec a1 b1) as [->|]; [|lia].
destruct (Z.eq_dec a2 b2) as [->|]; [|lia].
destruct (Z.eq_dec a3 b3) as [->|]; [done|lia].
Qed.

End Order64.

(* ===================================================================== *)
(** * The bytewise order of strings *)
(* ===================================================================== *)

Section StringOrder.

Lemma ascii_compare_trans a b c :
Ascii.compare a b = Lt -> Ascii.compare b c = Lt -> Ascii.compare a c = Lt.
Proof.
unfold Ascii.compare. rewrite !N.compare_lt_iff. lia.
Qed.

Lemma string_compare_trans s1 : forall s2 s3,
String.compare s1 s2 = Lt -> String.compare s2 s3 = Lt ->
String.compare s1 s3 = Lt.
Proof.
induction s1 as [|a s1 IH]; intros [|b s2] [|c s3]; simpl; try done.
destruct (Ascii.compare a b) eqn:Hab; try done;
destruct (Ascii.compare b c) eqn:Hbc; try done.
- apply Ascii.compare_eq_iff in Hab, Hbc. subst.
  assert (Ascii.compare c c = Eq) as ->.
  { unfold Ascii.compare. apply N.compare_refl. }
  apply IH.
- apply Ascii.compare_eq_iff in Hab. subst. by rewrite Hbc.
- apply Ascii.compare_eq_iff in Hbc. subst. by rewrite Hab.
- by rewrite (ascii_compare_trans a b c).
Qed.

Lemma string_ltb_trans s1 s2 s3 :
String.ltb s1 s2 = true -> String.ltb s2 s3 = true -> String.ltb s1 s3 = true.
Proof.
unfold String.ltb.
destruct (String.compare s1 s2) eqn:H12; try done.
destruct (String.compare s2 s3) eqn:H23; try done.
by rewrite (string_compare_trans _ _ _ H12 H23).
Qed.

Lemma string_ltb_asym s1 s2 :
String.ltb s1 s2 = true -> String.ltb s2 s1 = true -> False.
Proof.
unfold String.ltb. rewrite (String.compare_antisym s1 s2).
by destruct (String.compare s2 s1).
Qed.

Lemma string_ltb_total s1 s2 :
s1 <> s2 -> String.ltb s1 s2 = false -> String.ltb s2 s1 = true.
Proof.
unfold String.ltb. rewrite (String.compare_antisym s1 s2).
destruct (String.compare s2 s1) eqn:Hc; try done.
apply String.compare_eq_iff in Hc. done.
Qed.

End StringOrder.

(* ===================================================================== *)
(** * [lessHit] is a strict total order on hits with distinct URLs *)
(* ===================================================================== *)

Section LessHit.

Lemma lessHit_hit_lt a b :
scored a -> scored b -> lessHit a b = true <-> hit_lt a b.
Proof.
intros Ha Hb. unfold lessHit, hit_lt, F64.ne, F64.gt.
pose proof (eq_rank (Score a) (Score b) Ha Hb) as Heq.
pose proof (lt_rank (Score b) (Score a) Hb Ha) as Hlt.
unfold F64.eq, F64.lt in *.
destruct (SFeqb (Score a) (Score b)); simpl.
- assert (rank (Score a) = rank (Score b)) as Hr by (by apply Heq).
  split; [by right|]. intros [Hl|[_ ?]]; [|done].
  rewrite Hr in Hl. by apply lex_lt_irrefl in Hl.
- rewrite Hlt. split; [by left|]. intros [?|[Hr _]]; [done|].
  apply Heq in Hr. done.
Qed.


Lemma hit_lt_trans a b c : hit_lt a b -> hit_lt b c -> hit_lt a c.
Proof.
unfold hit_lt. intros [Hab|[Eab Lab]] [Hbc|[Ebc Lbc]].
- left. eapply lex_lt_trans; eauto.
- left. by rewrite <- Ebc.
- left. by rewrite Eab.
- right. split; [congruence|]. eapply string_ltb_trans; eauto.
Qed.

Lemma hit_lt_asym a b : hit_lt a b -> hit_lt b a -> False.
Proof.
unfold hit_lt. intros [Hab|[Eab Lab]] [Hba|[Eba Lba]].
- eapply lex_lt_irrefl, lex_lt_trans; eauto.
- rewrite Eba in Hab. by eapply lex_lt_irrefl.
- rewrite Eab in Hba. by eapply lex_lt_irrefl.
- eapply string_ltb_asym; eauto.
Qed.

Lemma hit_lt_total a b : URL a <> URL b -> hit_lt a b \/ hit_lt b a.
Proof.
unfold hit_lt. intros Hne.
destruct (decide (rank (Score a) = rank (Score b))) as [He|Hr].
- destruct (String.ltb (URL a) (URL b)) eqn:Hl.
  + left. by right.
  + right. right. split; [done|]. by apply string_ltb_total.
- destruct (classic_lex (rank (Score b)) (rank (Score a))) as [?|Hn].
  + left. by left.
  + right. left. apply lex_lt_total; [done|done].
Qed.

End LessHit.

(* ===================================================================== *)
(** * [sort.Slice] with a strict total order *)
(* ===================================================================== *)

Section SortSorted.
Context {A : Type} (less : A -> A -> bool).
Context (ok : A -> Prop) (R : A -> A -> Prop) (D : A -> A -> Prop).
Hypothesis less_R : forall x y, ok x -> ok y -> less x y = true <-> R x y.
Hypothesis R_trans : forall x y z, R x y -> R y z -> R x z.
Hypothesis R_asym : forall x y, R x y -> R y x -> False.
Hypothesis R_total : forall x y, D x y -> R x y \/ R y x.

Lemma insert_sorted_sorted x l :
  ok x -> Forall ok l -> Forall (D x) l ->
  sorted_by less l -> sorted_by less (insert_sorted less x l).
Proof.
  intros Hx. induction l as [|y l IH]; intros Hok HD Hs; simpl.
  - apply SSorted_cons; [apply SSorted_nil | apply Forall_nil; done].
  - apply Forall_cons in Hok as [Hy Hok].
    apply Forall_cons in HD as [Dxy HD].
    apply StronglySorted_inv in Hs as [Hs Hyl].
    destruct (less y x) eqn:Hyx.
    + apply SSorted_cons; [by apply IH|].
      rewrite insert_sorted_perm. apply Forall_cons. split; done.
    + assert (R x y) as Rxy.
      { destruct (R_total x y Dxy) as [?|Ryx]; [done|].
        apply less_R in Ryx; [congruence | done | done]. }
      apply SSorted_cons; [by apply SSorted_cons|].
      apply Forall_cons. split; [by apply less_R|].
      rewrite Forall_forall in Hyl, Hok. apply Forall_forall.
      intros z Hz. apply less_R; [done | by apply Hok |].
      apply R_trans with y; [done|].
      apply less_R; [done | by apply Hok | by apply Hyl].
Qed.

Lemma sort_Slice_sorted l :
  Forall ok l -> pairwise D l -> sorted_by less (sort_Slice less l).
Proof.
  induction l as [|x l IH]; intros Hok Hd; simpl.
  - apply SSorted_nil.
  - apply Forall_cons in Hok as [Hx Hok]. destruct Hd as [HD Hd].
    apply insert_sorted_sorted; [done | | | by apply IH].
    + by rewrite sort_Slice_perm.
    + by rewrite sort_Slice_perm.
Qed.

(** A list has at most one sorted arrangement. *)
Lemma sorted_by_unique l1 : forall l2,
  Forall ok l1 -> sorted_by less l1 -> sorted_by less l2 -> Permutation l1 l2 ->
  l1 = l2.
Proof.
  induction l1 as [|x l1 IH]; intros l2 Hok H1 H2 Hp.
  - apply Permutation_nil in Hp. by subst.
  - destruct l2 as [|y l2].
    { symmetry in Hp. by apply Permutation_nil in Hp. }
    apply Forall_cons in Hok as [Hx Hok].
    apply StronglySorted_inv in H1 as [H1 Hxl].
    apply StronglySorted_inv in H2 as [H2 Hyl].
    assert (Forall ok (y :: l2)) as Hok2.
    { rewrite <- Hp. by apply Forall_cons. }
    apply Forall_cons in Hok2 as [Hy Hok2].
    assert (x = y) as ->.
    { assert (x ∈ y :: l2) as Hxin by (rewrite <- Hp; left).
      assert (y ∈ x :: l1) as Hyin by (rewrite Hp; left).
      apply elem_of_cons in Hxin as [?|Hxin]; [done|].
      apply elem_of_cons in Hyin as [?|Hyin]; [done|].
      rewrite Forall_forall in Hxl, Hyl.
      exfalso. apply (R_asym x y).
      - apply less_R; [done | done | by apply Hxl].
      - apply less_R; [done | done | by apply Hyl]. }
    f_equal. apply IH; try done. by apply Permutation_cons_inv in Hp.
Qed.


End SortSorted.

(* ===================================================================== *)
(** * The scores of a reachable index are numbers *)
(* ===================================================================== *)

Section Scores.
Context {strs : Strings} {snow : Snowball} {math : Math}.

Lemma Zdigits2_lt k a : 0 <= k -> 0 < a < 2 ^ k -> 1 <= Zdigits2 a <= k.
Proof.
  intros Hk [Ha Hb]. pose proof (Zdigits2_bounds a Ha) as [Dlo _].
  pose proof (Zdigits2_pos a Ha). split; [lia|].
  destruct (Z_lt_le_dec k (Zdigits2 a)) as [Hlt|]; [|done].
  assert (2 ^ k <= 2 ^ (Zdigits2 a - 1)) by (apply Z.pow_le_mono_r; lia). lia.
Qed.

(** [float64(a)] for a positive [int]. *)
Lemma of_int_pos a : 0 < a < 2 ^ 63 -> normal_pos (of_int a) (-52) 11.
Proof.
  intros Ha. pose proof (Zdigits2_lt 63 a ltac:(lia) Ha).
  destruct (of_int_normal a) as (m & e & Hm & Hb & He).
  { split; [lia|]. assert (2 ^ 63 < 2 ^ 1023) by (apply Z.pow_lt_mono_r; lia). lia. }
  exists m, e. split; [done|]. split; [done|]. lia.
Qed.

(** The quotient of two positive [int]s is positive and finite. *)
Lemma div_of_int_pos a b :
  0 < a < 2 ^ 63 -> 0 < b < 2 ^ 63 ->
  pos_finite (F64.div (of_int a) (of_int b)) = true.
Proof.
  intros Ha Hb.
  destruct (of_int_pos a Ha) as (m1 & e1 & -> & Hm1 & He1).
  destruct (of_int_pos b Hb) as (m2 & e2 & -> & Hm2 & He2).
  eapply normal_pos_finite, div_normal; [done | done | lia].
Qed.

Lemma surviving_length stop ws :
  (length (surviving stop ws) <= length ws)%nat.
Proof.
  induction ws as [|w ws IH]; [done|]. rewrite surviving_cons.
  destruct (normalize stop w); simpl; lia.
Qed.

(** The corpus is no larger than the calls that built it. *)
Lemma record_docs_bounds stop (n : Z) calls : forall docs,
  Forall (fun c : string * list string => Z.of_nat (length (snd c)) < n) calls ->
  (forall d l, docs !! d = Some l -> doc_len l < n) ->
  let docs' := foldl (record_doc stop) docs calls in
  (size docs' <= size docs + length calls)%nat
  /\ (forall d l, docs' !! d = Some l -> doc_len l < n).
Proof.
  induction calls as [|[u ws] calls IH]; intros docs Hcalls Hdocs.
  - simpl. split; [lia | done].
  - apply Forall_cons in Hcalls as [Hws Hcalls]. cbn [foldl].
    destruct (IH (record_doc stop docs (u, ws)) Hcalls) as [Hsize Hlen].
    + unfold record_doc. simpl. destruct (docs !! u) eqn:E; [done|].
      intros d l. destruct (decide (d = u)) as [->|].
      * rewrite lookup_insert_eq. intros [= <-].
        pose proof (surviving_length stop ws). unfold doc_len. simpl in Hws. lia.
      * rewrite lookup_insert_ne by done. apply Hdocs.
    + split; [|done]. cbn zeta in Hsize. simpl length.
      assert (size (record_doc stop docs (u, ws)) <= S (size docs))%nat; [|lia].
      unfold record_doc. simpl. destruct (docs !! u) eqn:E; [lia|].
      rewrite map_size_insert_None by done. lia.
Qed.

Lemma corpus_bounds stop (n : Z) calls :
  Z.of_nat (length calls) < n ->
  Forall (fun c : string * list string => Z.of_nat (length (snd c)) < n) calls ->
  doc_count (corpus stop calls) < n
  /\ (forall d l, corpus stop calls !! d = Some l -> doc_len l < n).
Proof.
  intros Hn Hcalls.
  destruct (record_docs_bounds stop n calls ∅ Hcalls) as [Hsize Hlen].
  { intros d l. by rewrite lookup_empty. }
  split; [|done]. unfold doc_count, corpus.
  cbn zeta in Hsize. rewrite map_size_empty in Hsize. lia.
Qed.

(** The score of the specification is a number. *)
Lemma tfidf_scored (docs : gmap string (list string)) s d l :
  (forall x, pos_finite x = true -> finite (Log x) = true) ->
  doc_count docs < 2 ^ 63 -> doc_len l < 2 ^ 63 ->
  docs !! d = Some l -> s ∈ l ->
  is_nan (tfidf docs s l) = false.
Proof.
  intros HLog HN Hlen Hl Hin. unfold tfidf.
  pose proof (occurrences_le_len s l).
  pose proof (proj2 (occurrences_pos_iff s l) Hin).
  pose proof (doc_freq_le_count s docs).
  assert (0 < doc_freq s docs) by (apply doc_freq_pos_iff; eauto).
  apply mul_pos_finite_not_nan.
  - apply div_of_int_pos; lia.
  - apply HLog, div_of_int_pos; lia.
Qed.

(** The documents of the unsorted hits are those of the postings. *)
Lemma collect_URL idx idf row h :
  h ∈ InMemIndexer.collect idx idf row -> URL h ∈ map fst row.
Proof.
  unfold InMemIndexer.collect. rewrite !list_elem_of_In, in_flat_map.
  intros ([d c] & Hin & Hh). unfold InMemIndexer.score_row in Hh.
  case_decide; [done|]. destruct Hh as [<-|[]]. simpl.
  apply in_map_iff. by exists (d, c).
Qed.

Lemma collect_pairwise idx idf row :
  NoDup (map fst row) ->
  pairwise (fun a b => URL a <> URL b) (InMemIndexer.collect idx idf row).
Proof.
  unfold InMemIndexer.collect.
  induction row as [|[d c] row IH]; intros Hnd; [done|].
  simpl in Hnd. apply NoDup_cons in Hnd as [Hd Hnd].
  simpl. unfold InMemIndexer.score_row at 1.
  case_decide; simpl; [by apply IH|].
  split; [|by apply IH].
  apply Forall_forall. intros h Hh Heq. simpl in Heq.
  apply collect_URL in Hh. by rewrite <- Heq in Hh.
Qed.

Lemma collect_perm idx idf row row' :
  row ≡ₚ row' ->
  InMemIndexer.collect idx idf row ≡ₚ InMemIndexer.collect idx idf row'.
Proof.
  unfold InMemIndexer.collect. intros Hp.
  induction Hp as [|x l l' Hp IH|x y l|l l' l'' Hp1 IH1 Hp2 IH2]; simpl.
  - done.
  - by rewrite IH.
  - rewrite !app_assoc. f_equiv. apply Permutation_app_comm.
  - by rewrite IH1.
Qed.


Lemma pairwise_perm {A} (D : A -> A -> Prop) (l l' : list A) :
  (forall a b, D a b -> D b a) ->
  l ≡ₚ l' -> pairwise D l -> pairwise D l'.
Proof.
  intros Hsym Hp.
  induction Hp as [|x l l' Hp IH|x y l|l l' l'' Hp1 IH1 Hp2 IH2]; simpl.
  - done.
  - intros [Hx Hl]. split; [by rewrite <- Hp | by apply IH].
  - intros [Hy [Hx Hl]]. apply Forall_cons in Hy as [Hyx Hy].
    split; [apply Forall_cons; split; [by apply Hsym | done]|].
    split; done.
  - intros Hl. by apply IH2, IH1.
Qed.
End Scores.

(* ===================================================================== *)
(** * C5 *)
(* ===================================================================== *)

Section Ranking.
Context {strs : Strings} {snow : Snowball} {math : Math}.

Lemma lessHit_trans a b c :
  scored a -> scored b -> scored c ->
  lessHit a b = true -> lessHit b c = true -> lessHit a c = true.
Proof.
  intros Ha Hb Hc. rewrite !lessHit_hit_lt by done. apply hit_lt_trans.
Qed.



(** The unsorted hits of a reachable index, for the postings in any
    order: scored, with pairwise distinct URLs. *)
Lemma collect_scored idx docs term row :
  (forall x, pos_finite x = true -> finite (Log x) = true) ->
  represents idx docs ->
  doc_count docs < 2 ^ 63 ->
  (forall d l, docs !! d = Some l -> doc_len l < 2 ^ 63) ->
  row ≡ₚ map_to_list (default ∅ (InMemIndexer.tf idx !! stem (ToLower term))) ->
  let idf := Log (F64.div (of_int (InMemIndexer.N idx))
               (of_int (get (InMemIndexer.df idx) (stem (ToLower term))))) in
  Forall scored (InMemIndexer.collect idx idf row)
  /\ pairwise (fun a b => URL a <> URL b) (InMemIndexer.collect idx idf row).
Proof.
  intros HLog Hrep HN Hlen Hrow idf. split.
  - apply Forall_forall. intros h Hh.
    rewrite (collect_perm _ _ _ _ Hrow) in Hh.
    apply (elem_of_collect _ _ _ _ _ Hrep) in Hh as (l & Hl & Hin & Hsc).
    unfold scored. rewrite Hsc. unfold idf.
    rewrite (rep_N _ _ Hrep), (rep_df _ _ Hrep).
    apply (tfidf_scored docs _ (URL h) l); eauto.
  - apply collect_pairwise. rewrite Hrow. apply NoDup_fst_map_to_list.
Qed.
End Ranking.



(* ===================================================================== *)
(** * binary64 conversion of integers is monotone *)
(* ===================================================================== *)

Section Monotone64.

(** The round and sticky bits after [k] right shifts. *)
Lemma iter_shr_record k m :
0 <= m ->
Nat.iter (S k) shr_1 (Build_shr_record m false false)
= Build_shr_record (m / 2 ^ Z.of_nat (S k))
                   (Z.odd (m / 2 ^ Z.of_nat k))
                   (negb (m mod 2 ^ Z.of_nat k =? 0)).
Proof.
intros Hm. induction k as [|k IH].
- rewrite Nat.iter_succ.
  change (Nat.iter 0 shr_1 ?x) with x. rewrite shr_1_nonneg by done.
  change (2 ^ Z.of_nat 1) with 2. change (2 ^ Z.of_nat 0) with 1.
  by rewrite Z.div_1_r, Z.mod_1_r.
- rewrite Nat.iter_succ, IH.
  assert (0 < 2 ^ Z.of_nat k) as Hp by (apply Z.pow_pos_nonneg; lia).
  assert (2 ^ Z.of_nat (S k) = 2 ^ Z.of_nat k * 2) as Hk
    by (rewrite Nat2Z.inj_succ, Z.pow_succ_r by lia; lia).
  assert (2 ^ Z.of_nat (S (S k)) = 2 ^ Z.of_nat (S k) * 2) as Hk'
    by (rewrite (Nat2Z.inj_succ (S k)), Z.pow_succ_r by lia; lia).
  rewrite shr_1_nonneg by (apply Z.div_pos; lia).
  f_equal.
  + rewrite Hk', Z.div_div by lia. done.
  + rewrite Hk, Z.rem_mul_r by lia.
    pose proof (Z.mod_pos_bound m (2 ^ Z.of_nat k) Hp).
    pose proof (Z.mod_pos_bound (m / 2 ^ Z.of_nat k) 2 ltac:(lia)).
    rewrite Zodd_mod.
    destruct (Z.eqb_spec ((m / 2 ^ Z.of_nat k) mod 2) 1);
      destruct (Z.eqb_spec (m mod 2 ^ Z.of_nat k) 0);
      destruct (Z.eqb_spec (m mod 2 ^ Z.of_nat k
                            + 2 ^ Z.of_nat k * ((m / 2 ^ Z.of_nat k) mod 2)) 0);
      simpl; try done; nia.
Qed.

Lemma rne_bounds m n : m / 2 ^ n <= rne m n <= m / 2 ^ n + 1.
Proof.
unfold rne. destruct (2 * (m mod 2 ^ n) ?= 2 ^ n); try lia.
destruct (Z.even (m / 2 ^ n)); lia.
Qed.

Lemma rne_0 m : rne m 0 = m.
Proof.
unfold rne. change (2 ^ 0) with 1. by rewrite Z.mod_1_r, Z.div_1_r.
Qed.

(** Rounding after shifting an exact mantissa by [n]. *)
Lemma shr_round m e n :
0 <= m -> 0 <= n ->
let mrs := fst (shr (shr_record_of_loc m loc_Exact) e n) in
round_nearest_even (shr_m mrs) (loc_of_shr_record mrs) = rne m n.
Proof.
intros Hm Hn. destruct n as [|p|p]; try lia.
- simpl. by rewrite rne_0.
- cbn zeta. unfold shr. cbn [fst shr_record_of_loc].
  rewrite iter_pos_nat.
  destruct (Pos2Nat.is_succ p) as [k Hk]. rewrite Hk.
  rewrite iter_shr_record by done.
  assert (Zpos p = Z.of_nat (S k)) as Hp by lia.
  assert (0 < 2 ^ Z.of_nat k) as Hpk by (apply Z.pow_pos_nonneg; lia).
  assert (2 ^ Z.of_nat (S k) = 2 ^ Z.of_nat k * 2) as Hpow
    by (rewrite Nat2Z.inj_succ, Z.pow_succ_r by lia; lia).
  unfold rne. rewrite Hp, Hpow, Z.rem_mul_r by lia.
  pose proof (Z.mod_pos_bound m (2 ^ Z.of_nat k) Hpk).
  pose proof (Z.mod_pos_bound (m / 2 ^ Z.of_nat k) 2 ltac:(lia)).
  rewrite Zodd_mod. cbn [shr_m loc_of_shr_record].
  destruct (Z.eqb_spec ((m / 2 ^ Z.of_nat k) mod 2) 1) as [Hr|Hr];
    destruct (Z.eqb_spec (m mod 2 ^ Z.of_nat k) 0) as [Hs|Hs];
    cbn [negb round_nearest_even];
    destruct (Z.compare_spec
                (2 * (m mod 2 ^ Z.of_nat k
                      + 2 ^ Z.of_nat k * ((m / 2 ^ Z.of_nat k) mod 2)))
                (2 ^ Z.of_nat k * 2));
    try done; try nia.
Qed.

Lemma rne_mono a b n : 0 <= n -> 0 <= b <= a -> rne b n <= rne a n.
Proof.
intros Hn Hab.
assert (0 < 2 ^ n) as Hp by (apply Z.pow_pos_nonneg; lia).
pose proof (Z.div_le_mono b a (2 ^ n) Hp ltac:(lia)) as Hq.
pose proof (rne_bounds a n). pose proof (rne_bounds b n).
destruct (Z.eq_dec (b / 2 ^ n) (a / 2 ^ n)) as [Heq|Hne]; [|lia].
pose proof (Z.div_mod a (2 ^ n) ltac:(lia)) as Ha.
pose proof (Z.div_mod b (2 ^ n) ltac:(lia)) as Hb.
unfold rne. rewrite Heq.
destruct (Z.compare_spec (2 * (b mod 2 ^ n)) (2 ^ n));
  destruct (Z.compare_spec (2 * (a mod 2 ^ n)) (2 ^ n));
  destruct (Z.even (a / 2 ^ n)); nia.
Qed.

End Monotone64.

Section Conversion64.

Lemma binary_round_aux_exact sx m e :
2 ^ 52 <= m ->
-1021 <= Zdigits2 m + e <= 1023 ->
binary_round_aux 53 1024 sx m e loc_Exact
= if rne m (Zdigits2 m - 53) =? 2 ^ 53
  then S754_finite sx (Z.to_pos (2 ^ 52)) (e + (Zdigits2 m - 53) + 1)
  else S754_finite sx (Z.to_pos (rne m (Zdigits2 m - 53)))
                   (e + (Zdigits2 m - 53)).
Proof.
intros Hm Hrange.
assert (0 < m) as Hpos by (change (2 ^ 52) with 4503599627370496 in Hm; lia).
pose proof (Zdigits2_bounds m Hpos) as [Dlo Dhi].
set (d := Zdigits2 m) in *.
assert (53 <= d) as Hd.
{ destruct (Z_lt_le_dec d 53) as [Hlt|]; [|done].
  assert (2 ^ d <= 2 ^ 52) by (apply Z.pow_le_mono_r; lia). lia. }
unfold binary_round_aux, shr_fexp. fold d.
rewrite fexp64 by lia.
replace (d + e - 53 - e) with (d - 53) by lia.
pose proof (shr_m_shr (shr_record_of_loc m loc_Exact) e (d - 53)) as Hs1.
pose proof (shr_round m e (d - 53) ltac:(lia) ltac:(lia)) as Hround.
cbn zeta in Hround.
rewrite shr_m_record_of_loc in Hs1.
destruct (shr (shr_record_of_loc m loc_Exact) e (d - 53)) as [mrs1 e1].
destruct Hs1 as [Hm1 He1]; [lia | lia |]. cbn [fst snd] in Hm1, He1, Hround.
rewrite Hround.
assert (2 ^ 52 <= m / 2 ^ (d - 53) < 2 ^ 53) as Hb1.
{ assert (0 < 2 ^ (d - 53)) by (apply Z.pow_pos_nonneg; lia).
  assert (2 ^ (d - 1) = 2 ^ (d - 53) * 2 ^ 52) as Hlo'
    by (rewrite <- Z.pow_add_r by lia; f_equal; lia).
  assert (2 ^ d = 2 ^ (d - 53) * 2 ^ 53) as Hhi'
    by (rewrite <- Z.pow_add_r by lia; f_equal; lia).
  split.
  - apply Z.div_le_lower_bound; lia.
  - apply Z.div_lt_upper_bound; lia. }
pose proof (rne_bounds m (d - 53)) as Hr.
set (m2 := rne m (d - 53)) in *.
change (2 ^ 52) with 4503599627370496 in *.
change (2 ^ 53) with 9007199254740992 in *.
destruct (Z.eqb_spec m2 9007199254740992) as [Hc|Hc].
- rewrite Hc. change (Zdigits2 9007199254740992) with 54.
  rewrite fexp64 by lia.
  replace (54 + e1 - 53 - e1) with 1 by lia.
  simpl. change (1024 - 53) with 971.
  destruct (Z.leb_spec (e1 + 1) 971); [|lia].
  f_equal. lia.
- assert (Zdigits2 m2 = 53) as Hd2.
  { apply Zdigits2_unique; [lia|].
    change (2 ^ (53 - 1)) with 4503599627370496.
    change (2 ^ 53) with 9007199254740992. lia. }
  rewrite Hd2, fexp64 by lia.
  replace (53 + e1 - 53 - e1) with 0 by lia.
  simpl. change (1024 - 53) with 971.
  destruct m2 as [|p|p] eqn:Em2; try lia.
  destruct (Z.leb_spec e1 971); [|lia].
  simpl. f_equal. lia.
Qed.

Lemma of_int_round53 a :
0 < a < 2 ^ 1023 ->
of_int a = S754_finite false (Z.to_pos (fst (round53 a))) (snd (round53 a)).
Proof.
intros [Ha Hb]. destruct a as [|p|p]; try lia.
pose proof (digits2_pos_bounds p) as [Dlo Dhi].
unfold round53, of_int, binary_normalize, binary_round, shl_align,
  F64.prec, F64.emax.
cbn [Zdigits2]. set (d := Zpos (digits2_pos p)) in *.
assert (0 < d) as Hd0 by (unfold d; lia).
assert (d <= 1023) as Hd1.
{ destruct (Z_lt_le_dec 1023 d) as [Hlt|]; [|done].
  assert (2 ^ 1023 <= 2 ^ (d - 1)) by (apply Z.pow_le_mono_r; lia). lia. }
rewrite fexp64 by lia.
replace (d + 0 - 53) with (d - 53) by lia.
replace (d - 53 - 0) with (d - 53) by lia.
destruct (d - 53) as [|k|k] eqn:Ek.
- (* exactly 53 bits *)
  assert (d = 53) as Hd by lia.
  rewrite binary_round_aux_exact.
  2:{ replace (2 ^ 52) with (2 ^ (d - 1)) by (f_equal; lia). done. }
  2:{ cbn [Zdigits2]. fold d. lia. }
  cbn [Zdigits2]. fold d. rewrite Hd. change (53 - 53) with 0.
  rewrite rne_0. change (53 <=? 53) with true. cbn [fst snd].
  rewrite Hd in Dhi.
  destruct (Z.eqb_spec (Zpos p) (2 ^ 53)); [lia|].
  change (2 ^ 0) with 1. rewrite Z.mul_1_r. done.
- (* more than 53 bits *)
  rewrite binary_round_aux_exact.
  2:{ assert (2 ^ 52 <= 2 ^ (d - 1)) by (apply Z.pow_le_mono_r; lia). lia. }
  2:{ cbn [Zdigits2]. fold d. lia. }
  cbn [Zdigits2]. fold d.
  destruct (Z.leb_spec d 53); [lia|].
  rewrite Ek.
  destruct (rne (Zpos p) (Zpos k) =? 2 ^ 53); cbn [fst snd]; f_equal; lia.
- (* fewer than 53 bits *)
  assert (Zpos (Pos.iter xO p k) = Zpos p * 2 ^ (53 - d)) as Hz.
  { rewrite Pos_iter_xO. f_equal. f_equal. lia. }
  assert (2 ^ 52 <= Zpos (Pos.iter xO p k) < 2 ^ 53) as Hbz.
  { rewrite Hz.
    assert (0 < 2 ^ (53 - d)) by (apply Z.pow_pos_nonneg; lia).
    assert (2 ^ 52 = 2 ^ (d - 1) * 2 ^ (53 - d)) as ->
      by (rewrite <- Z.pow_add_r by lia; f_equal; lia).
    assert (2 ^ 53 = 2 ^ d * 2 ^ (53 - d)) as ->
      by (rewrite <- Z.pow_add_r by lia; f_equal; lia).
    split; [apply Z.mul_le_mono_nonneg_r | apply Z.mul_lt_mono_pos_r]; lia. }
  assert (Zdigits2 (Zpos (Pos.iter xO p k)) = 53) as Hdz
    by (apply Zdigits2_unique; [lia | done]).
  rewrite binary_round_aux_exact; [|lia | rewrite Hdz; lia].
  rewrite Hdz. change (53 - 53) with 0. rewrite rne_0.
  destruct (Z.eqb_spec (Zpos (Pos.iter xO p k)) (2 ^ 53)); [lia|].
  destruct (Z.leb_spec d 53); [|lia].
  cbn [fst snd]. rewrite <- Hz. simpl Z.to_pos. f_equal; lia.
Qed.

Lemma Zdigits2_mono a b : 0 < b <= a -> Zdigits2 b <= Zdigits2 a.
Proof.
intros [Hb Hab].
pose proof (Zdigits2_bounds b Hb) as [Blo _].
pose proof (Zdigits2_bounds a ltac:(lia)) as [_ Ahi].
destruct (Z_lt_le_dec (Zdigits2 a) (Zdigits2 b)) as [Hlt|]; [|done].
assert (2 ^ Zdigits2 a <= 2 ^ (Zdigits2 b - 1))
  by (apply Z.pow_le_mono_r; lia). lia.
Qed.

(** The mantissa of [round53] is normal; its exponent is that of the
  leading bit, or one more with the least mantissa after a carry. *)
Lemma round53_bounds a :
0 < a ->
let d := Zdigits2 a in
2 ^ 52 <= fst (round53 a) < 2 ^ 53
/\ (snd (round53 a) = d - 53
    \/ (snd (round53 a) = d - 52 /\ fst (round53 a) = 2 ^ 52 /\ 53 < d)).
Proof.
intros Ha d. pose proof (Zdigits2_bounds a Ha) as [Dlo Dhi]. fold d in Dlo, Dhi.
pose proof (Zdigits2_pos a Ha) as Hd0. fold d in Hd0.
unfold round53. fold d.
destruct (Z.leb_spec d 53); cbn [fst snd].
- split; [|by left].
  assert (0 < 2 ^ (53 - d)) by (apply Z.pow_pos_nonneg; lia).
  assert (2 ^ 52 = 2 ^ (d - 1) * 2 ^ (53 - d)) as ->
    by (rewrite <- Z.pow_add_r by lia; f_equal; lia).
  assert (2 ^ 53 = 2 ^ d * 2 ^ (53 - d)) as ->
    by (rewrite <- Z.pow_add_r by lia; f_equal; lia).
  split; [apply Z.mul_le_mono_nonneg_r | apply Z.mul_lt_mono_pos_r]; lia.
- assert (2 ^ 52 <= a / 2 ^ (d - 53) < 2 ^ 53) as Hb1.
  { assert (0 < 2 ^ (d - 53)) by (apply Z.pow_pos_nonneg; lia).
    assert (2 ^ (d - 1) = 2 ^ (d - 53) * 2 ^ 52) as Hlo'
      by (rewrite <- Z.pow_add_r by lia; f_equal; lia).
    assert (2 ^ d = 2 ^ (d - 53) * 2 ^ 53) as Hhi'
      by (rewrite <- Z.pow_add_r by lia; f_equal; lia).
    split.
    - apply Z.div_le_lower_bound; lia.
    - apply Z.div_lt_upper_bound; lia. }
  pose proof (rne_bounds a (d - 53)).
  destruct (Z.eqb_spec (rne a (d - 53)) (2 ^ 53)); cbn [fst snd].
  + change (2 ^ 52) with 4503599627370496.
    change (2 ^ 53) with 9007199254740992.
    split; [lia|]. right. split; [done|]. split; [done|lia].
  + split; [lia | by left].
Qed.

(** [float64] conversion preserves the order of positive integers. *)
Lemma round53_mono a b :
0 < b <= a ->
snd (round53 b) < snd (round53 a)
\/ (snd (round53 b) = snd (round53 a) /\ fst (round53 b) <= fst (round53 a)).
Proof.
intros [Hb Hab]. assert (0 < a) as Ha by lia.
pose proof (Zdigits2_mono a b ltac:(lia)) as Hd.
destruct (round53_bounds a Ha) as [HMa HEa].
destruct (round53_bounds b Hb) as [HMb HEb].
cbn zeta in *.
destruct (Z.eq_dec (Zdigits2 b) (Zdigits2 a)) as [Heq|Hne].
- (* same number of bits *)
  unfold round53 in *. rewrite Heq in *. set (d := Zdigits2 a) in *.
  destruct (Z.leb_spec d 53); cbn [fst snd] in *.
  + right. split; [done|].
    apply Z.mul_le_mono_nonneg_r; [|done].
    apply Z.pow_nonneg. lia.
  + pose proof (rne_mono a b (d - 53) ltac:(lia) ltac:(lia)) as Hr.
    destruct (Z.eqb_spec (rne b (d - 53)) (2 ^ 53)) as [Hcb|Hcb];
      destruct (Z.eqb_spec (rne a (d - 53)) (2 ^ 53)) as [Hca|Hca];
      cbn [fst snd] in *; lia.
- (* fewer bits *)
  assert (Zdigits2 b < Zdigits2 a) as Hlt by lia.
  destruct HEa as [Ea|(Ea & _ & _)]; destruct HEb as [Eb|(Eb & Mb & _)];
    rewrite ?Ea, ?Eb; lia.
Qed.

End Conversion64.

(* ===================================================================== *)
(** * C10 *)
(* ===================================================================== *)

Section NonNegative.
Context {strs : Strings} {snow : Snowball} {math : Math}.

Lemma one_normal : F64.one = S754_finite false 4503599627370496 (-52).
Proof. reflexivity. Qed.

Lemma ge_one_normal m e :
  2 ^ 52 <= Zpos m -> -52 <= e ->
  F64.ge (S754_finite false m e) F64.one = true.
Proof.
  intros Hm He. rewrite one_normal. unfold F64.ge, SFleb, SFcompare.
  change (2 ^ 52) with 4503599627370496 in Hm.
  destruct (Z.compare_spec (-52) e); try reflexivity; try lia.
  change (Pos.compare_cont Eq 4503599627370496 m)
    with (Z.compare 4503599627370496 (Zpos m)).
  destruct (Z.compare_spec 4503599627370496 (Zpos m)); try reflexivity; lia.
Qed.

(** The quotient of a positive [int] by a smaller one is at least 1. *)
Lemma div_of_int_ge_one a b :
  0 < b <= a -> a < 2 ^ 63 ->
  F64.ge (F64.div (of_int a) (of_int b)) F64.one = true.
Proof.
  intros [Hb Hab] Ha.
  assert (2 ^ 63 < 2 ^ 1023) as Hbig by (apply Z.pow_lt_mono_r; lia).
  rewrite (of_int_round53 a), (of_int_round53 b) by lia.
  destruct (round53_bounds a ltac:(lia)) as [HMa HEa].
  destruct (round53_bounds b Hb) as [HMb HEb]. cbn zeta in *.
  pose proof (round53_mono a b ltac:(lia)) as Hmono.
  pose proof (Zdigits2_lt 63 a ltac:(lia) ltac:(lia)) as Hda.
  pose proof (Zdigits2_lt 63 b ltac:(lia) ltac:(lia)) as Hdb.
  set (Ma := fst (round53 a)) in *. set (Ea := snd (round53 a)) in *.
  set (Mb := fst (round53 b)) in *. set (Eb := snd (round53 b)) in *.
  assert (0 < Ma /\ 0 < Mb) as [HMa0 HMb0]
    by (change (2 ^ 52) with 4503599627370496 in *; lia).
  destruct (div_normal (Z.to_pos Ma) Ea (Z.to_pos Mb) Eb)
    as (m & e & -> & Hm & He).
  { by rewrite Z2Pos.id. }
  { by rewrite Z2Pos.id. }
  { lia. }
  rewrite !Z2Pos.id in He by done.
  apply ge_one_normal; [lia|].
  set (q := Ma * 2 ^ 53 / Mb) in *.
  assert (2 ^ 52 <= q) as Hq.
  { unfold q. change (2 ^ 52) with 4503599627370496 in *.
    change (2 ^ 53) with 9007199254740992 in *.
    apply Z.div_le_lower_bound; lia. }
  assert (0 < q) as Hq0 by (change (2 ^ 52) with 4503599627370496 in Hq; lia).
  pose proof (Zdigits2_bounds q Hq0) as [_ Dhi].
  assert (53 <= Zdigits2 q) as Hdq.
  { destruct (Z_lt_le_dec (Zdigits2 q) 53) as [Hlt|]; [|done].
    assert (2 ^ Zdigits2 q <= 2 ^ 52) by (apply Z.pow_le_mono_r; lia). lia. }
  destruct Hmono as [Hlt|[Heq Hle]]; [lia|].
  assert (2 ^ 53 <= q) as Hq'.
  { unfold q. change (2 ^ 53) with 9007199254740992.
    apply Z.div_le_lower_bound; lia. }
  assert (54 <= Zdigits2 q); [|lia].
  destruct (Z_lt_le_dec (Zdigits2 q) 54) as [Hlt|]; [|done].
  assert (2 ^ Zdigits2 q <= 2 ^ 53) by (apply Z.pow_le_mono_r; lia). lia.
Qed.

(** A product of a positive finite number and a non-negative one is
    non-negative. *)
Lemma mul_nonneg x y :
  pos_finite x = true -> F64.ge y F64.zero = true ->
  F64.ge (F64.mul x y) F64.zero = true.
Proof.
  destruct x as [| | |[] m e]; try done. intros _.
  destruct y as [s|[]| |[] m' e']; try done. intros _.
  unfold F64.mul, SFmul, F64.prec, F64.emax. cbn [xorb].
  pose proof (binary_round_aux_rounded false (Zpos (m * m')) (e + e')
                loc_Exact ltac:(lia)) as Hr.
  remember (binary_round_aux 53 1024 _ _ _ _) as r. by destruct Hr.
Qed.

(** The score of the specification is non-negative. *)
Lemma tfidf_nonneg (docs : gmap string (list string)) s d l :
  (forall x, F64.ge x F64.one = true -> F64.ge (Log x) F64.zero = true) ->
  doc_count docs < 2 ^ 63 -> doc_len l < 2 ^ 63 ->
  docs !! d = Some l -> s ∈ l ->
  F64.ge (Log (F64.div (of_int (doc_count docs)) (of_int (doc_freq s docs))))
         F64.zero = true
  /\ F64.ge (tfidf docs s l) F64.zero = true.
Proof.
  intros HLog HN Hlen Hl Hin.
  pose proof (occurrences_le_len s l).
  pose proof (proj2 (occurrences_pos_iff s l) Hin).
  pose proof (doc_freq_le_count s docs).
  assert (0 < doc_freq s docs) by (apply doc_freq_pos_iff; eauto).
  assert (F64.ge (Log (F64.div (of_int (doc_count docs))
                               (of_int (doc_freq s docs)))) F64.zero = true)
    as Hidf by (apply HLog, div_of_int_ge_one; lia).
  split; [done|]. unfold tfidf.
  apply mul_nonneg; [|done]. apply div_of_int_pos; lia.
Qed.
End NonNegative.

(** C10.  After every sequence of [AddDocument] calls on the in-memory
    indexer, a stem with positive document frequency has [df <= N].
    Consequently, when the counts are in the range of a Go [int] and the
    logarithm is non-negative from 1 on, the [idf] that [Search] computes
    is non-negative, and so is the score of every hit it returns. *)
Theorem df_le_N_and_scores_nonneg
    {strs : Strings} {snow : Snowball} {math : Math}
    (stop : option (gset string)) (calls : list (string * list string))
    (term : string) :
  let idx := InMemIndexer.run (InMemIndexer.New stop) calls in
  (forall s, 0 < get (InMemIndexer.df idx) s ->
     get (InMemIndexer.df idx) s <= InMemIndexer.N idx)
  /\ (Z.of_nat (length calls) < 2 ^ 63 ->
      Forall (fun c : string * list string =>
                Z.of_nat (length (snd c)) < 2 ^ 63) calls ->
      (forall x, F64.ge x F64.one = true -> F64.ge (Log x) F64.zero = true) ->
      (~ no_result idx term ->
       F64.ge (Log (F64.div (of_int (InMemIndexer.N idx))
                      (of_int (get (InMemIndexer.df idx) (stem (ToLower term))))))
              F64.zero = true)
      /\ (forall h, h ∈ elems (fst (InMemIndexer.Search idx term)) ->
            F64.ge (Score h) F64.zero = true)).
Proof.
  intros idx.
  pose proof (reachable_represents stop calls) as Hrep. fold idx in Hrep.
  split.
  - intros s _. by destruct (represents_df_le_N idx _ s Hrep).
  - intros Hcalls Hwords HLog.
    destruct (corpus_bounds (default DefaultStopwords stop) (2 ^ 63) calls
                Hcalls Hwords) as [HN Hlen].
    set (docs := corpus (default DefaultStopwords stop) calls) in *.
    split.
    + intros Hyes.
      assert (0 < doc_freq (stem (ToLower term)) docs) as Hdf.
      { pose proof (represents_df_le_N idx docs (stem (ToLower term)) Hrep).
        rewrite <- (rep_df _ _ Hrep). unfold no_result in Hyes.
        destruct (decide (get (InMemIndexer.df idx) (stem (ToLower term)) = 0));
          [tauto | lia]. }
      apply doc_freq_pos_iff in Hdf as (d & l & Hl & Hin).
      rewrite (rep_N _ _ Hrep), (rep_df _ _ Hrep).
      by destruct (tfidf_nonneg docs (stem (ToLower term)) d l HLog HN
                     (Hlen d l Hl) Hl Hin).
    + intros h Hh.
      apply (Search_represents _ _ _ _ Hrep) in Hh as (_ & l & Hl & Hin & ->).
      by destruct (tfidf_nonneg docs (stem (ToLower term)) (URL h) l HLog HN
                     (Hlen _ l Hl) Hl Hin).
Qed.

Lemma df_le_N_and_scores_nonneg_witness :
  let mem :=
    @InMemIndexer.run AsciiLib.strings AsciiLib.snowball
      (InMemIndexer.New None) ship_calls in
  get (InMemIndexer.df mem) "ship" = 2 /\ InMemIndexer.N mem = 3
  /\ Forall (fun h => F64.ge (Score h) F64.zero = true)
       (elems (fst (@InMemIndexer.Search AsciiLib.strings AsciiLib.snowball
                      TestMath.math mem "ship"))).
Proof.
  intros mem.
  destruct (@df_le_N_and_scores_nonneg AsciiLib.strings AsciiLib.snowball
              TestMath.math None ship_calls "ship") as [_ Hscores].
  split; [vm_compute; reflexivity|]. split; [vm_compute; reflexivity|].
  apply Forall_forall. apply Hscores.
  - vm_compute. reflexivity.
  - repeat apply Forall_cons_2; try apply Forall_nil_2; vm_compute; reflexivity.
  - intros x _. simpl. unfold TestMath.step_log.
    destruct (F64.gt x F64.one); reflexivity.
Defined.

(* ===================================================================== *)
(** * The crawl loop: invariants *)
(* ===================================================================== *)

Section CrawlLoop.
Context {strs : Strings} {url : NetURL} {net : NetHTTP}
        {html : HTML} {re : Regexp}.
Variable hostBase : string.

Lemma foldl_enqueue cur visited hrefs : forall queue,
  foldl (enqueue cur hostBase visited) queue hrefs
  = queue ++ unvisited visited
      (List.filter (fun a => negb (String.eqb a "") && HasPrefix a hostBase)
                   (map (CleanHref cur) hrefs)).
Proof.
  induction hrefs as [|h hrefs IH]; intros queue.
  - simpl. by rewrite app_nil_r.
  - cbn [foldl map List.filter]. rewrite IH. unfold enqueue.
    case_decide as Hempty.
    + rewrite Hempty. simpl. done.
    + destruct (String.eqb_spec (CleanHref cur h) ""); [done|]. simpl.
      destruct (HasPrefix (CleanHref cur h) hostBase); simpl; [|done].
      unfold unvisited at 2. cbn [List.filter].
      case_decide as Hv.
      * rewrite bool_decide_eq_false_2 by (intros Hn; by apply Hn). done.
      * rewrite bool_decide_eq_true_2 by done.
        by rewrite <- app_assoc.
Qed.

(** The rule for invariants of the loop: an invariant [I] of the triple
    [(queue, visited, order)] that survives skipping a visited URL and
    visiting a new one holds when the loop ends, and the loop ends with
    an empty queue or with the budget used up. *)
Lemma crawl_loop_inv (I : list string -> gset string -> list string -> Prop) :
  (forall cur q v o, I (cur :: q) v o -> cur ∈ v -> I q v o) ->
  (forall cur q v o, I (cur :: q) v o -> cur ∉ v ->
     I (q ++ unvisited ({[cur]} ∪ v) (page_links hostBase cur))
       ({[cur]} ∪ v) (o ++ [cur])) ->
  forall budget q v o, I q v o ->
    let r := crawl_loop hostBase budget q v o in
    (length r <= length o + budget)%nat
    /\ exists q' v', I q' v' r
         /\ (q' = [] \/ length r = (length o + budget)%nat).
Proof.
  intros Hskip Hvisit.
  induction budget as [|budget IH]; intros q v o HI.
  { simpl. split; [lia|]. exists q, v. split; [done|]. right. lia. }
  cbn [crawl_loop].
  induction q as [|cur q IHq].
  { split; [lia|]. exists [], v. split; [done|]. by left. }
  case_decide as Hv; [by apply IHq, (Hskip cur)|].
  specialize (Hvisit cur q v o HI Hv). unfold page_links in Hvisit.
  destruct (Download cur) as [body [err|]].
  - simpl in Hvisit. rewrite app_nil_r in Hvisit.
    destruct (IH _ _ _ Hvisit) as (Hlen & q' & v' & HI' & Hend).
    rewrite length_app in Hlen, Hend. simpl in Hlen, Hend.
    split; [lia|]. exists q', v'. split; [done|].
    destruct Hend as [->|Hend]; [by left | right; lia].
  - rewrite foldl_enqueue.
    destruct (IH _ _ _ Hvisit) as (Hlen & q' & v' & HI' & Hend).
    rewrite length_app in Hlen, Hend. simpl in Hlen, Hend.
    split; [lia|]. exists q', v'. split; [done|].
    destruct Hend as [->|Hend]; [by left | right; lia].
Qed.
End CrawlLoop.

(* ===================================================================== *)
(** * What the crawler returns *)
(* ===================================================================== *)

Section CrawlResults.
Context {strs : Strings} {url : NetURL} {net : NetHTTP}
        {html : HTML} {re : Regexp}.

Lemma elem_of_unvisited v l a : a ∈ unvisited v l <-> a ∈ l /\ a ∉ v.
Proof.
  unfold unvisited. rewrite !list_elem_of_In, filter_In, <- list_elem_of_In.
  by rewrite bool_decide_eq_true.
Qed.

Lemma crawl_loop_distinct hostBase budget q v o :
  NoDup o -> (forall u, u ∈ v <-> u ∈ o) ->
  let r := crawl_loop hostBase budget q v o in
  NoDup r /\ (length r <= length o + budget)%nat.
Proof.
  intros Hnd Hv r.
  destruct (crawl_loop_inv hostBase
              (fun _ v o => NoDup o /\ forall u, u ∈ v <-> u ∈ o))
    with (budget := budget) (q := q) (v := v) (o := o)
    as (Hlen & q' & v' & [Hnd' _] & _); try done.
  - intros cur q0 v0 o0 [Hnd0 Hv0] Hcur. split.
    + apply NoDup_app. split; [done|]. split; [|apply NoDup_singleton].
      intros u Hu Hu'. apply list_elem_of_singleton in Hu' as ->.
      by apply Hcur, Hv0.
    + intros u. rewrite elem_of_app, list_elem_of_singleton, <- Hv0.
      set_solver.
Qed.

Lemma crawl_loop_starts hostBase start budget :
  exists rest,
    crawl_loop hostBase (S budget) [start] ∅ [] = start :: rest.
Proof.
  destruct (crawl_loop_inv hostBase
              (fun q v o => (o = [] /\ q = [start] /\ v = ∅)
                            \/ exists rest, o = start :: rest))
    with (budget := S budget) (q := [start]) (v := (∅ : gset string))
         (o := @nil string)
    as (_ & q' & v' & HI & Hend).
  - intros cur q v o [(-> & Hq & ->)|Hrest] Hcur; [set_solver | by right].
  - intros cur q v o [(-> & Hq & ->)|[rest ->]] _.
    + injection Hq as -> ->. right. by exists [].
    + right. by exists (rest ++ [cur]).
  - by left.
  - destruct HI as [(Hr & -> & _)|Hrest]; [|done].
    rewrite Hr in Hend. destruct Hend as [?|Hend]; [done|].
    simpl in Hend. lia.
Qed.

Lemma crawl_loop_discovered hostBase start budget j u :
  crawl_loop hostBase budget [start] ∅ [] !! j = Some u ->
  j = 0%nat
  \/ exists i cur, (i < j)%nat
       /\ crawl_loop hostBase budget [start] ∅ [] !! i = Some cur
       /\ u ∈ page_links hostBase cur.
Proof.
  destruct (crawl_loop_inv hostBase
              (fun q v o =>
                 (o = [] /\ q = [start])
                 \/ ((forall u, u ∈ q -> exists i cur,
                        o !! i = Some cur /\ u ∈ page_links hostBase cur)
                     /\ (forall j u, o !! j = Some u ->
                           j = 0%nat
                           \/ exists i cur, (i < j)%nat /\ o !! i = Some cur
                                /\ u ∈ page_links hostBase cur))))
    with (budget := budget) (q := [start]) (v := (∅ : gset string))
         (o := @nil string)
    as (_ & q' & v' & HI & _).
  - intros cur q v o [[-> Hq]|[Hq Ho]] Hcur.
    + injection Hq as -> ->. right. split; [set_solver | done].
    + right. split; [|done]. intros u0 Hu0. apply Hq. set_solver.
  - intros cur q v o HI _. right.
    assert ((forall u, u ∈ q -> exists i cur0,
               o !! i = Some cur0 /\ u ∈ page_links hostBase cur0)
            /\ (forall j u, o !! j = Some u ->
                  j = 0%nat
                  \/ exists i cur0, (i < j)%nat /\ o !! i = Some cur0
                       /\ u ∈ page_links hostBase cur0)
            /\ (o = [] \/ exists i cur0,
                  o !! i = Some cur0 /\ cur ∈ page_links hostBase cur0))
      as (Hq & Ho & Hcur).
    { destruct HI as [[-> Hq]|[Hq Ho]].
      - injection Hq as -> ->. split; [set_solver|]. split; [done | by left].
      - split; [intros u0 Hu0; apply Hq; set_solver|]. split; [done|].
        right. apply Hq. set_solver. }
    split.
    + intros u0 [Hu0|Hu0]%elem_of_app.
      * destruct (Hq u0 Hu0) as (i & c & Hi & Hl).
        exists i, c. split; [|done]. by apply lookup_app_l_Some.
      * apply elem_of_unvisited in Hu0 as [Hu0 _].
        exists (length o), cur. split; [|done].
        by rewrite lookup_app_r, Nat.sub_diag by lia.
    + intros j0 u0 Hj.
      destruct (decide (j0 < length o)%nat) as [Hlt|Hge].
      * rewrite lookup_app_l in Hj by done.
        destruct (Ho j0 u0 Hj) as [->|(i & c & Hi & Hc & Hl)]; [by left|].
        right. exists i, c. split; [done|]. split; [|done].
        by apply lookup_app_l_Some.
      * rewrite lookup_app_r in Hj by lia.
        destruct (j0 - length o)%nat as [|k] eqn:Hk; [|done].
        injection Hj as <-.
        destruct Hcur as [->|(i & c & Hc & Hl)]; [left; simpl in *; lia|].
        right. exists i, c. split; [|split; [|done]].
        -- apply lookup_lt_Some in Hc. lia.
        -- by apply lookup_app_l_Some.
  - by left.
  - intros Hj. destruct HI as [[Hr _]|[_ Ho]]; [|by apply Ho].
    rewrite Hr in Hj. done.
Qed.

Lemma crawl_loop_closed hostBase start budget :
  (length (crawl_loop hostBase budget [start] ∅ []) < budget)%nat ->
  link_closed hostBase (crawl_loop hostBase budget [start] ∅ []).
Proof.
  intros Hshort.
  destruct (crawl_loop_inv hostBase
              (fun q v o =>
                 (forall u, u ∈ v <-> u ∈ o)
                 /\ forall cur a, cur ∈ o -> a ∈ page_links hostBase cur ->
                      a ∈ v \/ a ∈ q))
    with (budget := budget) (q := [start]) (v := (∅ : gset string))
         (o := @nil string)
    as (_ & q' & v' & [Hv Hq] & Hend).
  - intros cur q v o [Hv Hq] Hcur. split; [done|].
    intros c a Hc Ha. destruct (Hq c a Hc Ha) as [?|Hin]; [by left|].
    apply elem_of_cons in Hin as [->|?]; [by left | by right].
  - intros cur q v o [Hv Hq] Hcur. split.
    + intros u. rewrite elem_of_app, list_elem_of_singleton, <- Hv.
      set_solver.
    + intros c a [Hc|Hc]%elem_of_app Ha.
      * destruct (Hq c a Hc Ha) as [?|Hin]; [left; set_solver|].
        apply elem_of_cons in Hin as [->|?]; [left; set_solver|].
        right. apply elem_of_app. by left.
      * apply list_elem_of_singleton in Hc as ->.
        destruct (decide (a ∈ ({[cur]} ∪ v : gset string))); [by left|].
        right. apply elem_of_app. right. by apply elem_of_unvisited.
  - split; [set_solver|]. intros c a Hc. inversion Hc.
  - destruct Hend as [->|Hend]; [|simpl in Hend; lia].
    intros c a Hc Ha. destruct (Hq c a Hc Ha) as [?|Hin]; [by apply Hv|].
    inversion Hin.
Qed.
End CrawlResults.

(** [Crawl] returns at most [max] URLs, none of them twice.  With
    [max <= 0] it returns the empty list without looking at the start
    URL; with a start URL that does not parse it returns the parse error
    and no list. *)
Theorem Crawl_bounded_distinct
    {strs : Strings} {url : NetURL} {net : NetHTTP} {html : HTML} {re : Regexp}
    (start : string) (max : Z) :
  (max <= 0 -> Crawl start max = (Some [], None))
  /\ (0 < max -> forall err, url_Parse start = inr err ->
        Crawl start max = (None, Some err))
  /\ NoDup (elems (fst (Crawl start max)))
  /\ Z.of_nat (length (elems (fst (Crawl start max)))) <= Z.max 0 max.
Proof.
  unfold Crawl. destruct (Z.leb_spec max 0) as [Hmax|Hmax].
  { simpl. split; [done|]. split; [lia|]. split; [apply NoDup_nil_2 | lia]. }
  split; [lia|]. split.
  { intros _ err ->. done. }
  destruct (url_Parse start) as [startURL|err]; simpl;
    [|split; [apply NoDup_nil_2 | lia]].
  destruct (crawl_loop_distinct (hostBase_of startURL) (Z.to_nat max)
              [start] ∅ []) as [Hnd Hlen];
    [apply NoDup_nil_2 | set_solver |].
  split; [done|]. simpl in Hlen. lia.
Qed.

Lemma Crawl_bounded_distinct_witness :
  @Crawl AsciiLib.strings MiniURL.url TestSite.http TestSite.html
         TestSite.regexp TestSite.root 0 = (Some [], None).
Proof.
  destruct (@Crawl_bounded_distinct AsciiLib.strings MiniURL.url TestSite.http
              TestSite.html TestSite.regexp TestSite.root 0) as [Hzero _].
  apply Hzero. lia.
Defined.

(** A list that [Crawl] returns for [max > 0] begins with the start URL,
    and comes with no error, whether or not the page at the start URL can
    be downloaded: the URL is recorded before its download is tried.  The
    statement is about the calls that return a list; a start URL that does
    not parse gives none. *)
Theorem Crawl_starts_with_start
    {strs : Strings} {url : NetURL} {net : NetHTTP} {html : HTML} {re : Regexp}
    (start : string) (max : Z) (l : list string) :
  0 < max -> fst (Crawl start max) = Some l ->
  exists rest, l = start :: rest /\ snd (Crawl start max) = None.
Proof.
  intros Hmax. unfold Crawl.
  destruct (Z.leb_spec max 0); [lia|].
  destruct (url_Parse start) as [startURL|err]; [|done].
  destruct (Z.to_nat max) as [|budget] eqn:Hb; [lia|].
  destruct (crawl_loop_starts (hostBase_of startURL) start budget)
    as [rest ->].
  cbn [fst snd]. intros [= <-]. by exists rest.
Qed.

Lemma Crawl_starts_with_start_witness :
  exists rest,
    ["http://127.0.0.1:4000/"; "http://127.0.0.1:4000/d1"]
    = TestSite.root :: rest
    /\ snd (@Crawl AsciiLib.strings MiniURL.url TestSite.http TestSite.html
                   TestSite.regexp TestSite.root 2) = None.
Proof.
  apply (@Crawl_starts_with_start AsciiLib.strings MiniURL.url TestSite.http
           TestSite.html TestSite.regexp TestSite.root 2).
  - lia.
  - vm_compute. reflexivity.
Defined.

(** Every URL that [Crawl] returns after the first is a link of a page
    returned before it: the cleaned, non-empty, same-host value of an
    [href] of a page that was downloaded. *)
Theorem Crawl_follows_links
    {strs : Strings} {url : NetURL} {net : NetHTTP} {html : HTML} {re : Regexp}
    (start : string) (max : Z) (startURL : url_URL) (j : nat) (u : string) :
  url_Parse start = inl startURL ->
  elems (fst (Crawl start max)) !! j = Some u ->
  j = 0%nat
  \/ exists i cur, (i < j)%nat
       /\ elems (fst (Crawl start max)) !! i = Some cur
       /\ u ∈ page_links (hostBase_of startURL) cur.
Proof.
  intros Hparse. unfold Crawl.
  destruct (Z.leb_spec max 0); [done|]. rewrite Hparse. simpl.
  apply crawl_loop_discovered.
Qed.

Lemma Crawl_follows_links_witness :
  let out :=
    elems (fst (@Crawl AsciiLib.strings MiniURL.url TestSite.http TestSite.html
                       TestSite.regexp TestSite.root 4)) in
  2%nat = 0%nat
  \/ exists i cur, (i < 2)%nat /\ out !! i = Some cur
       /\ "http://127.0.0.1:4000/d2"
          ∈ @page_links AsciiLib.strings MiniURL.url TestSite.http TestSite.html
              TestSite.regexp "http://127.0.0.1:4000/" cur.
Proof.
  apply (@Crawl_follows_links AsciiLib.strings MiniURL.url TestSite.http
           TestSite.html TestSite.regexp TestSite.root 4
           (mkURL "http" "" None "127.0.0.1:4000" "/" "" "") 2
           "http://127.0.0.1:4000/d2").
  - vm_compute. reflexivity.
  - vm_compute. reflexivity.
Defined.

(** When [Crawl] returns fewer than [max] URLs the crawl is complete:
    the result contains the start URL and every same-host link of every
    page it contains. *)
Theorem Crawl_complete
    {strs : Strings} {url : NetURL} {net : NetHTTP} {html : HTML} {re : Regexp}
    (start : string) (max : Z) (startURL : url_URL) :
  url_Parse start = inl startURL ->
  Z.of_nat (length (elems (fst (Crawl start max)))) < max ->
  start ∈ elems (fst (Crawl start max))
  /\ link_closed (hostBase_of startURL) (elems (fst (Crawl start max))).
Proof.
  intros Hparse. unfold Crawl.
  destruct (Z.leb_spec max 0); [simpl; lia|]. rewrite Hparse. simpl.
  intros Hshort. split; [|apply crawl_loop_closed; lia].
  destruct (Z.to_nat max) as [|budget] eqn:Hb; [lia|].
  destruct (crawl_loop_starts (hostBase_of startURL) start budget)
    as [rest ->].
  set_solver.
Qed.

Lemma Crawl_complete_witness :
  let out :=
    elems (fst (@Crawl AsciiLib.strings MiniURL.url TestSite.http TestSite.html
                       TestSite.regexp TestSite.root 10)) in
  TestSite.root ∈ out
  /\ @link_closed AsciiLib.strings MiniURL.url TestSite.http TestSite.html
       TestSite.regexp "http://127.0.0.1:4000/" out.
Proof.
  apply (@Crawl_complete AsciiLib.strings MiniURL.url TestSite.http
           TestSite.html TestSite.regexp TestSite.root 10
           (mkURL "http" "" None "127.0.0.1:4000" "/" "" "")).
  - vm_compute. reflexivity.
  - vm_compute. reflexivity.
Defined.

(* ===================================================================== *)
(** * The words that [Extract] returns *)
(* ===================================================================== *)

Section ExtractWords.
Context {strs : Strings} {html : HTML} {re : Regexp}.

Lemma visible_words_unfold n :
  visible_words n
  = if is_script_or_style n then []
    else (if is_TextNode (Type_ n) then tokens (Data n) else [])
         ++ flat_map visible_words (children n).
Proof. by destruct n. Qed.

(** [for _, tok := range wordRe.FindAllString(n.Data, -1)] appends the
    tokens. *)
Lemma collect_words_spec data ws : collect_words data ws = ws ++ tokens data.
Proof.
  unfold collect_words, tokens.
  revert ws. induction (wordRe_FindAllString data) as [|tok toks IH];
    intros ws; simpl.
  - by rewrite app_nil_r.
  - case_decide as Htok.
    + rewrite Htok. simpl. apply IH.
    + destruct (String.eqb_spec tok ""); [done|]. simpl.
      by rewrite IH, <- app_assoc.
Qed.

Lemma visit_words n st :
  w_words (visit n st)
  = w_words st
    ++ if decide (skipDepth (visit n st) = 0)
       then (if is_TextNode (Type_ n) then tokens (Data n) else [])
       else [].
Proof.
  unfold visit. destruct (is_script_or_style n); simpl.
  - case_decide as Hk; simpl.
    + rewrite decide_True by done.
      destruct (is_TextNode (Type_ n)); [apply collect_words_spec|].
      by rewrite app_nil_r.
    + rewrite decide_False by done. by rewrite app_nil_r.
  - case_decide as Hk; simpl.
    + rewrite decide_True by done.
      destruct (is_TextNode (Type_ n)); [apply collect_words_spec|].
      by rewrite app_nil_r.
    + rewrite decide_False by done. by rewrite app_nil_r.
Qed.

Lemma visit_depth n st :
  skipDepth (visit n st)
  = skipDepth st + if is_script_or_style n then 1 else 0.
Proof.
  unfold visit. destruct (is_script_or_style n); simpl;
    case_decide; simpl; lia.
Qed.

Lemma leave_words n st :
  skipDepth (leave n st)
  = skipDepth st - (if is_script_or_style n then 1 else 0)
  /\ w_words (leave n st) = w_words st.
Proof.
  unfold leave. destruct (is_script_or_style n); simpl; [done|].
  split; [lia | done].
Qed.

(** Below a node entered at depth [k], [walk] appends the visible words
    of the node when [k = 0] and nothing otherwise, and leaves the
    depth as it found it. *)
Lemma walk_words : forall n st,
  0 <= skipDepth st ->
  skipDepth (walk n st) = skipDepth st
  /\ w_words (walk n st)
     = w_words st ++ if decide (skipDepth st = 0) then visible_words n else [].
Proof.
  fix IH 1. intros [ty data attrs cs] st Hk.
  set (n := mkNode ty data attrs cs).
  assert (Hcs : forall cs st, 0 <= skipDepth st ->
    let st' := (fix walk_children (cs : list Node) (st : walk_state) :=
                  match cs with
                  | [] => st
                  | c :: cs' => walk_children cs' (walk c st)
                  end) cs st in
    skipDepth st' = skipDepth st
    /\ w_words st' = w_words st
         ++ (if decide (skipDepth st = 0)
             then flat_map visible_words cs else [])).
  { clear -IH. induction cs as [|c cs IHcs]; intros st Hk.
    - simpl. split; [done|]. case_decide; by rewrite app_nil_r.
    - cbn zeta in *. destruct (IH c st Hk) as [Hd Hh].
      destruct (IHcs (walk c st)) as [Hd' Hh']; [lia|].
      split; [congruence|].
      rewrite Hh', Hh, Hd. simpl flat_map.
      repeat case_decide; try done;
        by rewrite ?app_nil_r, ?app_assoc. }
  change (walk n st) with (leave n
    ((fix walk_children (cs : list Node) (st : walk_state) :=
        match cs with
        | [] => st
        | c :: cs' => walk_children cs' (walk c st)
        end) cs (visit n st))).
  pose proof (visit_depth n st) as Hvd.
  pose proof (visit_words n st) as Hvw.
  set (v := visit n st) in *.
  destruct (Hcs cs v) as [Hd Hh].
  { rewrite Hvd. destruct (is_script_or_style n); lia. }
  cbv zeta in Hd, Hh.
  set (w := (fix walk_children (cs : list Node) (st : walk_state) :=
               match cs with
               | [] => st
               | c :: cs' => walk_children cs' (walk c st)
               end) cs v) in *.
  destruct (leave_words n w) as [Hld Hlw].
  rewrite Hld, Hlw, Hd, Hh, Hvw, Hvd.
  rewrite (visible_words_unfold n).
  change (Type_ n) with ty. change (Data n) with data.
  change (children n) with cs.
  destruct (is_script_or_style n).
  - split; [lia|]. rewrite !decide_False by lia.
    clear. by destruct (decide (skipDepth st = 0)); rewrite !app_nil_r.
  - replace (skipDepth st + 0) with (skipDepth st) by lia.
    split; [lia|]. clear.
    destruct (decide (skipDepth st = 0)); [|by rewrite !app_nil_r].
    by rewrite app_assoc.
Qed.
End ExtractWords.

(** The words returned by [Extract] are the lower-cased, non-empty
    matches of the word pattern in the text nodes outside script/style
    subtrees, in document order; nothing inside a [script] or [style]
    element is returned, however deeply the elements are nested. *)
Theorem Extract_words_visible
    {strs : Strings} {html : HTML} {re : Regexp} (body : bytes) (root : Node) :
  html_Parse body = inl root ->
  elems (fst (Extract body)) = visible_words root.
Proof.
  intros Hparse. unfold Extract. rewrite Hparse. simpl.
  rewrite elems_appended.
  destruct (walk_words root (mkWalk [] [] 0)) as [_ Hw]; [simpl; lia|].
  by rewrite Hw.
Qed.

Lemma Extract_words_visible_witness :
  elems (fst (@Extract AsciiLib.strings TestPage.html TestPage.regexp []))
  = ["hello"; "world"; "42"; "a"; "b"].
Proof.
  rewrite (@Extract_words_visible AsciiLib.strings TestPage.html
             TestPage.regexp [] TestPage.page eq_refl).
  vm_compute. reflexivity.
Defined.

(* ===================================================================== *)
(** * The in-memory index as a function of the corpus *)
(* ===================================================================== *)

Section CorpusLemmas.
Context {strs : Strings} {snow : Snowball}.

Lemma record_doc_union stop docs c :
  record_doc stop docs c = docs ∪ {[fst c := surviving stop (snd c)]}.
Proof.
  unfold record_doc. destruct (docs !! fst c) as [l|] eqn:E.
  - apply map_eq. intros i. rewrite lookup_union.
    destruct (decide (i = fst c)) as [->|Hne].
    + by rewrite E, lookup_singleton_eq.
    + rewrite lookup_singleton_ne by done. by destruct (docs !! i).
  - by apply insert_union_singleton_r.
Qed.

(** The corpus is the map of the calls in which the first call for a
    URL wins. *)
Lemma corpus_foldl stop calls : forall docs,
  foldl (record_doc stop) docs calls
  = docs ∪ list_to_map (map (fun c => (fst c, surviving stop (snd c))) calls).
Proof.
  induction calls as [|c calls IH]; intros docs; simpl.
  - by rewrite (right_id_L ∅ (∪)).
  - rewrite IH, record_doc_union, <- (assoc_L (∪)).
    by rewrite <- insert_union_singleton_l.
Qed.

Lemma corpus_list_to_map stop calls :
  corpus stop calls
  = list_to_map (map (fun c => (fst c, surviving stop (snd c))) calls).
Proof. unfold corpus. by rewrite corpus_foldl, (left_id_L ∅ (∪)). Qed.

Lemma corpus_lookup stop calls d :
  corpus stop calls !! d
  = (fun c => surviving stop (snd c))
      <$> List.find (fun c => String.eqb (fst c) d) calls.
Proof.
  rewrite corpus_list_to_map.
  induction calls as [|c calls IH]; simpl; [done|].
  destruct (String.eqb_spec (fst c) d) as [->|Hne].
  - by rewrite lookup_insert_eq.
  - by rewrite lookup_insert_ne.
Qed.

Lemma corpus_perm stop calls1 calls2 :
  NoDup (map fst calls1) -> calls1 ≡ₚ calls2 ->
  corpus stop calls1 = corpus stop calls2.
Proof.
  intros Hnd Hperm. rewrite !corpus_list_to_map.
  apply list_to_map_proper.
  - assert (forall l : list (string * list string),
              (map (fun c => (fst c, surviving stop (snd c))) l).*1
              = map fst l) as Hfst.
    { induction l as [|c l IHl]; [done|]. cbn. f_equal. exact IHl. }
    rewrite Hfst. exact Hnd.
  - by apply Permutation_map.
Qed.
End CorpusLemmas.

Section InMemDetermined.
Context {strs : Strings} {snow : Snowball} {math : Math}.

Lemma represents_row idx1 idx2 docs s :
  represents idx1 docs -> represents idx2 docs ->
  default ∅ (InMemIndexer.tf idx1 !! s) = default ∅ (InMemIndexer.tf idx2 !! s).
Proof.
  intros H1 H2. apply map_eq. intros d. apply option_eq. intros c.
  by rewrite (represents_posting _ _ _ _ _ H1),
             (represents_posting _ _ _ _ _ H2).
Qed.

(** Two indexes that represent the same corpus answer alike. *)
Lemma Search_determined idx1 idx2 docs term :
  represents idx1 docs -> represents idx2 docs ->
  InMemIndexer.stop idx1 = InMemIndexer.stop idx2 ->
  InMemIndexer.Search idx1 term = InMemIndexer.Search idx2 term.
Proof.
  intros H1 H2 Hstop. unfold InMemIndexer.Search.
  rewrite (rep_N _ _ H1), (rep_N _ _ H2), Hstop.
  rewrite (rep_df _ _ H1), (rep_df _ _ H2).
  rewrite (represents_row idx1 idx2 docs _ H1 H2).
  unfold InMemIndexer.collect, InMemIndexer.score_row.
  by rewrite (rep_docLen _ _ H1), (rep_docLen _ _ H2).
Qed.

(** The documents of the unsorted hits are all those of the postings. *)
Lemma collect_URLs_of idx docs s idf (row : list (string * Z)) :
  represents idx docs ->
  Forall (fun e : string * Z =>
            default ∅ (InMemIndexer.tf idx !! s) !! fst e = Some (snd e)) row ->
  map URL (InMemIndexer.collect idx idf row) = map fst row.
Proof.
  intros Hrep Hall. unfold InMemIndexer.collect.
  induction Hall as [|[d c] row Hdc Hall IH]; [done|].
  cbn [flat_map map fst]. rewrite map_app, IH.
  unfold InMemIndexer.score_row. simpl in Hdc.
  apply (represents_posting _ _ _ _ _ Hrep) in Hdc as (l & Hl & Hin & _).
  rewrite (represents_docLen _ _ _ _ Hrep Hl).
  pose proof (occurrences_le_len s l).
  apply occurrences_pos_iff in Hin.
  case_decide; [lia | done].
Qed.

Lemma collect_URLs idx docs s idf :
  represents idx docs ->
  map URL (InMemIndexer.collect idx idf
             (map_to_list (default ∅ (InMemIndexer.tf idx !! s))))
  = map fst (map_to_list (default ∅ (InMemIndexer.tf idx !! s))).
Proof.
  intros Hrep. apply (collect_URLs_of idx docs s); [done|].
  apply Forall_forall. intros [d c] Hin. by apply elem_of_map_to_list.
Qed.

Lemma represents_row_size idx docs s :
  represents idx docs ->
  Z.of_nat (size (default ∅ (InMemIndexer.tf idx !! s))) = doc_freq s docs.
Proof.
  intros Hrep. unfold doc_freq. f_equal.
  rewrite <- !size_dom. f_equal. apply set_eq. intros d.
  rewrite !elem_of_dom. unfold is_Some.
  setoid_rewrite (represents_posting _ _ _ _ _ Hrep).
  setoid_rewrite map_lookup_filter_Some. simpl. naive_solver.
Qed.
End InMemDetermined.

(** The index that a sequence of [AddDocument] calls builds.  The first
    call for a URL fixes its document, later calls for it are ignored;
    [N] is the number of documents, [docLen] the number of words of a
    document that survive the stopword and stem filter, [tf] the number
    of occurrences of a stem among them, [df] the number of documents in
    which the stem occurs. *)
Theorem AddDocument_builds_index
    {strs : Strings} {snow : Snowball} {math : Math}
    (stop : option (gset string)) (calls : list (string * list string)) :
  let st := default DefaultStopwords stop in
  let idx := InMemIndexer.run (InMemIndexer.New stop) calls in
  let docs := corpus st calls in
  (forall d, docs !! d
             = (fun c => surviving st (snd c))
                 <$> List.find (fun c => String.eqb (fst c) d) calls)
  /\ InMemIndexer.stop idx = st
  /\ InMemIndexer.N idx = Z.of_nat (size docs)
  /\ (forall d, InMemIndexer.docLen idx !! d
                = (fun l => Z.of_nat (length l)) <$> docs !! d)
  /\ (forall s d, get_tf (InMemIndexer.tf idx) s d
                  = occurrences s (default [] (docs !! d)))
  /\ (forall s, get (InMemIndexer.df idx) s
                = Z.of_nat (size (filter (fun kv : string * list string =>
                                            s ∈ snd kv) docs))).
Proof.
  intros st idx docs.
  pose proof (reachable_represents stop calls) as Hrep.
  fold st idx docs in Hrep.
  split; [apply corpus_lookup|].
  split; [unfold idx; by rewrite run_stop|].
  split; [apply (rep_N _ _ Hrep)|].
  split; [intros d; by rewrite (rep_docLen _ _ Hrep), lookup_fmap|].
  split; [|apply (rep_df _ _ Hrep)].
  intros s d. rewrite (rep_tf _ _ Hrep).
  destruct (docs !! d); [done | by rewrite occurrences_nil].
Qed.

(** For a query that is neither empty nor a stopword, [Search] returns
    one hit for each document that contains the stem of the query and no
    other hit; their number is the document frequency of the stem. *)
Theorem Search_hits_matching_documents
    {strs : Strings} {snow : Snowball} {math : Math}
    (stop : option (gset string)) (calls : list (string * list string))
    (term : string) :
  let st := default DefaultStopwords stop in
  let idx := InMemIndexer.run (InMemIndexer.New stop) calls in
  let docs := corpus st calls in
  let out := elems (fst (InMemIndexer.Search idx term)) in
  term <> "" -> ToLower term ∉ st ->
  (forall u, u ∈ map URL out
             <-> exists l, docs !! u = Some l /\ stem (ToLower term) ∈ l)
  /\ NoDup (map URL out)
  /\ Z.of_nat (length out) = get (InMemIndexer.df idx) (stem (ToLower term)).
Proof.
  intros st idx docs out Hterm Hstop.
  pose proof (reachable_represents stop calls) as Hrep.
  fold st idx docs in Hrep.
  set (s := stem (ToLower term)).
  destruct (decide (no_result idx term)) as [Hno|Hyes].
  - assert (doc_freq s docs = 0) as Hdf.
    { destruct Hno as [?|[HN|[Hs|Hdf]]]; [done| | |].
      - pose proof (represents_df_le_N idx docs s Hrep) as Hle.
        rewrite (rep_df _ _ Hrep) in Hle. lia.
      - unfold idx in Hs. by rewrite run_stop in Hs.
      - by rewrite <- (rep_df _ _ Hrep). }
    unfold out. rewrite (Search_no_result _ _ Hno). simpl.
    split; [|split; [apply NoDup_nil_2 | by rewrite (rep_df _ _ Hrep), Hdf]].
    intros u. split; [intros Hu; inversion Hu|].
    intros (l & Hl & Hin).
    assert (0 < doc_freq s docs) by (apply doc_freq_pos_iff; eauto). lia.
  - split; [|split].
    + intros u. rewrite list_elem_of_In, in_map_iff. split.
      * intros (h & <- & Hh). apply list_elem_of_In in Hh.
        apply (Search_represents _ _ _ _ Hrep) in Hh
          as (_ & l & Hl & Hin & _). eauto.
      * intros (l & Hl & Hin).
        exists (mkHit u (tfidf docs s l)). split; [done|].
        apply list_elem_of_In, (Search_represents _ _ _ _ Hrep).
        split; [done|]. simpl. eauto.
    + unfold out. rewrite (Search_result _ _ Hyes). simpl.
      rewrite sort_Slice_perm, (collect_URLs _ _ _ _ Hrep).
      apply NoDup_fst_map_to_list.
    + unfold out. rewrite (Search_result _ _ Hyes). simpl.
      rewrite sort_Slice_perm.
      rewrite <- (length_map URL), (collect_URLs _ _ _ _ Hrep), length_map.
      rewrite length_map_to_list, (represents_row_size _ _ _ Hrep).
      by rewrite (rep_df _ _ Hrep).
Qed.

Lemma Search_hits_matching_documents_witness :
  let out :=
    elems (fst (@InMemIndexer.Search AsciiLib.strings AsciiLib.snowball
                  TestMath.math
                  (@InMemIndexer.run AsciiLib.strings AsciiLib.snowball
                     (InMemIndexer.New None) ship_calls) "ship")) in
  Z.of_nat (length out) = 2.
Proof.
  intros out.
  destruct (@Search_hits_matching_documents AsciiLib.strings AsciiLib.snowball
              TestMath.math None ship_calls "ship") as (_ & _ & Hlen).
  - done.
  - apply (bool_decide_unpack _). vm_compute. exact I.
  - unfold out. rewrite Hlen. vm_compute. reflexivity.
Defined.

(** The answers of the in-memory index do not depend on the order in
    which documents with distinct URLs are added. *)
Theorem Search_order_independent
    {strs : Strings} {snow : Snowball} {math : Math}
    (stop : option (gset string)) (calls1 calls2 : list (string * list string))
    (term : string) :
  NoDup (map fst calls1) -> calls1 ≡ₚ calls2 ->
  InMemIndexer.Search (InMemIndexer.run (InMemIndexer.New stop) calls1) term
  = InMemIndexer.Search (InMemIndexer.run (InMemIndexer.New stop) calls2) term.
Proof.
  intros Hnd Hperm.
  apply (Search_determined _ _ (corpus (default DefaultStopwords stop) calls1)).
  - apply reachable_represents.
  - rewrite (corpus_perm _ calls1 calls2 Hnd Hperm). apply reachable_represents.
  - by rewrite !run_stop.
Qed.

Lemma Search_order_independent_witness :
  @InMemIndexer.Search AsciiLib.strings AsciiLib.snowball TestMath.math
    (@InMemIndexer.run AsciiLib.strings AsciiLib.snowball
       (InMemIndexer.New None) [("a", ["whale"]); ("b", ["ship"])]) "ship"
  = @InMemIndexer.Search AsciiLib.strings AsciiLib.snowball TestMath.math
      (@InMemIndexer.run AsciiLib.strings AsciiLib.snowball
         (InMemIndexer.New None) [("b", ["ship"]); ("a", ["whale"])]) "ship".
Proof.
  apply (@Search_order_independent AsciiLib.strings AsciiLib.snowball
           TestMath.math None).
  - apply (bool_decide_unpack _). vm_compute. exact I.
  - apply perm_swap.
Defined.

(* ===================================================================== *)
(** * CleanHref: the base as a directory *)
(* ===================================================================== *)

Lemma list_ascii_of_string_app s1 s2 :
  list_ascii_of_string (s1 ++ s2)
  = list_ascii_of_string s1 ++ list_ascii_of_string s2.
Proof. induction s1 as [|c s1 IH]; simpl; [done | by rewrite IH]. Qed.

Lemma HasSuffix_slash base : HasSuffix (base ++ "/") "/" = true.
Proof.
  unfold HasSuffix, str_rev.
  rewrite list_ascii_of_string_app, rev_app_distr. simpl.
  by destruct (string_of_list_ascii _).
Qed.

(** A base without a trailing slash is taken as a directory: [CleanHref]
    resolves against the base with a slash added, so that a relative
    link found on the page [.../a/b.html] is resolved below
    [.../a/b.html/]. *)
Theorem CleanHref_base_as_directory
    {strs : Strings} {url : NetURL} (base href : string) :
  HasSuffix base "/" = false ->
  CleanHref base href = CleanHref (base ++ "/") href.
Proof.
  intros Hbase. unfold CleanHref. by rewrite Hbase, HasSuffix_slash.
Qed.

Lemma CleanHref_base_as_directory_witness :
  @CleanHref AsciiLib.strings MiniURL.url "http://example.com/a/b.html" "c.html"
  = "http://example.com/a/b.html/c.html".
Proof.
  rewrite (@CleanHref_base_as_directory AsciiLib.strings MiniURL.url
             "http://example.com/a/b.html" "c.html" eq_refl).
  vm_compute. reflexivity.
Defined.

(* ===================================================================== *)
(** * BuildIndexFromURLList *)
(* ===================================================================== *)

Section BuildIndexLemmas.
Context {strs : Strings} {snow : Snowball} {math : Math}
        {net : NetHTTP} {html : HTML} {re : Regexp}.

(** Indexing a list of URLs is adding the pages that download. *)
Lemma BuildIndex_run urls : forall idx : InMemIndexer.t,
  fst (BuildIndexFromURLList urls idx) = InMemIndexer.run idx (page_calls urls).
Proof.
  unfold BuildIndexFromURLList, InMemIndexer.run, page_calls. simpl.
  induction urls as [|u urls IH]; intros idx; [done|].
  cbn [foldl omap list_omap]. rewrite IH. unfold index_url, page_words at 2.
  destruct (Download u) as [b [err|]]; reflexivity.
Qed.

Lemma page_calls_find urls u :
  List.find (fun c : string * list string => String.eqb (fst c) u)
            (page_calls urls)
  = if decide (u ∈ urls) then (fun ws => (u, ws)) <$> page_words u else None.
Proof.
  unfold page_calls. induction urls as [|v urls IH]; [done|].
  cbn [omap list_omap]. destruct (page_words v) as [ws|] eqn:Hv; simpl.
  - destruct (String.eqb_spec v u) as [->|Hne].
    + rewrite decide_True by set_solver. by rewrite Hv.
    + rewrite IH.
      destruct (decide (u ∈ urls)), (decide (u ∈ v :: urls));
        try done; set_solver.
  - rewrite IH.
    destruct (decide (u ∈ urls)), (decide (u ∈ v :: urls));
      try done; try set_solver.
    assert (u = v) as -> by set_solver. by rewrite Hv.
Qed.
End BuildIndexLemmas.

(** [BuildIndexFromURLList] never fails, whatever happens to the
    downloads.  On a new in-memory indexer it indexes exactly the listed
    URLs that download, each with the words that [Extract] finds in its
    page: a search returns a hit for a URL only if the URL is listed, its
    page was downloaded, and a word of the page survives the filters as
    the stem of the query. *)
Theorem BuildIndex_hits_are_listed_pages
    {strs : Strings} {snow : Snowball} {math : Math}
    {net : NetHTTP} {html : HTML} {re : Regexp}
    (stop : option (gset string)) (urls : list string) (term : string)
    (h : Hit) :
  let st := default DefaultStopwords stop in
  let built := BuildIndexFromURLList urls (InMemIndexer.New stop) in
  snd built = None
  /\ (forall u, is_Some (InMemIndexer.docLen (fst built) !! u)
                <-> u ∈ urls /\ is_Some (page_words u))
  /\ (h ∈ elems (fst (InMemIndexer.Search (fst built) term)) ->
      URL h ∈ urls
      /\ exists ws, page_words (URL h) = Some ws
           /\ stem (ToLower term) ∈ surviving st ws).
Proof.
  intros st built. split; [done|].
  assert (Hrun : fst built = InMemIndexer.run (InMemIndexer.New stop)
                               (page_calls urls)) by apply BuildIndex_run.
  pose proof (reachable_represents stop (page_calls urls)) as Hrep.
  rewrite <- Hrun in Hrep. fold st in Hrep.
  assert (Hdocs : forall u,
            corpus st (page_calls urls) !! u
            = if decide (u ∈ urls) then surviving st <$> page_words u
              else None).
  { intros u. rewrite corpus_lookup, page_calls_find.
    case_decide; [|done]. by destruct (page_words u). }
  split.
  - intros u. rewrite (InMem_known_iff _ _ _ Hrep), Hdocs.
    case_decide; [|split; [by intros [? ?] | tauto]].
    rewrite fmap_is_Some. tauto.
  - intros Hh.
    apply (Search_represents _ _ _ _ Hrep) in Hh as (_ & l & Hl & Hin & _).
    rewrite Hdocs in Hl. case_decide; [|done]. split; [done|].
    destruct (page_words (URL h)) as [ws|]; [|done].
    injection Hl as <-. eauto.
Qed.

Lemma BuildIndex_hits_are_listed_pages_witness :
  let built :=
    @BuildIndexFromURLList AsciiLib.strings TestSite.http TestPage.html
      TestPage.regexp _ (@InMemIndexer_Indexer AsciiLib.strings
                           AsciiLib.snowball TestMath.math)
      ["http://127.0.0.1:4000/d1"; "http://example.com/evil"]
      (InMemIndexer.New None) in
  is_Some (InMemIndexer.docLen (fst built) !! "http://127.0.0.1:4000/d1").
Proof.
  intros built.
  destruct (@BuildIndex_hits_are_listed_pages AsciiLib.strings
              AsciiLib.snowball TestMath.math TestSite.http TestPage.html
              TestPage.regexp None
              ["http://127.0.0.1:4000/d1"; "http://example.com/evil"]
              "hello" (mkHit "" F64.zero))
    as (_ & Hdocs & _).
  apply Hdocs. split; [constructor|]. vm_compute. eauto.
Defined.

(* ===================================================================== *)
(** * Tables with unique ids and names *)
(* ===================================================================== *)

Section SqlTables.
Lemma next_id_bound {A} (rows : list (Z * A)) i :
  i ∈ map fst rows -> i < Sql.next_id rows.
Proof.
  unfold Sql.next_id. induction rows as [|[j a] rows IH]; simpl.
  - intros Hin. inversion Hin.
  - intros [->|Hin]%elem_of_cons; [lia|]. specialize (IH Hin). lia.
Qed.

Lemma next_id_fresh {A} (rows : list (Z * A)) :
  Sql.next_id rows ∉ map fst rows.
Proof. intros Hin. apply next_id_bound in Hin. lia. Qed.

Lemma select_id_None tbl name :
  Sql.select_id tbl name = None <-> name ∉ map snd tbl.
Proof.
  unfold Sql.select_id. induction tbl as [|[i n] tbl IH]; simpl.
  - split; [intros _ Hin; inversion Hin | done].
  - destruct (String.eqb_spec n name) as [->|Hne]; simpl.
    + split; [done|]. intros Hn. exfalso. apply Hn. by left.
    + rewrite IH. rewrite not_elem_of_cons. split; [|tauto].
      intros Hn. split; [congruence | done].
Qed.

Lemma select_id_Some tbl name i :
  NoDup (map snd tbl) ->
  Sql.select_id tbl name = Some i <-> (i, name) ∈ tbl.
Proof.
  unfold Sql.select_id. induction tbl as [|[j n] tbl IH]; simpl; intros Hnd.
  - split; [done | intros Hin; inversion Hin].
  - apply NoDup_cons in Hnd as [Hn Hnd].
    destruct (String.eqb_spec n name) as [->|Hne]; simpl.
    + split.
      * intros [= ->]. by left.
      * intros [Heq|Hin]%elem_of_cons; [by injection Heq as -> |].
        exfalso. apply Hn. apply list_elem_of_In, in_map_iff.
        exists (i, name). split; [done | by apply list_elem_of_In].
    + rewrite (IH Hnd). rewrite elem_of_cons. split; [tauto|].
      intros [Heq|Hin]; [by injection Heq as -> -> | done].
Qed.

Lemma select_id_app tbl x name i :
  Sql.select_id tbl name = Some i -> Sql.select_id (tbl ++ x) name = Some i.
Proof.
  unfold Sql.select_id. induction tbl as [|[j n] tbl IH]; simpl; [done|].
  by destruct (String.eqb n name).
Qed.

Lemma wf_table_id tbl i n1 n2 :
  wf_table tbl -> (i, n1) ∈ tbl -> (i, n2) ∈ tbl -> n1 = n2.
Proof.
  intros [Hid _]. induction tbl as [|[j n] tbl IH]; simpl in *.
  - intros Hin. inversion Hin.
  - apply NoDup_cons in Hid as [Hj Hid].
    assert (forall m, (j, m) ∈ tbl -> False) as Hfresh.
    { intros m Hm. apply Hj, list_elem_of_In, in_map_iff.
      exists (j, m). split; [done | by apply list_elem_of_In]. }
    intros [H1|H1]%elem_of_cons [H2|H2]%elem_of_cons.
    + congruence.
    + injection H1 as -> ->. by destruct (Hfresh n2).
    + injection H2 as -> ->. by destruct (Hfresh n1).
    + by apply IH.
Qed.

Lemma wf_table_name tbl i1 i2 n :
  wf_table tbl -> (i1, n) ∈ tbl -> (i2, n) ∈ tbl -> i1 = i2.
Proof.
  intros [_ Hnd] H1 H2.
  apply (select_id_Some _ _ _ Hnd) in H1, H2. congruence.
Qed.

(** [INSERT OR IGNORE] appends at most one row, for the name given. *)
Lemma insert_or_ignore_spec tbl name :
  wf_table tbl ->
  exists nw,
    Sql.insert_or_ignore tbl name = tbl ++ nw
    /\ wf_table (tbl ++ nw)
    /\ name ∈ map snd (tbl ++ nw)
    /\ (forall s, s ∈ map snd nw -> s = name /\ name ∉ map snd tbl).
Proof.
  intros [Hid Hnm]. unfold Sql.insert_or_ignore.
  destruct (Sql.select_id tbl name) as [i|] eqn:Hsel.
  - exists []. rewrite app_nil_r. split; [done|]. split; [done|]. split.
    + apply (select_id_Some _ _ _ Hnm) in Hsel.
      apply list_elem_of_In, in_map_iff. exists (i, name).
      split; [done | by apply list_elem_of_In].
    + intros s Hs. inversion Hs.
  - apply select_id_None in Hsel.
    exists [(Sql.next_id tbl, name)]. split; [done|]. split; [split|split].
    + rewrite map_app. apply NoDup_app. split; [done|]. split.
      * intros j Hj [->|Hin]%elem_of_cons; [|inversion Hin].
        by apply (next_id_fresh tbl).
      * apply NoDup_singleton.
    + rewrite map_app. apply NoDup_app. split; [done|]. split.
      * intros s Hs [->|Hin]%elem_of_cons; [done | inversion Hin].
      * apply NoDup_singleton.
    + rewrite map_app. apply elem_of_app. right. by left.
    + intros s [->|Hin]%elem_of_cons; [done | inversion Hin].
Qed.

Lemma flat_map_ext_in {A B} (f g : A -> list B) l :
  (forall a, a ∈ l -> f a = g a) -> flat_map f l = flat_map g l.
Proof.
  induction l as [|a l IH]; intros Hfg; simpl; [done|].
  rewrite (Hfg a) by (by left). rewrite IH; [done|].
  intros b Hb. apply Hfg. by right.
Qed.

Lemma flat_map_nil_in {A B} (f : A -> list B) l :
  (forall a, a ∈ l -> f a = []) -> flat_map f l = [].
Proof.
  induction l as [|a l IH]; intros Hf; simpl; [done|].
  rewrite (Hf a) by (by left). rewrite IH; [done|].
  intros b Hb. apply Hf. by right.
Qed.

(** Selecting by id in a table with unique ids. *)
Lemma flat_map_by_id {B} (tbl : list (Z * string)) i n
    (f : Z * string -> list B) :
  NoDup (map fst tbl) -> (i, n) ∈ tbl ->
  (forall r, fst r <> i -> f r = []) ->
  flat_map f tbl = f (i, n).
Proof.
  intros Hnd Hin Hf. induction tbl as [|[j m] tbl IH]; simpl in *.
  - inversion Hin.
  - apply NoDup_cons in Hnd as [Hj Hnd].
    apply elem_of_cons in Hin as [Heq|Hin].
    + injection Heq as <- <-. rewrite flat_map_nil_in; [by rewrite app_nil_r|].
      intros [k m'] Hk. apply Hf. simpl. intros ->.
      apply Hj, list_elem_of_In, in_map_iff. exists (i, m').
      split; [done | by apply list_elem_of_In].
    + rewrite (Hf (j, m)); [by apply IH|]. simpl. intros ->.
      apply Hj, list_elem_of_In, in_map_iff. exists (i, n).
      split; [done | by apply list_elem_of_In].
Qed.
End SqlTables.

(* ===================================================================== *)
(** * The SQLite backend: adding a document with a new URL *)
(* ===================================================================== *)

Section SqlWordCount.
Context {strs : Strings} {snow : Snowball}.

Lemma count_words_get stop ws : forall wc s,
  get (foldl (SQLiteIndexer.count_word stop) wc ws) s
  = get wc s + occurrences s (surviving stop ws).
Proof.
  induction ws as [|w ws IH]; intros wc s.
  - simpl. rewrite occurrences_nil. lia.
  - cbn [foldl]. rewrite IH, surviving_cons.
    unfold SQLiteIndexer.count_word.
    destruct (normalize stop w) as [s0|]; [|done].
    change (s0 :: surviving stop ws) with ([s0] ++ surviving stop ws).
    rewrite occurrences_app, occurrences_single. unfold get at 1.
    destruct (decide (s = s0)) as [->|Hne].
    + rewrite lookup_insert_eq. simpl. lia.
    + rewrite lookup_insert_ne by done. unfold get. lia.
Qed.

(** The entries of [wordCount]: the stems of the document, each with
    the number of its occurrences. *)
Lemma wordCount_lookup stop ws s c :
  foldl (SQLiteIndexer.count_word stop) ∅ ws !! s = Some c
  <-> s ∈ surviving stop ws /\ c = occurrences s (surviving stop ws).
Proof.
  pose proof (count_words_get stop ws ∅ s) as Hget.
  unfold get in Hget. rewrite lookup_empty in Hget. simpl in Hget.
  split.
  - intros Hc. rewrite Hc in Hget. simpl in Hget.
    assert (0 < c) as Hpos.
    { eapply (count_words_pos stop ws ∅); [|done].
      intros s' c'. by rewrite lookup_empty. }
    split; [|lia]. apply occurrences_pos_iff. lia.
  - intros [Hin ->]. apply occurrences_pos_iff in Hin.
    destruct (foldl _ ∅ ws !! s) as [c|]; simpl in Hget; [|lia].
    f_equal. lia.
Qed.

Lemma sum_perm (l l' : list Z) :
  l ≡ₚ l' -> foldr Z.add 0 l = foldr Z.add 0 l'.
Proof.
  induction 1 as [|x l l' Hp IH|x y l|l l' l'' Hp1 IH1 Hp2 IH2]; simpl; lia.
Qed.

Lemma map_sum_empty : map_sum ∅ = 0.
Proof. unfold map_sum. by rewrite map_to_list_empty. Qed.

Lemma map_sum_insert_None (m : gmap string Z) k c :
  m !! k = None -> map_sum (<[k := c]> m) = c + map_sum m.
Proof.
  intros Hk. unfold map_sum.
  rewrite (sum_perm _ (map snd ((k, c) :: map_to_list m))); [done|].
  apply Permutation_map. by apply map_to_list_insert.
Qed.

Lemma map_sum_bump (m : gmap string Z) k :
  map_sum (<[k := get m k + 1]> m) = map_sum m + 1.
Proof.
  unfold get. destruct (m !! k) as [c|] eqn:Hk; simpl.
  - rewrite <- (insert_delete_eq m k (c + 1)).
    rewrite map_sum_insert_None by apply lookup_delete_eq.
    rewrite <- (insert_delete_id m k c Hk) at 2.
    rewrite map_sum_insert_None by apply lookup_delete_eq. lia.
  - rewrite map_sum_insert_None by done. lia.
Qed.

(** The counts of [wordCount] add up to the number of surviving
    words. *)
Lemma wordCount_sum stop ws : forall wc,
  map_sum (foldl (SQLiteIndexer.count_word stop) wc ws)
  = map_sum wc + doc_len (surviving stop ws).
Proof.
  unfold doc_len.
  induction ws as [|w ws IH]; intros wc; [simpl; lia|].
  cbn [foldl]. rewrite IH, surviving_cons.
  unfold SQLiteIndexer.count_word.
  destruct (normalize stop w) as [s0|]; [|done].
  rewrite map_sum_bump. simpl length. lia.
Qed.
End SqlWordCount.

Section SqlPosting.
Lemma filter_all {A} (p : A -> bool) l :
  (forall a, a ∈ l -> p a = true) -> List.filter p l = l.
Proof.
  induction l as [|a l IH]; intros Hp; simpl; [done|].
  rewrite (Hp a) by (by left). rewrite IH; [done|].
  intros b Hb. apply Hp. by right.
Qed.

Lemma elem_of_map_fst {A B} (l : list (A * B)) a b :
  (a, b) ∈ l -> a ∈ map fst l.
Proof.
  intros Hin. apply list_elem_of_In, in_map_iff. exists (a, b).
  split; [done | by apply list_elem_of_In].
Qed.

Lemma elem_of_map_snd {A B} (l : list (A * B)) a b :
  (a, b) ∈ l -> b ∈ map snd l.
Proof.
  intros Hin. apply list_elem_of_In, in_map_iff. exists (a, b).
  split; [done | by apply list_elem_of_In].
Qed.

Lemma elem_of_map_snd_inv {A B} (l : list (A * B)) b :
  b ∈ map snd l -> exists a, (a, b) ∈ l.
Proof.
  intros Hin. apply list_elem_of_In, in_map_iff in Hin as ([a b'] & <- & Hin).
  exists a. by apply list_elem_of_In.
Qed.

Lemma elem_of_map_fst_inv {A B} (l : list (A * B)) a :
  a ∈ map fst l -> exists b, (a, b) ∈ l.
Proof.
  intros Hin. apply list_elem_of_In, in_map_iff in Hin as ([a' b] & <- & Hin).
  exists b. by apply list_elem_of_In.
Qed.

(** The posting loop, for a URL id that has no posting yet for the
    words still to come: the table of words grows at its end, and one
    row is appended to [hits] for each entry of [wordCount]. *)
Lemma post_loop_spec urlID es : forall ws hs,
  wf_table ws -> NoDup (map fst es) ->
  (forall u w c, (u, w, c) ∈ hs -> u = urlID ->
     exists s', (w, s') ∈ ws /\ s' ∉ map fst es) ->
  exists nw,
    foldl (SQLiteIndexer.post_word urlID) (ws, hs) es
    = (ws ++ nw, hs ++ map (new_hit urlID (ws ++ nw)) es)
    /\ wf_table (ws ++ nw)
    /\ (forall s, s ∈ map snd nw -> s ∈ map fst es /\ s ∉ map snd ws)
    /\ (forall s, s ∈ map fst es -> s ∈ map snd (ws ++ nw)).
Proof.
  induction es as [|[s c] es IH]; intros ws hs Hwf Hnd Hhs.
  { exists []. rewrite !app_nil_r. simpl. split; [done|]. split; [done|].
    split; intros s Hs; inversion Hs. }
  simpl in Hnd. apply NoDup_cons in Hnd as [Hs Hnd].
  cbn [foldl]. unfold SQLiteIndexer.post_word at 2.
  destruct (insert_or_ignore_spec ws s Hwf) as (nw1 & -> & Hwf1 & Hin1 & Hnew1).
  apply elem_of_map_snd_inv in Hin1 as [id1 Hid1].
  pose proof (proj2 (select_id_Some _ _ _ (proj2 Hwf1)) Hid1) as Hsel1.
  unfold SQLiteIndexer.insert_or_replace_hit. rewrite Hsel1.
  rewrite filter_all.
  2:{ intros [[u w] c'] Hin. unfold SQLiteIndexer.same_key.
      destruct (Z.eqb_spec u urlID) as [->|]; [|done].
      destruct (Z.eqb_spec w id1) as [->|]; [|done]. exfalso.
      destruct (Hhs _ _ _ Hin eq_refl) as (s' & Hs' & Hnot).
      assert (s' = s) as ->.
      { apply (wf_table_id (ws ++ nw1) id1); [done | | done].
        apply elem_of_app. by left. }
      apply Hnot. by left. }
  destruct (IH (ws ++ nw1) (hs ++ [(urlID, id1, c)]) Hwf1 Hnd)
    as (nw2 & Hfold & Hwf2 & Hnew2 & Hall2).
  { intros u w c' [Hin|Hin]%elem_of_app Hu.
    - destruct (Hhs _ _ _ Hin Hu) as (s' & Hs' & Hnot).
      exists s'. split; [apply elem_of_app; by left|].
      intros Hin'. apply Hnot. by right.
    - apply list_elem_of_singleton in Hin. injection Hin as -> -> ->.
      by exists s. }
  exists (nw1 ++ nw2). rewrite Hfold, (app_assoc ws nw1 nw2).
  split; [|split; [done|split]].
  - f_equal. rewrite <- (app_assoc hs). f_equal. cbn [app map]. f_equal.
    unfold new_hit. cbn [fst snd].
    by rewrite (select_id_app _ nw2 _ _ Hsel1).
  - intros s0. rewrite map_app, elem_of_app. intros [Hs0|Hs0].
    + destruct (Hnew1 _ Hs0) as [-> Hn]. split; [by left | done].
    + destruct (Hnew2 _ Hs0) as [? Hn]. split; [by right|].
      intros Hin. apply Hn. rewrite map_app. apply elem_of_app. by left.
  - intros s0 [->|Hs0]%elem_of_cons.
    + rewrite map_app. apply elem_of_app. left.
      by apply (elem_of_map_snd _ id1).
    + by apply Hall2.
Qed.
End SqlPosting.

Section SqlRows.
Lemma filter_by_id (tbl : list (Z * string)) i n (q : Z * string -> bool) :
  NoDup (map fst tbl) -> (i, n) ∈ tbl ->
  List.filter (fun r => (i =? fst r) && q r) tbl
  = if q (i, n) then [(i, n)] else [].
Proof.
  intros Hnd Hin. induction tbl as [|[j m] tbl IH]; simpl in *.
  - inversion Hin.
  - apply NoDup_cons in Hnd as [Hj Hnd].
    apply elem_of_cons in Hin as [Heq|Hin].
    + injection Heq as <- <-. rewrite Z.eqb_refl. simpl.
      assert (List.filter (fun r : Z * string => (i =? fst r) && q r) tbl = [])
        as ->; [|by destruct (q (i, n))].
      clear IH Hnd.
      induction tbl as [|[k m'] tbl IHt]; simpl; [done|].
      destruct (Z.eqb_spec i k) as [->|Hne]; simpl.
      * exfalso. apply Hj. by left.
      * apply IHt. intros Hin. apply Hj. by right.
    + destruct (Z.eqb_spec i j) as [->|Hne]; simpl; [|by apply IH].
      exfalso. apply Hj. by apply (elem_of_map_fst _ j n).
Qed.

Lemma find_key_map_to_list (m : gmap string Z) s :
  List.find (fun e : string * Z => String.eqb (fst e) s) (map_to_list m)
  = (fun c => (s, c)) <$> m !! s.
Proof.
  destruct (List.find _ (map_to_list m)) as [[k c]|] eqn:Hf.
  - apply find_some in Hf as [Hin Hk]. simpl in Hk.
    apply String.eqb_eq in Hk as ->.
    apply list_elem_of_In, elem_of_map_to_list in Hin. by rewrite Hin.
  - destruct (m !! s) as [c|] eqn:Hs; [|done].
    apply elem_of_map_to_list, list_elem_of_In in Hs.
    apply (find_none _ _ Hf) in Hs. simpl in Hs.
    by rewrite String.eqb_refl in Hs.
Qed.

Lemma flat_map_key {B} (es : list (string * Z)) s (g : string * Z -> list B) :
  NoDup (map fst es) ->
  flat_map (fun e => if String.eqb (fst e) s then g e else []) es
  = match List.find (fun e => String.eqb (fst e) s) es with
    | Some e => g e
    | None => []
    end.
Proof.
  induction es as [|[k c] es IH]; intros Hnd; simpl; [done|].
  simpl in Hnd. apply NoDup_cons in Hnd as [Hk Hnd].
  destruct (String.eqb_spec k s) as [->|Hne]; [|by apply IH].
  rewrite flat_map_nil_in; [by rewrite app_nil_r|].
  intros [k' c'] Hin. simpl.
  destruct (String.eqb_spec k' s) as [->|]; [|done].
  exfalso. apply Hk. by apply (elem_of_map_fst _ s c').
Qed.

Lemma flat_map_wordCount {B} (m : gmap string Z) s (g : string * Z -> list B) :
  flat_map (fun e => if String.eqb (fst e) s then g e else []) (map_to_list m)
  = match m !! s with Some c => g (s, c) | None => [] end.
Proof.
  rewrite flat_map_key by apply NoDup_fst_map_to_list.
  rewrite find_key_map_to_list. by destruct (m !! s).
Qed.

Lemma spec_rows_insert (docs : gmap string (list string)) url sv s :
  docs !! url = None ->
  spec_rows (<[url := sv]> docs) s
  ≡ₚ spec_rows docs s
     ++ if decide (s ∈ sv) then [(url, occurrences s sv, doc_len sv)] else [].
Proof.
  intros Hnone. unfold spec_rows. case_decide as Hin.
  - rewrite map_filter_insert_True by done.
    rewrite map_to_list_insert
      by (apply map_lookup_filter_None; by left).
    simpl. apply Permutation_cons_append.
  - rewrite map_filter_insert_False by done.
    rewrite delete_id by done. by rewrite app_nil_r.
Qed.
End SqlRows.

Section SqlAddDocument.
Context {strs : Strings} {snow : Snowball} {math : Math}.

(** The store after [AddDocument] with a URL that is not yet known:
    one row more in [urls], the new stems at the end of [words], one
    posting at the end of [hits] for each stem of the document. *)
Lemma SQLite_AddDocument_new_db idx url ws docs :
  sql_represents (SQLiteIndexer.db idx) docs -> docs !! url = None ->
  let d := SQLiteIndexer.db idx in
  let nid := Sql.next_id (SQLiteIndexer.urls d) in
  let wc := foldl (SQLiteIndexer.count_word (SQLiteIndexer.stop idx)) ∅ ws in
  exists nw,
    SQLiteIndexer.AddDocument idx url ws
    = (SQLiteIndexer.mk
         (SQLiteIndexer.mkdb
            (SQLiteIndexer.urls d ++ [(nid, url)])
            (SQLiteIndexer.words d ++ nw)
            (SQLiteIndexer.hits d
               ++ map (new_hit nid (SQLiteIndexer.words d ++ nw))
                      (map_to_list wc)))
         (SQLiteIndexer.stop idx), None)
    /\ wf_table (SQLiteIndexer.words d ++ nw)
    /\ (forall s, is_Some (wc !! s) ->
          s ∈ map snd (SQLiteIndexer.words d ++ nw)).
Proof.
  intros Hrep Hnone d nid wc. subst d.
  set (d := SQLiteIndexer.db idx) in *.
  assert (url ∉ map snd (SQLiteIndexer.urls d)) as Hfresh.
  { rewrite (sql_names _ _ Hrep), Hnone. by intros [? ?]. }
  unfold SQLiteIndexer.AddDocument. fold d.
  assert (Sql.insert_or_ignore (SQLiteIndexer.urls d) url
          = SQLiteIndexer.urls d ++ [(nid, url)]) as ->.
  { unfold Sql.insert_or_ignore.
    by rewrite (proj2 (select_id_None _ _) Hfresh). }
  assert (Sql.select_id (SQLiteIndexer.urls d ++ [(nid, url)]) url = Some nid)
    as ->.
  { apply select_id_Some; [|apply elem_of_app; right; by left].
    rewrite map_app. apply NoDup_app. split; [apply (sql_urls _ _ Hrep)|].
    split; [|apply NoDup_singleton].
    intros s Hs [->|Hin]%elem_of_cons; [done | inversion Hin]. }
  fold wc.
  destruct (post_loop_spec nid (map_to_list wc) (SQLiteIndexer.words d)
              (SQLiteIndexer.hits d)) as (nw & -> & Hwf & _ & Hall).
  - apply (sql_words _ _ Hrep).
  - apply NoDup_fst_map_to_list.
  - intros u w c Hin ->. exfalso.
    destruct (sql_refs _ _ Hrep _ _ _ Hin) as [Hu _].
    by apply (next_id_fresh (SQLiteIndexer.urls d)).
  - exists nw. split; [done|]. split; [done|].
    intros s [c Hc]. apply Hall.
    apply (elem_of_map_fst _ s c). by apply elem_of_map_to_list.
Qed.
End SqlAddDocument.

Section SqlExtend.
Lemma filter_nil_in {A} (p : A -> bool) l :
  (forall a, a ∈ l -> p a = false) -> List.filter p l = [].
Proof.
  induction l as [|a l IH]; intros Hp; simpl; [done|].
  rewrite (Hp a) by (by left). apply IH. intros b Hb. apply Hp. by right.
Qed.

Lemma perm_of_eq {A} (l l' : list A) : l = l' -> l ≡ₚ l'.
Proof. by intros ->. Qed.

Lemma flat_map_map {A B C} (g : A -> B) (f : B -> list C) l :
  flat_map f (map g l) = flat_map (fun a => f (g a)) l.
Proof. induction l as [|a l IH]; simpl; [done | by rewrite IH]. Qed.

Lemma NoDup_app_fresh (tbl nw : list (Z * string)) i n :
  NoDup (map fst (tbl ++ nw)) -> (i, n) ∈ nw -> i ∉ map fst tbl.
Proof.
  rewrite map_app. intros (_ & Hdisj & _)%NoDup_app Hin Hi.
  apply (Hdisj i Hi). by apply (elem_of_map_fst _ i n).
Qed.

Variables (d : SQLiteIndexer.database) (docs : gmap string (list string)).
Variables (url : string) (nw : list (Z * string)) (wc : gmap string Z).
Variable sv : list string.
Hypothesis Hrep : sql_represents d docs.
Hypothesis Hnone : docs !! url = None.
Hypothesis Hwf : wf_table (SQLiteIndexer.words d ++ nw).
Hypothesis Hwc : forall s c,
  wc !! s = Some c <-> s ∈ sv /\ c = occurrences s sv.
Hypothesis Hsum : map_sum wc = doc_len sv.
Hypothesis Hall : forall s,
  is_Some (wc !! s) -> s ∈ map snd (SQLiteIndexer.words d ++ nw).

Let nid := Sql.next_id (SQLiteIndexer.urls d).
Let words' := SQLiteIndexer.words d ++ nw.
Let es := map_to_list wc.
Let d' := SQLiteIndexer.mkdb
            (SQLiteIndexer.urls d ++ [(nid, url)]) words'
            (SQLiteIndexer.hits d ++ map (new_hit nid words') es).

Lemma extend_nid_fresh : nid ∉ map fst (SQLiteIndexer.urls d).
Proof. apply next_id_fresh. Qed.

(** The posting written for an entry of [wordCount]. *)
Lemma extend_new_hit t c :
  (t, c) ∈ es ->
  exists wid, (wid, t) ∈ words' /\ new_hit nid words' (t, c) = (nid, wid, c).
Proof.
  intros Hin. apply elem_of_map_to_list in Hin.
  assert (t ∈ map snd words') as Ht by (apply Hall; eauto).
  apply elem_of_map_snd_inv in Ht as [wid Hwid]. exists wid.
  split; [done|]. unfold new_hit. simpl.
  by rewrite (proj2 (select_id_Some words' t wid (proj2 Hwf)) Hwid).
Qed.

Lemma extend_total_old u :
  u ∈ map fst (SQLiteIndexer.urls d) ->
  SQLiteIndexer.total_words d' u = SQLiteIndexer.total_words d u.
Proof.
  intros Hu. unfold SQLiteIndexer.total_words, d'. simpl.
  rewrite List.filter_app.
  rewrite (filter_nil_in _ (map _ es)); [by rewrite app_nil_r|].
  intros h Hh. apply list_elem_of_In, in_map_iff in Hh as ([t c] & <- & Hin).
  unfold new_hit. simpl. apply Z.eqb_neq. intros Heq.
  apply extend_nid_fresh. by rewrite Heq.
Qed.

Lemma extend_total_new : SQLiteIndexer.total_words d' nid = doc_len sv.
Proof.
  unfold SQLiteIndexer.total_words, d'. simpl.
  rewrite List.filter_app, filter_nil_in, filter_all.
  - simpl. rewrite <- Hsum. unfold map_sum. fold es. f_equal.
    rewrite map_map. done.
  - intros h Hh.
    apply list_elem_of_In, in_map_iff in Hh as ([t c] & <- & Hin).
    unfold new_hit. simpl. apply Z.eqb_refl.
  - intros [[u w] c] Hin. simpl. apply Z.eqb_neq. intros ->.
    apply extend_nid_fresh. by destruct (sql_refs _ _ Hrep _ _ _ Hin).
Qed.

(** An old posting is joined with the same word as before. *)
Lemma extend_old_words {B} (h : Z * Z * Z) (f : Z * string -> list B) :
  h ∈ SQLiteIndexer.hits d ->
  (forall w, fst w <> snd (fst h) -> f w = []) ->
  flat_map f words' = flat_map f (SQLiteIndexer.words d).
Proof.
  intros Hin Hf. unfold words'. rewrite flat_map_app.
  rewrite (flat_map_nil_in f nw); [by rewrite app_nil_r|].
  intros [i n] Hw. apply Hf. simpl. intros ->.
  destruct h as [[u w] c]. simpl in *.
  destruct (sql_refs _ _ Hrep _ _ _ Hin) as [_ Hw'].
  by apply (NoDup_app_fresh _ _ _ _ (proj1 Hwf) Hw).
Qed.

Lemma extend_old_filter (h : Z * Z * Z) (p : Z * string -> bool) :
  h ∈ SQLiteIndexer.hits d ->
  (forall w, fst w <> snd (fst h) -> p w = false) ->
  List.filter p words' = List.filter p (SQLiteIndexer.words d).
Proof.
  intros Hin Hp. unfold words'. rewrite List.filter_app.
  rewrite (filter_nil_in p nw); [by rewrite app_nil_r|].
  intros [i n] Hw. apply Hp. simpl. intros ->.
  destruct h as [[u w] c]. simpl in *.
  destruct (sql_refs _ _ Hrep _ _ _ Hin) as [_ Hw'].
  by apply (NoDup_app_fresh _ _ _ _ (proj1 Hwf) Hw).
Qed.

Lemma extend_df s :
  SQLiteIndexer.count_hits d' s = doc_freq s (<[url := sv]> docs).
Proof.
  rewrite doc_freq_insert by done. rewrite <- (sql_df _ _ Hrep).
  unfold SQLiteIndexer.count_hits, d'. simpl.
  rewrite flat_map_app, length_app, Nat2Z.inj_add. f_equal.
  - do 2 f_equal. apply flat_map_ext_in. intros h Hh.
    apply (extend_old_filter h); [done|].
    intros w Hne.
    destruct (Z.eqb_spec (snd (fst h)) (fst w)); [congruence | done].
  - rewrite flat_map_map.
    rewrite (flat_map_ext_in _
      (fun e : string * Z =>
         if String.eqb (fst e) s
         then [(default 0 (Sql.select_id words' (fst e)), fst e)] else [])).
    2:{ intros [t c] Hin.
        destruct (extend_new_hit t c Hin) as (wid & Hwid & Heq).
        rewrite Heq. simpl.
        rewrite (filter_by_id words' wid t
                   (fun r => String.eqb (snd r) s) (proj1 Hwf) Hwid).
        simpl.
        by rewrite (proj2 (select_id_Some words' t wid (proj2 Hwf)) Hwid). }
    unfold es. rewrite flat_map_wordCount.
    destruct (wc !! s) as [c|] eqn:Hc.
    + apply Hwc in Hc as [Hin _]. by rewrite decide_True.
    + case_decide as Hin; [|done]. exfalso.
      assert (wc !! s = Some (occurrences s sv)) as Hs by (by apply Hwc).
      congruence.
Qed.

Lemma extend_rows s :
  SQLiteIndexer.join_rows d' s ≡ₚ spec_rows (<[url := sv]> docs) s.
Proof.
  rewrite spec_rows_insert by done. rewrite <- (sql_rows _ _ Hrep s).
  unfold SQLiteIndexer.join_rows.
  change (SQLiteIndexer.urls d') with (SQLiteIndexer.urls d ++ [(nid, url)]).
  change (SQLiteIndexer.hits d')
    with (SQLiteIndexer.hits d ++ map (new_hit nid words') es).
  change (SQLiteIndexer.words d') with words'.
  rewrite flat_map_app. apply Permutation_app.
  - (* the rows of the documents that were there *)
    apply perm_of_eq, flat_map_ext_in. intros [uid name] Hu. simpl.
    rewrite flat_map_app.
    rewrite (flat_map_nil_in _ (map _ es)).
    2:{ intros h Hh.
        apply list_elem_of_In, in_map_iff in Hh as ([t c] & <- & Hin).
        unfold new_hit. simpl.
        destruct (Z.eqb_spec uid nid) as [Heq|]; [|done]. exfalso.
        apply extend_nid_fresh. rewrite <- Heq.
        by apply (elem_of_map_fst _ uid name). }
    rewrite app_nil_r. apply flat_map_ext_in. intros h Hh.
    destruct (uid =? fst (fst h)); [|done].
    rewrite (extend_old_words h); [|done|].
    + by rewrite extend_total_old by (by apply (elem_of_map_fst _ uid name)).
    + intros w Hne. destruct (Z.eqb_spec (fst w) (snd (fst h))); done.
  - (* the rows of the new document *)
    apply perm_of_eq. simpl. rewrite app_nil_r, flat_map_app.
    rewrite (flat_map_nil_in _ (SQLiteIndexer.hits d)).
    2:{ intros [[u w] c] Hin. simpl.
        destruct (Z.eqb_spec nid u) as [Heq|]; [|done]. exfalso.
        apply extend_nid_fresh. rewrite Heq.
        by destruct (sql_refs _ _ Hrep _ _ _ Hin). }
    simpl. rewrite flat_map_map.
    rewrite (flat_map_ext_in _
      (fun e : string * Z =>
         if String.eqb (fst e) s
         then [(url, snd e, doc_len sv)] else [])).
    2:{ intros [t c] Hin.
        destruct (extend_new_hit t c Hin) as (wid & Hwid & Heq).
        rewrite Heq. simpl. rewrite Z.eqb_refl.
        rewrite (flat_map_by_id words' wid t _ (proj1 Hwf) Hwid).
        - simpl. rewrite Z.eqb_refl. simpl.
          by rewrite extend_total_new.
        - intros r Hr. by destruct (Z.eqb_spec (fst r) wid). }
    unfold es. rewrite flat_map_wordCount.
    destruct (wc !! s) as [c|] eqn:Hc.
    + apply Hwc in Hc as [Hin ->]. by rewrite decide_True.
    + case_decide as Hin; [|done]. exfalso.
      assert (wc !! s = Some (occurrences s sv)) as Hs by (by apply Hwc).
      congruence.
Qed.

(** The extended store represents the extended corpus. *)
Lemma sql_represents_extend : sql_represents d' (<[url := sv]> docs).
Proof.
  assert (wf_table (SQLiteIndexer.urls d ++ [(nid, url)])) as Hurls.
  { destruct (sql_urls _ _ Hrep) as [Hid Hnm].
    assert (url ∉ map snd (SQLiteIndexer.urls d)) as Hfresh.
    { rewrite (sql_names _ _ Hrep), Hnone. by intros [? ?]. }
    split; rewrite map_app; apply NoDup_app; (split; [done|]);
      (split; [|apply NoDup_singleton]).
    - intros i Hi Hin. simpl in Hin.
      apply elem_of_cons in Hin as [->|Hin]; [|inversion Hin].
      by apply extend_nid_fresh.
    - intros n Hn Hin. simpl in Hin.
      apply elem_of_cons in Hin as [->|Hin]; [done | inversion Hin]. }
  split.
  - exact Hurls.
  - intros name. unfold d'. simpl.
    rewrite map_app, elem_of_app, (sql_names _ _ Hrep).
    rewrite lookup_insert_is_Some. simpl. rewrite list_elem_of_singleton.
    destruct (decide (url = name)) as [->|Hne]; [tauto|].
    split; [intros [?|?]; [tauto | congruence] | tauto].
  - exact Hwf.
  - intros u w c. unfold d', words'. simpl. rewrite !map_app.
    intros [Hin|Hin]%elem_of_app.
    + destruct (sql_refs _ _ Hrep _ _ _ Hin) as [Hu Hw].
      split; apply elem_of_app; by left.
    + apply list_elem_of_In, in_map_iff in Hin as ([t c'] & Heq & Hin).
      apply list_elem_of_In in Hin.
      destruct (extend_new_hit t c' Hin) as (wid & Hwid & Heq').
      change (new_hit nid words' (t, c') = (u, w, c)) in Heq.
      rewrite Heq' in Heq. injection Heq as <- <- <-. split.
      * apply elem_of_app. right. by left.
      * rewrite <- map_app. by apply (elem_of_map_fst _ wid t).
  - unfold d', doc_count. simpl.
    rewrite length_app, map_size_insert_None by done.
    pose proof (sql_N _ _ Hrep) as HN. unfold doc_count in HN. simpl. lia.
  - apply extend_df.
  - apply extend_rows.
Qed.
End SqlExtend.

(* ===================================================================== *)
(** * The SQLite backend against the in-memory backend *)
(* ===================================================================== *)

Section SqlRefinement.
Context {strs : Strings} {snow : Snowball} {math : Math}.

Lemma sql_represents_empty :
  sql_represents (SQLiteIndexer.mkdb [] [] []) ∅.
Proof.
  split; simpl.
  - split; apply NoDup_nil_2.
  - intros name. rewrite lookup_empty. split; [intros Hin; inversion Hin|].
    by intros [? ?].
  - split; apply NoDup_nil_2.
  - intros u w c Hin. inversion Hin.
  - done.
  - intros s. unfold SQLiteIndexer.count_hits, doc_freq. simpl.
    by rewrite map_filter_empty, map_size_empty.
  - intros s. unfold SQLiteIndexer.join_rows, spec_rows. simpl.
    by rewrite map_filter_empty, map_to_list_empty.
Qed.

Lemma SQLite_AddDocument_represents idx docs url ws :
  sql_represents (SQLiteIndexer.db idx) docs -> docs !! url = None ->
  sql_represents (SQLiteIndexer.db (fst (SQLiteIndexer.AddDocument idx url ws)))
                 (<[url := surviving (SQLiteIndexer.stop idx) ws]> docs).
Proof.
  intros Hrep Hnone.
  destruct (SQLite_AddDocument_new_db idx url ws docs Hrep Hnone)
    as (nw & -> & Hwf & Hall).
  simpl.
  apply (sql_represents_extend (SQLiteIndexer.db idx) docs url nw
           (foldl (SQLiteIndexer.count_word (SQLiteIndexer.stop idx)) ∅ ws)
           (surviving (SQLiteIndexer.stop idx) ws)); try done.
  - apply wordCount_lookup.
  - rewrite wordCount_sum, map_sum_empty. lia.
Qed.

Lemma SQLite_run_represents calls : forall idx docs,
  sql_represents (SQLiteIndexer.db idx) docs ->
  NoDup (map fst calls) ->
  (forall c, c ∈ calls -> docs !! fst c = None) ->
  sql_represents (SQLiteIndexer.db (SQLiteIndexer.run idx calls))
                 (foldl (record_doc (SQLiteIndexer.stop idx)) docs calls).
Proof.
  unfold SQLiteIndexer.run.
  induction calls as [|[url ws] calls IH]; intros idx docs Hrep Hnd Hnew;
    [done|].
  simpl in Hnd. apply NoDup_cons in Hnd as [Hurl Hnd].
  cbn [foldl]. simpl fst. simpl snd.
  assert (docs !! url = None) as Hnone by (apply (Hnew (url, ws)); by left).
  rewrite <- (SQLite_AddDocument_stop idx url ws).
  apply IH; [|done|].
  - rewrite SQLite_AddDocument_stop.
    unfold record_doc. simpl. rewrite Hnone.
    by apply SQLite_AddDocument_represents.
  - intros [u' ws'] Hc. unfold record_doc. simpl. rewrite Hnone.
    rewrite lookup_insert_ne; [apply (Hnew (u', ws')); by right|].
    intros ->. apply Hurl. by apply (elem_of_map_fst _ u' ws').
Qed.

(** For pairwise distinct URLs the store of the SQLite backend
    represents the corpus that the calls denote. *)
Lemma SQLite_distinct_represents stop calls :
  NoDup (map fst calls) ->
  sql_represents
    (SQLiteIndexer.db (SQLiteIndexer.run (SQLiteIndexer.New stop) calls))
    (corpus (default DefaultStopwords stop) calls).
Proof.
  intros Hnd.
  apply (SQLite_run_represents calls (SQLiteIndexer.New stop) ∅);
    [apply sql_represents_empty | done | by intros c _].
Qed.

Lemma flat_map_perm {A B} (f : A -> list B) l l' :
  l ≡ₚ l' -> flat_map f l ≡ₚ flat_map f l'.
Proof.
  induction 1 as [|x l l' Hp IH|x y l|l l' l'' Hp1 IH1 Hp2 IH2]; simpl.
  - done.
  - by rewrite IH.
  - rewrite !app_assoc. f_equiv. apply Permutation_app_comm.
  - by rewrite IH1.
Qed.

(** The unsorted hits of the SQLite backend. *)
Lemma sql_hits_spec d docs s idf :
  sql_represents d docs ->
  flat_map (SQLiteIndexer.score_row idf) (SQLiteIndexer.join_rows d s)
  ≡ₚ flat_map (SQLiteIndexer.score_row idf) (spec_rows docs s).
Proof. intros Hrep. apply flat_map_perm, (sql_rows _ _ Hrep). Qed.

(** The unsorted hits of the in-memory backend. *)
Lemma mem_hits_spec idx docs s idf :
  represents idx docs ->
  InMemIndexer.collect idx idf
    (map_to_list (default ∅ (InMemIndexer.tf idx !! s)))
  ≡ₚ flat_map (SQLiteIndexer.score_row idf) (spec_rows docs s).
Proof.
  intros Hrep.
  assert (default ∅ (InMemIndexer.tf idx !! s)
          = occurrences s
              <$> filter (fun kv : string * list string => s ∈ snd kv) docs)
    as ->.
  { apply map_eq. intros d. apply option_eq. intros c.
    rewrite (represents_posting _ _ _ _ _ Hrep), lookup_fmap.
    rewrite fmap_Some. setoid_rewrite map_lookup_filter_Some. simpl.
    naive_solver. }
  rewrite map_to_list_fmap.
  unfold spec_rows, InMemIndexer.collect.
  apply perm_of_eq.
  assert (forall i x,
            (i, x) ∈ map_to_list
                       (filter (fun kv : string * list string => s ∈ snd kv) docs) ->
            docs !! i = Some x) as HL.
  { intros i x Hin. apply elem_of_map_to_list in Hin.
    by apply map_lookup_filter_Some in Hin as [? _]. }
  revert HL.
  generalize (map_to_list
                (filter (fun kv : string * list string => s ∈ snd kv) docs)).
  intros L. induction L as [|[d l] L IH]; intros HL; [done|].
  cbn [fmap list_fmap map flat_map]. rewrite IH.
  2:{ intros i x Hin. apply HL. by right. }
  f_equal. unfold InMemIndexer.score_row, SQLiteIndexer.score_row. simpl.
  assert (docs !! d = Some l) as Hl by (apply HL; by left).
  rewrite (represents_docLen _ _ _ _ Hrep Hl).
  unfold doc_len. case_decide as Hz.
  - rewrite Hz. done.
  - destruct (Z.ltb_spec 0 (Z.of_nat (length l))); [done | lia].
Qed.

Lemma no_result_agree mem sql docs term :
  represents mem docs -> sql_represents (SQLiteIndexer.db sql) docs ->
  InMemIndexer.stop mem = SQLiteIndexer.stop sql ->
  no_result_sqlite sql term <-> no_result mem term.
Proof.
  intros Hm Hs Hstop. unfold no_result_sqlite, no_result.
  rewrite (sql_N _ _ Hs), (sql_df _ _ Hs), (rep_N _ _ Hm), (rep_df _ _ Hm).
  rewrite Hstop. tauto.
Qed.

(** The two backends, on stores that represent the same corpus:
    the same hits, up to their order. *)
Lemma Search_agree_perm mem sql docs term :
  represents mem docs -> sql_represents (SQLiteIndexer.db sql) docs ->
  InMemIndexer.stop mem = SQLiteIndexer.stop sql ->
  elems (fst (SQLiteIndexer.Search sql term))
  ≡ₚ elems (fst (InMemIndexer.Search mem term)).
Proof.
  intros Hm Hs Hstop.
  destruct (decide (no_result mem term)) as [Hno|Hyes].
  - rewrite (Search_no_result _ _ Hno).
    rewrite SQLite_Search_no_result; [done|].
    by apply (no_result_agree mem sql docs).
  - rewrite (Search_result _ _ Hyes).
    assert (~ no_result_sqlite sql term) as Hyes'
      by (by rewrite (no_result_agree mem sql docs)).
    unfold SQLiteIndexer.Search, no_result_sqlite in *.
    repeat case_decide; try (exfalso; tauto).
    simpl. rewrite elems_appended, !sort_Slice_perm.
    rewrite (sql_N _ _ Hs), (sql_df _ _ Hs), (rep_N _ _ Hm), (rep_df _ _ Hm).
    rewrite (sql_hits_spec _ _ _ _ Hs). symmetry.
    by apply mem_hits_spec.
Qed.
(** Hits that are, up to their order, those of the in-memory backend
    are sorted into the slice that the in-memory backend returns. *)
Lemma Search_ranking_unique mem docs term hs :
  (forall x, pos_finite x = true -> finite (Log x) = true) ->
  represents mem docs ->
  doc_count docs < 2 ^ 63 ->
  (forall d l, docs !! d = Some l -> doc_len l < 2 ^ 63) ->
  hs ≡ₚ InMemIndexer.collect mem
          (Log (F64.div (of_int (InMemIndexer.N mem))
                        (of_int (get (InMemIndexer.df mem)
                                     (stem (ToLower term))))))
          (map_to_list
             (default ∅ (InMemIndexer.tf mem !! stem (ToLower term)))) ->
  sort_Slice lessHit hs
  = sort_Slice lessHit
      (InMemIndexer.collect mem
         (Log (F64.div (of_int (InMemIndexer.N mem))
                       (of_int (get (InMemIndexer.df mem)
                                    (stem (ToLower term))))))
         (map_to_list
            (default ∅ (InMemIndexer.tf mem !! stem (ToLower term))))).
Proof.
  intros HLog Hm HN Hlen.
  destruct (collect_scored mem docs term
              (map_to_list
                 (default ∅ (InMemIndexer.tf mem !! stem (ToLower term))))
              HLog Hm HN Hlen ltac:(done)) as [Hscm Hpwm].
  set (hm := InMemIndexer.collect _ _ _) in *. intros Hp.
  assert (Forall scored hs) as Hscs by (by rewrite Hp).
  assert (pairwise (fun a b => URL a <> URL b) hs) as Hpws.
  { apply (pairwise_perm _ hm); [by intros a b Hab Hba | done | done]. }
  assert (Hsort : forall hits,
            Forall scored hits ->
            pairwise (fun a b => URL a <> URL b) hits ->
            sorted_by lessHit (sort_Slice lessHit hits)).
  { intros hits Hsc Hpw.
    exact (sort_Slice_sorted lessHit scored hit_lt
             (fun a b => URL a <> URL b)
             lessHit_hit_lt hit_lt_trans hit_lt_total hits Hsc Hpw). }
  apply (sorted_by_unique lessHit scored hit_lt lessHit_hit_lt hit_lt_asym).
  - by rewrite sort_Slice_perm.
  - by apply Hsort.
  - by apply Hsort.
  - by rewrite !sort_Slice_perm.
Qed.
Lemma Search_agree_eq mem sql docs term :
  represents mem docs -> sql_represents (SQLiteIndexer.db sql) docs ->
  InMemIndexer.stop mem = SQLiteIndexer.stop sql ->
  doc_count docs < 2 ^ 63 ->
  (forall d l, docs !! d = Some l -> doc_len l < 2 ^ 63) ->
  (forall x, pos_finite x = true -> finite (Log x) = true) ->
  SQLiteIndexer.Search sql term = InMemIndexer.Search mem term.
Proof.
  intros Hm Hs Hstop HN Hlen HLog.
  destruct (decide (no_result mem term)) as [Hno|Hyes].
  { rewrite (Search_no_result _ _ Hno).
    apply SQLite_Search_no_result. by apply (no_result_agree mem sql docs). }
  pose proof (Search_agree_perm mem sql docs term Hm Hs Hstop) as Hperm.
  pose proof (represents_Search_nonempty mem docs term Hm Hyes) as Hne.
  rewrite (Search_result _ _ Hyes) in *. simpl in Hperm, Hne.
  assert (~ no_result_sqlite sql term) as Hyes'
    by (by rewrite (no_result_agree mem sql docs)).
  revert Hperm. unfold SQLiteIndexer.Search, no_result_sqlite in *.
  repeat case_decide; try (exfalso; tauto).
  simpl. rewrite elems_appended.
  set (hs := flat_map _ (SQLiteIndexer.join_rows _ _)).
  set (hm := InMemIndexer.collect _ _ _) in *.
  intros Hperm.
  assert (hs ≡ₚ hm) as Hp
    by (by rewrite <- (sort_Slice_perm lessHit hs), Hperm, sort_Slice_perm).
  rewrite (Search_ranking_unique mem docs term hs HLog Hm HN Hlen Hp).
  fold hm. destruct (sort_Slice lessHit hm); [done | done].
Qed.
End SqlRefinement.

(** On documents with pairwise distinct URLs the SQLite backend answers
    as the in-memory backend does: [Search] returns no error and the same
    hits with the same scores, and, when the counts are in the range of
    a Go [int] and the logarithm is finite on positive finite numbers, the
    same result in the same order. *)
Theorem SQLiteIndexer_agrees_on_distinct_URLs
    {strs : Strings} {snow : Snowball} {math : Math}
    (stop : option (gset string)) (calls : list (string * list string))
    (term : string) :
  NoDup (map fst calls) ->
  let mem := InMemIndexer.run (InMemIndexer.New stop) calls in
  let sql := SQLiteIndexer.run (SQLiteIndexer.New stop) calls in
  snd (SQLiteIndexer.Search sql term) = None
  /\ elems (fst (SQLiteIndexer.Search sql term))
     ≡ₚ elems (fst (InMemIndexer.Search mem term))
  /\ (Z.of_nat (length calls) < 2 ^ 63 ->
      Forall (fun c : string * list string =>
                Z.of_nat (length (snd c)) < 2 ^ 63) calls ->
      (forall x, pos_finite x = true -> finite (Log x) = true) ->
      SQLiteIndexer.Search sql term = InMemIndexer.Search mem term).
Proof.
  intros Hnd mem sql.
  pose proof (reachable_represents stop calls) as Hm. fold mem in Hm.
  pose proof (SQLite_distinct_represents stop calls Hnd) as Hs. fold sql in Hs.
  set (docs := corpus (default DefaultStopwords stop) calls) in *.
  assert (InMemIndexer.stop mem = SQLiteIndexer.stop sql) as Hstop.
  { unfold mem, sql. by rewrite run_stop, SQLite_run_stop. }
  split; [apply SQLite_Search_error|].
  split; [by apply (Search_agree_perm mem sql docs)|].
  intros Hcalls Hwords HLog.
  destruct (corpus_bounds (default DefaultStopwords stop) (2 ^ 63) calls
              Hcalls Hwords) as [HN Hlen].
  by apply (Search_agree_eq mem sql docs).
Qed.

Lemma SQLiteIndexer_agrees_on_distinct_URLs_witness :
  @SQLiteIndexer.Search AsciiLib.strings AsciiLib.snowball TestMath.math
    (@SQLiteIndexer.run AsciiLib.strings AsciiLib.snowball
       (SQLiteIndexer.New None) ship_calls) "ship"
  = @InMemIndexer.Search AsciiLib.strings AsciiLib.snowball TestMath.math
      (@InMemIndexer.run AsciiLib.strings AsciiLib.snowball
         (InMemIndexer.New None) ship_calls) "ship".
Proof.
  destruct (@SQLiteIndexer_agrees_on_distinct_URLs AsciiLib.strings
              AsciiLib.snowball TestMath.math None ship_calls "ship")
    as (_ & _ & Heq).
  - apply (bool_decide_unpack _). vm_compute. exact I.
  - apply Heq.
    + vm_compute. reflexivity.
    + repeat apply Forall_cons_2; try apply Forall_nil_2; vm_compute; reflexivity.
    + intros x _. simpl. unfold TestMath.step_log.
      destruct (F64.gt x F64.one); reflexivity.
Defined.

(* ===================================================================== *)
(** * The SQLite backend: the table of URLs under any calls *)
(* ===================================================================== *)

Section SqlUrls.
Context {strs : Strings} {snow : Snowball} {math : Math}.

Lemma SQLite_AddDocument_urls idx url ws :
  wf_table (SQLiteIndexer.urls (SQLiteIndexer.db idx)) ->
  SQLiteIndexer.urls (SQLiteIndexer.db (fst (SQLiteIndexer.AddDocument idx url ws)))
  = Sql.insert_or_ignore (SQLiteIndexer.urls (SQLiteIndexer.db idx)) url
  /\ snd (SQLiteIndexer.AddDocument idx url ws) = None.
Proof.
  intros Hwf. unfold SQLiteIndexer.AddDocument.
  destruct (insert_or_ignore_spec _ url Hwf) as (nw & Heq & Hwf' & Hin & _).
  rewrite Heq in *.
  apply elem_of_map_snd_inv in Hin as [i Hi].
  rewrite (proj2 (select_id_Some _ _ _ (proj2 Hwf')) Hi).
  by destruct (foldl _ _ _) as [words' hits'].
Qed.

Lemma SQLite_run_urls calls : forall idx,
  wf_table (SQLiteIndexer.urls (SQLiteIndexer.db idx)) ->
  wf_table (SQLiteIndexer.urls (SQLiteIndexer.db (SQLiteIndexer.run idx calls)))
  /\ forall name,
       name ∈ map snd (SQLiteIndexer.urls
                         (SQLiteIndexer.db (SQLiteIndexer.run idx calls)))
       <-> name ∈ map snd (SQLiteIndexer.urls (SQLiteIndexer.db idx))
           \/ name ∈ map fst calls.
Proof.
  unfold SQLiteIndexer.run.
  induction calls as [|[url ws] calls IH]; intros idx Hwf.
  { simpl. split; [done|]. intros name. split; [by left|].
    intros [?|Hin]; [done | inversion Hin]. }
  cbn [foldl]. simpl fst. simpl snd.
  destruct (SQLite_AddDocument_urls idx url ws Hwf) as [Hurls _].
  destruct (insert_or_ignore_spec _ url Hwf) as (nw & Heq & Hwf' & Hin & Hnw).
  rewrite Heq in Hurls.
  destruct (IH (fst (SQLiteIndexer.AddDocument idx url ws))) as [Hwf'' Hnames].
  { by rewrite Hurls. }
  split; [done|]. intros name. rewrite Hnames, Hurls. simpl.
  rewrite map_app, elem_of_app, elem_of_cons. split.
  - intros [[?|Hn]|?]; [by left | | by right; right].
    destruct (Hnw _ Hn) as [-> _]. right. by left.
  - intros [?|[->|?]]; [by left; left | | by right].
    left. by rewrite <- elem_of_app, <- map_app.
Qed.

Lemma length_of_dom {V} (l : list string) (m : gmap string V) :
  NoDup l -> (forall x, x ∈ l <-> is_Some (m !! x)) -> length l = size m.
Proof.
  intros Hnd Hdom. rewrite <- length_map_to_list.
  rewrite <- (length_map fst (map_to_list m)).
  apply Permutation_length, NoDup_Permutation;
    [done | apply NoDup_fst_map_to_list |].
  intros x. rewrite Hdom. split.
  - intros [v Hv]. apply (elem_of_map_fst _ x v).
    by apply elem_of_map_to_list.
  - intros [v Hv]%elem_of_map_fst_inv.
    apply elem_of_map_to_list in Hv. eauto.
Qed.

Lemma corpus_dom stop calls name :
  is_Some (corpus stop calls !! name) <-> name ∈ map fst calls.
Proof.
  rewrite corpus_lookup, fmap_is_Some. split.
  - intros [c Hc]. apply find_some in Hc as [Hin Heq].
    apply String.eqb_eq in Heq as <-.
    apply list_elem_of_In, in_map, Hin.
  - intros Hin. apply list_elem_of_In, in_map_iff in Hin as (c & <- & Hin).
    destruct (List.find _ calls) as [c'|] eqn:Hf; [eauto|].
    apply (find_none _ _ Hf) in Hin. by rewrite String.eqb_refl in Hin.
Qed.
End SqlUrls.

(** Whatever the calls, also when a URL is added again, the table [urls]
    of the SQLite backend holds each URL that was added exactly once, and
    the number of documents that its [Search] counts is the [N] of the
    in-memory backend after the same calls. *)
Theorem SQLiteIndexer_counts_distinct_URLs
    {strs : Strings} {snow : Snowball} {math : Math}
    (stop : option (gset string)) (calls : list (string * list string)) :
  let mem := InMemIndexer.run (InMemIndexer.New stop) calls in
  let sql := SQLiteIndexer.run (SQLiteIndexer.New stop) calls in
  let names := map snd (SQLiteIndexer.urls (SQLiteIndexer.db sql)) in
  NoDup names
  /\ (forall name, name ∈ names <-> name ∈ map fst calls)
  /\ Z.of_nat (length (SQLiteIndexer.urls (SQLiteIndexer.db sql)))
     = InMemIndexer.N mem.
Proof.
  intros mem sql names.
  destruct (SQLite_run_urls calls (SQLiteIndexer.New stop)) as [Hwf Hnames].
  { split; apply NoDup_nil_2. }
  fold sql in Hwf, Hnames. fold names in Hnames.
  assert (forall name, name ∈ names <-> name ∈ map fst calls) as Hiff.
  { intros name. rewrite Hnames. simpl. split; [|by right].
    intros [Hin|?]; [inversion Hin | done]. }
  split; [apply Hwf|]. split; [done|].
  pose proof (reachable_represents stop calls) as Hm. fold mem in Hm.
  rewrite (rep_N _ _ Hm). unfold doc_count. f_equal.
  rewrite <- (length_map snd). fold names.
  apply length_of_dom; [apply Hwf|].
  intros x. by rewrite Hiff, corpus_dom.
Qed.

(* ===================================================================== *)
(** * The first SQLite index: tables *)
(* ===================================================================== *)

Section Tables2.
Lemma NoDup_fst_inj {A} (tbl : list (Z * A)) i x y :
  NoDup (map fst tbl) -> (i, x) ∈ tbl -> (i, y) ∈ tbl -> x = y.
Proof.
  intros Hid. induction tbl as [|[j a] tbl IH]; simpl in *.
  - intros Hin. inversion Hin.
  - apply NoDup_cons in Hid as [Hj Hid].
    assert (forall m, (j, m) ∈ tbl -> False) as Hfresh.
    { intros m Hm. apply Hj. by apply (elem_of_map_fst _ j m). }
    intros [H1|H1]%elem_of_cons [H2|H2]%elem_of_cons.
    + congruence.
    + injection H1 as -> ->. by destruct (Hfresh y).
    + injection H2 as -> ->. by destruct (Hfresh x).
    + by apply IH.
Qed.

Lemma flat_map_by_id2 {A B} (tbl : list (Z * A)) i a (f : Z * A -> list B) :
  NoDup (map fst tbl) -> (i, a) ∈ tbl ->
  (forall r, fst r <> i -> f r = []) ->
  flat_map f tbl = f (i, a).
Proof.
  intros Hnd Hin Hf. induction tbl as [|[j m] tbl IH]; simpl in *.
  - inversion Hin.
  - apply NoDup_cons in Hnd as [Hj Hnd].
    apply elem_of_cons in Hin as [Heq|Hin].
    + injection Heq as <- <-. rewrite flat_map_nil_in; [by rewrite app_nil_r|].
      intros [k m'] Hk. apply Hf. simpl. intros ->.
      apply Hj. by apply (elem_of_map_fst _ i m').
    + rewrite (Hf (j, m)); [by apply IH|]. simpl. intros ->.
      apply Hj. by apply (elem_of_map_fst _ i a).
Qed.

Lemma elem_of_key2 (tbl : list (Z * (string * Z))) i k v :
  (i, (k, v)) ∈ tbl -> k ∈ map (fun r => fst (snd r)) tbl.
Proof.
  intros Hin. apply list_elem_of_In, in_map_iff. exists (i, (k, v)).
  split; [done | by apply list_elem_of_In].
Qed.

Lemma elem_of_key2_inv (tbl : list (Z * (string * Z))) k :
  k ∈ map (fun r => fst (snd r)) tbl -> exists i v, (i, (k, v)) ∈ tbl.
Proof.
  intros Hin.
  apply list_elem_of_In, in_map_iff in Hin as ([i [k' v]] & <- & Hin).
  exists i, v. by apply list_elem_of_In.
Qed.

Lemma NoDup_key2_inj (tbl : list (Z * (string * Z))) i j k v w :
  NoDup (map (fun r => fst (snd r)) tbl) ->
  (i, (k, v)) ∈ tbl -> (j, (k, w)) ∈ tbl -> i = j /\ v = w.
Proof.
  intros Hnd. induction tbl as [|[a [k' x]] tbl IH]; simpl in *.
  - intros Hin. inversion Hin.
  - apply NoDup_cons in Hnd as [Hk Hnd].
    assert (forall m y, (m, (k', y)) ∈ tbl -> False) as Hfresh.
    { intros m y Hm. apply Hk. by apply (elem_of_key2 _ m k' y). }
    intros [H1|H1]%elem_of_cons [H2|H2]%elem_of_cons.
    + split; congruence.
    + injection H1 as -> -> ->. by destruct (Hfresh j w).
    + injection H2 as -> -> ->. by destruct (Hfresh i v).
    + by apply IH.
Qed.

Lemma find_key2_None (tbl : list (Z * (string * Z))) k :
  List.find (fun r => String.eqb (fst (snd r)) k) tbl = None
  <-> k ∉ map (fun r => fst (snd r)) tbl.
Proof.
  induction tbl as [|[i [n v]] tbl IH]; simpl.
  - split; [intros _ Hin; inversion Hin | done].
  - destruct (String.eqb_spec n k) as [->|Hne]; simpl.
    + split; [done|]. intros Hn. exfalso. apply Hn. by left.
    + rewrite IH, not_elem_of_cons. split; [|tauto].
      intros Hn. split; [congruence | done].
Qed.

Lemma find_key2_Some (tbl : list (Z * (string * Z))) k r :
  NoDup (map (fun r => fst (snd r)) tbl) ->
  List.find (fun r => String.eqb (fst (snd r)) k) tbl = Some r
  <-> r ∈ tbl /\ fst (snd r) = k.
Proof.
  intros Hnd. split.
  - intros Hf. apply find_some in Hf as [Hin Hk].
    apply String.eqb_eq in Hk. split; [by apply list_elem_of_In | done].
  - intros [Hin <-].
    destruct (List.find _ tbl) as [r'|] eqn:Hf.
    + apply find_some in Hf as [Hin' Hk]. apply String.eqb_eq in Hk.
      apply list_elem_of_In in Hin'.
      destruct r as [i [k v]], r' as [j [k' w]]. simpl in *. subst k'.
      destruct (NoDup_key2_inj _ _ _ _ _ _ Hnd Hin Hin') as [-> ->]. done.
    + apply find_key2_None in Hf. exfalso. apply Hf.
      destruct r as [i [k v]]. by apply (elem_of_key2 _ i k v).
Qed.

Lemma select_id2_None tbl k :
  SQLiteIndex.select_id tbl k = None
  <-> k ∉ map (fun r => fst (snd r)) tbl.
Proof.
  unfold SQLiteIndex.select_id. rewrite <- find_key2_None.
  by destruct (List.find _ tbl).
Qed.

Lemma select_id2_Some tbl k i :
  NoDup (map (fun r => fst (snd r)) tbl) ->
  SQLiteIndex.select_id tbl k = Some i <-> exists v, (i, (k, v)) ∈ tbl.
Proof.
  intros Hnd. unfold SQLiteIndex.select_id. split.
  - destruct (List.find _ tbl) as [[j [k' v]]|] eqn:Hf; [|done].
    intros [= <-]. apply (find_key2_Some _ _ _ Hnd) in Hf as [Hin Hk].
    simpl in Hk. subst k'. eauto.
  - intros [v Hin].
    by rewrite (proj2 (find_key2_Some tbl k (i, (k, v)) Hnd)).
Qed.

Lemma find_term_Some tbl k i df :
  NoDup (map (fun r => fst (snd r)) tbl) ->
  SQLiteIndex.find_term tbl k = Some (i, df) <-> (i, (k, df)) ∈ tbl.
Proof.
  intros Hnd. unfold SQLiteIndex.find_term. split.
  - destruct (List.find _ tbl) as [[j [k' v]]|] eqn:Hf; [|done].
    simpl. intros [= <- <-].
    apply (find_key2_Some _ _ _ Hnd) in Hf as [Hin Hk].
    simpl in Hk. by subst k'.
  - intros Hin.
    by rewrite (proj2 (find_key2_Some tbl k (i, (k, df)) Hnd)).
Qed.

Lemma find_term_None tbl k :
  SQLiteIndex.find_term tbl k = None
  <-> k ∉ map (fun r => fst (snd r)) tbl.
Proof.
  unfold SQLiteIndex.find_term. rewrite <- find_key2_None.
  by destruct (List.find _ tbl).
Qed.

(** [UPDATE terms SET df = df + 1] keeps ids and words. *)
Lemma bump_df_fst ts s : map fst (SQLiteIndex.bump_df ts s) = map fst ts.
Proof.
  unfold SQLiteIndex.bump_df. rewrite map_map. apply map_ext.
  intros [i [k v]]. simpl. by destruct (String.eqb k s).
Qed.

Lemma bump_df_key ts s :
  map (fun r => fst (snd r)) (SQLiteIndex.bump_df ts s)
  = map (fun r => fst (snd r)) ts.
Proof.
  unfold SQLiteIndex.bump_df. rewrite map_map. apply map_ext.
  intros [i [k v]]. simpl. by destruct (String.eqb k s).
Qed.

Lemma elem_of_bump_df ts s i k v :
  (i, (k, v)) ∈ SQLiteIndex.bump_df ts s
  <-> exists v0, (i, (k, v0)) ∈ ts
                 /\ v = if decide (k = s) then v0 + 1 else v0.
Proof.
  unfold SQLiteIndex.bump_df. rewrite list_elem_of_In, in_map_iff. split.
  - intros ([j [k' v0]] & Heq & Hin). apply list_elem_of_In in Hin.
    simpl in Heq. destruct (String.eqb_spec k' s) as [->|Hne];
      injection Heq as <- <- <-; exists v0; (split; [done|]).
    + by rewrite decide_True.
    + by rewrite decide_False.
  - intros (v0 & Hin & ->). exists (i, (k, v0)).
    split; [|by apply list_elem_of_In]. simpl.
    destruct (String.eqb_spec k s); case_decide; done.
Qed.

Lemma set_len_fst us u n : map fst (SQLiteIndex.set_len us u n) = map fst us.
Proof.
  unfold SQLiteIndex.set_len. rewrite map_map. apply map_ext.
  intros [i [k v]]. simpl. by destruct (i =? u).
Qed.

Lemma set_len_key us u n :
  map (fun r => fst (snd r)) (SQLiteIndex.set_len us u n)
  = map (fun r => fst (snd r)) us.
Proof.
  unfold SQLiteIndex.set_len. rewrite map_map. apply map_ext.
  intros [i [k v]]. simpl. by destruct (i =? u).
Qed.

Lemma elem_of_set_len us u n i k v :
  (i, (k, v)) ∈ SQLiteIndex.set_len us u n
  <-> exists v0, (i, (k, v0)) ∈ us /\ v = if decide (i = u) then n else v0.
Proof.
  unfold SQLiteIndex.set_len. rewrite list_elem_of_In, in_map_iff. split.
  - intros ([j [k' v0]] & Heq & Hin). apply list_elem_of_In in Hin.
    simpl in Heq. destruct (Z.eqb_spec j u) as [->|Hne];
      injection Heq as <- <- <-; exists v0; (split; [done|]).
    + by rewrite decide_True.
    + by rewrite decide_False.
  - intros (v0 & Hin & ->). exists (i, (k, v0)).
    split; [|by apply list_elem_of_In]. simpl.
    destruct (Z.eqb_spec i u); case_decide; done.
Qed.
End Tables2.

(* ===================================================================== *)
(** * The first SQLite index: the loop of [Add] *)
(* ===================================================================== *)

Section Loop02.
Context {strs : Strings} {snow : Snowball}.
Variables (us : list (Z * (string * Z))) (docs : gmap string (list string)).
Variables (doc : string) (urlID : Z).
Hypothesis Hus : wf_table2 us.
Hypothesis Hdoc : (urlID, (doc, 0)) ∈ us.
Hypothesis Hnone : docs !! doc = None.

Lemma join_rows_hits ts hs i :
  SQLiteIndex.join_rows (SQLiteIndex.mkdb us ts hs) i
  = flat_map (hit_rows us i) hs.
Proof. reflexivity. Qed.

(** A posting whose URL id is in the table yields one row when its
    term is the one asked for, and none otherwise. *)
Lemma hit_rows_one i j t u c name n :
  (u, (name, n)) ∈ us ->
  hit_rows us i (j, (t, u, c)) = if t =? i then [(c, name, n)] else [].
Proof.
  intros Hu. unfold hit_rows. destruct (t =? i); [|done].
  rewrite (flat_map_by_id2 us u (name, n) _ (proj1 Hus) Hu).
  - simpl. by rewrite Z.eqb_refl.
  - intros r Hr. destruct (Z.eqb_spec u (fst r)); [congruence | done].
Qed.

Lemma hit_rows_doc i j t u c c' n :
  u ∈ map fst us ->
  (c', doc, n) ∈ hit_rows us i (j, (t, u, c)) ->
  t = i /\ u = urlID /\ c' = c /\ n = 0.
Proof.
  intros [[name m] Hu]%elem_of_map_fst_inv.
  rewrite (hit_rows_one i j t u c name m Hu).
  destruct (Z.eqb_spec t i) as [->|]; [|intros Hin; inversion Hin].
  intros Hin. apply list_elem_of_singleton in Hin. injection Hin as -> -> ->.
  destruct (NoDup_key2_inj _ _ _ _ _ _ (proj2 Hus) Hu Hdoc) as [-> ->].
  done.
Qed.

Lemma spec_rows02_not_doc s c n : (c, doc, n) ∉ spec_rows02 docs s.
Proof.
  unfold spec_rows02. intros Hin.
  apply list_elem_of_In, in_map_iff in Hin as ([d l] & Heq & Hin).
  injection Heq as _ -> _.
  apply list_elem_of_In, elem_of_map_to_list in Hin.
  apply map_lookup_filter_Some in Hin as [Hl _]. congruence.
Qed.

Lemma elem_of_pending_row sp s c d n :
  (c, d, n) ∈ pending_row doc sp s
  <-> s ∈ sp /\ c = occurrences s sp /\ d = doc /\ n = 0.
Proof.
  unfold pending_row. case_decide as Hin.
  - rewrite list_elem_of_singleton. split.
    + by intros [= -> -> ->].
    + by intros (_ & -> & -> & ->).
  - split; [|tauto]. intros Hx. inversion Hx.
Qed.

Lemma select_hit_None hs t u :
  SQLiteIndex.select_hit hs t u = None
  <-> forall j c, (j, (t, u, c)) ∉ hs.
Proof.
  unfold SQLiteIndex.select_hit. split.
  - destruct (List.find _ hs) as [r|] eqn:Hf; [done|]. intros _ j c Hin.
    apply list_elem_of_In in Hin. apply (find_none _ _ Hf) in Hin.
    simpl in Hin. by rewrite !Z.eqb_refl in Hin.
  - intros Hno. destruct (List.find _ hs) as [[j [[t' u'] c]]|] eqn:Hf;
      [|done].
    apply find_some in Hf as [Hin Hk]. simpl in Hk.
    apply andb_true_iff in Hk as [->%Z.eqb_eq ->%Z.eqb_eq].
    apply list_elem_of_In in Hin. by destruct (Hno j c).
Qed.

(** A posting of the document for a term shows in the rows of the
    term, and conversely. *)
Lemma hit_in_rows ts hs i j c :
  (j, (i, urlID, c)) ∈ hs ->
  (c, doc, 0) ∈ SQLiteIndex.join_rows (SQLiteIndex.mkdb us ts hs) i.
Proof.
  intros Hin. rewrite join_rows_hits.
  apply list_elem_of_In, in_flat_map. exists (j, (i, urlID, c)).
  split; [by apply list_elem_of_In|].
  rewrite (hit_rows_one i j i urlID c doc 0 Hdoc), Z.eqb_refl. by left.
Qed.

Lemma rows_in_hit ts hs i c n :
  (forall j t u c, (j, (t, u, c)) ∈ hs -> u ∈ map fst us) ->
  (c, doc, n) ∈ SQLiteIndex.join_rows (SQLiteIndex.mkdb us ts hs) i ->
  exists j, (j, (i, urlID, c)) ∈ hs.
Proof.
  intros Href. rewrite join_rows_hits.
  intros Hin. apply list_elem_of_In, in_flat_map in Hin
    as ([j [[t u] c0]] & Hh & Hr).
  apply list_elem_of_In in Hh, Hr.
  apply hit_rows_doc in Hr as (-> & -> & -> & ->); [eauto|].
  by apply (Href j t u c0).
Qed.

(** Appending a posting. *)
Lemma join_rows_snoc ts ts' hs h i :
  SQLiteIndex.join_rows (SQLiteIndex.mkdb us ts' (hs ++ [h])) i
  = SQLiteIndex.join_rows (SQLiteIndex.mkdb us ts hs) i ++ hit_rows us i h.
Proof. rewrite !join_rows_hits, flat_map_app. simpl. by rewrite app_nil_r. Qed.

(** Incrementing the count of the posting of the document for the
    term [t]: the rows of [t] have the count of the document's row
    incremented, the rows of other terms are as before. *)
Lemma join_rows_bump ts ts' hs t i :
  (forall j t u c, (j, (t, u, c)) ∈ hs -> u ∈ map fst us) ->
  SQLiteIndex.join_rows
    (SQLiteIndex.mkdb us ts' (SQLiteIndex.bump_hit hs t urlID)) i
  = if decide (i = t)
    then map (bump_row doc)
             (SQLiteIndex.join_rows (SQLiteIndex.mkdb us ts hs) i)
    else SQLiteIndex.join_rows (SQLiteIndex.mkdb us ts hs) i.
Proof.
  intros Href. rewrite !join_rows_hits. unfold SQLiteIndex.bump_hit.
  rewrite flat_map_map.
  induction hs as [|[j [[t0 u0] c0]] hs IH]; [by case_decide|].
  cbn [flat_map]. rewrite IH.
  2:{ intros j' t' u' c' Hin. apply (Href j' t' u' c'). by right. }
  pose proof (Href j t0 u0 c0 ltac:(left)) as Hu.
  apply elem_of_map_fst_inv in Hu as [[name n] Hu].
  assert (hit_rows us i
            (if SQLiteIndex.is_hit t urlID (j, (t0, u0, c0))
             then (j, (t0, u0, c0 + 1)) else (j, (t0, u0, c0)))
          = if decide (i = t)
            then map (bump_row doc) (hit_rows us i (j, (t0, u0, c0)))
            else hit_rows us i (j, (t0, u0, c0))) as Hhead.
  { unfold SQLiteIndex.is_hit.
    destruct (Z.eqb_spec t0 t) as [->|Hne]; cbn [andb].
    - destruct (Z.eqb_spec u0 urlID) as [->|Hneu].
      + pose proof (NoDup_fst_inj _ _ _ _ (proj1 Hus) Hu Hdoc) as Heq.
        injection Heq as -> ->.
        rewrite (hit_rows_one i j t urlID (c0 + 1) doc 0 Hdoc).
        rewrite (hit_rows_one i j t urlID c0 doc 0 Hdoc).
        case_decide as Hi.
        * subst i. rewrite Z.eqb_refl. cbn [map]. unfold bump_row.
          cbn [fst snd]. by rewrite String.eqb_refl.
        * destruct (Z.eqb_spec t i); [congruence | done].
      + case_decide as Hi; [|done]. subst i.
        rewrite (hit_rows_one t j t u0 c0 name n Hu), Z.eqb_refl.
        cbn [map]. unfold bump_row. cbn [fst snd].
        destruct (String.eqb_spec name doc) as [->|]; [|done].
        by destruct (NoDup_key2_inj _ _ _ _ _ _ (proj2 Hus) Hu Hdoc).
    - case_decide as Hi; [|done]. subst i.
      rewrite (hit_rows_one t j t0 u0 c0 name n Hu).
      destruct (Z.eqb_spec t0 t); [congruence | done]. }
  cbn [fst snd]. rewrite Hhead.
  case_decide; [by rewrite map_app | done].
Qed.

Lemma occurrences_notin s (l : list string) : s ∉ l -> occurrences s l = 0.
Proof.
  intros Hn. pose proof (occurrences_nonneg s l).
  destruct (decide (0 < occurrences s l)) as [Hpos|]; [|lia].
  by apply occurrences_pos_iff in Hpos.
Qed.

Lemma occurrences_snoc t s (l : list string) :
  occurrences t (l ++ [s])
  = occurrences t l + if decide (t = s) then 1 else 0.
Proof. by rewrite occurrences_app, occurrences_single. Qed.

Lemma pending_snoc_other sp s t :
  t <> s -> pending_row doc (sp ++ [s]) t = pending_row doc sp t.
Proof.
  intros Hne. unfold pending_row.
  rewrite occurrences_snoc, (decide_False (P := t = s)) by done.
  rewrite Z.add_0_r.
  destruct (decide (t ∈ sp)) as [Hin|Hin].
  - rewrite decide_True; [done|]. apply elem_of_app. by left.
  - rewrite decide_False; [done|].
    intros [?|Hs]%elem_of_app; [done|].
    by apply list_elem_of_singleton in Hs.
Qed.

Lemma pending_snoc_same sp s :
  pending_row doc (sp ++ [s]) s = [(occurrences s sp + 1, doc, 0)].
Proof.
  unfold pending_row.
  rewrite occurrences_snoc, (decide_True (P := s = s)) by done.
  rewrite decide_True; [done|]. apply elem_of_app. right. by left.
Qed.

Lemma decide_snoc_other sp (s t : string) :
  t <> s ->
  (if decide (t ∈ sp ++ [s]) then 1 else 0)
  = (if decide (t ∈ sp) then 1 else 0).
Proof.
  intros Hne. destruct (decide (t ∈ sp)) as [Hin|Hin].
  - rewrite decide_True; [done|]. apply elem_of_app. by left.
  - rewrite decide_False; [done|].
    intros [?|Hs]%elem_of_app; [done|].
    by apply list_elem_of_singleton in Hs.
Qed.

Lemma map_bump_spec s :
  map (bump_row doc) (spec_rows02 docs s) = spec_rows02 docs s.
Proof.
  pose proof (spec_rows02_not_doc s) as Hno.
  induction (spec_rows02 docs s) as [|[[c d] n] rows IH]; [done|].
  simpl. rewrite IH.
  2:{ intros c' n' Hin. apply (Hno c' n'). by right. }
  f_equal. unfold bump_row. simpl.
  destruct (String.eqb_spec d doc) as [->|]; [|done].
  exfalso. apply (Hno c n). by left.
Qed.

Lemma elem_of_bump_hit hs t u j t0 u0 c :
  (j, (t0, u0, c)) ∈ SQLiteIndex.bump_hit hs t u ->
  exists c0, (j, (t0, u0, c0)) ∈ hs.
Proof.
  unfold SQLiteIndex.bump_hit. rewrite list_elem_of_In, in_map_iff.
  intros ([j' [[t' u'] c']] & Heq & Hin). apply list_elem_of_In in Hin.
  cbn [fst snd] in Heq.
  destruct (SQLiteIndex.is_hit t u _); injection Heq as <- <- <- <-; eauto.
Qed.

(** No posting refers to a term id that is not in use. *)
Lemma rows_of_fresh_term st ts' sp :
  index_loop us docs doc urlID st sp ->
  SQLiteIndex.join_rows
    (SQLiteIndex.mkdb us ts' (SQLiteIndex.l_hits st))
    (Sql.next_id (SQLiteIndex.l_terms st)) = [].
Proof.
  intros Hinv. rewrite join_rows_hits. apply flat_map_nil_in.
  intros [j [[t u] c]] Hin.
  destruct (lp_refs _ _ _ _ _ _ Hinv _ _ _ _ Hin) as [Ht _].
  unfold hit_rows.
  destruct (Z.eqb_spec t (Sql.next_id (SQLiteIndex.l_terms st))) as [Heq|];
    [|done].
  rewrite Heq in Ht. by apply next_id_fresh in Ht.
Qed.

Lemma spec_rows02_nil s : doc_freq s docs = 0 -> spec_rows02 docs s = [].
Proof.
  unfold doc_freq, spec_rows02. intros Hz.
  assert (filter (fun kv : string * list string => s ∈ snd kv) docs = ∅) as ->.
  { apply map_size_empty_inv. lia. }
  by rewrite map_to_list_empty.
Qed.

Lemma doc_freq_nonneg s : 0 <= doc_freq s docs.
Proof. unfold doc_freq. lia. Qed.

(** The loop, at a stem that has no row in [terms] yet. *)
Lemma add_word_new_term st sp s hid :
  index_loop us docs doc urlID st sp ->
  SQLiteIndex.select_id (SQLiteIndex.l_terms st) s = None ->
  let tid := Sql.next_id (SQLiteIndex.l_terms st) in
  index_loop us docs doc urlID
    (SQLiteIndex.mkLoop
       (SQLiteIndex.l_terms st ++ [(tid, (s, 1))])
       (SQLiteIndex.l_hits st ++ [(hid, (tid, urlID, 1))])
       ({[s]} ∪ SQLiteIndex.l_seen st) (SQLiteIndex.l_kept st + 1))
    (sp ++ [s])
  /\ SQLiteIndex.select_hit (SQLiteIndex.l_hits st) tid urlID = None.
Proof.
  intros Hinv Hsel tid. apply select_id2_None in Hsel.
  assert (doc_freq s docs = 0 /\ s ∉ sp) as [Hdf Hsp].
  { pose proof (doc_freq_nonneg s).
    split; [destruct (decide (0 < doc_freq s docs)); [|lia] | intros Hin];
      exfalso; apply Hsel, (lp_all _ _ _ _ _ _ Hinv); auto. }
  assert (forall i t df, (i, (t, df)) ∈ SQLiteIndex.l_terms st ->
            t <> s /\ i <> tid) as Hold.
  { intros i t df Hin. split.
    - intros ->. apply Hsel. by apply (elem_of_key2 _ i s df).
    - intros ->. apply (next_id_fresh (SQLiteIndex.l_terms st)).
      by apply (elem_of_map_fst _ tid (t, df)). }
  split; [split; simpl|].
  - intros s0. rewrite elem_of_union, elem_of_singleton, elem_of_app,
      list_elem_of_singleton, (lp_seen _ _ _ _ _ _ Hinv). tauto.
  - rewrite (lp_kept _ _ _ _ _ _ Hinv). unfold doc_len.
    rewrite length_app. simpl. lia.
  - destruct (lp_terms _ _ _ _ _ _ Hinv) as [Hid Hkey].
    split; rewrite map_app; apply NoDup_app; (split; [done|]);
      (split; [|apply NoDup_singleton]).
    + intros i Hi Hin. simpl in Hin.
      apply elem_of_cons in Hin as [->|Hin]; [|inversion Hin].
      by apply (next_id_fresh (SQLiteIndex.l_terms st)).
    + intros k Hk Hin. simpl in Hin.
      apply elem_of_cons in Hin as [->|Hin]; [done | inversion Hin].
  - intros i t df [Hin|Hin]%elem_of_app.
    + destruct (Hold _ _ _ Hin) as [Hne _].
      rewrite (decide_snoc_other sp s t Hne).
      by apply (lp_df _ _ _ _ _ _ Hinv i).
    + apply list_elem_of_singleton in Hin. injection Hin as -> -> ->.
      rewrite Hdf, decide_True; [done|]. apply elem_of_app. right. by left.
  - intros t Ht. rewrite map_app, elem_of_app.
    destruct (decide (t = s)) as [->|Hne]; [right; by left|]. left.
    apply (lp_all _ _ _ _ _ _ Hinv). destruct Ht as [?|Ht]; [by left|].
    right. apply elem_of_app in Ht as [?|Ht]; [done|].
    by apply list_elem_of_singleton in Ht.
  - intros j t u c [Hin|Hin]%elem_of_app.
    + destruct (lp_refs _ _ _ _ _ _ Hinv _ _ _ _ Hin) as [Ht Hu].
      split; [|done]. rewrite map_app. apply elem_of_app. by left.
    + apply list_elem_of_singleton in Hin. injection Hin as -> -> -> ->.
      split; [|by apply (elem_of_map_fst _ urlID (doc, 0))].
      rewrite map_app. apply elem_of_app. right. by left.
  - intros i t df Hin.
    rewrite (join_rows_snoc (SQLiteIndex.l_terms st)).
    rewrite (hit_rows_one i hid tid urlID 1 doc 0 Hdoc).
    apply elem_of_app in Hin as [Hin|Hin].
    + destruct (Hold _ _ _ Hin) as [Hne Hid].
      destruct (Z.eqb_spec tid i); [congruence|].
      rewrite app_nil_r, (pending_snoc_other sp s t Hne).
      by apply (lp_rows _ _ _ _ _ _ Hinv i t df).
    + apply list_elem_of_singleton in Hin. injection Hin as -> -> ->.
      rewrite Z.eqb_refl, (rows_of_fresh_term st _ sp Hinv).
      rewrite (spec_rows02_nil s Hdf), pending_snoc_same.
      by rewrite (occurrences_notin s sp Hsp).
  - apply select_hit_None. intros j c Hin.
    destruct (lp_refs _ _ _ _ _ _ Hinv _ _ _ _ Hin) as [Ht _].
    by apply next_id_fresh in Ht.
Qed.

Lemma decide_snoc_same sp (s t : string) :
  s ∈ sp ->
  (if decide (t ∈ sp ++ [s]) then 1 else 0)
  = (if decide (t ∈ sp) then 1 else 0).
Proof.
  intros Hs. destruct (decide (t = s)) as [->|Hne].
  - rewrite (decide_True (P := s ∈ sp)) by done.
    rewrite decide_True; [done|]. apply elem_of_app. by left.
  - by apply decide_snoc_other.
Qed.

(** The loop, at the first occurrence in the document of a stem that
    has a row in [terms]. *)
Lemma add_word_first_hit st sp s tid hid :
  index_loop us docs doc urlID st sp ->
  SQLiteIndex.select_id (SQLiteIndex.l_terms st) s = Some tid ->
  s ∉ sp ->
  index_loop us docs doc urlID
    (SQLiteIndex.mkLoop
       (SQLiteIndex.bump_df (SQLiteIndex.l_terms st) s)
       (SQLiteIndex.l_hits st ++ [(hid, (tid, urlID, 1))])
       ({[s]} ∪ SQLiteIndex.l_seen st) (SQLiteIndex.l_kept st + 1))
    (sp ++ [s])
  /\ SQLiteIndex.select_hit (SQLiteIndex.l_hits st) tid urlID = None.
Proof.
  intros Hinv Hsel Hsp.
  destruct (lp_terms _ _ _ _ _ _ Hinv) as [Hid Hkey].
  apply (select_id2_Some _ _ _ Hkey) in Hsel as [df0 Hs].
  assert (forall i t df, (i, (t, df)) ∈ SQLiteIndex.l_terms st ->
            (i = tid <-> t = s)) as Hsame.
  { intros i t df Hin. split.
    - intros ->. pose proof (NoDup_fst_inj _ _ _ _ Hid Hin Hs) as Heq.
      by injection Heq.
    - intros ->. by destruct (NoDup_key2_inj _ _ _ _ _ _ Hkey Hin Hs). }
  assert (pending_row doc sp s = []) as Hpend.
  { unfold pending_row. by rewrite decide_False. }
  split; [split; simpl|].
  - intros s0. rewrite elem_of_union, elem_of_singleton, elem_of_app,
      list_elem_of_singleton, (lp_seen _ _ _ _ _ _ Hinv). tauto.
  - rewrite (lp_kept _ _ _ _ _ _ Hinv). unfold doc_len.
    rewrite length_app. simpl. lia.
  - split; [by rewrite bump_df_fst | by rewrite bump_df_key].
  - intros i t df Hin. apply elem_of_bump_df in Hin as (v0 & Hin & ->).
    rewrite (lp_df _ _ _ _ _ _ Hinv i t v0 Hin).
    case_decide as Ht.
    + subst t. rewrite (decide_False (P := s ∈ sp)) by done.
      rewrite (decide_True (P := s ∈ sp ++ [s])); [lia|].
      apply elem_of_app. right. by left.
    + by rewrite (decide_snoc_other sp s t Ht).
  - intros t Ht. rewrite bump_df_key.
    destruct (decide (t = s)) as [->|Hne];
      [by apply (elem_of_key2 _ tid s df0)|].
    apply (lp_all _ _ _ _ _ _ Hinv). destruct Ht as [?|Ht]; [by left|].
    right. apply elem_of_app in Ht as [?|Ht]; [done|].
    by apply list_elem_of_singleton in Ht.
  - intros j t u c [Hin|Hin]%elem_of_app; rewrite bump_df_fst.
    + by apply (lp_refs _ _ _ _ _ _ Hinv _ _ _ _ Hin).
    + apply list_elem_of_singleton in Hin. injection Hin as -> -> -> ->.
      split; [by apply (elem_of_map_fst _ tid (s, df0))
             | by apply (elem_of_map_fst _ urlID (doc, 0))].
  - intros i t df Hin. apply elem_of_bump_df in Hin as (v0 & Hin & _).
    rewrite (join_rows_snoc (SQLiteIndex.l_terms st)).
    rewrite (hit_rows_one i hid tid urlID 1 doc 0 Hdoc).
    rewrite (lp_rows _ _ _ _ _ _ Hinv i t v0 Hin).
    destruct (Z.eqb_spec tid i) as [Heq|Hne].
    + assert (t = s) as -> by (by apply (Hsame i t v0)).
      by rewrite Hpend, app_nil_r, pending_snoc_same, (occurrences_notin s sp Hsp).
    + assert (t <> s) as Hts.
      { intros ->. apply Hne. symmetry. by apply (Hsame i s v0). }
      by rewrite app_nil_r, (pending_snoc_other sp s t Hts).
  - apply select_hit_None. intros j c Hin.
    pose proof (hit_in_rows (SQLiteIndex.l_terms st) _ tid j c Hin) as Hr.
    rewrite (lp_rows _ _ _ _ _ _ Hinv tid s df0 Hs), Hpend, app_nil_r in Hr.
    by apply spec_rows02_not_doc in Hr.
Qed.

(** The loop, at a further occurrence of a stem in the document. *)
Lemma add_word_again st sp s tid :
  index_loop us docs doc urlID st sp ->
  SQLiteIndex.select_id (SQLiteIndex.l_terms st) s = Some tid ->
  s ∈ sp ->
  index_loop us docs doc urlID
    (SQLiteIndex.mkLoop (SQLiteIndex.l_terms st)
       (SQLiteIndex.bump_hit (SQLiteIndex.l_hits st) tid urlID)
       (SQLiteIndex.l_seen st) (SQLiteIndex.l_kept st + 1))
    (sp ++ [s])
  /\ is_Some (SQLiteIndex.select_hit (SQLiteIndex.l_hits st) tid urlID).
Proof.
  intros Hinv Hsel Hsp.
  destruct (lp_terms _ _ _ _ _ _ Hinv) as [Hid Hkey].
  apply (select_id2_Some _ _ _ Hkey) in Hsel as [df0 Hs].
  assert (forall j t u c, (j, (t, u, c)) ∈ SQLiteIndex.l_hits st ->
            u ∈ map fst us) as Href.
  { intros j t u c Hin. by apply (lp_refs _ _ _ _ _ _ Hinv j t u c). }
  split; [split; simpl|].
  - intros s0. rewrite (lp_seen _ _ _ _ _ _ Hinv), elem_of_app,
      list_elem_of_singleton.
    split; [tauto | by intros [?| ->]].
  - rewrite (lp_kept _ _ _ _ _ _ Hinv). unfold doc_len.
    rewrite length_app. simpl. lia.
  - done.
  - intros i t df Hin. rewrite (decide_snoc_same sp s t Hsp).
    by apply (lp_df _ _ _ _ _ _ Hinv i).
  - intros t [Hd|Ht]; apply (lp_all _ _ _ _ _ _ Hinv); [by left|]. right.
    apply elem_of_app in Ht as [?|Ht]; [done|].
    by apply list_elem_of_singleton in Ht as ->.
  - intros j t u c Hin. apply elem_of_bump_hit in Hin as [c0 Hin].
    by apply (lp_refs _ _ _ _ _ _ Hinv _ _ _ _ Hin).
  - intros i t df Hin.
    rewrite (join_rows_bump (SQLiteIndex.l_terms st) _ _ _ _ Href).
    case_decide as Hi; rewrite (lp_rows _ _ _ _ _ _ Hinv i t df Hin).
    + subst i. pose proof (NoDup_fst_inj _ _ _ _ Hid Hin Hs) as Heq.
      injection Heq as -> ->.
      rewrite map_app, map_bump_spec, pending_snoc_same.
      unfold pending_row. rewrite decide_True by done.
      cbn [map]. unfold bump_row. cbn [fst snd].
      by rewrite String.eqb_refl.
    + assert (t <> s) as Hts.
      { intros ->. apply Hi.
        by destruct (NoDup_key2_inj _ _ _ _ _ _ Hkey Hin Hs). }
      by rewrite (pending_snoc_other sp s t Hts).
  - destruct (SQLiteIndex.select_hit _ tid urlID) as [j|] eqn:Hhit; [eauto|].
    exfalso.
    assert ((occurrences s sp, doc, 0)
            ∈ SQLiteIndex.join_rows
                (SQLiteIndex.mkdb us (SQLiteIndex.l_terms st)
                   (SQLiteIndex.l_hits st)) tid) as Hr.
    { rewrite (lp_rows _ _ _ _ _ _ Hinv tid s df0 Hs).
      apply elem_of_app. right. by apply elem_of_pending_row. }
    apply (rows_in_hit _ _ _ _ _ Href) in Hr as [j Hj].
    by apply (proj1 (select_hit_None _ _ _) Hhit j (occurrences s sp)).
Qed.

(** One iteration of the loop keeps the invariant. *)
Lemma add_word_step stop st sp w :
  index_loop us docs doc urlID st sp ->
  index_loop us docs doc urlID (SQLiteIndex.add_word stop urlID st w)
    (sp ++ surviving stop [w]).
Proof.
  intros Hinv. unfold SQLiteIndex.add_word, surviving.
  cbn [omap list_omap].
  destruct (normalize stop w) as [s|] eqn:Hn; [|by rewrite app_nil_r].
  destruct (SQLiteIndex.select_id (SQLiteIndex.l_terms st) s) as [tid|]
    eqn:Hsel.
  - case_decide as Hseen.
    + apply (lp_seen _ _ _ _ _ _ Hinv) in Hseen.
      destruct (add_word_again st sp s tid Hinv Hsel Hseen) as [Hnew [j Hj]].
      by rewrite Hj.
    + assert (s ∉ sp) as Hsp
        by (intros Hin; by apply Hseen, (lp_seen _ _ _ _ _ _ Hinv)).
      destruct (add_word_first_hit st sp s tid
                  (Sql.next_id (SQLiteIndex.l_hits st)) Hinv Hsel Hsp)
        as [Hnew Hj].
      by rewrite Hj.
  - destruct (add_word_new_term st sp s
                (Sql.next_id (SQLiteIndex.l_hits st)) Hinv Hsel)
      as [Hnew Hj].
    by rewrite Hj.
Qed.

(** The loop keeps the invariant. *)
Lemma add_words_loop stop ws : forall st sp,
  index_loop us docs doc urlID st sp ->
  index_loop us docs doc urlID
    (foldl (SQLiteIndex.add_word stop urlID) st ws)
    (sp ++ surviving stop ws).
Proof.
  induction ws as [|w ws IH]; intros st sp Hinv; cbn [foldl].
  - unfold surviving. cbn [omap list_omap]. by rewrite app_nil_r.
  - change (surviving stop (w :: ws)) with (surviving stop ([w] ++ ws)).
    rewrite surviving_app, app_assoc. apply IH. by apply add_word_step.
Qed.

Lemma hit_rows_in (tbl : list (Z * (string * Z))) i j t u c name n :
  NoDup (map fst tbl) -> (u, (name, n)) ∈ tbl ->
  hit_rows tbl i (j, (t, u, c)) = if t =? i then [(c, name, n)] else [].
Proof.
  intros Hnd Hu. unfold hit_rows. destruct (t =? i); [|done].
  rewrite (flat_map_by_id2 tbl u (name, n) _ Hnd Hu).
  - simpl. by rewrite Z.eqb_refl.
  - intros r Hr. destruct (Z.eqb_spec u (fst r)); [congruence | done].
Qed.

(** Writing the length of the document changes its rows only. *)
Lemma join_rows_set_len ts hs n i :
  (forall j t u c, (j, (t, u, c)) ∈ hs -> u ∈ map fst us) ->
  SQLiteIndex.join_rows
    (SQLiteIndex.mkdb (SQLiteIndex.set_len us urlID n) ts hs) i
  = map (len_row doc n)
        (SQLiteIndex.join_rows (SQLiteIndex.mkdb us ts hs) i).
Proof.
  intros Href. rewrite join_rows_hits.
  change (SQLiteIndex.join_rows
            (SQLiteIndex.mkdb (SQLiteIndex.set_len us urlID n) ts hs) i)
    with (flat_map (hit_rows (SQLiteIndex.set_len us urlID n) i) hs).
  induction hs as [|[j [[t u] c]] hs IH]; [done|].
  cbn [flat_map]. rewrite map_app, IH.
  2:{ intros j' t' u' c' Hin. apply (Href j' t' u' c'). by right. }
  f_equal.
  pose proof (Href j t u c ltac:(left)) as Hu.
  apply elem_of_map_fst_inv in Hu as [[name m] Hu].
  rewrite (hit_rows_one i j t u c name m Hu).
  rewrite (hit_rows_in _ i j t u c name (if decide (u = urlID) then n else m)).
  - destruct (t =? i); [|done]. cbn [map]. unfold len_row. cbn [fst snd].
    case_decide as Hq.
    + subst u. pose proof (NoDup_fst_inj _ _ _ _ (proj1 Hus) Hu Hdoc) as Heq.
      injection Heq as -> ->. by rewrite String.eqb_refl.
    + destruct (String.eqb_spec name doc) as [->|]; [|done].
      by destruct (NoDup_key2_inj _ _ _ _ _ _ (proj2 Hus) Hu Hdoc).
  - rewrite set_len_fst. apply Hus.
  - apply elem_of_set_len. eauto.
Qed.
End Loop02.

(* ===================================================================== *)
(** * The first SQLite index represents the corpus *)
(* ===================================================================== *)

Section Add02.
Context {strs : Strings} {snow : Snowball}.

Lemma spec_rows02_insert (docs : gmap string (list string)) url sv s :
  docs !! url = None ->
  spec_rows02 (<[url := sv]> docs) s
  ≡ₚ spec_rows02 docs s
     ++ if decide (s ∈ sv) then [(occurrences s sv, url, doc_len sv)] else [].
Proof.
  intros Hnone. unfold spec_rows02. case_decide as Hin.
  - rewrite map_filter_insert_True by done.
    rewrite map_to_list_insert
      by (apply map_lookup_filter_None; by left).
    simpl. apply Permutation_cons_append.
  - rewrite map_filter_insert_False by done.
    rewrite delete_id by done. by rewrite app_nil_r.
Qed.

Lemma map_len_spec (docs : gmap string (list string)) doc n s :
  docs !! doc = None ->
  map (len_row doc n) (spec_rows02 docs s) = spec_rows02 docs s.
Proof.
  intros Hnone. pose proof (spec_rows02_not_doc docs doc Hnone s) as Hno.
  induction (spec_rows02 docs s) as [|[[c d] m] rows IH]; [done|].
  simpl. rewrite IH.
  2:{ intros c' n' Hin. apply (Hno c' n'). by right. }
  f_equal. unfold len_row. simpl.
  destruct (String.eqb_spec d doc) as [->|]; [|done].
  exfalso. apply (Hno c m). by left.
Qed.

(** A row of [urls] that no posting refers to adds nothing to the
    join. *)
Lemma join_rows_new_url us ts hs r i :
  (forall j t u c, (j, (t, u, c)) ∈ hs -> u ∈ map fst us) ->
  fst r ∉ map fst us ->
  SQLiteIndex.join_rows (SQLiteIndex.mkdb (us ++ [r]) ts hs) i
  = SQLiteIndex.join_rows (SQLiteIndex.mkdb us ts hs) i.
Proof.
  intros Href Hr. unfold SQLiteIndex.join_rows. cbn [SQLiteIndex.urls
    SQLiteIndex.hits].
  apply flat_map_ext_in. intros [j [[t u] c]] Hin.
  destruct (t =? i); [|done].
  rewrite flat_map_app. cbn [flat_map].
  destruct (Z.eqb_spec u (fst r)) as [Heq|Hne]; [|by rewrite !app_nil_r].
  exfalso. apply Hr. rewrite <- Heq. by apply (Href j t u c).
Qed.

Lemma doc_count_insert (docs : gmap string (list string)) doc l :
  docs !! doc = None -> doc_count (<[doc := l]> docs) = doc_count docs + 1.
Proof.
  intros Hnone. unfold doc_count. rewrite map_size_insert_None by done. lia.
Qed.

Lemma index_represents_known d docs doc :
  index_represents d docs ->
  is_Some (SQLiteIndex.select_id (SQLiteIndex.urls d) doc)
  <-> is_Some (docs !! doc).
Proof.
  intros Hrep. destruct (ix_urls _ _ Hrep) as [_ Hkey]. split.
  - intros [i Hi]. apply (select_id2_Some _ _ _ Hkey) in Hi as [n Hin].
    destruct (ix_lens _ _ Hrep _ _ _ Hin) as (l & Hl & _). eauto.
  - intros Hs. apply (ix_names _ _ Hrep) in Hs.
    destruct (SQLiteIndex.select_id _ doc) eqn:Hsel; [eauto|].
    by apply select_id2_None in Hsel.
Qed.

(** [Add] of a new document. *)
Lemma Add_new_represents idx docs doc ws :
  index_represents (SQLiteIndex.db idx) docs ->
  docs !! doc = None ->
  index_represents (SQLiteIndex.db (SQLiteIndex.Add idx doc ws))
    (<[doc := surviving (SQLiteIndex.stop idx) ws]> docs)
  /\ SQLiteIndex.N (SQLiteIndex.Add idx doc ws) = SQLiteIndex.N idx + 1.
Proof.
  intros Hrep Hnone.
  assert (SQLiteIndex.select_id (SQLiteIndex.urls (SQLiteIndex.db idx)) doc
          = None) as Hsel.
  { destruct (SQLiteIndex.select_id _ doc) eqn:Hsel; [|done].
    assert (is_Some (docs !! doc)) as [l Hl]
      by (apply (index_represents_known _ _ _ Hrep); eauto).
    congruence. }
  unfold SQLiteIndex.Add. rewrite Hsel. cbn [SQLiteIndex.db SQLiteIndex.N].
  split; [|done].
  set (d := SQLiteIndex.db idx) in *.
  set (urlID := Sql.next_id (SQLiteIndex.urls d)).
  set (us := SQLiteIndex.urls d ++ [(urlID, (doc, 0))]).
  set (sv := surviving (SQLiteIndex.stop idx) ws).
  destruct (ix_urls _ _ Hrep) as [Hid Hkey].
  apply select_id2_None in Hsel.
  assert (urlID ∉ map fst (SQLiteIndex.urls d)) as Hfresh
    by apply next_id_fresh.
  assert (wf_table2 us) as Hus.
  { unfold us. split; rewrite map_app; apply NoDup_app; (split; [done|]);
      (split; [|apply NoDup_singleton]).
    - intros i Hi Hin. apply list_elem_of_singleton in Hin. by subst i.
    - intros k Hk Hin. apply list_elem_of_singleton in Hin. by subst k. }
  assert ((urlID, (doc, 0)) ∈ us) as Hdoc.
  { unfold us. apply elem_of_app. right. by left. }
  assert (forall j t u c, (j, (t, u, c)) ∈ SQLiteIndex.hits d ->
            u ∈ map fst (SQLiteIndex.urls d)) as Href0.
  { intros j t u c Hin. by apply (ix_refs _ _ Hrep j t u c). }
  assert (index_loop us docs doc urlID
            (SQLiteIndex.mkLoop (SQLiteIndex.terms d) (SQLiteIndex.hits d) ∅ 0)
            []) as Hinit.
  { split; cbn [SQLiteIndex.l_terms SQLiteIndex.l_hits SQLiteIndex.l_seen
                  SQLiteIndex.l_kept].
    - intros s. split; [set_solver | intros Hin; inversion Hin].
    - done.
    - apply (ix_terms _ _ Hrep).
    - intros i s df Hin. rewrite decide_False by (intros Hx; inversion Hx).
      rewrite Z.add_0_r. by apply (ix_df _ _ Hrep i).
    - intros s [Hs|Hs]; [by apply (ix_all _ _ Hrep) | inversion Hs].
    - intros j t u c Hin.
      destruct (ix_refs _ _ Hrep _ _ _ _ Hin) as [Ht Hu].
      split; [done|]. unfold us. rewrite map_app. apply elem_of_app. by left.
    - intros i s df Hin. unfold us.
      rewrite (join_rows_new_url _ _ _ (urlID, (doc, 0)) _ Href0 Hfresh).
      unfold pending_row. rewrite decide_False by (intros Hx; inversion Hx).
      rewrite app_nil_r. destruct d. by apply (ix_rows _ _ Hrep i s df). }
  pose proof (add_words_loop us docs doc urlID Hus Hdoc Hnone
                (SQLiteIndex.stop idx) ws _ [] Hinit) as Hloop.
  cbn [app] in Hloop. fold sv in Hloop.
  set (st := foldl _ _ ws) in *.
  assert (forall j t u c, (j, (t, u, c)) ∈ SQLiteIndex.l_hits st ->
            u ∈ map fst us) as Href.
  { intros j t u c Hin. by apply (lp_refs _ _ _ _ _ _ Hloop j t u c). }
  split; cbn [SQLiteIndex.urls SQLiteIndex.terms SQLiteIndex.hits].
  - split; [rewrite set_len_fst | rewrite set_len_key]; apply Hus.
  - intros i u n Hin. apply elem_of_set_len in Hin as (v0 & Hin & ->).
    case_decide as Hi.
    + subst i. pose proof (NoDup_fst_inj _ _ _ _ (proj1 Hus) Hin Hdoc) as Heq.
      injection Heq as -> ->. exists sv. rewrite lookup_insert_eq.
      split; [done|]. apply (lp_kept _ _ _ _ _ _ Hloop).
    + apply elem_of_app in Hin as [Hin|Hin].
      * destruct (ix_lens _ _ Hrep _ _ _ Hin) as (l & Hl & ->).
        exists l. split; [|done]. rewrite lookup_insert_ne; [done|].
        intros <-. congruence.
      * apply list_elem_of_singleton in Hin. by injection Hin as -> _ _.
  - intros u Hu. rewrite set_len_key. unfold us. rewrite map_app, elem_of_app.
    destruct (decide (u = doc)) as [->|Hne]; [right; by left|]. left.
    apply (ix_names _ _ Hrep). by rewrite lookup_insert_ne in Hu.
  - apply (lp_terms _ _ _ _ _ _ Hloop).
  - intros i s df Hin. rewrite (doc_freq_insert s doc sv docs Hnone).
    by apply (lp_df _ _ _ _ _ _ Hloop i).
  - intros s Hs. apply (lp_all _ _ _ _ _ _ Hloop).
    rewrite (doc_freq_insert s doc sv docs Hnone) in Hs.
    case_decide; [by right | left; lia].
  - intros j t u c Hin. rewrite set_len_fst.
    by apply (lp_refs _ _ _ _ _ _ Hloop j t u c).
  - intros i s df Hin.
    rewrite (join_rows_set_len us doc urlID Hus Hdoc _ _ _ _ Href).
    rewrite (lp_rows _ _ _ _ _ _ Hloop i s df Hin).
    rewrite map_app, (map_len_spec docs doc _ s Hnone).
    rewrite (spec_rows02_insert docs doc sv s Hnone).
    apply Permutation_app_head. unfold pending_row.
    case_decide; [|done]. cbn [map]. unfold len_row. cbn [fst snd].
    by rewrite String.eqb_refl, (lp_kept _ _ _ _ _ _ Hloop).
Qed.

(** [Add] keeps the representation, whether the document is new or
    not. *)
Lemma Add_represents idx docs doc ws :
  index_represents (SQLiteIndex.db idx) docs ->
  SQLiteIndex.N idx = doc_count docs ->
  let idx' := SQLiteIndex.Add idx doc ws in
  let docs' := record_doc (SQLiteIndex.stop idx) docs (doc, ws) in
  index_represents (SQLiteIndex.db idx') docs'
  /\ SQLiteIndex.N idx' = doc_count docs'
  /\ SQLiteIndex.stop idx' = SQLiteIndex.stop idx.
Proof.
  intros Hrep HN idx' docs'. unfold idx', docs', record_doc. cbn [fst snd].
  destruct (docs !! doc) as [l|] eqn:Hl.
  - assert (is_Some (SQLiteIndex.select_id
                       (SQLiteIndex.urls (SQLiteIndex.db idx)) doc))
      as [i Hi] by (apply (index_represents_known _ _ _ Hrep); eauto).
    unfold SQLiteIndex.Add. by rewrite Hi.
  - destruct (Add_new_represents idx docs doc ws Hrep Hl) as [Hrep' HN'].
    split; [done|]. split.
    + by rewrite HN', HN, doc_count_insert.
    + unfold SQLiteIndex.Add.
      by destruct (SQLiteIndex.select_id _ doc).
Qed.

Lemma Index_run_represents calls : forall idx docs,
  index_represents (SQLiteIndex.db idx) docs ->
  SQLiteIndex.N idx = doc_count docs ->
  index_represents (SQLiteIndex.db (SQLiteIndex.run idx calls))
    (foldl (record_doc (SQLiteIndex.stop idx)) docs calls)
  /\ SQLiteIndex.N (SQLiteIndex.run idx calls)
     = doc_count (foldl (record_doc (SQLiteIndex.stop idx)) docs calls)
  /\ SQLiteIndex.stop (SQLiteIndex.run idx calls) = SQLiteIndex.stop idx.
Proof.
  induction calls as [|[doc ws] calls IH]; intros idx docs Hrep HN; [done|].
  unfold SQLiteIndex.run in *. cbn [foldl fst snd].
  destruct (Add_represents idx docs doc ws Hrep HN) as (Hrep' & HN' & Hstop).
  destruct (IH _ _ Hrep' HN') as (H1 & H2 & H3).
  rewrite Hstop in H1, H2, H3. done.
Qed.

Lemma index_represents_empty : index_represents (SQLiteIndex.mkdb [] [] []) ∅.
Proof.
  split; simpl.
  - split; apply NoDup_nil_2.
  - intros i u n Hin. inversion Hin.
  - intros u [l Hl]. by rewrite lookup_empty in Hl.
  - split; apply NoDup_nil_2.
  - intros i s df Hin. inversion Hin.
  - intros s Hs. unfold doc_freq in Hs.
    rewrite map_filter_empty, map_size_empty in Hs. lia.
  - intros i t u c Hin. inversion Hin.
  - intros i s df Hin. inversion Hin.
Qed.

Lemma Index_reachable_represents stop calls :
  let idx := SQLiteIndex.run (SQLiteIndex.New stop) calls in
  let docs := corpus (default DefaultStopwords stop) calls in
  index_represents (SQLiteIndex.db idx) docs
  /\ SQLiteIndex.N idx = doc_count docs
  /\ SQLiteIndex.stop idx = default DefaultStopwords stop.
Proof.
  apply (Index_run_represents calls (SQLiteIndex.New stop) ∅).
  - apply index_represents_empty.
  - done.
Qed.
End Add02.

(* ===================================================================== *)
(** * The first SQLite index answers as the in-memory backend *)
(* ===================================================================== *)

Section Search02.
Context {strs : Strings} {snow : Snowball} {math : Math}.

Lemma score_rows02 idf (docs : gmap string (list string)) s :
  flat_map (SQLiteIndex.score_row idf) (spec_rows02 docs s)
  = flat_map (SQLiteIndexer.score_row idf) (spec_rows docs s).
Proof.
  unfold spec_rows02, spec_rows.
  induction (map_to_list _) as [|[d l] L IH]; [done|].
  cbn [map flat_map]. by rewrite IH.
Qed.

Lemma sort_Slice_nil {A} (less : A -> A -> bool) : sort_Slice less [] = [].
Proof. apply Permutation_nil. symmetry. apply sort_Slice_perm. Qed.

Lemma Index_Search_no mem sql docs term :
  represents mem docs -> index_represents (SQLiteIndex.db sql) docs ->
  SQLiteIndex.N sql = doc_count docs ->
  InMemIndexer.stop mem = SQLiteIndex.stop sql ->
  no_result mem term ->
  SQLiteIndex.SearchTFIDF sql term = None.
Proof.
  intros Hm Hs HN Hstop Hno. unfold no_result in Hno.
  rewrite (rep_N _ _ Hm), (rep_df _ _ Hm), Hstop, <- HN in Hno.
  unfold SQLiteIndex.SearchTFIDF.
  case_decide as H1; [done|]. case_decide as H2; [done|].
  destruct Hno as [?|[?|[?|Hdf]]]; [tauto | tauto | done |].
  destruct (SQLiteIndex.find_term _ _) as [[tid df]|] eqn:Hf; [|done].
  apply (find_term_Some _ _ _ _ (proj2 (ix_terms _ _ Hs))) in Hf.
  pose proof (ix_rows _ _ Hs _ _ _ Hf) as Hrows.
  unfold stem in Hdf. rewrite (spec_rows02_nil _ _ Hdf) in Hrows.
  apply Permutation_nil_r in Hrows. rewrite Hrows. cbn [flat_map].
  by rewrite sort_Slice_nil.
Qed.

Lemma Index_Search_yes mem sql docs term :
  represents mem docs -> index_represents (SQLiteIndex.db sql) docs ->
  SQLiteIndex.N sql = doc_count docs ->
  InMemIndexer.stop mem = SQLiteIndex.stop sql ->
  ~ no_result mem term ->
  exists rows,
    rows ≡ₚ spec_rows02 docs (stem (ToLower term))
    /\ SQLiteIndex.SearchTFIDF sql term
       = SQLiteIndexer.appended
           (sort_Slice lessHit
              (flat_map
                 (SQLiteIndex.score_row
                    (Log (F64.div
                            (of_int (InMemIndexer.N mem))
                            (of_int (get (InMemIndexer.df mem)
                                         (stem (ToLower term)))))))
                 rows)).
Proof.
  intros Hm Hs HN Hstop Hyes. unfold no_result in Hyes.
  rewrite (rep_N _ _ Hm), (rep_df _ _ Hm), Hstop, <- HN in *.
  unfold SQLiteIndex.SearchTFIDF.
  case_decide as H1; [exfalso; tauto|].
  case_decide as H2; [exfalso; tauto|].
  unfold stem in *.
  destruct (SQLiteIndex.find_term _ _) as [[tid df]|] eqn:Hf.
  - apply (find_term_Some _ _ _ _ (proj2 (ix_terms _ _ Hs))) in Hf.
    exists (SQLiteIndex.join_rows (SQLiteIndex.db sql) tid).
    split; [by apply (ix_rows _ _ Hs tid _ df)|].
    by rewrite (ix_df _ _ Hs _ _ _ Hf).
  - exfalso. apply find_term_None in Hf. apply Hf, (ix_all _ _ Hs).
    pose proof (doc_freq_nonneg docs (english_Stem (ToLower term))).
    destruct (decide (doc_freq (english_Stem (ToLower term)) docs = 0));
      [tauto | lia].
Qed.

Lemma Index_Search_perm mem sql docs term :
  represents mem docs -> index_represents (SQLiteIndex.db sql) docs ->
  SQLiteIndex.N sql = doc_count docs ->
  InMemIndexer.stop mem = SQLiteIndex.stop sql ->
  elems (SQLiteIndex.SearchTFIDF sql term)
  ≡ₚ elems (fst (InMemIndexer.Search mem term)).
Proof.
  intros Hm Hs HN Hstop.
  destruct (decide (no_result mem term)) as [Hno|Hyes].
  - rewrite (Search_no_result _ _ Hno).
    by rewrite (Index_Search_no mem sql docs term).
  - rewrite (Search_result _ _ Hyes).
    destruct (Index_Search_yes mem sql docs term Hm Hs HN Hstop Hyes)
      as (rows & Hrows & ->).
    simpl. rewrite elems_appended, !sort_Slice_perm.
    rewrite (flat_map_perm _ _ _ Hrows), score_rows02. symmetry.
    by apply mem_hits_spec.
Qed.

Lemma corpus_names stop calls :
  dom (corpus stop calls) = (list_to_set (map fst calls) : gset string).
Proof.
  apply set_eq. intros x.
  by rewrite elem_of_dom, corpus_dom, elem_of_list_to_set.
Qed.

Lemma index_represents_length d (docs : gmap string (list string)) :
  index_represents d docs ->
  Z.of_nat (length (SQLiteIndex.urls d)) = doc_count docs.
Proof.
  intros Hrep. unfold doc_count. f_equal.
  rewrite <- (length_map (fun r : Z * (string * Z) => fst (snd r))).
  apply length_of_dom; [apply (ix_urls _ _ Hrep)|].
  intros x. split; [|apply (ix_names _ _ Hrep)].
  intros [i [n Hin]]%elem_of_key2_inv.
  destruct (ix_lens _ _ Hrep _ _ _ Hin) as (l & Hl & _). eauto.
Qed.
Lemma Index_Search_eq mem sql docs term :
  represents mem docs -> index_represents (SQLiteIndex.db sql) docs ->
  SQLiteIndex.N sql = doc_count docs ->
  InMemIndexer.stop mem = SQLiteIndex.stop sql ->
  doc_count docs < 2 ^ 63 ->
  (forall d l, docs !! d = Some l -> doc_len l < 2 ^ 63) ->
  (forall x, pos_finite x = true -> finite (Log x) = true) ->
  SQLiteIndex.SearchTFIDF sql term = fst (InMemIndexer.Search mem term).
Proof.
  intros Hm Hs HN Hstop HNb Hlen HLog.
  destruct (decide (no_result mem term)) as [Hno|Hyes].
  { rewrite (Search_no_result _ _ Hno).
    by apply (Index_Search_no mem sql docs). }
  pose proof (represents_Search_nonempty mem docs term Hm Hyes) as Hne.
  destruct (Index_Search_yes mem sql docs term Hm Hs HN Hstop Hyes)
    as (rows & Hrows & ->).
  rewrite (Search_result _ _ Hyes) in *. simpl in Hne. simpl.
  set (idf := Log _) in *.
  set (hs := flat_map (SQLiteIndex.score_row idf) rows).
  set (hm := InMemIndexer.collect _ _ _) in *.
  assert (hs ≡ₚ hm) as Hp.
  { unfold hs, hm. rewrite (flat_map_perm _ _ _ Hrows), score_rows02.
    symmetry. by apply mem_hits_spec. }
  rewrite (Search_ranking_unique mem docs term hs HLog Hm HNb Hlen Hp).
  unfold hm, idf. by destruct (sort_Slice lessHit _).
Qed.
End Search02.

(** The first SQLite index answers as the in-memory backend does, after
    any calls, a URL added twice included: [SearchTFIDF] returns the
    same hits with the same scores, and, when the counts are in the range
    of a Go [int] and the logarithm is finite on positive finite numbers,
    the same slice in the same order. *)
Theorem SQLiteIndex_agrees_with_InMemIndexer
    {strs : Strings} {snow : Snowball} {math : Math}
    (stop : option (gset string)) (calls : list (string * list string))
    (term : string) :
  let mem := InMemIndexer.run (InMemIndexer.New stop) calls in
  let sql := SQLiteIndex.run (SQLiteIndex.New stop) calls in
  elems (SQLiteIndex.SearchTFIDF sql term)
  ≡ₚ elems (fst (InMemIndexer.Search mem term))
  /\ (Z.of_nat (length calls) < 2 ^ 63 ->
      Forall (fun c : string * list string =>
                Z.of_nat (length (snd c)) < 2 ^ 63) calls ->
      (forall x, pos_finite x = true -> finite (Log x) = true) ->
      SQLiteIndex.SearchTFIDF sql term = fst (InMemIndexer.Search mem term)).
Proof.
  intros mem sql.
  pose proof (reachable_represents stop calls) as Hm. fold mem in Hm.
  destruct (Index_reachable_represents stop calls) as (Hs & HN & Hst).
  fold sql in Hs, HN, Hst.
  set (docs := corpus (default DefaultStopwords stop) calls) in *.
  assert (InMemIndexer.stop mem = SQLiteIndex.stop sql) as Hstop.
  { unfold mem. by rewrite run_stop, Hst. }
  split; [by apply (Index_Search_perm mem sql docs)|].
  intros Hcalls Hwords HLog.
  destruct (corpus_bounds (default DefaultStopwords stop) (2 ^ 63) calls
              Hcalls Hwords) as [HNb Hlen].
  by apply (Index_Search_eq mem sql docs).
Qed.

Lemma SQLiteIndex_agrees_with_InMemIndexer_witness :
  @SQLiteIndex.SearchTFIDF AsciiLib.strings AsciiLib.snowball TestMath.math
    (@SQLiteIndex.run AsciiLib.strings AsciiLib.snowball
       (SQLiteIndex.New None) again_calls) "ship"
  = fst (@InMemIndexer.Search AsciiLib.strings AsciiLib.snowball TestMath.math
           (@InMemIndexer.run AsciiLib.strings AsciiLib.snowball
              (InMemIndexer.New None) again_calls) "ship").
Proof.
  destruct (@SQLiteIndex_agrees_with_InMemIndexer AsciiLib.strings
              AsciiLib.snowball TestMath.math None again_calls "ship")
    as [_ Heq].
  apply Heq.
  - vm_compute. reflexivity.
  - repeat apply Forall_cons_2; try apply Forall_nil_2; vm_compute; reflexivity.
  - intros x _. simpl. unfold TestMath.step_log.
    destruct (F64.gt x F64.one); reflexivity.
Defined.

(** [Add] for a URL that an earlier call added leaves the first SQLite
    index as it is, whatever the words; for a URL not added before it
    counts one more document. *)
Theorem SQLiteIndex_Add_known_URL
    {strs : Strings} {snow : Snowball}
    (stop : option (gset string)) (calls : list (string * list string))
    (doc : string) (ws : list string) :
  let sql := SQLiteIndex.run (SQLiteIndex.New stop) calls in
  (doc ∈ map fst calls -> SQLiteIndex.Add sql doc ws = sql)
  /\ (doc ∉ map fst calls ->
      SQLiteIndex.N (SQLiteIndex.Add sql doc ws) = SQLiteIndex.N sql + 1).
Proof.
  intros sql.
  destruct (Index_reachable_represents stop calls) as (Hs & HN & Hst).
  fold sql in Hs, HN, Hst.
  pose proof (index_represents_known _ _ doc Hs) as Hknown.
  rewrite corpus_dom in Hknown. split.
  - intros Hin. apply Hknown in Hin as [i Hi].
    unfold SQLiteIndex.Add. by rewrite Hi.
  - intros Hin. unfold SQLiteIndex.Add.
    destruct (SQLiteIndex.select_id _ doc) as [i|] eqn:Hi; [|done].
    exfalso. apply Hin, Hknown. eauto.
Qed.

Lemma SQLiteIndex_Add_known_URL_witness :
  @SQLiteIndex.Add AsciiLib.strings AsciiLib.snowball
    (@SQLiteIndex.run AsciiLib.strings AsciiLib.snowball
       (SQLiteIndex.New None) again_calls) "doc2" ["whale"; "oil"]
  = @SQLiteIndex.run AsciiLib.strings AsciiLib.snowball
      (SQLiteIndex.New None) again_calls.
Proof.
  apply (@SQLiteIndex_Add_known_URL AsciiLib.strings AsciiLib.snowball
           None again_calls "doc2" ["whale"; "oil"]).
  right. left.
Defined.

(** After any calls the first SQLite index counts the distinct URLs:
    [N] is their number, it is the [N] of the in-memory backend, and
    [GetN], which reads the count from the table [urls], returns it and
    leaves the index as it is. *)
Theorem SQLiteIndex_GetN_counts_URLs
    {strs : Strings} {snow : Snowball}
    (stop : option (gset string)) (calls : list (string * list string)) :
  let mem := InMemIndexer.run (InMemIndexer.New stop) calls in
  let sql := SQLiteIndex.run (SQLiteIndex.New stop) calls in
  SQLiteIndex.N sql
  = Z.of_nat (size (list_to_set (map fst calls) : gset string))
  /\ SQLiteIndex.N sql = InMemIndexer.N mem
  /\ SQLiteIndex.GetN sql = (sql, SQLiteIndex.N sql).
Proof.
  intros mem sql.
  pose proof (reachable_represents stop calls) as Hm. fold mem in Hm.
  destruct (Index_reachable_represents stop calls) as (Hs & HN & Hst).
  fold sql in Hs, HN, Hst.
  split; [|split].
  - rewrite HN. unfold doc_count. by rewrite <- (corpus_names (default DefaultStopwords stop) calls), size_dom.
  - by rewrite HN, (rep_N _ _ Hm).
  - unfold SQLiteIndex.GetN.
    rewrite (index_represents_length _ _ Hs), <- HN. by destruct sql.
Qed.

(* ===================================================================== *)
(** * The in-memory index of project02 *)
(* ===================================================================== *)

Section InMem02.
Context {strs : Strings} {snow : Snowball} {math : Math}.

Lemma keep_normalize stop w :
  stem w = stem (ToLower w) -> InMemIndex.keep stop w = normalize stop w.
Proof. intros Hw. unfold InMemIndex.keep, normalize. by rewrite Hw. Qed.

Lemma InMemIndex_loop stop doc ws : forall acc,
  Forall (fun w => stem w = stem (ToLower w)) ws ->
  foldl (InMemIndex.add_word stop doc) acc ws
  = foldl (InMemIndexer.add_word stop doc) acc ws.
Proof.
  induction ws as [|w ws IH]; intros acc Hws; [done|].
  apply Forall_cons in Hws as [Hw Hws]. cbn [foldl]. rewrite <- (IH _ Hws).
  f_equal. unfold InMemIndex.add_word, InMemIndexer.add_word.
  by rewrite (keep_normalize stop w Hw).
Qed.

Lemma InMemIndex_Add_same a b doc ws :
  same_index a b ->
  Forall (fun w => stem w = stem (ToLower w)) ws ->
  same_index (InMemIndex.Add a doc ws)
             (fst (InMemIndexer.AddDocument b doc ws)).
Proof.
  intros (Htf & Hdf & Hlen & HN & Hstop) Hws.
  unfold InMemIndex.Add, InMemIndexer.AddDocument.
  rewrite Hlen. destruct (InMemIndexer.docLen b !! doc); [done|].
  rewrite (InMemIndex_loop _ _ _ _ Hws), Htf, Hstop.
  destruct (foldl _ _ ws) as [[tf' seen] kept].
  unfold same_index. simpl. by rewrite ?Hdf, ?Hlen, ?HN, ?Hstop.
Qed.

Lemma InMemIndex_run_same calls : forall a b,
  same_index a b -> stems_fold_case calls ->
  same_index (InMemIndex.run a calls) (InMemIndexer.run b calls).
Proof.
  unfold stems_fold_case.
  induction calls as [|[doc ws] calls IH]; intros a b Hab Hc; [done|].
  apply Forall_cons in Hc as [Hws Hc].
  unfold InMemIndex.run, InMemIndexer.run in *. cbn [foldl fst snd].
  apply IH; [|done]. by apply InMemIndex_Add_same.
Qed.

Lemma InMemIndex_Search_same a b term :
  same_index a b ->
  InMemIndex.SearchTFIDF a term = fst (InMemIndexer.Search b term).
Proof.
  intros (Htf & Hdf & Hlen & HN & Hstop).
  unfold InMemIndex.SearchTFIDF, InMemIndexer.Search.
  rewrite Htf, Hdf, HN, Hstop.
  repeat case_decide; try done. simpl. do 2 f_equal.
  unfold InMemIndexer.collect. apply flat_map_ext. intros [d c].
  unfold InMemIndex.score_row, InMemIndexer.score_row. by rewrite Hlen.
Qed.
End InMem02.

(** On words whose stem is the stem of their lower-cased form, as all
    lower-case words are, the in-memory index of project02, which stems
    the word as given, is the in-memory backend of project03: after the
    same calls the maps, [N] and [GetN] are the same and [SearchTFIDF]
    returns the slice that [Search] returns. *)
Theorem InMemIndex_agrees_with_InMemIndexer
    {strs : Strings} {snow : Snowball} {math : Math}
    (stop : option (gset string)) (calls : list (string * list string)) :
  stems_fold_case calls ->
  let a := InMemIndex.run (InMemIndex.New stop) calls in
  let b := InMemIndexer.run (InMemIndexer.New stop) calls in
  same_index a b
  /\ InMemIndex.GetN a = InMemIndexer.N b
  /\ forall term,
       InMemIndex.SearchTFIDF a term = fst (InMemIndexer.Search b term).
Proof.
  intros Hc a b.
  assert (same_index a b) as Hab.
  { apply InMemIndex_run_same; [|done]. by repeat split. }
  split; [done|]. split; [apply Hab|].
  intros term. by apply InMemIndex_Search_same.
Qed.

Lemma InMemIndex_agrees_with_InMemIndexer_witness :
  @InMemIndex.SearchTFIDF AsciiLib.strings AsciiLib.snowball TestMath.math
    (@InMemIndex.run AsciiLib.strings AsciiLib.snowball
       (InMemIndex.New None) again_calls) "ship"
  = fst (@InMemIndexer.Search AsciiLib.strings AsciiLib.snowball TestMath.math
           (@InMemIndexer.run AsciiLib.strings AsciiLib.snowball
              (InMemIndexer.New None) again_calls) "ship").
Proof.
  destruct (@InMemIndex_agrees_with_InMemIndexer AsciiLib.strings
              AsciiLib.snowball TestMath.math None again_calls)
    as (_ & _ & Heq).
  - repeat (apply Forall_cons_2 || apply Forall_nil_2); reflexivity.
  - apply Heq.
Defined.

(* ===================================================================== *)
(** * The second SQLite index: the loop over the terms of [Add] *)
(* ===================================================================== *)

Section TablesV2.
Lemma flat_map_by_key2 {B} (tbl : list (Z * (string * Z))) i k v
    (f : Z * (string * Z) -> list B) :
  NoDup (map (fun r => fst (snd r)) tbl) -> (i, (k, v)) ∈ tbl ->
  (forall r, fst (snd r) <> k -> f r = []) ->
  flat_map f tbl = f (i, (k, v)).
Proof.
  intros Hnd Hin Hf. induction tbl as [|[j [k' m]] tbl IH]; simpl in *.
  - inversion Hin.
  - apply NoDup_cons in Hnd as [Hj Hnd].
    apply elem_of_cons in Hin as [Heq|Hin].
    + injection Heq as <- <- <-.
      rewrite flat_map_nil_in; [by rewrite app_nil_r|].
      intros [a [k' m']] Hk. apply Hf. simpl. intros ->.
      apply Hj. by apply (elem_of_key2 _ a k m').
    + rewrite (Hf (j, (k', m))); [by apply IH|]. simpl. intros ->.
      apply Hj. by apply (elem_of_key2 _ i k v).
Qed.

Lemma map_flat_map {A B C} (g : B -> C) (f : A -> list B) l :
  map g (flat_map f l) = flat_map (fun a => map g (f a)) l.
Proof.
  induction l as [|a l IH]; [done|]. simpl. by rewrite map_app, IH.
Qed.

(** The query of [SearchTFIDF] by the id of the term. *)
Lemma v2_join_rows_term d i s df :
  wf_table2 (SQLiteIndexV2.vocabulary d) ->
  (i, (s, df)) ∈ SQLiteIndexV2.vocabulary d ->
  SQLiteIndexV2.join_rows d s
  = map (fun r => (r, df))
        (tf_rows (SQLiteIndexV2.documents d)
                 (SQLiteIndexV2.term_frequencies d) i).
Proof.
  intros [_ Hkey] Hin. unfold SQLiteIndexV2.join_rows.
  rewrite (flat_map_by_key2 _ i s df _ Hkey Hin).
  - cbn [fst snd]. rewrite String.eqb_refl. unfold tf_rows.
    rewrite map_flat_map. apply flat_map_ext. intros [j [[dd t] f]].
    unfold v2_hit_rows. destruct (i =? t); [|done].
    rewrite map_flat_map. apply flat_map_ext. intros [a [u n]].
    cbn [fst snd]. by destruct (dd =? a).
  - intros [j [k v]] Hk. cbn [fst snd] in *.
    destruct (String.eqb_spec k s); [congruence | done].
Qed.

Lemma v2_join_rows_none d s :
  s ∉ map (fun r => fst (snd r)) (SQLiteIndexV2.vocabulary d) ->
  SQLiteIndexV2.join_rows d s = [].
Proof.
  intros Hs. unfold SQLiteIndexV2.join_rows. apply flat_map_nil_in.
  intros [j [k v]] Hin. cbn [fst snd].
  destruct (String.eqb_spec k s) as [->|]; [|done].
  exfalso. by apply Hs, (elem_of_key2 _ j s v).
Qed.

Lemma v2_hit_rows_in (us : list (Z * (string * Z))) i j dd t f name m :
  NoDup (map fst us) -> (dd, (name, m)) ∈ us ->
  v2_hit_rows us i (j, (dd, t, f)) = if i =? t then [(name, f, m)] else [].
Proof.
  intros Hnd Hu. unfold v2_hit_rows. destruct (i =? t); [|done].
  rewrite (flat_map_by_id2 us dd (name, m) _ Hnd Hu).
  - simpl. by rewrite Z.eqb_refl.
  - intros r Hr. destruct (Z.eqb_spec dd (fst r)); [congruence | done].
Qed.

Lemma tf_rows_snoc us tfs h i :
  tf_rows us (tfs ++ [h]) i = tf_rows us tfs i ++ v2_hit_rows us i h.
Proof. unfold tf_rows. rewrite flat_map_app. simpl. by rewrite app_nil_r. Qed.

Lemma upsert_tf_new tfs docID termID f :
  (forall j f0, (j, (docID, termID, f0)) ∉ tfs) ->
  SQLiteIndexV2.upsert_tf tfs docID termID f
  = tfs ++ [(Sql.next_id tfs, (docID, termID, f))].
Proof.
  intros Hno. unfold SQLiteIndexV2.upsert_tf.
  destruct (existsb _ tfs) eqn:Hex; [|done].
  apply existsb_exists in Hex as ([j [[d t] f0]] & Hin & Hk).
  apply andb_true_iff in Hk as [->%Z.eqb_eq ->%Z.eqb_eq].
  apply list_elem_of_In in Hin. by destruct (Hno j f0).
Qed.

Lemma count_word_spec {strs : Strings} {snow : Snowball} stop ws :
  forall acc s,
    get (fst (foldl (SQLiteIndexV2.count_word stop) acc ws)) s
    = get (fst acc) s + occurrences s (surviving stop ws)
    /\ (s ∈ snd (foldl (SQLiteIndexV2.count_word stop) acc ws)
        <-> s ∈ snd acc \/ s ∈ surviving stop ws).
Proof.
  induction ws as [|w ws IH]; intros acc s.
  - simpl. rewrite occurrences_nil. split; [lia|].
    split; [by left | intros [?|Hin]; [done | inversion Hin]].
  - cbn [foldl]. destruct (IH (SQLiteIndexV2.count_word stop acc w) s)
      as [-> ->].
    rewrite surviving_cons. unfold SQLiteIndexV2.count_word.
    destruct (normalize stop w) as [s0|]; [|done]. cbn [fst snd].
    change (s0 :: surviving stop ws) with ([s0] ++ surviving stop ws).
    rewrite occurrences_app, occurrences_single. unfold get at 1.
    rewrite elem_of_union, elem_of_singleton, elem_of_app,
      list_elem_of_singleton.
    destruct (decide (s = s0)) as [->|Hne].
    + rewrite lookup_insert_eq. simpl. split; [lia | tauto].
    + rewrite lookup_insert_ne by done. unfold get. split; [lia | tauto].
Qed.
Lemma spec_rows_v2_nil {strs : Strings} {snow : Snowball} stop
    (rd : gmap string (list string)) s :
  doc_freq s (surviving stop <$> rd) = 0 -> spec_rows_v2 stop rd s = [].
Proof.
  intros Hdf. unfold spec_rows_v2.
  assert (filter (fun kv : string * list string =>
                    s ∈ surviving stop (snd kv)) rd = ∅) as ->;
    [|by rewrite map_to_list_empty].
  apply map_empty. intros u. apply map_lookup_filter_None.
  destruct (rd !! u) as [ws|] eqn:Hu; [right | by left].
  intros ws' [= <-] Hin. cbn [snd] in Hin.
  unfold doc_freq in Hdf.
  assert (filter (fun kv : string * list string => s ∈ snd kv)
                 (surviving stop <$> rd) = ∅) as Hempty
    by (apply map_size_empty_inv; lia).
  assert ((filter (fun kv : string * list string => s ∈ snd kv)
                  (surviving stop <$> rd)) !! u
          = Some (surviving stop ws)) as Hsome.
  { apply map_lookup_filter_Some. split; [|done].
    by rewrite lookup_fmap, Hu. }
  by rewrite Hempty, lookup_empty in Hsome.
Qed.
End TablesV2.

Section LoopV2.
Context {strs : Strings} {snow : Snowball}.
Variables (stop : gset string) (us : list (Z * (string * Z))).
Variables (rd : gmap string (list string)).
Variables (doc : string) (docID n : Z) (termFreq : gmap string Z).
Hypothesis Hus : wf_table2 us.
Hypothesis Hdoc : (docID, (doc, n)) ∈ us.
Hypothesis Hnone : rd !! doc = None.

Lemma spec_rows_v2_not_doc s f m : (doc, f, m) ∉ spec_rows_v2 stop rd s.
Proof.
  unfold spec_rows_v2. intros Hin.
  apply list_elem_of_In, in_map_iff in Hin as ([d l] & Heq & Hin).
  injection Heq as -> _ _.
  apply list_elem_of_In, elem_of_map_to_list in Hin.
  apply map_lookup_filter_Some in Hin as [Hl _]. congruence.
Qed.

Lemma tf_in_rows tfs i j f :
  (j, (docID, i, f)) ∈ tfs -> (doc, f, n) ∈ tf_rows us tfs i.
Proof.
  intros Hin. unfold tf_rows.
  apply list_elem_of_In, in_flat_map. exists (j, (docID, i, f)).
  split; [by apply list_elem_of_In|].
  rewrite (v2_hit_rows_in us i j docID i f doc n (proj1 Hus) Hdoc).
  rewrite Z.eqb_refl. by left.
Qed.

(** The body of the loop at a term not done yet. *)
Lemma post_term_step acc X term :
  v2_loop stop us rd doc n termFreq acc X -> term ∉ X ->
  v2_loop stop us rd doc n termFreq
    (SQLiteIndexV2.post_term docID termFreq term acc) ({[term]} ∪ X).
Proof.
  destruct acc as [voc tfs]. intros Hinv Hterm.
  destruct (vl_voc _ _ _ _ _ _ _ _ Hinv) as [Hid Hkey].
  cbn [fst snd] in Hid, Hkey.
  assert (forall s, s <> term ->
            (if decide (s ∈ ({[term]} ∪ X : gset string)) then 1 else 0)
            = (if decide (s ∈ X) then 1 else 0)) as Hdec.
  { intros s Hs. destruct (decide (s ∈ X)) as [Hin|Hin].
    - rewrite decide_True; [done | set_solver].
    - rewrite decide_False; [done | set_solver]. }
  assert (forall s, s <> term ->
            (if decide (s ∈ ({[term]} ∪ X : gset string))
             then [(doc, get termFreq s, n)] else [])
            = (if decide (s ∈ X) then [(doc, get termFreq s, n)] else []))
    as Hdecr.
  { intros s Hs. destruct (decide (s ∈ X)) as [Hin|Hin].
    - rewrite decide_True; [done | set_solver].
    - rewrite decide_False; [done | set_solver]. }
  assert (term ∈ ({[term]} ∪ X : gset string)) as Hnew by set_solver.
  unfold SQLiteIndexV2.post_term.
  destruct (SQLiteIndexV2.select_id voc term) as [tid|] eqn:Hsel.
  - (* the term has a row: its frequency is incremented *)
    apply (select_id2_Some _ _ _ Hkey) in Hsel as [df0 Hs].
    assert (forall i t df, (i, (t, df)) ∈ voc -> (i = tid <-> t = term))
      as Hsame.
    { intros i t df Hin. split.
      - intros ->. pose proof (NoDup_fst_inj _ _ _ _ Hid Hin Hs) as Heq.
        by injection Heq.
      - intros ->. by destruct (NoDup_key2_inj _ _ _ _ _ _ Hkey Hin Hs). }
    rewrite upsert_tf_new.
    2:{ intros j f0 Hin. apply (tf_in_rows tfs tid j f0) in Hin.
        rewrite (vl_rows _ _ _ _ _ _ _ _ Hinv tid term df0 Hs) in Hin.
        cbn [fst snd] in Hin. rewrite decide_False, app_nil_r in Hin by done.
        by apply spec_rows_v2_not_doc in Hin. }
    split; cbn [fst snd].
    + split; [by rewrite bump_df_fst | by rewrite bump_df_key].
    + intros i t df Hin. apply elem_of_bump_df in Hin as (v0 & Hin & ->).
      rewrite (vl_df _ _ _ _ _ _ _ _ Hinv i t v0 Hin).
      case_decide as Ht.
      * subst t. rewrite (decide_False (P := term ∈ X)) by done.
        rewrite decide_True by done. lia.
      * by rewrite (Hdec t Ht).
    + intros t Ht. rewrite bump_df_key.
      destruct (decide (t = term)) as [->|Hne];
        [by apply (elem_of_key2 _ tid term df0)|].
      apply (vl_all _ _ _ _ _ _ _ _ Hinv). destruct Ht as [?|Ht]; [by left|].
      right. set_solver.
    + intros j dd t f [Hin|Hin]%elem_of_app; rewrite bump_df_fst.
      * by apply (vl_refs _ _ _ _ _ _ _ _ Hinv _ _ _ _ Hin).
      * apply list_elem_of_singleton in Hin. injection Hin as -> -> -> ->.
        split; [by apply (elem_of_map_fst _ tid (term, df0))
               | by apply (elem_of_map_fst _ docID (doc, n))].
    + intros i t df Hin. apply elem_of_bump_df in Hin as (v0 & Hin & _).
      rewrite tf_rows_snoc.
      rewrite (v2_hit_rows_in us i _ docID tid _ doc n (proj1 Hus) Hdoc).
      rewrite (vl_rows _ _ _ _ _ _ _ _ Hinv i t v0 Hin). cbn [snd].
      destruct (Z.eqb_spec i tid) as [Heq|Hne].
      * assert (t = term) as -> by (by apply (Hsame i t v0)).
        rewrite (decide_False (P := term ∈ X)) by done.
        by rewrite decide_True, app_nil_r by done.
      * assert (t <> term) as Hts.
        { intros ->. apply Hne. by apply (Hsame i term v0). }
        by rewrite app_nil_r, (Hdecr t Hts).
  - (* the term is new *)
    apply select_id2_None in Hsel.
    assert (doc_freq term (surviving stop <$> rd) = 0) as Hdf.
    { pose proof (doc_freq_nonneg (surviving stop <$> rd) term).
      destruct (decide (0 < doc_freq term (surviving stop <$> rd))); [|lia].
      exfalso. apply Hsel, (vl_all _ _ _ _ _ _ _ _ Hinv). auto. }
    set (tid := Sql.next_id voc).
    assert (forall i t df, (i, (t, df)) ∈ voc -> t <> term /\ i <> tid)
      as Hold.
    { intros i t df Hin. split.
      - intros ->. apply Hsel. by apply (elem_of_key2 _ i term df).
      - intros ->. apply (next_id_fresh voc).
        by apply (elem_of_map_fst _ tid (t, df)). }
    rewrite upsert_tf_new.
    2:{ intros j f0 Hin.
        destruct (vl_refs _ _ _ _ _ _ _ _ Hinv _ _ _ _ Hin) as [Ht _].
        by apply next_id_fresh in Ht. }
    split; cbn [fst snd].
    + split; rewrite map_app; apply NoDup_app; (split; [done|]);
        (split; [|apply NoDup_singleton]).
      * intros i Hi Hin. apply list_elem_of_singleton in Hin. subst i.
        by apply (next_id_fresh voc).
      * intros k Hk Hin. apply list_elem_of_singleton in Hin. by subst k.
    + intros i t df [Hin|Hin]%elem_of_app.
      * destruct (Hold _ _ _ Hin) as [Hne _]. rewrite (Hdec t Hne).
        by apply (vl_df _ _ _ _ _ _ _ _ Hinv i).
      * apply list_elem_of_singleton in Hin. injection Hin as -> -> ->.
        by rewrite Hdf, decide_True.
    + intros t Ht. rewrite map_app, elem_of_app.
      destruct (decide (t = term)) as [->|Hne]; [right; by left|]. left.
      apply (vl_all _ _ _ _ _ _ _ _ Hinv). destruct Ht as [?|Ht]; [by left|].
      right. set_solver.
    + intros j dd t f [Hin|Hin]%elem_of_app.
      * destruct (vl_refs _ _ _ _ _ _ _ _ Hinv _ _ _ _ Hin) as [Ht Hu].
        split; [|done]. rewrite map_app. apply elem_of_app. by left.
      * apply list_elem_of_singleton in Hin. injection Hin as -> -> -> ->.
        split; [|by apply (elem_of_map_fst _ docID (doc, n))].
        rewrite map_app. apply elem_of_app. right. by left.
    + intros i t df Hin. rewrite tf_rows_snoc.
      rewrite (v2_hit_rows_in us i _ docID tid _ doc n (proj1 Hus) Hdoc).
      apply elem_of_app in Hin as [Hin|Hin].
      * destruct (Hold _ _ _ Hin) as [Hne Hi].
        destruct (Z.eqb_spec i tid); [congruence|].
        rewrite app_nil_r, (Hdecr t Hne).
        by apply (vl_rows _ _ _ _ _ _ _ _ Hinv i t df).
      * apply list_elem_of_singleton in Hin. injection Hin as -> -> ->.
        rewrite Z.eqb_refl, decide_True by done.
        assert (tf_rows us tfs tid = []) as ->.
        { unfold tf_rows. apply flat_map_nil_in. intros [j [[dd t] f]] Hj.
          destruct (vl_refs _ _ _ _ _ _ _ _ Hinv _ _ _ _ Hj) as [Ht Hd].
          apply elem_of_map_fst_inv in Hd as [[name m] Hd].
          rewrite (v2_hit_rows_in us tid j dd t f name m (proj1 Hus) Hd).
          destruct (Z.eqb_spec tid t) as [Heq|]; [|done].
          rewrite <- Heq in Ht. by apply next_id_fresh in Ht. }
        by rewrite (spec_rows_v2_nil stop rd term Hdf).
Qed.

(** The loop over [uniqueTerms] keeps the invariant. *)
Lemma post_terms_loop acc (U : gset string) :
  v2_loop stop us rd doc n termFreq acc ∅ ->
  v2_loop stop us rd doc n termFreq
    (set_fold (SQLiteIndexV2.post_term docID termFreq) acc U) U.
Proof.
  intros Hinit.
  apply (set_fold_ind_L
           (fun r X => v2_loop stop us rd doc n termFreq r X)); [done|].
  intros x X r Hx Hr. by apply post_term_step.
Qed.
End LoopV2.

(* ===================================================================== *)
(** * The second SQLite index represents the documents as given *)
(* ===================================================================== *)

Section AddV2.
Context {strs : Strings} {snow : Snowball}.

Lemma set_word_count_new (us : list (Z * (string * Z))) docID doc n :
  docID ∉ map fst us ->
  SQLiteIndexV2.set_word_count (us ++ [(docID, (doc, 0))]) docID n
  = us ++ [(docID, (doc, n))].
Proof.
  intros Hfresh. unfold SQLiteIndexV2.set_word_count.
  rewrite map_app. cbn [map fst snd]. rewrite Z.eqb_refl. f_equal.
  induction us as [|[i [u m]] us IH]; [done|].
  cbn [map fst snd] in *.
  destruct (Z.eqb_spec i docID) as [->|Hne].
  - exfalso. apply Hfresh. by left.
  - rewrite IH; [done|]. intros Hin. apply Hfresh. by right.
Qed.

(** A row of [documents] that no row of [term_frequencies] refers to
    adds nothing to the join. *)
Lemma tf_rows_new_doc (us : list (Z * (string * Z))) tfs r i :
  (forall j dd t f, (j, (dd, t, f)) ∈ tfs -> dd ∈ map fst us) ->
  fst r ∉ map fst us ->
  tf_rows (us ++ [r]) tfs i = tf_rows us tfs i.
Proof.
  intros Href Hr. unfold tf_rows.
  apply flat_map_ext_in. intros [j [[dd t] f]] Hin.
  unfold v2_hit_rows. destruct (i =? t); [|done].
  rewrite flat_map_app. cbn [flat_map].
  destruct (Z.eqb_spec dd (fst r)) as [Heq|Hne]; [|by rewrite !app_nil_r].
  exfalso. apply Hr. rewrite <- Heq. by apply (Href j dd t f).
Qed.

Lemma spec_rows_v2_insert stop (rd : gmap string (list string)) url ws s :
  rd !! url = None ->
  spec_rows_v2 stop (<[url := ws]> rd) s
  ≡ₚ spec_rows_v2 stop rd s
     ++ if decide (s ∈ surviving stop ws)
        then [(url, occurrences s (surviving stop ws), Z.of_nat (length ws))]
        else [].
Proof.
  intros Hnone. unfold spec_rows_v2. case_decide as Hin.
  - rewrite map_filter_insert_True by done.
    rewrite map_to_list_insert
      by (apply map_lookup_filter_None; by left).
    simpl. apply Permutation_cons_append.
  - rewrite map_filter_insert_False by done.
    rewrite delete_id by done. by rewrite app_nil_r.
Qed.

Lemma v2_represents_known stop d rd doc :
  v2_represents stop d rd ->
  is_Some (SQLiteIndexV2.select_id (SQLiteIndexV2.documents d) doc)
  <-> is_Some (rd !! doc).
Proof.
  intros Hrep. destruct (v2_docs _ _ _ Hrep) as [_ Hkey]. split.
  - intros [i Hi]. apply (select_id2_Some _ _ _ Hkey) in Hi as [n Hin].
    destruct (v2_lens _ _ _ Hrep _ _ _ Hin) as (l & Hl & _). eauto.
  - intros Hs. apply (v2_names _ _ _ Hrep) in Hs.
    destruct (SQLiteIndexV2.select_id _ doc) eqn:Hsel; [eauto|].
    by apply select_id2_None in Hsel.
Qed.

(** [Add] of a new document. *)
Lemma V2_Add_new idx rd doc ws :
  v2_represents (SQLiteIndexV2.stop idx) (SQLiteIndexV2.db idx) rd ->
  rd !! doc = None ->
  v2_represents (SQLiteIndexV2.stop idx)
    (SQLiteIndexV2.db (SQLiteIndexV2.Add idx doc ws)) (<[doc := ws]> rd)
  /\ SQLiteIndexV2.N (SQLiteIndexV2.Add idx doc ws) = SQLiteIndexV2.N idx + 1
  /\ SQLiteIndexV2.stop (SQLiteIndexV2.Add idx doc ws)
     = SQLiteIndexV2.stop idx.
Proof.
  intros Hrep Hnone.
  assert (SQLiteIndexV2.select_id
            (SQLiteIndexV2.documents (SQLiteIndexV2.db idx)) doc = None)
    as Hsel.
  { destruct (SQLiteIndexV2.select_id _ doc) eqn:Hsel; [|done].
    assert (is_Some (rd !! doc)) as [l Hl]
      by (apply (v2_represents_known _ _ _ _ Hrep); eauto).
    congruence. }
  unfold SQLiteIndexV2.Add. rewrite Hsel. cbv zeta.
  set (stop := SQLiteIndexV2.stop idx) in *.
  set (d := SQLiteIndexV2.db idx) in *.
  pose proof (count_word_spec stop ws (∅, ∅)) as Hcount.
  destruct (foldl (SQLiteIndexV2.count_word stop) (∅, ∅) ws)
    as [termFreq uniqueTerms].
  cbn [fst snd] in Hcount.
  assert (forall s, get termFreq s = occurrences s (surviving stop ws))
    as Hfreq.
  { intros s. destruct (Hcount s) as [-> _]. unfold get.
    rewrite lookup_empty. simpl. lia. }
  assert (forall s, s ∈ uniqueTerms <-> s ∈ surviving stop ws) as Hterms.
  { intros s. destruct (Hcount s) as [_ ->]. set_solver. }
  clear Hcount.
  set (docID := Sql.next_id (SQLiteIndexV2.documents d)).
  set (n := Z.of_nat (length ws)).
  apply select_id2_None in Hsel.
  assert (docID ∉ map fst (SQLiteIndexV2.documents d)) as Hfresh
    by apply next_id_fresh.
  rewrite (set_word_count_new _ docID doc n Hfresh).
  set (us := SQLiteIndexV2.documents d ++ [(docID, (doc, n))]).
  destruct (v2_docs _ _ _ Hrep) as [Hid Hkey].
  assert (wf_table2 us) as Hus.
  { unfold us. split; rewrite map_app; apply NoDup_app; (split; [done|]);
      (split; [|apply NoDup_singleton]).
    - intros i Hi Hin. apply list_elem_of_singleton in Hin. by subst i.
    - intros k Hk Hin. apply list_elem_of_singleton in Hin. by subst k. }
  assert ((docID, (doc, n)) ∈ us) as Hdoc.
  { unfold us. apply elem_of_app. right. by left. }
  assert (forall j dd t f,
            (j, (dd, t, f)) ∈ SQLiteIndexV2.term_frequencies d ->
            dd ∈ map fst (SQLiteIndexV2.documents d)) as Href0.
  { intros j dd t f Hin. by apply (v2_refs _ _ _ Hrep j dd t f). }
  assert (v2_loop stop us rd doc n termFreq
            (SQLiteIndexV2.vocabulary d, SQLiteIndexV2.term_frequencies d) ∅)
    as Hinit.
  { split; cbn [fst snd].
    - apply (v2_voc _ _ _ Hrep).
    - intros i s df Hin. rewrite decide_False by set_solver.
      rewrite Z.add_0_r. by apply (v2_df _ _ _ Hrep i).
    - intros s [Hs|Hs]; [by apply (v2_all _ _ _ Hrep) | set_solver].
    - intros j dd t f Hin.
      destruct (v2_refs _ _ _ Hrep _ _ _ _ Hin) as [Ht Hu].
      split; [done|]. unfold us. rewrite map_app. apply elem_of_app. by left.
    - intros i s df Hin. unfold us.
      rewrite (tf_rows_new_doc _ _ (docID, (doc, n)) _ Href0 Hfresh).
      rewrite decide_False by set_solver. rewrite app_nil_r.
      by apply (v2_rows _ _ _ Hrep i s df). }
  pose proof (post_terms_loop stop us rd doc docID n termFreq Hus Hdoc Hnone
                _ uniqueTerms Hinit) as Hloop.
  destruct (set_fold _ _ uniqueTerms) as [voc' tfs'].
  cbn [SQLiteIndexV2.db SQLiteIndexV2.N SQLiteIndexV2.stop].
  split; [|done].
  assert ((surviving stop <$> rd) !! doc = None) as Hnone'
    by (by rewrite lookup_fmap, Hnone).
  assert (forall s, (if decide (s ∈ uniqueTerms) then 1 else 0)
                    = if decide (s ∈ surviving stop ws) then 1 else 0)
    as Hdec.
  { intros s. destruct (decide (s ∈ surviving stop ws)) as [Hin|Hin].
    - rewrite decide_True; [done | by apply Hterms].
    - rewrite decide_False; [done | by rewrite Hterms]. }
  split; cbn [SQLiteIndexV2.documents SQLiteIndexV2.vocabulary
                SQLiteIndexV2.term_frequencies].
  - done.
  - intros i u m Hin. unfold us in Hin.
    apply elem_of_app in Hin as [Hin|Hin].
    + destruct (v2_lens _ _ _ Hrep _ _ _ Hin) as (l & Hl & ->).
      exists l. split; [|done]. rewrite lookup_insert_ne; [done|].
      intros <-. congruence.
    + apply list_elem_of_singleton in Hin. injection Hin as -> -> ->.
      exists ws. by rewrite lookup_insert_eq.
  - intros u Hu. unfold us. rewrite map_app, elem_of_app.
    destruct (decide (u = doc)) as [->|Hne]; [right; by left|]. left.
    apply (v2_names _ _ _ Hrep). by rewrite lookup_insert_ne in Hu.
  - apply (vl_voc _ _ _ _ _ _ _ _ Hloop).
  - intros i s df Hin. rewrite fmap_insert.
    rewrite (doc_freq_insert s doc _ _ Hnone'), <- Hdec.
    by apply (vl_df _ _ _ _ _ _ _ _ Hloop i).
  - intros s Hs. apply (vl_all _ _ _ _ _ _ _ _ Hloop).
    rewrite fmap_insert, (doc_freq_insert s doc _ _ Hnone') in Hs.
    case_decide as Hin; [right; by apply Hterms | left; lia].
  - apply (vl_refs _ _ _ _ _ _ _ _ Hloop).
  - intros i s df Hin.
    rewrite (vl_rows _ _ _ _ _ _ _ _ Hloop i s df Hin). cbn [snd].
    rewrite (spec_rows_v2_insert stop rd doc ws s Hnone).
    apply Permutation_app_head. rewrite Hfreq.
    destruct (decide (s ∈ surviving stop ws)) as [Hs|Hs].
    + rewrite decide_True; [done | by apply Hterms].
    + rewrite decide_False; [done | by rewrite Hterms].
Qed.

Lemma V2_Add_represents idx rd doc ws :
  v2_represents (SQLiteIndexV2.stop idx) (SQLiteIndexV2.db idx) rd ->
  SQLiteIndexV2.N idx = doc_count rd ->
  let idx' := SQLiteIndexV2.Add idx doc ws in
  let rd' := record_raw rd (doc, ws) in
  v2_represents (SQLiteIndexV2.stop idx) (SQLiteIndexV2.db idx') rd'
  /\ SQLiteIndexV2.N idx' = doc_count rd'
  /\ SQLiteIndexV2.stop idx' = SQLiteIndexV2.stop idx.
Proof.
  intros Hrep HN idx' rd'. unfold idx', rd', record_raw. cbn [fst snd].
  destruct (rd !! doc) as [l|] eqn:Hl.
  - assert (is_Some (SQLiteIndexV2.select_id
                       (SQLiteIndexV2.documents (SQLiteIndexV2.db idx)) doc))
      as [i Hi] by (apply (v2_represents_known _ _ _ _ Hrep); eauto).
    unfold SQLiteIndexV2.Add. by rewrite Hi.
  - destruct (V2_Add_new idx rd doc ws Hrep Hl) as (Hrep' & HN' & Hstop).
    split; [done|]. split; [|done].
    by rewrite HN', HN, doc_count_insert.
Qed.

Lemma V2_run_represents calls : forall idx rd,
  v2_represents (SQLiteIndexV2.stop idx) (SQLiteIndexV2.db idx) rd ->
  SQLiteIndexV2.N idx = doc_count rd ->
  v2_represents (SQLiteIndexV2.stop idx)
    (SQLiteIndexV2.db (SQLiteIndexV2.run idx calls))
    (foldl record_raw rd calls)
  /\ SQLiteIndexV2.N (SQLiteIndexV2.run idx calls)
     = doc_count (foldl record_raw rd calls)
  /\ SQLiteIndexV2.stop (SQLiteIndexV2.run idx calls)
     = SQLiteIndexV2.stop idx.
Proof.
  induction calls as [|[doc ws] calls IH]; intros idx rd Hrep HN; [done|].
  unfold SQLiteIndexV2.run in *. cbn [foldl fst snd].
  destruct (V2_Add_represents idx rd doc ws Hrep HN) as (Hrep' & HN' & Hstop).
  rewrite <- Hstop in Hrep'.
  destruct (IH _ _ Hrep' HN') as (H1 & H2 & H3).
  rewrite Hstop in H1, H3. done.
Qed.

Lemma v2_represents_empty stop :
  v2_represents stop (SQLiteIndexV2.mkdb [] [] []) ∅.
Proof.
  split; simpl.
  - split; apply NoDup_nil_2.
  - intros i u n Hin. inversion Hin.
  - intros u [l Hl]. by rewrite lookup_empty in Hl.
  - split; apply NoDup_nil_2.
  - intros i s df Hin. inversion Hin.
  - intros s Hs. unfold doc_freq in Hs.
    rewrite fmap_empty, map_filter_empty, map_size_empty in Hs. lia.
  - intros i dd t f Hin. inversion Hin.
  - intros i s df Hin. inversion Hin.
Qed.

Lemma V2_reachable_represents stop calls :
  let idx := SQLiteIndexV2.run (SQLiteIndexV2.New stop) calls in
  v2_represents (default DefaultStopwords stop) (SQLiteIndexV2.db idx)
    (raw_corpus calls)
  /\ SQLiteIndexV2.N idx = doc_count (raw_corpus calls)
  /\ SQLiteIndexV2.stop idx = default DefaultStopwords stop.
Proof.
  apply (V2_run_represents calls (SQLiteIndexV2.New stop) ∅).
  - apply v2_represents_empty.
  - done.
Qed.

(** The corpus holds the surviving words of the documents as given. *)
Lemma corpus_of_raw stop calls :
  corpus stop calls = surviving stop <$> raw_corpus calls.
Proof.
  unfold corpus, raw_corpus.
  assert (forall rd, foldl (record_doc stop) (surviving stop <$> rd) calls
                     = surviving stop <$> foldl record_raw rd calls) as Hgen.
  { induction calls as [|[doc ws] calls IH]; intros rd; [done|].
    cbn [foldl]. rewrite <- IH. f_equal.
    unfold record_doc, record_raw. cbn [fst snd]. rewrite lookup_fmap.
    destruct (rd !! doc); [done|]. simpl. by rewrite fmap_insert. }
  by rewrite <- Hgen, fmap_empty.
Qed.
End AddV2.

(* ===================================================================== *)
(** * The second SQLite index and the in-memory backend *)
(* ===================================================================== *)

Section SearchV2.
Context {strs : Strings} {snow : Snowball} {math : Math}.

(** The rows of the second SQLite index and those of the corpus, for
    one stem, are for the same documents in the same order. *)
Lemma spec_rows_related stop (rd : gmap string (list string)) s :
  Forall2 (row_of_raw stop rd) (spec_rows_v2 stop rd s)
          (spec_rows (surviving stop <$> rd) s).
Proof.
  unfold spec_rows. rewrite map_filter_fmap, map_to_list_fmap.
  match goal with
  | |- context [filter ?P rd] =>
      assert (filter P rd
              = filter (fun kv : string * list string =>
                          s ∈ surviving stop (snd kv)) rd) as ->
        by (by apply map_filter_ext)
  end.
  unfold spec_rows_v2.
  assert (forall kv,
            kv ∈ map_to_list
                   (filter (fun kv : string * list string =>
                              s ∈ surviving stop (snd kv)) rd) ->
            rd !! fst kv = Some (snd kv) /\ s ∈ surviving stop (snd kv))
    as HL.
  { intros [u ws] Hin.
    by apply elem_of_map_to_list, map_lookup_filter_Some in Hin. }
  revert HL. generalize (map_to_list
                (filter (fun kv : string * list string =>
                           s ∈ surviving stop (snd kv)) rd)).
  intros L. induction L as [|[u ws] L IH]; intros HL; [constructor|].
  cbn [map fmap list_fmap]. constructor.
  - destruct (HL (u, ws)) as [Hl Hin]; [by left|]. cbn [fst snd] in *.
    unfold prod_map. cbn [fst snd].
    split; [done|]. exists ws. cbn [fst snd]. repeat split; try done.
    unfold doc_len. destruct (surviving stop ws); [inversion Hin|].
    simpl. lia.
  - apply IH. intros kv Hkv. apply HL. by right.
Qed.

Lemma V2_score_rows n df (l : list (string * Z * Z)) :
  0 < df ->
  flat_map (SQLiteIndexV2.score_row n) (map (fun r => (r, df)) l)
  = flat_map (SQLiteIndexer.score_row
                (Log (F64.div (of_int n) (of_int df)))) l.
Proof.
  intros Hdf. induction l as [|[[u f] wc] l IH]; [done|].
  cbn [map flat_map]. rewrite IH. f_equal.
  unfold SQLiteIndexV2.score_row, SQLiteIndexer.score_row.
  destruct (0 <? wc); [|done]. cbn [andb].
  by destruct (Z.ltb_spec 0 df); [|lia].
Qed.

(** Rows for the same documents give hits for the same URLs. *)
Lemma related_URLs stop (rd : gmap string (list string)) idf l2 l1 :
  Forall2 (row_of_raw stop rd) l2 l1 ->
  map URL (flat_map (SQLiteIndexer.score_row idf) l2)
  = map URL (flat_map (SQLiteIndexer.score_row idf) l1).
Proof.
  induction 1 as [|[[u2 f2] n2] [[u1 f1] n1] l2 l1 Hr _ IH]; [done|].
  cbn [flat_map]. rewrite !map_app, IH. f_equal.
  destruct Hr as (Heq & ws & Hl & H2 & H1 & Hpos). cbn [fst snd] in *.
  injection Heq as -> ->.
  pose proof (surviving_length stop ws) as Hle. unfold doc_len in H1.
  unfold SQLiteIndexer.score_row.
  destruct (Z.ltb_spec 0 n2); [|lia]. by destruct (Z.ltb_spec 0 n1); [|lia].
Qed.

(** When no word of a document is dropped the rows are the same. *)
Lemma related_eq stop (rd : gmap string (list string)) l2 l1 :
  (forall u ws, rd !! u = Some ws ->
                length (surviving stop ws) = length ws) ->
  Forall2 (row_of_raw stop rd) l2 l1 -> l2 = l1.
Proof.
  intros Hkeep.
  induction 1 as [|[[u2 f2] n2] [[u1 f1] n1] l2 l1 Hr _ IH]; [done|].
  rewrite IH. f_equal.
  destruct Hr as (Heq & ws & Hl & H2 & H1 & Hpos). cbn [fst snd] in *.
  injection Heq as -> ->. unfold doc_len in H1.
  rewrite (Hkeep _ _ Hl) in H1. congruence.
Qed.

Lemma raw_corpus_keeps stop calls :
  keeps_all stop calls ->
  forall u ws, raw_corpus calls !! u = Some ws ->
               length (surviving stop ws) = length ws.
Proof.
  unfold keeps_all, raw_corpus.
  assert (forall rd,
            Forall (fun c : string * list string =>
                      length (surviving stop (snd c)) = length (snd c))
                   calls ->
            (forall u ws, rd !! u = Some ws ->
                          length (surviving stop ws) = length ws) ->
            forall u ws, foldl record_raw rd calls !! u = Some ws ->
                         length (surviving stop ws) = length ws) as Hgen.
  { induction calls as [|[doc l] calls IH]; intros rd Hc Hrd; [done|].
    apply Forall_cons in Hc as [Hl Hc]. cbn [foldl]. apply IH; [done|].
    unfold record_raw. cbn [fst snd] in *.
    destruct (rd !! doc) eqn:Hdoc; [done|].
    intros u ws. destruct (decide (u = doc)) as [->|Hne].
    - rewrite lookup_insert_eq. by intros [= <-].
    - rewrite lookup_insert_ne by done. apply Hrd. }
  intros Hc. apply Hgen; [done|]. intros u ws. by rewrite lookup_empty.
Qed.

Lemma V2_Search_no mem v2 rd term :
  represents mem (surviving (SQLiteIndexV2.stop v2) <$> rd) ->
  v2_represents (SQLiteIndexV2.stop v2) (SQLiteIndexV2.db v2) rd ->
  SQLiteIndexV2.N v2 = doc_count rd ->
  InMemIndexer.stop mem = SQLiteIndexV2.stop v2 ->
  no_result mem term ->
  SQLiteIndexV2.SearchTFIDF v2 term = None.
Proof.
  intros Hm Hs HN Hstop Hno. unfold no_result in Hno.
  rewrite (rep_N _ _ Hm), (rep_df _ _ Hm), Hstop in Hno.
  unfold doc_count in Hno. rewrite map_size_fmap in Hno.
  fold (doc_count rd) in Hno. rewrite <- HN in Hno.
  unfold SQLiteIndexV2.SearchTFIDF.
  case_decide as H1; [done|]. case_decide as H2; [done|].
  destruct Hno as [?|[?|[?|Hdf]]]; [tauto | tauto | done |].
  unfold stem in Hdf.
  set (s := english_Stem (ToLower term)) in *.
  assert (SQLiteIndexV2.join_rows (SQLiteIndexV2.db v2) s = []) as ->;
    [|cbn [flat_map]; by rewrite sort_Slice_nil].
  destruct (decide (s ∈ map (fun r : Z * (string * Z) => fst (snd r))
                          (SQLiteIndexV2.vocabulary (SQLiteIndexV2.db v2))))
    as [Hin|Hin]; [|by apply v2_join_rows_none].
  apply elem_of_key2_inv in Hin as (i & df & Hin).
  rewrite (v2_join_rows_term _ i s df (v2_voc _ _ _ Hs) Hin).
  pose proof (v2_rows _ _ _ Hs i s df Hin) as Hrows.
  rewrite (spec_rows_v2_nil _ _ _ Hdf) in Hrows.
  apply Permutation_nil_r in Hrows. by rewrite Hrows.
Qed.

Lemma V2_Search_yes mem v2 rd term :
  represents mem (surviving (SQLiteIndexV2.stop v2) <$> rd) ->
  v2_represents (SQLiteIndexV2.stop v2) (SQLiteIndexV2.db v2) rd ->
  SQLiteIndexV2.N v2 = doc_count rd ->
  InMemIndexer.stop mem = SQLiteIndexV2.stop v2 ->
  ~ no_result mem term ->
  exists rows,
    rows ≡ₚ spec_rows_v2 (SQLiteIndexV2.stop v2) rd (stem (ToLower term))
    /\ SQLiteIndexV2.SearchTFIDF v2 term
       = SQLiteIndexer.appended
           (sort_Slice lessHit
              (flat_map
                 (SQLiteIndexer.score_row
                    (Log (F64.div
                            (of_int (InMemIndexer.N mem))
                            (of_int (get (InMemIndexer.df mem)
                                         (stem (ToLower term)))))))
                 rows)).
Proof.
  intros Hm Hs HN Hstop Hyes. unfold no_result in Hyes.
  assert (InMemIndexer.N mem = SQLiteIndexV2.N v2) as HNm.
  { rewrite (rep_N _ _ Hm), HN. unfold doc_count.
    by rewrite map_size_fmap. }
  rewrite HNm, Hstop in *. rewrite (rep_df _ _ Hm) in *.
  unfold SQLiteIndexV2.SearchTFIDF.
  case_decide as H1; [exfalso; tauto|].
  case_decide as H2; [exfalso; tauto|].
  unfold stem in *.
  set (s := english_Stem (ToLower term)) in *.
  set (docs := surviving (SQLiteIndexV2.stop v2) <$> rd) in *.
  assert (0 < doc_freq s docs) as Hpos.
  { pose proof (doc_freq_nonneg docs s).
    destruct (decide (doc_freq s docs = 0)); [tauto | lia]. }
  pose proof (v2_all _ _ _ Hs s Hpos) as Hin.
  apply elem_of_key2_inv in Hin as (i & df & Hin).
  pose proof (v2_df _ _ _ Hs _ _ _ Hin) as Hdf. fold docs in Hdf. subst df.
  exists (tf_rows (SQLiteIndexV2.documents (SQLiteIndexV2.db v2))
                  (SQLiteIndexV2.term_frequencies (SQLiteIndexV2.db v2)) i).
  split; [by apply (v2_rows _ _ _ Hs i s (doc_freq s docs))|].
  rewrite (v2_join_rows_term _ i s _ (v2_voc _ _ _ Hs) Hin).
  by rewrite (V2_score_rows _ _ _ Hpos).
Qed.

Lemma raw_corpus_count stop calls :
  doc_count (raw_corpus calls) = doc_count (corpus stop calls).
Proof.
  rewrite (corpus_of_raw stop calls). unfold doc_count.
  by rewrite map_size_fmap.
Qed.
Lemma V2_Search_URLs mem v2 rd term :
  represents mem (surviving (SQLiteIndexV2.stop v2) <$> rd) ->
  v2_represents (SQLiteIndexV2.stop v2) (SQLiteIndexV2.db v2) rd ->
  SQLiteIndexV2.N v2 = doc_count rd ->
  InMemIndexer.stop mem = SQLiteIndexV2.stop v2 ->
  map URL (elems (SQLiteIndexV2.SearchTFIDF v2 term))
  ≡ₚ map URL (elems (fst (InMemIndexer.Search mem term)))
  /\ (SQLiteIndexV2.SearchTFIDF v2 term = None
      <-> fst (InMemIndexer.Search mem term) = None).
Proof.
  intros Hm Hs HN Hstop.
  destruct (decide (no_result mem term)) as [Hno|Hyes].
  { rewrite (Search_no_result _ _ Hno).
    by rewrite (V2_Search_no mem v2 rd term). }
  pose proof (represents_Search_nonempty mem _ term Hm Hyes) as Hne.
  destruct (V2_Search_yes mem v2 rd term Hm Hs HN Hstop Hyes)
    as (rows & Hrows & ->).
  rewrite (Search_result _ _ Hyes) in *. cbn [fst] in *.
  set (idf := Log _) in *.
  assert (map URL (elems (SQLiteIndexer.appended
                     (sort_Slice lessHit
                        (flat_map (SQLiteIndexer.score_row idf) rows))))
          ≡ₚ map URL (elems (Some (sort_Slice lessHit
                     (InMemIndexer.collect mem idf
                        (map_to_list
                           (default ∅ (InMemIndexer.tf mem
                                         !! stem (ToLower term))))))))) as Hp.
  { rewrite elems_appended. cbn [elems default].
    rewrite !sort_Slice_perm.
    transitivity (map URL (flat_map (SQLiteIndexer.score_row idf)
                    (spec_rows_v2 (SQLiteIndexV2.stop v2) rd
                                  (stem (ToLower term))))).
    { by apply Permutation_map, flat_map_perm. }
    rewrite (related_URLs _ _ idf _ _ (spec_rows_related _ rd _)).
    apply Permutation_map. symmetry. by apply mem_hits_spec. }
  split; [done|]. split; [|done].
  intros Hnone. rewrite Hnone in Hp. cbn [elems default map] in Hp.
  symmetry in Hp. apply Permutation_nil_r, map_eq_nil in Hp.
  cbn [elems default] in Hne. by rewrite Hp in Hne.
Qed.

(** The hits, when no word of a document is dropped. *)
Lemma V2_Search_hits mem v2 rd term :
  represents mem (surviving (SQLiteIndexV2.stop v2) <$> rd) ->
  v2_represents (SQLiteIndexV2.stop v2) (SQLiteIndexV2.db v2) rd ->
  SQLiteIndexV2.N v2 = doc_count rd ->
  InMemIndexer.stop mem = SQLiteIndexV2.stop v2 ->
  (forall u ws, rd !! u = Some ws ->
                length (surviving (SQLiteIndexV2.stop v2) ws) = length ws) ->
  elems (SQLiteIndexV2.SearchTFIDF v2 term)
  ≡ₚ elems (fst (InMemIndexer.Search mem term))
  /\ (doc_count rd < 2 ^ 63 ->
      (forall d l, rd !! d = Some l -> Z.of_nat (length l) < 2 ^ 63) ->
      (forall x, pos_finite x = true -> finite (Log x) = true) ->
      SQLiteIndexV2.SearchTFIDF v2 term = fst (InMemIndexer.Search mem term)).
Proof.
  intros Hm Hs HN Hstop Hrd.
  destruct (decide (no_result mem term)) as [Hno|Hyes].
  { rewrite (Search_no_result _ _ Hno).
    by rewrite (V2_Search_no mem v2 rd term). }
  pose proof (represents_Search_nonempty mem _ term Hm Hyes) as Hne.
  destruct (V2_Search_yes mem v2 rd term Hm Hs HN Hstop Hyes)
    as (rows & Hrows & ->).
  rewrite (Search_result _ _ Hyes) in *. cbn [fst] in *.
  cbn [elems default] in Hne. rewrite elems_appended. cbn [elems default].
  set (idf := Log _) in *.
  set (hs := flat_map (SQLiteIndexer.score_row idf) rows).
  set (hm := InMemIndexer.collect _ _ _) in *.
  assert (hs ≡ₚ hm) as Hp.
  { unfold hs, hm. rewrite (flat_map_perm _ _ _ Hrows).
    rewrite (related_eq _ rd _ _ Hrd (spec_rows_related _ rd _)).
    symmetry. by apply mem_hits_spec. }
  split; [by rewrite !sort_Slice_perm|].
  intros HNb Hlen HLog.
  assert (doc_count (surviving (SQLiteIndexV2.stop v2) <$> rd) < 2 ^ 63)
    as HNb'.
  { unfold doc_count in *. by rewrite map_size_fmap. }
  assert (forall d l,
            (surviving (SQLiteIndexV2.stop v2) <$> rd) !! d = Some l ->
            doc_len l < 2 ^ 63) as Hlen'.
  { intros d l. rewrite lookup_fmap.
    destruct (rd !! d) as [ws|] eqn:Hd; [|done]. intros [= <-].
    unfold doc_len. rewrite (Hrd _ _ Hd). by apply (Hlen d). }
  rewrite (Search_ranking_unique mem _ term hs HLog Hm HNb' Hlen' Hp).
  unfold hm, idf. by destruct (sort_Slice lessHit _).
Qed.

Lemma raw_corpus_bounds (n : Z) calls :
  Z.of_nat (length calls) < n ->
  Forall (fun c : string * list string =>
            Z.of_nat (length (snd c)) < n) calls ->
  doc_count (raw_corpus calls) < n
  /\ (forall d l, raw_corpus calls !! d = Some l ->
                  Z.of_nat (length l) < n).
Proof.
  intros Hn Hc. unfold raw_corpus.
  assert (forall rd,
            Forall (fun c : string * list string =>
                      Z.of_nat (length (snd c)) < n) calls ->
            (forall d l, rd !! d = Some l -> Z.of_nat (length l) < n) ->
            doc_count (foldl record_raw rd calls)
            <= doc_count rd + Z.of_nat (length calls)
            /\ (forall d l, foldl record_raw rd calls !! d = Some l ->
                            Z.of_nat (length l) < n)) as Hgen.
  { clear Hn Hc. induction calls as [|[doc ws] calls IH]; intros rd Hc Hrd.
    { simpl. split; [lia | done]. }
    apply Forall_cons in Hc as [Hws Hc]. cbn [foldl fst snd] in *.
    destruct (IH (record_raw rd (doc, ws)) Hc) as [Hsize Hlen].
    - unfold record_raw. cbn [fst snd].
      destruct (rd !! doc) eqn:Hdoc; [done|].
      intros d l. destruct (decide (d = doc)) as [->|Hne].
      + rewrite lookup_insert_eq. by intros [= <-].
      + rewrite lookup_insert_ne by done. apply Hrd.
    - split; [|done].
      assert (doc_count (record_raw rd (doc, ws)) <= doc_count rd + 1).
      { unfold record_raw. cbn [fst snd].
        destruct (rd !! doc) eqn:Hdoc; [lia|].
        rewrite doc_count_insert by done. lia. }
      rewrite length_cons. lia. }
  destruct (Hgen ∅ Hc) as [Hsize Hlen].
  { intros d l. by rewrite lookup_empty. }
  split; [|done]. unfold doc_count in *. rewrite map_size_empty in Hsize. lia.
Qed.
End SearchV2.

(** The second SQLite index finds the documents that the in-memory
    backend finds: after the same calls, whatever they are,
    [SearchTFIDF] returns hits for the URLs for which [Search] returns
    hits, once each, and nil exactly when [Search] returns nil. *)
Theorem SQLiteIndexV2_finds_same_documents
    {strs : Strings} {snow : Snowball} {math : Math}
    (stop : option (gset string)) (calls : list (string * list string))
    (term : string) :
  let mem := InMemIndexer.run (InMemIndexer.New stop) calls in
  let v2 := SQLiteIndexV2.run (SQLiteIndexV2.New stop) calls in
  map URL (elems (SQLiteIndexV2.SearchTFIDF v2 term))
  ≡ₚ map URL (elems (fst (InMemIndexer.Search mem term)))
  /\ (SQLiteIndexV2.SearchTFIDF v2 term = None
      <-> fst (InMemIndexer.Search mem term) = None).
Proof.
  intros mem v2.
  pose proof (reachable_represents stop calls) as Hm. fold mem in Hm.
  destruct (V2_reachable_represents stop calls) as (Hs & HN & Hst).
  fold v2 in Hs, HN, Hst.
  rewrite (corpus_of_raw _ calls) in Hm. rewrite <- Hst in Hm, Hs.
  apply (V2_Search_URLs mem v2 (raw_corpus calls)); try done.
  unfold mem. by rewrite run_stop, Hst.
Qed.

(** When every word of every call survives the filters, the second
    SQLite index answers as the in-memory backend does: [SearchTFIDF]
    returns the same hits with the same scores, and, when the counts are
    in the range of a Go [int] and the logarithm is finite on positive
    finite numbers, the same slice in the same order. *)
Theorem SQLiteIndexV2_agrees_when_nothing_dropped
    {strs : Strings} {snow : Snowball} {math : Math}
    (stop : option (gset string)) (calls : list (string * list string))
    (term : string) :
  keeps_all (default DefaultStopwords stop) calls ->
  let mem := InMemIndexer.run (InMemIndexer.New stop) calls in
  let v2 := SQLiteIndexV2.run (SQLiteIndexV2.New stop) calls in
  elems (SQLiteIndexV2.SearchTFIDF v2 term)
  ≡ₚ elems (fst (InMemIndexer.Search mem term))
  /\ (Z.of_nat (length calls) < 2 ^ 63 ->
      Forall (fun c : string * list string =>
                Z.of_nat (length (snd c)) < 2 ^ 63) calls ->
      (forall x, pos_finite x = true -> finite (Log x) = true) ->
      SQLiteIndexV2.SearchTFIDF v2 term = fst (InMemIndexer.Search mem term)).
Proof.
  intros Hkeep mem v2.
  pose proof (reachable_represents stop calls) as Hm. fold mem in Hm.
  destruct (V2_reachable_represents stop calls) as (Hs & HN & Hst).
  fold v2 in Hs, HN, Hst.
  rewrite (corpus_of_raw _ calls) in Hm. rewrite <- Hst in Hm, Hs.
  pose proof (raw_corpus_keeps _ calls Hkeep) as Hrd. rewrite <- Hst in Hrd.
  assert (InMemIndexer.stop mem = SQLiteIndexV2.stop v2) as Hstop.
  { unfold mem. by rewrite run_stop, Hst. }
  destruct (V2_Search_hits mem v2 (raw_corpus calls) term Hm Hs HN Hstop Hrd)
    as [Hperm Heq].
  split; [done|]. intros Hcalls Hwords HLog.
  destruct (raw_corpus_bounds (2 ^ 63) calls Hcalls Hwords) as [HNb Hlen].
  by apply Heq.
Qed.

Lemma SQLiteIndexV2_agrees_when_nothing_dropped_witness :
  @SQLiteIndexV2.SearchTFIDF AsciiLib.strings AsciiLib.snowball TestMath.math
    (@SQLiteIndexV2.run AsciiLib.strings AsciiLib.snowball
       (SQLiteIndexV2.New None) again_calls) "ship"
  = fst (@InMemIndexer.Search AsciiLib.strings AsciiLib.snowball TestMath.math
           (@InMemIndexer.run AsciiLib.strings AsciiLib.snowball
              (InMemIndexer.New None) again_calls) "ship").
Proof.
  destruct (@SQLiteIndexV2_agrees_when_nothing_dropped AsciiLib.strings
              AsciiLib.snowball TestMath.math None again_calls "ship")
    as [_ Heq].
  - repeat (apply Forall_cons_2 || apply Forall_nil_2); vm_compute; reflexivity.
  - apply Heq.
    + vm_compute. reflexivity.
    + repeat apply Forall_cons_2; try apply Forall_nil_2; vm_compute; reflexivity.
    + intros x _. simpl. unfold TestMath.step_log.
      destruct (F64.gt x F64.one); reflexivity.
Defined.

(** After any calls the second SQLite index counts the distinct URLs:
    [N], which [GetN] returns, is their number and the [N] of the
    in-memory backend; and [Add] for a URL that an earlier call added
    leaves the index as it is, whatever the words. *)
Theorem SQLiteIndexV2_counts_distinct_URLs
    {strs : Strings} {snow : Snowball}
    (stop : option (gset string)) (calls : list (string * list string)) :
  let mem := InMemIndexer.run (InMemIndexer.New stop) calls in
  let v2 := SQLiteIndexV2.run (SQLiteIndexV2.New stop) calls in
  SQLiteIndexV2.GetN v2
  = Z.of_nat (size (list_to_set (map fst calls) : gset string))
  /\ SQLiteIndexV2.GetN v2 = InMemIndexer.N mem
  /\ forall doc ws,
       doc ∈ map fst calls -> SQLiteIndexV2.Add v2 doc ws = v2.
Proof.
  intros mem v2.
  pose proof (reachable_represents stop calls) as Hm. fold mem in Hm.
  destruct (V2_reachable_represents stop calls) as (Hs & HN & Hst).
  fold v2 in Hs, HN, Hst. unfold SQLiteIndexV2.GetN.
  rewrite (raw_corpus_count (default DefaultStopwords stop)) in HN.
  split; [|split].
  - rewrite HN. unfold doc_count.
    by rewrite <- (corpus_names (default DefaultStopwords stop) calls), size_dom.
  - by rewrite HN, (rep_N _ _ Hm).
  - intros doc ws Hin.
    assert (is_Some (raw_corpus calls !! doc)) as Hknown.
    { apply (corpus_dom (default DefaultStopwords stop)) in Hin.
      rewrite (corpus_of_raw _ calls), lookup_fmap in Hin.
      by apply fmap_is_Some in Hin. }
    apply (v2_represents_known _ _ _ doc Hs) in Hknown as [i Hi].
    unfold SQLiteIndexV2.Add. by rewrite Hi.
Qed.

Lemma SQLiteIndexV2_counts_distinct_URLs_witness :
  @SQLiteIndexV2.Add AsciiLib.strings AsciiLib.snowball
    (@SQLiteIndexV2.run AsciiLib.strings AsciiLib.snowball
       (SQLiteIndexV2.New None) again_calls) "doc1" ["oil"]
  = @SQLiteIndexV2.run AsciiLib.strings AsciiLib.snowball
      (SQLiteIndexV2.New None) again_calls.
Proof.
  destruct (@SQLiteIndexV2_counts_distinct_URLs AsciiLib.strings
              AsciiLib.snowball None again_calls) as (_ & _ & Hadd).
  apply Hadd. left.
Defined.

(* ===================================================================== *)
(** * Crawling, building the index and searching *)
(* ===================================================================== *)

Section Pipeline.
Context {strs : Strings} {snow : Snowball} {math : Math}.
Context {net : NetHTTP} {html : HTML} {re : Regexp}.

Lemma BuildIndex_run_sqlite urls : forall idx : SQLiteIndexer.t,
  fst (BuildIndexFromURLList urls idx)
  = SQLiteIndexer.run idx (page_calls urls).
Proof.
  unfold BuildIndexFromURLList, SQLiteIndexer.run, page_calls. simpl.
  induction urls as [|u urls IH]; intros idx; [done|].
  cbn [foldl omap list_omap]. rewrite IH. unfold index_url, page_words at 2.
  destruct (Download u) as [b [err|]]; reflexivity.
Qed.

Lemma page_calls_cons u urls :
  page_calls (u :: urls)
  = match page_words u with
    | Some ws => (u, ws) :: page_calls urls
    | None => page_calls urls
    end.
Proof.
  unfold page_calls. cbn [omap list_omap]. by destruct (page_words u).
Qed.

Lemma page_calls_urls urls u :
  u ∈ map fst (page_calls urls) -> u ∈ urls.
Proof.
  induction urls as [|v urls IH]; [done|]. rewrite page_calls_cons.
  destruct (page_words v) as [ws|].
  - cbn [map fst]. intros [->|Hin]%elem_of_cons; [by left|].
    right. by apply IH.
  - intros Hin. right. by apply IH.
Qed.

Lemma page_calls_NoDup urls :
  NoDup urls -> NoDup (map fst (page_calls urls)).
Proof.
  induction urls as [|v urls IH]; intros Hnd; [apply NoDup_nil_2|].
  apply NoDup_cons in Hnd as [Hv Hnd]. rewrite page_calls_cons.
  destruct (page_words v) as [ws|]; [|by apply IH].
  cbn [map fst]. apply NoDup_cons. split; [|by apply IH].
  intros Hin. by apply Hv, page_calls_urls.
Qed.

Lemma page_calls_length urls :
  (length (page_calls urls) <= length urls)%nat.
Proof.
  induction urls as [|v urls IH]; [done|]. rewrite page_calls_cons.
  destruct (page_words v); simpl; lia.
Qed.

Lemma Crawl_distinct {url : NetURL} start max :
  NoDup (elems (fst (Crawl start max)))
  /\ Z.of_nat (length (elems (fst (Crawl start max)))) <= Z.max 0 max.
Proof.
  unfold Crawl. destruct (Z.leb_spec max 0) as [Hmax|Hmax].
  { simpl. split; [apply NoDup_nil_2 | lia]. }
  destruct (url_Parse start) as [startURL|err]; simpl;
    [|split; [apply NoDup_nil_2 | lia]].
  destruct (crawl_loop_distinct (hostBase_of startURL) (Z.to_nat max)
              [start] ∅ []) as [Hnd Hlen];
    [apply NoDup_nil_2 | set_solver |].
  split; [done|]. simpl in Hlen. lia.
Qed.

Lemma Node_induction (P : Node -> Prop) :
  (forall ty data attrs cs,
     Forall P cs -> P (mkNode ty data attrs cs)) ->
  forall n, P n.
Proof.
  intros HP. fix IH 1. intros [ty data attrs cs]. apply HP.
  induction cs as [|c cs IHcs]; constructor; [apply IH | apply IHcs].
Qed.

(** The words that [Extract] returns are lower-cased. *)
Lemma visible_words_lower n w :
  w ∈ visible_words n -> exists x, w = ToLower x.
Proof.
  revert w. induction n as [ty data attrs cs Hcs] using Node_induction.
  intros w. set (n := mkNode ty data attrs cs).
  rewrite (visible_words_unfold n).
  change (Type_ n) with ty. change (Data n) with data.
  change (children n) with cs.
  destruct (is_script_or_style n); [intros Hin; inversion Hin|].
  intros [Hin|Hin]%elem_of_app.
  - destruct (is_TextNode ty); [|inversion Hin].
    unfold tokens in Hin.
    apply list_elem_of_In, in_map_iff in Hin as (x & <- & _). eauto.
  - apply list_elem_of_In, in_flat_map in Hin as (c & Hc & Hin).
    rewrite Forall_forall in Hcs. apply list_elem_of_In in Hc, Hin.
    by apply (Hcs c Hc).
Qed.

Lemma Extract_words_lower body w :
  w ∈ elems (fst (Extract body)) -> exists x, w = ToLower x.
Proof.
  unfold Extract. destruct (html_Parse body) as [root|err];
    [|intros Hin; inversion Hin].
  simpl. rewrite elems_appended.
  destruct (walk_words root (mkWalk [] [] 0)) as [_ Hw]; [simpl; lia|].
  rewrite Hw. simpl. apply visible_words_lower.
Qed.

Lemma page_calls_fold_case urls :
  (forall w, ToLower (ToLower w) = ToLower w) ->
  stems_fold_case (page_calls urls).
Proof.
  intros Hidem. unfold stems_fold_case.
  induction urls as [|u urls IH]; [apply Forall_nil_2|].
  rewrite page_calls_cons.
  destruct (page_words u) as [ws|] eqn:Hu; [|done].
  apply Forall_cons_2; [|done]. cbn [snd].
  unfold page_words in Hu. destruct (Download u) as [b [err|]]; [done|].
  injection Hu as <-. apply Forall_forall. intros w Hw.
  apply Extract_words_lower in Hw as [x ->].
  by rewrite Hidem.
Qed.

Lemma Build02_run_mem urls : forall idx : InMemIndex.t,
  fst (Project02.BuildIndexFromURLList urls idx)
  = InMemIndex.run idx (page_calls urls).
Proof.
  unfold Project02.BuildIndexFromURLList, InMemIndex.run, page_calls. simpl.
  induction urls as [|u urls IH]; intros idx; [done|].
  cbn [foldl omap list_omap]. rewrite IH.
  unfold Project02.index_url, page_words at 2.
  destruct (Download u) as [b [err|]]; reflexivity.
Qed.

Lemma Build02_run_sqlite urls : forall idx : SQLiteIndex.t,
  fst (Project02.BuildIndexFromURLList urls idx)
  = SQLiteIndex.run idx (page_calls urls).
Proof.
  unfold Project02.BuildIndexFromURLList, SQLiteIndex.run, page_calls. simpl.
  induction urls as [|u urls IH]; intros idx; [done|].
  cbn [foldl omap list_omap]. rewrite IH.
  unfold Project02.index_url, page_words at 2.
  destruct (Download u) as [b [err|]]; reflexivity.
Qed.

Lemma Build02_run_v2 urls : forall idx : SQLiteIndexV2.t,
  fst (Project02.BuildIndexFromURLList urls idx)
  = SQLiteIndexV2.run idx (page_calls urls).
Proof.
  unfold Project02.BuildIndexFromURLList, SQLiteIndexV2.run, page_calls.
  simpl.
  induction urls as [|u urls IH]; intros idx; [done|].
  cbn [foldl omap list_omap]. rewrite IH.
  unfold Project02.index_url, page_words at 2.
  destruct (Download u) as [b [err|]]; reflexivity.
Qed.
End Pipeline.

Lemma to_lower_idempotent w :
  AsciiLib.to_lower (AsciiLib.to_lower w) = AsciiLib.to_lower w.
Proof.
  induction w as [|c w IH]; [done|]. cbn [AsciiLib.to_lower]. rewrite IH.
  f_equal. by destruct c as [[] [] [] [] [] [] [] []].
Qed.

(** Indexing the URLs that [Crawl] returns into an empty database gives
    the answers of the in-memory backend: [Crawl] returns no URL twice,
    so that, with a new SQLite indexer on a new database and a new
    in-memory indexer, no [AddDocument] of [BuildIndexFromURLList] is for
    a URL added before; [Search] of the SQLite backend then returns no
    error and the hits of the in-memory backend with their scores, and,
    when [max] and the word counts are in the range of a Go [int] and the
    logarithm is finite on positive finite numbers, the same result in
    the same order.  A database that an earlier run has filled is not an
    empty one: there a crawled URL can be one added before, and the
    statement does not apply. *)
Theorem Crawl_index_backends_agree
    {strs : Strings} {snow : Snowball} {math : Math}
    {url : NetURL} {net : NetHTTP} {html : HTML} {re : Regexp}
    (stop : option (gset string)) (start : string) (max : Z) (term : string) :
  let urls := elems (fst (Crawl start max)) in
  let mem := fst (BuildIndexFromURLList urls (InMemIndexer.New stop)) in
  let sql := fst (BuildIndexFromURLList urls (SQLiteIndexer.New stop)) in
  snd (SQLiteIndexer.Search sql term) = None
  /\ elems (fst (SQLiteIndexer.Search sql term))
     ≡ₚ elems (fst (InMemIndexer.Search mem term))
  /\ (max < 2 ^ 63 ->
      Forall (fun c : string * list string =>
                Z.of_nat (length (snd c)) < 2 ^ 63) (page_calls urls) ->
      (forall x, pos_finite x = true -> finite (Log x) = true) ->
      SQLiteIndexer.Search sql term = InMemIndexer.Search mem term).
Proof.
  intros urls mem sql.
  destruct (Crawl_distinct start max) as [Hnd Hlen]. fold urls in Hnd, Hlen.
  unfold mem, sql. rewrite BuildIndex_run, BuildIndex_run_sqlite.
  set (calls := page_calls urls).
  pose proof (reachable_represents stop calls) as Hm.
  pose proof (SQLite_distinct_represents stop calls
                (page_calls_NoDup urls Hnd)) as Hs.
  set (docs := corpus (default DefaultStopwords stop) calls) in *.
  assert (InMemIndexer.stop (InMemIndexer.run (InMemIndexer.New stop) calls)
          = SQLiteIndexer.stop
              (SQLiteIndexer.run (SQLiteIndexer.New stop) calls)) as Hstop
    by (by rewrite run_stop, SQLite_run_stop).
  split; [apply SQLite_Search_error|].
  split; [by apply (Search_agree_perm _ _ docs)|].
  intros Hmax Hwords HLog.
  destruct (corpus_bounds (default DefaultStopwords stop) (2 ^ 63) calls)
    as [HN Hl]; [|done|].
  { pose proof (page_calls_length urls). unfold calls.
    assert (0 < 2 ^ 63) by lia. lia. }
  by apply (Search_agree_eq _ _ docs).
Qed.

Lemma Crawl_index_backends_agree_witness :
  let urls :=
    elems (fst (@Crawl AsciiLib.strings MiniURL.url TestSite.http TestSite.html
                       TestPage.regexp TestSite.root 10)) in
  @SQLiteIndexer.Search AsciiLib.strings AsciiLib.snowball TestMath.math
    (fst (@BuildIndexFromURLList AsciiLib.strings TestSite.http TestSite.html
            TestPage.regexp _
            (@SQLiteIndexer_Indexer AsciiLib.strings AsciiLib.snowball
               TestMath.math)
            urls (SQLiteIndexer.New None))) "link"
  = @InMemIndexer.Search AsciiLib.strings AsciiLib.snowball TestMath.math
      (fst (@BuildIndexFromURLList AsciiLib.strings TestSite.http TestSite.html
              TestPage.regexp _
              (@InMemIndexer_Indexer AsciiLib.strings AsciiLib.snowball
                 TestMath.math)
              urls (InMemIndexer.New None))) "link".
Proof.
  intros urls.
  destruct (@Crawl_index_backends_agree AsciiLib.strings AsciiLib.snowball
              TestMath.math MiniURL.url TestSite.http TestSite.html
              TestPage.regexp None TestSite.root 10 "link")
    as (_ & _ & Heq).
  apply Heq.
  - vm_compute. reflexivity.
  - apply Forall_forall. intros c Hc. vm_compute in Hc.
    apply (proj1 (list_elem_of_In _ _)) in Hc. simpl in Hc.
    repeat (destruct Hc as [<-|Hc]; [vm_compute; reflexivity|]).
    destruct Hc.
  - intros x _. simpl. unfold TestMath.step_log.
    destruct (F64.gt x F64.one); reflexivity.
Defined.

(** An index that [BuildIndexFromURLList] of project02 builds answers
    alike with the three backends, whatever the list of URLs, a URL
    listed twice included, when lower-casing is idempotent: the first
    SQLite index returns the hits of the in-memory index with their
    scores, the second SQLite index returns hits for the same URLs, the
    three count the same number of documents, and, when the counts are
    in the range of a Go [int] and the logarithm is finite on positive
    finite numbers, the first SQLite index returns the slice of the
    in-memory index. *)
Theorem Project02_backends_agree
    {strs : Strings} {snow : Snowball} {math : Math}
    {net : NetHTTP} {html : HTML} {re : Regexp}
    (stop : option (gset string)) (urls : list string) (term : string) :
  (forall w, ToLower (ToLower w) = ToLower w) ->
  let mem := fst (Project02.BuildIndexFromURLList urls (InMemIndex.New stop)) in
  let sql := fst (Project02.BuildIndexFromURLList urls (SQLiteIndex.New stop)) in
  let v2 :=
    fst (Project02.BuildIndexFromURLList urls (SQLiteIndexV2.New stop)) in
  elems (SQLiteIndex.SearchTFIDF sql term)
  ≡ₚ elems (InMemIndex.SearchTFIDF mem term)
  /\ map URL (elems (SQLiteIndexV2.SearchTFIDF v2 term))
     ≡ₚ map URL (elems (InMemIndex.SearchTFIDF mem term))
  /\ snd (SQLiteIndex.GetN sql) = InMemIndex.GetN mem
  /\ SQLiteIndexV2.GetN v2 = InMemIndex.GetN mem
  /\ (Z.of_nat (length urls) < 2 ^ 63 ->
      Forall (fun c : string * list string =>
                Z.of_nat (length (snd c)) < 2 ^ 63) (page_calls urls) ->
      (forall x, pos_finite x = true -> finite (Log x) = true) ->
      SQLiteIndex.SearchTFIDF sql term = InMemIndex.SearchTFIDF mem term).
Proof.
  intros Hidem mem sql v2. unfold mem, sql, v2.
  rewrite Build02_run_mem, Build02_run_sqlite, Build02_run_v2.
  set (calls := page_calls urls).
  pose proof (page_calls_fold_case urls Hidem) as Hfold. fold calls in Hfold.
  set (ref := InMemIndexer.run (InMemIndexer.New stop) calls).
  assert (same_index (InMemIndex.run (InMemIndex.New stop) calls) ref) as Hsame.
  { apply InMemIndex_run_same; [|done]. by repeat split. }
  rewrite !(InMemIndex_Search_same _ ref term Hsame).
  assert (InMemIndex.GetN (InMemIndex.run (InMemIndex.New stop) calls)
          = InMemIndexer.N ref) as -> by apply Hsame.
  pose proof (reachable_represents stop calls) as Hm. fold ref in Hm.
  destruct (Index_reachable_represents stop calls) as (Hs & HN & Hst).
  destruct (V2_reachable_represents stop calls) as (Hs2 & HN2 & Hst2).
  set (docs := corpus (default DefaultStopwords stop) calls) in *.
  assert (InMemIndexer.stop ref
          = SQLiteIndex.stop (SQLiteIndex.run (SQLiteIndex.New stop) calls))
    as Hstop by (unfold ref; by rewrite run_stop, Hst).
  split; [by apply (Index_Search_perm _ _ docs)|].
  split.
  { pose proof Hm as Hm2. unfold docs in Hm2.
    rewrite (corpus_of_raw _ calls) in Hm2. rewrite <- Hst2 in Hm2, Hs2.
    apply (V2_Search_URLs ref _ (raw_corpus calls)); try done.
    unfold ref. by rewrite run_stop, Hst2. }
  split.
  { unfold SQLiteIndex.GetN. cbn [snd].
    by rewrite (index_represents_length _ _ Hs), (rep_N _ _ Hm). }
  split.
  { unfold SQLiteIndexV2.GetN.
    by rewrite HN2, (raw_corpus_count (default DefaultStopwords stop)),
         (rep_N _ _ Hm). }
  intros Hurls Hwords HLog.
  destruct (corpus_bounds (default DefaultStopwords stop) (2 ^ 63) calls)
    as [HNb Hl]; [|done|].
  { pose proof (page_calls_length urls). unfold calls. lia. }
  by apply (Index_Search_eq _ _ docs).
Qed.

Lemma Project02_backends_agree_witness :
  @SQLiteIndex.SearchTFIDF AsciiLib.strings AsciiLib.snowball TestMath.math
    (fst (@Project02.BuildIndexFromURLList AsciiLib.strings TestSite.http
            TestSite.html TestPage.regexp _
            (@Project02.SQLiteIndex_Indexer AsciiLib.strings AsciiLib.snowball
               TestMath.math)
            site_urls (SQLiteIndex.New None))) "link"
  = @InMemIndex.SearchTFIDF AsciiLib.strings AsciiLib.snowball TestMath.math
      (fst (@Project02.BuildIndexFromURLList AsciiLib.strings TestSite.http
              TestSite.html TestPage.regexp _
              (@Project02.InMemIndex_Indexer AsciiLib.strings
                 AsciiLib.snowball TestMath.math)
              site_urls (InMemIndex.New None))) "link".
Proof.
  destruct (@Project02_backends_agree AsciiLib.strings AsciiLib.snowball
              TestMath.math TestSite.http TestSite.html TestPage.regexp
              None site_urls "link" to_lower_idempotent)
    as (_ & _ & _ & _ & Heq).
  apply Heq.
  - vm_compute. reflexivity.
  - apply Forall_forall. intros c Hc. vm_compute in Hc.
    apply (proj1 (list_elem_of_In _ _)) in Hc. simpl in Hc.
    repeat (destruct Hc as [<-|Hc]; [vm_compute; reflexivity|]).
    destruct Hc.
  - intros x _. simpl. unfold TestMath.step_log.
    destruct (F64.gt x F64.one); reflexivity.
Defined.

(* ===================================================================== *)
(** * Opening the database of an earlier session *)
(* ===================================================================== *)

Section Reopen.
Context {strs : Strings} {snow : Snowball}.

Lemma v2_represents_length stop d (rd : gmap string (list string)) :
  v2_represents stop d rd ->
  Z.of_nat (length (SQLiteIndexV2.documents d)) = doc_count rd.
Proof.
  intros Hrep. unfold doc_count. f_equal.
  rewrite <- (length_map (fun r : Z * (string * Z) => fst (snd r))).
  apply length_of_dom; [apply (v2_docs _ _ _ Hrep)|].
  intros x. split; [|apply (v2_names _ _ _ Hrep)].
  intros [i [n Hin]]%elem_of_key2_inv.
  destruct (v2_lens _ _ _ Hrep _ _ _ Hin) as (l & Hl & _). eauto.
Qed.

Lemma SQLiteIndex_run_app idx calls more :
  SQLiteIndex.run idx (calls ++ more)
  = SQLiteIndex.run (SQLiteIndex.run idx calls) more.
Proof. unfold SQLiteIndex.run. by rewrite foldl_app. Qed.

Lemma SQLiteIndexV2_run_app idx calls more :
  SQLiteIndexV2.run idx (calls ++ more)
  = SQLiteIndexV2.run (SQLiteIndexV2.run idx calls) more.
Proof. unfold SQLiteIndexV2.run. by rewrite foldl_app. Qed.
End Reopen.

(** The first SQLite index persists: [NewSQLiteIndex] on the database
    that a session of any [Add] calls left, with the same stopwords,
    gives the index as that session left it, [N] included, so that
    further calls continue as if the session had gone on. *)
Theorem SQLiteIndex_reopen
    {strs : Strings} {snow : Snowball}
    (stop : option (gset string)) (calls more : list (string * list string)) :
  let idx := SQLiteIndex.run (SQLiteIndex.New stop) calls in
  SQLiteIndex.Reopen (SQLiteIndex.db idx) stop = idx
  /\ SQLiteIndex.run (SQLiteIndex.Reopen (SQLiteIndex.db idx) stop) more
     = SQLiteIndex.run (SQLiteIndex.New stop) (calls ++ more).
Proof.
  intros idx.
  destruct (Index_reachable_represents stop calls) as (Hs & HN & Hst).
  fold idx in Hs, HN, Hst.
  assert (SQLiteIndex.Reopen (SQLiteIndex.db idx) stop = idx) as Heq.
  { unfold SQLiteIndex.Reopen.
    rewrite (index_represents_length _ _ Hs), <- HN, <- Hst. by destruct idx. }
  split; [done|]. by rewrite Heq, SQLiteIndex_run_app.
Qed.

(** The second SQLite index persists: [NewSQLiteIndexV2] on the database
    that a session of any [Add] calls left, with the same stopwords,
    gives the index as that session left it, [N] included, so that
    further calls continue as if the session had gone on. *)
Theorem SQLiteIndexV2_reopen
    {strs : Strings} {snow : Snowball}
    (stop : option (gset string)) (calls more : list (string * list string)) :
  let idx := SQLiteIndexV2.run (SQLiteIndexV2.New stop) calls in
  SQLiteIndexV2_Reopen (SQLiteIndexV2.db idx) stop = idx
  /\ SQLiteIndexV2.run (SQLiteIndexV2_Reopen (SQLiteIndexV2.db idx) stop) more
     = SQLiteIndexV2.run (SQLiteIndexV2.New stop) (calls ++ more).
Proof.
  intros idx.
  destruct (V2_reachable_represents stop calls) as (Hs & HN & Hst).
  fold idx in Hs, HN, Hst.
  assert (SQLiteIndexV2_Reopen (SQLiteIndexV2.db idx) stop = idx) as Heq.
  { unfold SQLiteIndexV2_Reopen.
    rewrite (v2_represents_length _ _ _ Hs), <- HN, <- Hst. by destruct idx. }
  split; [done|]. by rewrite Heq, SQLiteIndexV2_run_app.
Qed.
